(** * Asynchronous agreement protocol stack: a shallow embedding

    The development follows the Go sources of the repository:
      - [services/acast.go]      Bracha reliable broadcast (module [ACast])
      - [services/aba.go]        ABA main loop, COMPLETE gadget (module [ABA])
      - [services/vote.go]       three-phase Vote (module [Vote])
      - [services/icc.go]        common coin (module [ICC])
      - [services/ivss.go]       IVSS sharing and reconstruction (module [IVSS])
      - [services/certification.go] faulty-pair registry (module [Cert])
      - [services/network.go]    broadcast bus (module [Net])
      - [utils/polynomial.go]    prime-field polynomials (module [Poly])

    Handlers are state-passing functions: a handler takes the service state
    and a message and returns the new state, the messages passed to
    [ctx.Broadcast] (in call order) and the results passed to
    [ctx.SendResult] (in call order). *)

From Stdlib Require Import ZArith Znumtheory Zpow_facts Lia.
From Stdlib Require ZmodInv.
From stdpp Require Import gmap strings list fin_maps pretty sorting.

(** ** Go's [int]: 64-bit two's complement *)

Module GoInt.
Local Open Scope Z_scope.

Definition wrap (z : Z) : Z := (z + 2 ^ 63) mod 2 ^ 64 - 2 ^ 63.

Definition add (a b : Z) : Z := wrap (a + b).
Definition sub (a b : Z) : Z := wrap (a - b).
Definition mul (a b : Z) : Z := wrap (a * b).

(** [len] of a map or slice. *)
Definition len (k : nat) : Z := Z.of_nat k.

Definition in_range (z : Z) : Prop := - 2 ^ 63 <= z < 2 ^ 63.
End GoInt.

(** ** Loops with a panicking body

    A function that can panic returns an [option] ([None] is the panic);
    [foldlM] is a [for] loop over a slice whose body may panic. *)

Fixpoint foldlM {A B : Type} (f : A -> B -> option A) (a : A) (l : list B)
    : option A :=
  match l with
  | [] => Some a
  | x :: l' => a' ← f a x; foldlM f a' l'
  end.

(** ** services/acast.go *)

Module ACast.
Local Open Scope Z_scope.

(** [MessageType] is an [int]; the named constants are 0, 1, 2 and any
    other value falls through the [switch] of [OnMessage]. *)
Definition MessageType := Z.
Definition MSG : MessageType := 0.
Definition ECHO : MessageType := 1.
Definition READY : MessageType := 2.

Record ACastMessage (T : Type) := mkMsg {
  Type_ : MessageType;
  UUID : string;
  Val : T;
  From : Z
}.
Arguments mkMsg {T}.
Arguments Type_ {T}.
Arguments UUID {T}.
Arguments Val {T}.
Arguments From {T}.

Section Service.
(** [T comparable] *)
Context {T : Type} `{Countable T}.

(** [map[T]map[int]bool]: the inner maps only ever store [true], so
    they are sets of voters.  After delivery the Go code sets both maps
    to [nil]; they are never touched again (the early return on
    [delivered]) and are modelled by the empty map. *)
Record ACastInstance := mkInst {
  receivedEcho : gmap T (gset Z);
  receivedReady : gmap T (gset Z);
  sentEcho : bool;
  sentReady : bool;
  delivered : bool
}.

Definition NewACastInstance : ACastInstance :=
  {| receivedEcho := ∅; receivedReady := ∅;
     sentEcho := false; sentReady := false; delivered := false |}.

Record AcastService := mkSvc {
  id : Z;
  n : Z;
  t : Z;
  instances : gmap string ACastInstance
}.

Definition NewAcastService (id n t : Z) : AcastService :=
  {| id := id; n := n; t := t; instances := ∅ |}.

Definition set_instances (a : AcastService)
    (m : gmap string ACastInstance) : AcastService :=
  {| id := id a; n := n a; t := t a; instances := m |}.

(** [getInstance]: creates the instance on first touch. *)
Definition getInstance (a : AcastService) (uuid : string)
    : AcastService * ACastInstance :=
  match instances a !! uuid with
  | Some inst => (a, inst)
  | None =>
      (set_instances a (<[uuid := NewACastInstance]> (instances a)),
       NewACastInstance)
  end.

(** The [addToSet] closure of [OnMessage]. *)
Definition addToSet (m : gmap T (gset Z)) (val : T) (from : Z)
    : gmap T (gset Z) * Z :=
  let s := {[from]} ∪ default ∅ (m !! val) in
  (<[val := s]> m, GoInt.len (size s)).

(** One run of the handler on the instance record: new instance,
    broadcasts, results. *)
Definition onInstance (a : AcastService) (inst : ACastInstance)
    (msg : ACastMessage T)
    : ACastInstance * list (ACastMessage T) * list T :=
  if delivered inst then (inst, [], [])
  else
    match Type_ msg with
    | 0 =>
        if sentEcho inst then (inst, [], [])
        else
          ({| receivedEcho := receivedEcho inst;
              receivedReady := receivedReady inst;
              sentEcho := true;
              sentReady := sentReady inst;
              delivered := delivered inst |},
           [mkMsg ECHO (UUID msg) (Val msg) (id a)], [])
    | 1 =>
        let '(re, count) :=
          addToSet (receivedEcho inst) (Val msg) (From msg) in
        let threshold := GoInt.sub (n a) (t a) in
        if bool_decide (count >= threshold) && negb (sentReady inst) then
          ({| receivedEcho := re;
              receivedReady := receivedReady inst;
              sentEcho := sentEcho inst;
              sentReady := true;
              delivered := delivered inst |},
           [mkMsg READY (UUID msg) (Val msg) (id a)], [])
        else
          ({| receivedEcho := re;
              receivedReady := receivedReady inst;
              sentEcho := sentEcho inst;
              sentReady := sentReady inst;
              delivered := delivered inst |}, [], [])
    | 2 =>
        let '(rr, count) :=
          addToSet (receivedReady inst) (Val msg) (From msg) in
        (* early trigger *)
        let early :=
          bool_decide (count >= GoInt.add (t a) 1)
          && negb (sentReady inst) in
        let sr := if early then true else sentReady inst in
        let bc :=
          if early then [mkMsg READY (UUID msg) (Val msg) (id a)]
          else [] in
        (* delivery condition *)
        if bool_decide (count >= GoInt.add (GoInt.mul 2 (t a)) 1)
           && negb (delivered inst) then
          ({| receivedEcho := ∅;
              receivedReady := ∅;
              sentEcho := sentEcho inst;
              sentReady := sr;
              delivered := true |}, bc, [Val msg])
        else
          ({| receivedEcho := receivedEcho inst;
              receivedReady := rr;
              sentEcho := sentEcho inst;
              sentReady := sr;
              delivered := delivered inst |}, bc, [])
    | _ => (inst, [], [])
    end.

(** [AcastService.OnMessage] *)
Definition OnMessage (a : AcastService) (msg : ACastMessage T)
    : AcastService * list (ACastMessage T) * list T :=
  let '(a1, inst) := getInstance a (UUID msg) in
  let '(inst', bc, res) := onInstance a1 inst msg in
  (set_instances a1 (<[UUID msg := inst']> (instances a1)), bc, res).

(** The service task of a node handles the inbox one message at a
    time; [run] records, for each handled message, its uuid and the
    results it caused. *)
Fixpoint run (a : AcastService) (msgs : list (ACastMessage T))
    : AcastService * list (string * list T) :=
  match msgs with
  | [] => (a, [])
  | msg :: rest =>
      let '(a', _, res) := OnMessage a msg in
      let '(a'', tr) := run a' rest in
      (a'', (UUID msg, res) :: tr)
  end.

(** All [Deliver] results emitted for [uuid] in a trace. *)
Fixpoint deliveries (uuid : string) (tr : list (string * list T))
    : list T :=
  match tr with
  | [] => []
  | (u, res) :: rest =>
      if decide (u = uuid) then res ++ deliveries uuid rest
      else deliveries uuid rest
  end.

Definition is_delivered (a : AcastService) (uuid : string) : bool :=
  match instances a !! uuid with
  | Some inst => delivered inst
  | None => false
  end.
End Service.

Arguments ACastInstance T {_ _}.
Arguments AcastService T {_ _}.
End ACast.

(** ** services/certification.go *)

Module Cert.
Local Open Scope Z_scope.

(** [fp] is a [map[[2]int]bool] whose entries are only ever set to [true]:
    a set of pairs. *)
Record CertificationProtocol := mkCP {
  fp : gset (Z * Z);
  coreInvocations : list string
}.

Definition NewCertificationProtocol : CertificationProtocol :=
  {| fp := ∅; coreInvocations := [] |}.

(** The swap [if i > j { i, j = j, i }] shared by both pair operations. *)
Definition ordered (i j : Z) : Z * Z :=
  if bool_decide (i > j) then (j, i) else (i, j).

Definition AddFaultyPair (cp : CertificationProtocol) (i j : Z)
    : CertificationProtocol :=
  {| fp := {[ordered i j]} ∪ fp cp; coreInvocations := coreInvocations cp |}.

Definition IsFaultyPair (cp : CertificationProtocol) (i j : Z) : bool :=
  bool_decide (ordered i j ∈ fp cp).

Definition AddCoreInvocation (cp : CertificationProtocol) (instanceID : string)
    : CertificationProtocol :=
  {| fp := fp cp; coreInvocations := coreInvocations cp ++ [instanceID] |}.

Definition GetCoreInvocations (cp : CertificationProtocol) : list string :=
  coreInvocations cp.
End Cert.

(** ** utils/polynomial.go

    [*big.Int] values are integers of [Z].  A handler that dereferences a
    [nil] pointer or indexes a slice out of range panics; functions that
    can panic return an [option], [None] standing for the panic. *)

Module Poly.
Local Open Scope Z_scope.

(** The value the package assigns to [Prime]. *)
Definition secp256k1 : Z :=
  0xFFFFFFFFFFFFFFFFFFFFFFFFFFFFFFFFFFFFFFFFFFFFFFFFFFFFFFFEFFFFFC2F.

Record Polynomial := mkPoly { Coeffs : list Z }.

Record SymmetricPolynomial := mkSym {
  SymCoeffs : list (list Z);
  Degree : Z
}.

(** [big.Int.Mod]: Euclidean modulus, the result is in [[0, |m|)].  It
    panics on a zero modulus; the package calls it with [Prime] only,
    which is assigned once and is not zero, and ICC guards its own
    modulus ([ICC.mod_u]), so that [Mod] stands for the calls with a
    non-zero [m]. *)
Definition Mod (x m : Z) : Z := x mod Z.abs m.

(** [big.Int.ModInverse g n]: the inverse of [g] in the ring of integers
    modulo [|n|], in [[0, |n|)]; [nil] when [g] and [n] are not relatively
    prime. *)
Definition ModInverse (g n : Z) : option Z :=
  if Z.gcd g n =? 1 then Some (Z.invmod g (Z.abs n)) else None.

Section Field.
(** The package-level modulus [Prime]. *)
Variable Prime : Z.

(** One step of the Horner loop. *)
Definition horner_step (x : Z) (result c : Z) : Z :=
  Mod (result * x + c) Prime.

(** [Evaluate]: the loop runs over the coefficients from the last index
    down to index 0. *)
Definition Evaluate (p : Polynomial) (x : Z) : Z :=
  fold_left (horner_step x) (rev (Coeffs p)) 0.

(** [NewRandomSymmetricPolynomial]: [rnd i j] is the value that
    [rand.Int(rand.Reader, Prime)] returns in iteration [(i, j)], [j <= i];
    the error path of [rand.Int] is not modelled.  A negative [degree]
    panics ([make] with a negative length, or [coeffs[0][0]] on an empty
    slice). *)
Definition NewRandomSymmetricPolynomial (degree : Z) (secret : Z)
    (rnd : Z -> Z -> Z) : option SymmetricPolynomial :=
  if bool_decide (degree < 0) then None
  else
    Some
      {| SymCoeffs :=
           (fun i => (fun j =>
              if bool_decide (i = 0 /\ j = 0) then secret
              else rnd (Z.max i j) (Z.min i j)) <$> seqZ 0 (degree + 1))
           <$> seqZ 0 (degree + 1);
         Degree := degree |}.

(** [GetUnivariatePolynomial]: the coefficient of [y^j] is accumulated over
    [i = 0..Degree]; [sp.Coeffs[i][j]] panics when out of range. *)
Definition coeffJ (sp : SymmetricPolynomial) (k : Z) (j : Z) : option Z :=
  foldlM (fun acc i =>
      row ← SymCoeffs sp !! Z.to_nat i;
      c ← row !! Z.to_nat j;
      let kPowI := Mod (k ^ i) Prime in
      let term := Mod (c * kPowI) Prime in
      Some (Mod (acc + term) Prime))
    0 (seqZ 0 (Degree sp + 1)).

Definition GetUnivariatePolynomial (sp : SymmetricPolynomial) (k : Z)
    : option Polynomial :=
  (* [make] panics on a negative length *)
  if bool_decide (Degree sp + 1 < 0) then None
  else
    cs ← mapM (coeffJ sp k) (seqZ 0 (Degree sp + 1));
    Some (mkPoly cs).

(** The inner loop of [InterpolateAtZero] for index [j]: numerator and
    denominator of the Lagrange basis polynomial at zero. *)
Definition basis_step (j : nat) (xj : Z) (acc : Z * Z) (mx : nat * Z)
    : Z * Z :=
  if decide (mx.1 = j) then acc
  else (Mod (acc.1 * (- mx.2)) Prime, Mod (acc.2 * (xj - mx.2)) Prime).

Definition basis (xs : list Z) (j : nat) (xj : Z) : Z * Z :=
  fold_left (basis_step j xj) (imap pair xs) (1, 1).

(** The body of the outer loop: [ys[j]] panics when [ys] is too short, and
    multiplying by the [nil] that [ModInverse] returns panics. *)
Definition interp_step (xs ys : list Z) (result : Z) (jx : nat * Z)
    : option Z :=
  yj ← ys !! jx.1;
  let '(num, den) := basis xs jx.1 jx.2 in
  let term := Mod (yj * num) Prime in
  denInv ← ModInverse den Prime;
  let term := Mod (term * denInv) Prime in
  Some (Mod (result + term) Prime).

Definition InterpolateAtZero (xs ys : list Z) : option Z :=
  result ← foldlM (interp_step xs ys) 0 (imap pair xs);
  Some (if result <? 0 then result + Prime else result).
End Field.
End Poly.

(** ** services/network.go

    A channel is the sequence of messages sent on it.  [Broadcast] starts
    one sending goroutine per registered peer; the scheduler decides when
    each send completes, so only membership in a channel, not the relative
    order of concurrent sends, is meaningful below. *)

Module Net.
Section Network.
Context {TMsg : Type}.

Record Network := mkNet { peers : gmap Z (list TMsg) }.

Definition NewNetwork : Network := {| peers := ∅ |}.

Definition Register (nw : Network) (id : Z) (ch : list TMsg) : Network :=
  {| peers := <[id := ch]> (peers nw) |}.

Definition Broadcast (nw : Network) (msg : TMsg) : Network :=
  {| peers := (fun ch => ch ++ [msg]) <$> peers nw |}.

(** A service context backed by the network: every [ctx.Broadcast] of a
    handler is a [Network.Broadcast], in call order. *)
Definition BroadcastAll (nw : Network) (msgs : list TMsg) : Network :=
  fold_left Broadcast msgs nw.
End Network.
Arguments Network TMsg : clear implicits.
End Net.

(** ** services/ivss.go

    The repository holds two revisions of this file.  They differ only in
    how [checkCandidateSet] and [checkInterpolationSet] pick their set: the
    revision under [services/] builds an adjacency map and calls the
    backtracking [findClique]; the other revision builds the set in one
    incremental pass.  [Revision] selects between the two bodies; every
    other function is shared. *)

Module IVSS.
Local Open Scope Z_scope.

Inductive Revision := Backtracking | Incremental.

Definition IVSSPayloadType := Z.
Definition Payload_Equal : IVSSPayloadType := 0.
Definition Payload_MSet : IVSSPayloadType := 1.
Definition Payload_Reveal : IVSSPayloadType := 2.
Definition Payload_Ready : IVSSPayloadType := 3.

(** Slices that the code compares with [nil] are [option]s of lists. *)
Record IVSSPayload := mkPayload {
  pl_InstanceID : string;
  pl_Type : IVSSPayloadType;
  EqualPair : Z * Z;
  pl_MSet : option (list Z);
  RevealPoly : option Poly.Polynomial;
  RevealSender : Z
}.

Definition IVSSMsgType := Z.
Definition IVSS_Direct : IVSSMsgType := 0.
Definition IVSS_ACast : IVSSMsgType := 1.

Definition DirectMsgType := Z.
Definition Direct_Share : DirectMsgType := 0.
Definition Direct_Point : DirectMsgType := 1.

Record IVSSMessage := mkMessage {
  msg_Type : IVSSMsgType;
  DirectType : DirectMsgType;
  To : Z;
  From : Z;
  msg_InstanceID : string;
  msg_Poly : option Poly.Polynomial;
  Point : option Z;
  PointIdx : Z;
  ACastMsg : option (ACast.ACastMessage string)
}.

Record IVSSResult := mkResult {
  res_InstanceID : string;
  res_Type : string;
  res_Secret : option Z;
  res_MSet : option (list Z);
  res_Poly : option Poly.Polynomial
}.

Record IVSSInstance := mkInstance {
  inst_id : string;
  dealer : Z;
  (* sharing phase *)
  receivedPoly : option Poly.Polynomial;
  receivedPoints : gmap Z Z;
  earlyPoints : gmap Z (option Z);
  consistentPeers : gset Z;
  completedEquals : gset (Z * Z);
  mSet : option (list Z);
  pendingMSet : option (list Z);
  sharingCompleted : bool;
  (* reconstruction phase *)
  reconstructedPolys : gmap Z (option Poly.Polynomial);
  readyToComplete : gset Z;
  reconstructed : bool;
  secret : option Z
}.

Definition NewIVSSInstance (id : string) (dealer : Z) : IVSSInstance :=
  {| inst_id := id; dealer := dealer;
     receivedPoly := None; receivedPoints := ∅; earlyPoints := ∅;
     consistentPeers := ∅; completedEquals := ∅;
     mSet := None; pendingMSet := None; sharingCompleted := false;
     reconstructedPolys := ∅; readyToComplete := ∅;
     reconstructed := false; secret := None |}.

(** Field assignments on an instance. *)
Definition with_share (i : IVSSInstance) (p : option Poly.Polynomial)
    (d : Z) : IVSSInstance :=
  {| inst_id := inst_id i; dealer := d;
     receivedPoly := p; receivedPoints := receivedPoints i;
     earlyPoints := earlyPoints i;
     consistentPeers := consistentPeers i;
     completedEquals := completedEquals i;
     mSet := mSet i; pendingMSet := pendingMSet i;
     sharingCompleted := sharingCompleted i;
     reconstructedPolys := reconstructedPolys i;
     readyToComplete := readyToComplete i;
     reconstructed := reconstructed i; secret := secret i |}.

Definition with_earlyPoints (i : IVSSInstance) (e : gmap Z (option Z))
    : IVSSInstance :=
  {| inst_id := inst_id i; dealer := dealer i;
     receivedPoly := receivedPoly i; receivedPoints := receivedPoints i;
     earlyPoints := e;
     consistentPeers := consistentPeers i;
     completedEquals := completedEquals i;
     mSet := mSet i; pendingMSet := pendingMSet i;
     sharingCompleted := sharingCompleted i;
     reconstructedPolys := reconstructedPolys i;
     readyToComplete := readyToComplete i;
     reconstructed := reconstructed i; secret := secret i |}.

Definition with_completedEquals (i : IVSSInstance) (c : gset (Z * Z))
    : IVSSInstance :=
  {| inst_id := inst_id i; dealer := dealer i;
     receivedPoly := receivedPoly i; receivedPoints := receivedPoints i;
     earlyPoints := earlyPoints i;
     consistentPeers := consistentPeers i;
     completedEquals := c;
     mSet := mSet i; pendingMSet := pendingMSet i;
     sharingCompleted := sharingCompleted i;
     reconstructedPolys := reconstructedPolys i;
     readyToComplete := readyToComplete i;
     reconstructed := reconstructed i; secret := secret i |}.

(** [mSet], [pendingMSet] and [sharingCompleted] are assigned together. *)
Definition with_sharing (i : IVSSInstance) (m pending : option (list Z))
    (done : bool) : IVSSInstance :=
  {| inst_id := inst_id i; dealer := dealer i;
     receivedPoly := receivedPoly i; receivedPoints := receivedPoints i;
     earlyPoints := earlyPoints i;
     consistentPeers := consistentPeers i;
     completedEquals := completedEquals i;
     mSet := m; pendingMSet := pending;
     sharingCompleted := done;
     reconstructedPolys := reconstructedPolys i;
     readyToComplete := readyToComplete i;
     reconstructed := reconstructed i; secret := secret i |}.

Definition with_reconstructedPolys (i : IVSSInstance)
    (r : gmap Z (option Poly.Polynomial)) : IVSSInstance :=
  {| inst_id := inst_id i; dealer := dealer i;
     receivedPoly := receivedPoly i; receivedPoints := receivedPoints i;
     earlyPoints := earlyPoints i;
     consistentPeers := consistentPeers i;
     completedEquals := completedEquals i;
     mSet := mSet i; pendingMSet := pendingMSet i;
     sharingCompleted := sharingCompleted i;
     reconstructedPolys := r;
     readyToComplete := readyToComplete i;
     reconstructed := reconstructed i; secret := secret i |}.

Definition with_readyToComplete (i : IVSSInstance) (r : gset Z)
    : IVSSInstance :=
  {| inst_id := inst_id i; dealer := dealer i;
     receivedPoly := receivedPoly i; receivedPoints := receivedPoints i;
     earlyPoints := earlyPoints i;
     consistentPeers := consistentPeers i;
     completedEquals := completedEquals i;
     mSet := mSet i; pendingMSet := pendingMSet i;
     sharingCompleted := sharingCompleted i;
     reconstructedPolys := reconstructedPolys i;
     readyToComplete := r;
     reconstructed := reconstructed i; secret := secret i |}.

Definition with_reconstructed (i : IVSSInstance) (b : bool) : IVSSInstance :=
  {| inst_id := inst_id i; dealer := dealer i;
     receivedPoly := receivedPoly i; receivedPoints := receivedPoints i;
     earlyPoints := earlyPoints i;
     consistentPeers := consistentPeers i;
     completedEquals := completedEquals i;
     mSet := mSet i; pendingMSet := pendingMSet i;
     sharingCompleted := sharingCompleted i;
     reconstructedPolys := reconstructedPolys i;
     readyToComplete := readyToComplete i;
     reconstructed := b; secret := secret i |}.

Definition with_secret (i : IVSSInstance) (s : option Z) : IVSSInstance :=
  {| inst_id := inst_id i; dealer := dealer i;
     receivedPoly := receivedPoly i; receivedPoints := receivedPoints i;
     earlyPoints := earlyPoints i;
     consistentPeers := consistentPeers i;
     completedEquals := completedEquals i;
     mSet := mSet i; pendingMSet := pendingMSet i;
     sharingCompleted := sharingCompleted i;
     reconstructedPolys := reconstructedPolys i;
     readyToComplete := readyToComplete i;
     reconstructed := reconstructed i; secret := s |}.

(** The certification registry [cp] is a pointer shared by the protocol
    layers of one node; the service state carries its current value. *)
Record IVSSService := mkService {
  id : Z;
  n : Z;
  t : Z;
  acast : ACast.AcastService string;
  cp : Cert.CertificationProtocol;
  instances : gmap string IVSSInstance
}.

Definition NewIVSSService (id n t : Z) (cp : Cert.CertificationProtocol)
    : IVSSService :=
  {| id := id; n := n; t := t;
     acast := ACast.NewAcastService id n t;
     cp := cp; instances := ∅ |}.

Definition with_acast (s : IVSSService) (a : ACast.AcastService string)
    : IVSSService :=
  {| id := id s; n := n s; t := t s; acast := a; cp := cp s;
     instances := instances s |}.

Definition with_cp (s : IVSSService) (c : Cert.CertificationProtocol)
    : IVSSService :=
  {| id := id s; n := n s; t := t s; acast := acast s; cp := c;
     instances := instances s |}.

Definition with_instances (s : IVSSService) (m : gmap string IVSSInstance)
    : IVSSService :=
  {| id := id s; n := n s; t := t s; acast := acast s; cp := cp s;
     instances := m |}.

(** The instance is a pointer held in the map: its new value is written
    back under the key it was fetched with. *)
Definition store (s : IVSSService) (key : string) (inst : IVSSInstance)
    : IVSSService :=
  with_instances s (<[key := inst]> (instances s)).

Definition getInstance (s : IVSSService) (id : string) (dealer : Z)
    : IVSSService * IVSSInstance :=
  match instances s !! id with
  | Some inst => (s, inst)
  | None =>
      (with_instances s (<[id := NewIVSSInstance id dealer]> (instances s)),
       NewIVSSInstance id dealer)
  end.

(** [fmt.Sprintf] of the uuid: [%d] prints an [int] in decimal and [%v]
    prints a [[2]int] as its elements between brackets, separated by a
    space. *)
Definition fmt_d (z : Z) : string := pretty z.
Definition fmt_v_pair (p : Z * Z) : string :=
  "[" +:+ pretty p.1 +:+ " " +:+ pretty p.2 +:+ "]".

Definition uuid_of (selfId : Z) (payload : IVSSPayload) : string :=
  if bool_decide (pl_Type payload = Payload_MSet) then
    pl_InstanceID payload +:+ "-MSET"
  else if bool_decide (pl_Type payload = Payload_Reveal) then
    pl_InstanceID payload +:+ "-REVEAL-" +:+ fmt_d selfId
  else if bool_decide (pl_Type payload = Payload_Ready) then
    pl_InstanceID payload +:+ "-READY-" +:+ fmt_d selfId
  else
    pl_InstanceID payload +:+ "-" +:+ fmt_d (pl_Type payload) +:+ "-"
      +:+ fmt_v_pair (EqualPair payload).

Definition direct_message (dt : DirectMsgType) (to from : Z)
    (instanceID : string) (poly : option Poly.Polynomial)
    (point : option Z) (idx : Z) : IVSSMessage :=
  {| msg_Type := IVSS_Direct; DirectType := dt; To := to; From := from;
     msg_InstanceID := instanceID; msg_Poly := poly; Point := point;
     PointIdx := idx; ACastMsg := None |}.

(** The wrapper [IVSSMessage{Type: IVSS_ACast, ACastMsg: &msg}]. *)
Definition acast_wrapper (m : ACast.ACastMessage string) : IVSSMessage :=
  {| msg_Type := IVSS_ACast; DirectType := 0; To := 0; From := 0;
     msg_InstanceID := ""; msg_Poly := None; Point := None;
     PointIdx := 0; ACastMsg := Some m |}.

(** [findClique]: [None] is the panic of [candidates[0]] on an empty
    slice, [Some None] the [nil] result. *)
Fixpoint search (k : Z) (neighbors : gmap Z (gset Z))
    (candidates currentClique : list Z) {struct candidates}
    : option (option (list Z)) :=
  if bool_decide (GoInt.len (length currentClique) = k) then
    Some (Some currentClique)
  else if bool_decide
       (GoInt.len (length currentClique) + GoInt.len (length candidates) < k)
  then Some None
  else
    match candidates with
    | [] => None
    | node :: rest =>
        let canInclude :=
          forallb (fun existing =>
            bool_decide (existing ∈ default ∅ (neighbors !! node)))
            currentClique in
        if canInclude then
          res ← search k neighbors rest (currentClique ++ [node]);
          match res with
          | Some r => Some (Some r)
          | None => search k neighbors rest currentClique
          end
        else search k neighbors rest currentClique
    end.

Definition findClique (nodes : list Z) (k : Z) (neighbors : gmap Z (gset Z))
    : option (option (list Z)) :=
  search k neighbors nodes [].

Section Service.
(** [IVSSPayload.String] and [ParseIVSSPayload] are [encoding/json]. *)
Variable payloadString : IVSSPayload -> string.
Variable ParseIVSSPayload : string -> option IVSSPayload.
(** The order in which [range] visits the keys of a map. *)
Variable rangeOrder : list Z -> list Z.
(** The field modulus. *)
Variable Prime : Z.
Variable revision : Revision.

(** [startACast]: the message handed to [ctx.Broadcast]. *)
Definition startACast (s : IVSSService) (payload : IVSSPayload)
    : IVSSMessage :=
  acast_wrapper
    (ACast.mkMsg ACast.MSG (uuid_of (id s) payload)
       (payloadString payload) (id s)).

(** [StartSharing] (dealer only). *)
Definition StartSharing (s : IVSSService) (instanceID : string)
    (secret : Z) (rnd : Z -> Z -> Z) : option (list IVSSMessage) :=
  poly ← Poly.NewRandomSymmetricPolynomial (t s) secret rnd;
  mapM (fun k =>
      fk ← Poly.GetUnivariatePolynomial Prime poly k;
      Some (direct_message Direct_Share k (id s) instanceID (Some fk) None 0))
    (seqZ 1 (n s)).

Definition mutual (inst : IVSSInstance) (u v : Z) : bool :=
  bool_decide ((u, v) ∈ completedEquals inst)
  && bool_decide ((v, u) ∈ completedEquals inst).

(** The loop of the incremental revision of [checkCandidateSet]. *)
Definition candidate_step (s : IVSSService) (inst : IVSSInstance)
    (mSet : list Z) (candidate : Z) : list Z :=
  let canAdd :=
    forallb (fun inM =>
      mutual inst candidate inM
      && negb (Cert.IsFaultyPair (cp s) candidate inM)) mSet in
  if canAdd then mSet ++ [candidate] else mSet.

(** The adjacency map of the backtracking revision. *)
Definition candidate_adj (s : IVSSService) (inst : IVSSInstance)
    (candidates : list Z) : gmap Z (gset Z) :=
  list_to_map
    ((fun u =>
        (u, list_to_set
              (filter (fun v =>
                 u <> v /\ mutual inst u v = true
                 /\ Cert.IsFaultyPair (cp s) u v = false) candidates)))
     <$> candidates).

(** [checkCandidateSet]: the set found, if any; [None] is a panic. *)
Definition candidateSet (s : IVSSService) (inst : IVSSInstance)
    : option (option (list Z)) :=
  let target := GoInt.sub (n s) (t s) in
  match revision with
  | Backtracking =>
      let candidates := seqZ 1 (n s) in
      findClique candidates target (candidate_adj s inst candidates)
  | Incremental =>
      let mSet := fold_left (candidate_step s inst) (seqZ 1 (n s)) [] in
      if bool_decide (GoInt.len (length mSet) >= target)
      then Some (Some mSet) else Some None
  end.

Definition mset_payload (inst : IVSSInstance) (m : list Z) : IVSSPayload :=
  {| pl_InstanceID := inst_id inst; pl_Type := Payload_MSet;
     EqualPair := (0, 0); pl_MSet := Some m; RevealPoly := None;
     RevealSender := 0 |}.

Definition checkCandidateSet (s : IVSSService) (inst : IVSSInstance)
    : option (list IVSSMessage) :=
  if bool_decide (id s <> dealer inst) then Some []
  else if sharingCompleted inst then Some []
  else
    found ← candidateSet s inst;
    match found with
    | Some mSet =>
        Some [startACast s (mset_payload inst (merge_sort Z.le mSet))]
    | None => Some []
    end.

(** [verifyMSet]: the two nested index loops visit every pair of
    positions [i < j]. *)
Fixpoint pairs_ok (s : IVSSService) (inst : IVSSInstance) (mSet : list Z)
    : bool :=
  match mSet with
  | [] => true
  | u :: rest =>
      forallb (fun v =>
        bool_decide ((u, v) ∈ completedEquals inst)
        && bool_decide ((v, u) ∈ completedEquals inst)
        && negb (Cert.IsFaultyPair (cp s) u v)) rest
      && pairs_ok s inst rest
  end.

Definition verifyMSet (s : IVSSService) (inst : IVSSInstance)
    (mSet : option (list Z)) : bool :=
  let l := default [] mSet in
  if bool_decide (GoInt.len (length l) < GoInt.sub (n s) (t s)) then false
  else pairs_ok s inst l.
(** [processPoint]: evaluating a [nil] slice or comparing with a [nil]
    point panics. *)
Definition equal_payload (inst : IVSSInstance) (pair : Z * Z)
    : IVSSPayload :=
  {| pl_InstanceID := inst_id inst; pl_Type := Payload_Equal;
     EqualPair := pair; pl_MSet := None; RevealPoly := None;
     RevealSender := 0 |}.

Definition processPoint (s : IVSSService) (inst : IVSSInstance)
    (from : Z) (point : option Z) : option (list IVSSMessage) :=
  poly ← receivedPoly inst;
  let myEval := Poly.Evaluate Prime poly from in
  pt ← point;
  if bool_decide (myEval = pt)
  then Some [startACast s (equal_payload inst (id s, from))]
  else Some [].

(** The closure [isConsistent] of [checkInterpolationSet]. *)
Definition isConsistent (inst : IVSSInstance) (u v : Z) : option bool :=
  polyU ← default None (reconstructedPolys inst !! u);
  polyV ← default None (reconstructedPolys inst !! v);
  Some (bool_decide
          (Poly.Evaluate Prime polyU v = Poly.Evaluate Prime polyV u)).

(** Backtracking revision: one row of the adjacency map; inconsistent
    pairs are flagged on the way. *)
Definition interp_adj_row (inst : IVSSInstance) (candidates : list Z)
    (i : nat) (u : Z) (c : Cert.CertificationProtocol)
    : option (Cert.CertificationProtocol * gset Z) :=
  foldlM (fun (acc : Cert.CertificationProtocol * gset Z) (jv : nat * Z) =>
      if decide (i = jv.1) then Some acc
      else
        match isConsistent inst u jv.2 with
        | None => None
        | Some true => Some (acc.1, {[jv.2]} ∪ acc.2)
        | Some false => Some (Cert.AddFaultyPair acc.1 u jv.2, acc.2)
        end)
    (c, ∅) (imap pair candidates).

Definition interp_adj (inst : IVSSInstance) (candidates : list Z)
    (c : Cert.CertificationProtocol)
    : option (Cert.CertificationProtocol * gmap Z (gset Z)) :=
  foldlM (fun (acc : Cert.CertificationProtocol * gmap Z (gset Z))
              (iu : nat * Z) =>
      '(c', row) ← interp_adj_row inst candidates iu.1 iu.2 acc.1;
      Some (c', <[iu.2 := row]> acc.2))
    (c, ∅) (imap pair candidates).

(** Incremental revision: the inner loop stops at the first member of
    [validSet] that is inconsistent with the candidate. *)
Fixpoint first_conflict (inst : IVSSInstance) (candidate : Z)
    (validSet : list Z) : option (option Z) :=
  match validSet with
  | [] => Some None
  | inSet :: rest =>
      match isConsistent inst candidate inSet with
      | None => None
      | Some true => first_conflict inst candidate rest
      | Some false => Some (Some inSet)
      end
  end.

Definition interp_step (inst : IVSSInstance)
    (acc : Cert.CertificationProtocol * list Z) (candidate : Z)
    : option (Cert.CertificationProtocol * list Z) :=
  conflict ← first_conflict inst candidate acc.2;
  match conflict with
  | Some inSet => Some (Cert.AddFaultyPair acc.1 candidate inSet, acc.2)
  | None => Some (acc.1, acc.2 ++ [candidate])
  end.

(** The set picked by [checkInterpolationSet], with the registry after
    the consistency checks. *)
Definition interpolationSet (s : IVSSService) (inst : IVSSInstance)
    (candidates : list Z)
    : option (Cert.CertificationProtocol * option (list Z)) :=
  let target0 := GoInt.sub (n s) (GoInt.mul 2 (t s)) in
  let target := if bool_decide (target0 <= 0) then 1 else target0 in
  match revision with
  | Backtracking =>
      '(c, adj) ← interp_adj inst candidates (cp s);
      validSet ← findClique candidates target adj;
      Some (c, validSet)
  | Incremental =>
      '(c, validSet) ← foldlM (interp_step inst) (cp s, []) candidates;
      if bool_decide (GoInt.len (length validSet) >= target)
      then Some (c, Some validSet) else Some (c, None)
  end.

Definition ready_payload (s : IVSSService) (inst : IVSSInstance)
    : IVSSPayload :=
  {| pl_InstanceID := inst_id inst; pl_Type := Payload_Ready;
     EqualPair := (0, 0); pl_MSet := None; RevealPoly := None;
     RevealSender := id s |}.

Definition checkInterpolationSet (s : IVSSService) (inst : IVSSInstance)
    : option (Cert.CertificationProtocol * IVSSInstance * list IVSSMessage) :=
  match mSet inst with
  | None => Some (cp s, inst, [])
  | Some m =>
      let candidates :=
        filter (fun k => k ∈ m)
          (rangeOrder (elements (dom (reconstructedPolys inst)))) in
      if bool_decide (GoInt.len (length candidates)
                      < GoInt.sub (n s) (GoInt.mul 2 (t s)))
      then Some (cp s, inst, [])
      else
        '(c, found) ← interpolationSet s inst candidates;
        match found with
        | None => Some (c, inst, [])
        | Some validSet =>
            values ← mapM (fun nodeID =>
                p ← default None (reconstructedPolys inst !! nodeID);
                Some (Poly.Evaluate Prime p 0)) validSet;
            sec ← Poly.InterpolateAtZero Prime validSet values;
            let inst' := with_secret inst (Some sec) in
            Some (c, inst', [startACast s (ready_payload s inst')])
        end
  end.

Definition sharing_result (inst : IVSSInstance) : IVSSResult :=
  {| res_InstanceID := inst_id inst; res_Type := "SHARING_COMPLETE";
     res_Secret := None; res_MSet := mSet inst;
     res_Poly := receivedPoly inst |}.

Definition reconstructed_result (inst : IVSSInstance) : IVSSResult :=
  {| res_InstanceID := inst_id inst; res_Type := "RECONSTRUCTED";
     res_Secret := secret inst; res_MSet := None; res_Poly := None |}.

(** [OnACastDelivered]: called when the internal A-Cast service delivers
    a value. *)
Definition OnACastDelivered (s : IVSSService) (valStr : string)
    : option (IVSSService * list IVSSMessage * list IVSSResult) :=
  match ParseIVSSPayload valStr with
  | None => Some (s, [], [])
  | Some payload =>
      let key := pl_InstanceID payload in
      let '(s1, inst) := getInstance s key 0 in
      match pl_Type payload with
      | 0 =>
          let inst1 :=
            with_completedEquals inst
              ({[EqualPair payload]} ∪ completedEquals inst) in
          bc ← checkCandidateSet s1 inst1;
          if bool_decide (pendingMSet inst1 <> None)
             && negb (sharingCompleted inst1)
             && verifyMSet s1 inst1 (pendingMSet inst1)
          then
            let inst2 := with_sharing inst1 (pendingMSet inst1) None true in
            Some (store s1 key inst2, bc, [sharing_result inst2])
          else Some (store s1 key inst1, bc, [])
      | 1 =>
          let inst1 :=
            with_sharing inst (mSet inst) (pl_MSet payload)
              (sharingCompleted inst) in
          if verifyMSet s1 inst1 (pl_MSet payload) then
            let inst2 := with_sharing inst1 (pl_MSet payload) None true in
            Some (store s1 key inst2, [], [sharing_result inst2])
          else Some (store s1 key inst1, [], [])
      | 2 =>
          let inst1 :=
            with_reconstructedPolys inst
              (<[RevealSender payload := RevealPoly payload]>
                 (reconstructedPolys inst)) in
          '(c, inst2, bc) ← checkInterpolationSet s1 inst1;
          Some (store (with_cp s1 c) key inst2, bc, [])
      | 3 =>
          let inst1 :=
            with_readyToComplete inst
              ({[RevealSender payload]} ∪ readyToComplete inst) in
          if bool_decide (GoInt.len (size (readyToComplete inst1))
                          >= GoInt.sub (n s) (t s))
             && negb (reconstructed inst1)
          then
            match secret inst1 with
            | Some _ =>
                let inst2 := with_reconstructed inst1 true in
                Some (store s1 key inst2, [], [reconstructed_result inst2])
            | None => Some (store s1 key inst1, [], [])
            end
          else Some (store s1 key inst1, [], [])
      | _ => Some (s1, [], [])
      end
  end.

(** The results of the internal A-Cast service go through
    [acastContextAdapter.SendResult], which calls [OnACastDelivered]. *)
Definition deliverAll (s : IVSSService) (vals : list string)
    : option (IVSSService * list IVSSMessage * list IVSSResult) :=
  foldlM (fun (acc : IVSSService * list IVSSMessage * list IVSSResult)
              (v : string) =>
      '(s', bc', rs') ← OnACastDelivered acc.1.1 v;
      Some (s', acc.1.2 ++ bc', acc.2 ++ rs'))
    (s, [], []) vals.

(** [IVSSService.OnMessage] *)
Definition OnMessage (s : IVSSService) (msg : IVSSMessage)
    : option (IVSSService * list IVSSMessage * list IVSSResult) :=
  if bool_decide (msg_Type msg = IVSS_ACast) then
    match ACastMsg msg with
    | None => Some (s, [], [])
    | Some am =>
        let '(a', bc, res) := ACast.OnMessage (acast s) am in
        '(s', bc', rs) ← deliverAll (with_acast s a') res;
        Some (s', (acast_wrapper <$> bc) ++ bc', rs)
    end
  else if bool_decide (To msg <> id s) then Some (s, [], [])
  else
    let key := msg_InstanceID msg in
    let '(s1, inst) := getInstance s key (From msg) in
    match DirectType msg with
    | 0 =>
        let inst1 := with_share inst (msg_Poly msg) (From msg) in
        points ← mapM (fun j =>
            p ← msg_Poly msg;
            Some (direct_message Direct_Point j (id s) key None
                    (Some (Poly.Evaluate Prime p j)) j))
          (seqZ 1 (n s));
        eqs ← mapM (fun from =>
            processPoint s1 inst1 from
              (default None (earlyPoints inst1 !! from)))
          (rangeOrder (elements (dom (earlyPoints inst1))));
        Some (store s1 key (with_earlyPoints inst1 ∅),
              points ++ concat eqs, [])
    | 1 =>
        match receivedPoly inst with
        | None =>
            Some (store s1 key
                    (with_earlyPoints inst
                       (<[From msg := Point msg]> (earlyPoints inst))),
                  [], [])
        | Some _ =>
            bc ← processPoint s1 inst (From msg) (Point msg);
            Some (s1, bc, [])
        end
    | _ => Some (s1, [], [])
    end.

Definition reveal_payload (s : IVSSService) (inst : IVSSInstance)
    : IVSSPayload :=
  {| pl_InstanceID := inst_id inst; pl_Type := Payload_Reveal;
     EqualPair := (0, 0); pl_MSet := None;
     RevealPoly := receivedPoly inst; RevealSender := id s |}.

(** [StartReconstruction]: the last component is the returned [error]
    ([true] when sharing has not completed). *)
Definition StartReconstruction (s : IVSSService) (instanceID : string)
    : IVSSService * list IVSSMessage * bool :=
  let '(s1, inst) := getInstance s instanceID 0 in
  if negb (sharingCompleted inst) then (s1, [], true)
  else if bool_decide (id s ∈ default [] (mSet inst))
  then (s1, [startACast s (reveal_payload s inst)], false)
  else (s1, [], false).
End Service.
End IVSS.

(** ** services/icc.go: the helper [isSubset] (used by Vote as well) *)

Definition isSubset (sub super : list Z) : bool :=
  forallb (fun v => bool_decide (v ∈ super)) sub.

(** ** services/vote.go *)

Module Vote.
Local Open Scope Z_scope.

Definition VotePayloadType := Z.
Definition Vote_Input : VotePayloadType := 0.
Definition Vote_Vote1 : VotePayloadType := 1.
Definition Vote_Revote : VotePayloadType := 2.

Record VotePayload := mkPayload {
  pl_Type : VotePayloadType;
  Sender : Z;
  Bit : Z;
  Set_ : list Z;
  pl_Round : Z
}.

Definition VoteMsgType := Z.
Definition Vote_ACast : VoteMsgType := 0.

Record VoteMessage := mkMessage {
  msg_Type : VoteMsgType;
  ACastMsg : option (ACast.ACastMessage string)
}.

Record VoteResult := mkResult {
  Value : Z;
  Conf : Z;
  res_Round : Z
}.

(** The anonymous struct [{Set []int; Bit int}] is a pair. *)
Record voteRoundState := mkState {
  round : Z;
  receivedInputs : gmap Z Z;
  myA : list Z;
  sentVote1 : bool;
  receivedVote1 : gmap Z (list Z * Z);
  myB : list Z;
  sentRevote : bool;
  receivedRevote : gmap Z (list Z * Z);
  myC : list Z;
  finished : bool
}.

Definition newVoteRoundState (round : Z) : voteRoundState :=
  {| round := round; receivedInputs := ∅; myA := []; sentVote1 := false;
     receivedVote1 := ∅; myB := []; sentRevote := false;
     receivedRevote := ∅; myC := []; finished := false |}.

Record VoteService := mkService {
  id : Z;
  n : Z;
  t : Z;
  acast : ACast.AcastService string;
  rounds : gmap Z voteRoundState
}.

Definition NewVoteService (id n t : Z) : VoteService :=
  {| id := id; n := n; t := t;
     acast := ACast.NewAcastService id n t; rounds := ∅ |}.

Definition with_acast (s : VoteService) (a : ACast.AcastService string)
    : VoteService :=
  {| id := id s; n := n s; t := t s; acast := a; rounds := rounds s |}.

Definition with_rounds (s : VoteService) (r : gmap Z voteRoundState)
    : VoteService :=
  {| id := id s; n := n s; t := t s; acast := acast s; rounds := r |}.

Definition getRoundState (s : VoteService) (r : Z)
    : VoteService * voteRoundState :=
  match rounds s !! r with
  | Some st => (s, st)
  | None =>
      (with_rounds s (<[r := newVoteRoundState r]> (rounds s)),
       newVoteRoundState r)
  end.

(** The round state is a pointer held in the map. *)
Definition store (s : VoteService) (r : Z) (st : voteRoundState)
    : VoteService :=
  with_rounds s (<[r := st]> (rounds s)).

(** Counting loop of the majority bit: [(zeros, ones)]. *)
Definition count_bits (bits : list Z) : Z * Z :=
  fold_left (fun (acc : Z * Z) (bit : Z) =>
      if bool_decide (bit = 0) then (GoInt.add acc.1 1, acc.2)
      else (acc.1, GoInt.add acc.2 1)) bits (0, 0).

Definition majority (bits : list Z) : Z :=
  let '(zeros, ones) := count_bits bits in
  if bool_decide (ones > zeros) then 1 else 0.

(** The unanimity loops of the decision logic, with their [-1] sentinel
    and their [break]: the final [firstVal] and [allSame]. *)
Fixpoint allSame (firstVal : Z) (vals : list Z) : Z * bool :=
  match vals with
  | [] => (firstVal, true)
  | val :: rest =>
      if bool_decide (firstVal = -1) then allSame val rest
      else if bool_decide (firstVal <> val) then (firstVal, false)
      else allSame firstVal rest
  end.

(** A read [m[j].Bit] of a missing key yields the zero value. *)
Definition bit_of (m : gmap Z (list Z * Z)) (j : Z) : Z :=
  match m !! j with Some d => d.2 | None => 0 end.

Section Service.
(** [VotePayload.String] and [ParseVotePayload] are [encoding/json]. *)
Variable payloadString : VotePayload -> string.
Variable ParseVotePayload : string -> option VotePayload.
(** [NewACastMessage] hashes value, sender and [time.Now().UnixNano()]
    into the uuid: [uuidHash val from now]. *)
Variable uuidHash : string -> Z -> Z -> string.

Definition NewACastMessage (now : Z) (val : string) (from : Z)
    : ACast.ACastMessage string :=
  ACast.mkMsg ACast.MSG (uuidHash val from now) val from.

Definition wrap (m : ACast.ACastMessage string) : VoteMessage :=
  {| msg_Type := Vote_ACast; ACastMsg := Some m |}.

(** [startACast]: broadcast the MSG and handle it locally.  The local
    handling is of a MSG, which never delivers (see [OnMessage_MSG_quiet]),
    so the adapter's [SendResult] is not reached from here. *)
Definition startACast (s : VoteService) (now : Z) (payload : VotePayload)
    : VoteService * list VoteMessage :=
  let msg := NewACastMessage now (payloadString payload) (id s) in
  let '(a', bc, _) := ACast.OnMessage (acast s) msg in
  (with_acast s a', wrap msg :: (wrap <$> bc)).

(** Senders of the delivered payloads whose set is contained in [super],
    in the order [range] yields them. *)
Definition valid_senders (m : gmap Z (list Z * Z)) (super : list Z)
    : list Z :=
  (filter (fun kv : Z * (list Z * Z) => isSubset kv.2.1 super = true)
     (map_to_list m)).*1.

Definition finish (st : voteRoundState) (val conf : Z)
    : voteRoundState * list VoteResult :=
  ({| round := round st; receivedInputs := receivedInputs st;
      myA := myA st; sentVote1 := sentVote1 st;
      receivedVote1 := receivedVote1 st; myB := myB st;
      sentRevote := sentRevote st; receivedRevote := receivedRevote st;
      myC := myC st; finished := true |},
   [mkResult val conf (round st)]).

(** Phase 1 of [checkProgress]. *)
Definition phase1 (s : VoteService) (st : voteRoundState) (now : Z)
    : VoteService * voteRoundState * list VoteMessage :=
  if negb (sentVote1 st)
     && bool_decide (GoInt.len (size (receivedInputs st))
                     >= GoInt.sub (n s) (t s))
  then
    let A := merge_sort Z.le (map_to_list (receivedInputs st)).*1 in
    let myVote1 := majority (map_to_list (receivedInputs st)).*2 in
    let st' :=
      {| round := round st; receivedInputs := receivedInputs st;
         myA := A; sentVote1 := true;
         receivedVote1 := receivedVote1 st; myB := myB st;
         sentRevote := sentRevote st; receivedRevote := receivedRevote st;
         myC := myC st; finished := finished st |} in
    let '(s', bc) :=
      startACast s now
        (mkPayload Vote_Vote1 (id s) myVote1 A (round st)) in
    (s', st', bc)
  else (s, st, []).

(** Phase 2 of [checkProgress]. *)
Definition phase2 (s : VoteService) (st : voteRoundState) (now : Z)
    (validVote1s : list Z)
    : VoteService * voteRoundState * list VoteMessage :=
  if sentVote1 st && negb (sentRevote st)
     && bool_decide (GoInt.len (length validVote1s)
                     >= GoInt.sub (n s) (t s))
  then
    let B := merge_sort Z.le validVote1s in
    let myVote2 := majority (bit_of (receivedVote1 st) <$> validVote1s) in
    let st' :=
      {| round := round st; receivedInputs := receivedInputs st;
         myA := myA st; sentVote1 := sentVote1 st;
         receivedVote1 := receivedVote1 st; myB := B;
         sentRevote := true; receivedRevote := receivedRevote st;
         myC := myC st; finished := finished st |} in
    let '(s', bc) :=
      startACast s now
        (mkPayload Vote_Revote (id s) myVote2 B (round st)) in
    (s', st', bc)
  else (s, st, []).

(** Phase 3 of [checkProgress]: the decision. *)
Definition phase3 (s : VoteService) (st : voteRoundState)
    (validRevotes : list Z) : voteRoundState * list VoteResult :=
  if sentRevote st
     && bool_decide (GoInt.len (length validRevotes)
                     >= GoInt.sub (n s) (t s))
  then
    let C := merge_sort Z.le validRevotes in
    let st' :=
      {| round := round st; receivedInputs := receivedInputs st;
         myA := myA st; sentVote1 := sentVote1 st;
         receivedVote1 := receivedVote1 st; myB := myB st;
         sentRevote := sentRevote st; receivedRevote := receivedRevote st;
         myC := C; finished := finished st |} in
    let '(firstVal, allSameB) :=
      allSame (-1) (bit_of (receivedVote1 st') <$> myB st') in
    if allSameB && bool_decide (firstVal <> -1) then finish st' firstVal 2
    else
      let '(firstValC, allSameC) :=
        allSame (-1) (bit_of (receivedRevote st') <$> myC st') in
      if allSameC && bool_decide (firstValC <> -1)
      then finish st' firstValC 1
      else finish st' (-1) 0
  else (st, []).

(** [checkProgress]; [now1] and [now2] are the clock readings of the two
    possible [NewACastMessage] calls. *)
Definition checkProgress (s : VoteService) (st : voteRoundState)
    (now1 now2 : Z)
    : VoteService * voteRoundState * list VoteMessage * list VoteResult :=
  let allInputs := (map_to_list (receivedInputs st)).*1 in
  let '(s1, st1, bc1) := phase1 s st now1 in
  let validVote1s := valid_senders (receivedVote1 st1) allInputs in
  let '(s2, st2, bc2) := phase2 s1 st1 now2 validVote1s in
  let validRevotes := valid_senders (receivedRevote st2) validVote1s in
  let '(st3, res) := phase3 s2 st2 validRevotes in
  (s2, st3, bc1 ++ bc2, res).

Definition record_payload (st : voteRoundState) (p : VotePayload)
    : voteRoundState :=
  match pl_Type p with
  | 0 =>
      {| round := round st;
         receivedInputs := <[Sender p := Bit p]> (receivedInputs st);
         myA := myA st; sentVote1 := sentVote1 st;
         receivedVote1 := receivedVote1 st; myB := myB st;
         sentRevote := sentRevote st; receivedRevote := receivedRevote st;
         myC := myC st; finished := finished st |}
  | 1 =>
      {| round := round st; receivedInputs := receivedInputs st;
         myA := myA st; sentVote1 := sentVote1 st;
         receivedVote1 := <[Sender p := (Set_ p, Bit p)]> (receivedVote1 st);
         myB := myB st;
         sentRevote := sentRevote st; receivedRevote := receivedRevote st;
         myC := myC st; finished := finished st |}
  | 2 =>
      {| round := round st; receivedInputs := receivedInputs st;
         myA := myA st; sentVote1 := sentVote1 st;
         receivedVote1 := receivedVote1 st; myB := myB st;
         sentRevote := sentRevote st;
         receivedRevote := <[Sender p := (Set_ p, Bit p)]> (receivedRevote st);
         myC := myC st; finished := finished st |}
  | _ => st
  end.

(** [processDeliveredPayload] *)
Definition processDeliveredPayload (s : VoteService) (p : VotePayload)
    (now1 now2 : Z)
    : VoteService * list VoteMessage * list VoteResult :=
  let '(s1, st) := getRoundState s (pl_Round p) in
  if finished st then (s1, [], [])
  else
    let '(s2, st', bc, res) :=
      checkProgress s1 (record_payload st p) now1 now2 in
    (store s2 (pl_Round p) st', bc, res).

(** [voteAcastAdapter.SendResult] *)
Definition onDelivered (s : VoteService) (valStr : string) (now1 now2 : Z)
    : VoteService * list VoteMessage * list VoteResult :=
  match ParseVotePayload valStr with
  | None => (s, [], [])
  | Some p => processDeliveredPayload s p now1 now2
  end.

(** [VoteService.OnMessage]; the internal A-Cast service delivers at most
    one value per message. *)
Definition OnMessage (s : VoteService) (msg : VoteMessage) (now1 now2 : Z)
    : VoteService * list VoteMessage * list VoteResult :=
  match ACastMsg msg with
  | Some am =>
      if bool_decide (msg_Type msg = Vote_ACast) then
        let '(a', bc, res) := ACast.OnMessage (acast s) am in
        let s1 := with_acast s a' in
        match res with
        | v :: _ =>
            let '(s2, bc2, rs) := onDelivered s1 v now1 now2 in
            (s2, (wrap <$> bc) ++ bc2, rs)
        | [] => (s1, wrap <$> bc, [])
        end
      else (s, [], [])
  | None => (s, [], [])
  end.

(** [StartRound] *)
Definition StartRound (s : VoteService) (r : Z) (inputBit : Z)
    (now0 now1 now2 : Z)
    : VoteService * list VoteMessage * list VoteResult :=
  let '(s1, st) := getRoundState s r in
  if finished st then (s1, [], [])
  else
    let '(s2, bc0) :=
      startACast s1 now0 (mkPayload Vote_Input (id s) inputBit [] r) in
    let '(s3, st', bc, res) := checkProgress s2 st now1 now2 in
    (store s3 r st', bc0 ++ bc, res).
End Service.
End Vote.

(** ** services/icc.go: the decision check

    [ICCService] below carries the protocol state of the coin; the
    sub-services [ivss] and [acast] and the logger are not read by
    [checkDecision] and are left out of the record. *)

Module ICC.
Local Open Scope Z_scope.

Record ICCResult := mkResult { Coin : Z }.

Record FinalSet := mkFinalSet {
  fs_From : Z;
  H : list Z;
  S : list Z
}.

Record ICCService := mkService {
  id : Z;
  n : Z;
  t : Z;
  round : Z;
  u : Z;
  completedSecretsCount : gmap Z Z;
  completedSecrets : gmap Z (gset Z);
  myT : list Z;
  sentAttach : bool;
  receivedT : gmap Z (list Z);
  myA : list Z;
  sentAccept : bool;
  receivedA : gmap Z (list Z);
  myS : list Z;
  sentReconstruct : bool;
  receivedS : gmap Z (list Z);
  myH : list Z;
  (* dealer -> secretIdx -> value; the stored pointer may be nil *)
  reconstructedValues : gmap Z (gmap Z (option Z));
  receivedFinalSets : list FinalSet;
  finished : bool
}.

Definition with_finished (s : ICCService) (b : bool) : ICCService :=
  {| id := id s; n := n s; t := t s; round := round s; u := u s;
     completedSecretsCount := completedSecretsCount s;
     completedSecrets := completedSecrets s;
     myT := myT s; sentAttach := sentAttach s; receivedT := receivedT s;
     myA := myA s; sentAccept := sentAccept s; receivedA := receivedA s;
     myS := myS s; sentReconstruct := sentReconstruct s;
     receivedS := receivedS s; myH := myH s;
     reconstructedValues := reconstructedValues s;
     receivedFinalSets := receivedFinalSets s;
     finished := b |}.

(** [s.reconstructedValues[k][j]], [None] when the outer or inner entry
    is missing or [nil]. *)
Definition value (s : ICCService) (k j : Z) : option Z :=
  row ← reconstructedValues s !! k;
  default None (row !! j).

(** The inner loop over [Tj]: the sum, or [None] at the first missing
    value ([complete = false]). *)
Definition sum_for (s : ICCService) (j : Z) (Tj : list Z) : option Z :=
  foldlM (fun sum k => v ← value s k j; Some (sum + v)) 0 Tj.

(** [big.Int.Mod] panics on a zero modulus. *)
Definition mod_u (s : ICCService) (sum : Z) : option Z :=
  if bool_decide (u s = 0) then None else Some (Poly.Mod sum (u s)).

(** The loop over [H].  The outer [None] is the panic of [Mod]; inside,
    [None] says that some [j] is not computed ([allComputed = false]) and
    [Some hasZero] gives the final [hasZero]. *)
Fixpoint scan_H (s : ICCService) (Hs : list Z) (hasZero : bool)
    : option (option bool) :=
  match Hs with
  | [] => Some (Some hasZero)
  | j :: rest =>
      match receivedT s !! j with
      | None => Some None
      | Some Tj =>
          match sum_for s j Tj with
          | None => Some None
          | Some sum =>
              vj ← mod_u s sum;
              scan_H s rest (if bool_decide (vj = 0) then true else hasZero)
          end
      end
  end.

(** The loop over [receivedFinalSets]: the coin of the first pair that
    passes all checks ([Some None] when there is none; the outer [None]
    is a panic). *)
Fixpoint scan_final (s : ICCService) (fss : list FinalSet)
    : option (option Z) :=
  match fss with
  | [] => Some None
  | fs :: rest =>
      if sentAccept s && sentReconstruct s
         && isSubset (H fs) (myA s) && isSubset (S fs) (myS s)
      then
        r ← scan_H s (H fs) false;
        match r with
        | Some hasZero => Some (Some (if hasZero : bool then 0 else 1))
        | None => scan_final s rest
        end
      else scan_final s rest
  end.

(** [checkDecision] *)
Definition checkDecision (s : ICCService)
    : option (ICCService * list ICCResult) :=
  if finished s then Some (s, [])
  else
    found ← scan_final s (receivedFinalSets s);
    match found with
    | Some coin => Some (with_finished s true, [mkResult coin])
    | None => Some (s, [])
    end.

(** Between two decision checks the other handlers of the instance change
    the state; none of them assigns [finished].  A run of the instance is
    the sequence of those changes, each followed by the decision check. *)
Fixpoint run (s : ICCService) (steps : list (ICCService -> ICCService))
    : option (list ICCResult) :=
  match steps with
  | [] => Some []
  | f :: rest =>
      '(s', res) ← checkDecision (f s);
      more ← run s' rest;
      Some (res ++ more)
  end.
End ICC.

(** ** services/aba.go: the termination gadget

    [ABAService] below carries the fields that the COMPLETE path reads or
    writes; the sub-services [vote] and [icc], the registry [cp] and the
    buffer [futureMsgs] are not touched by it and are left out. *)

Module ABA.
Local Open Scope Z_scope.

Definition ABAMsgType := Z.
Definition ABA_Vote : ABAMsgType := 0.
Definition ABA_ICC : ABAMsgType := 1.
Definition ABA_Complete : ABAMsgType := 2.

Record ABAMessage := mkMessage {
  msg_Type : ABAMsgType;
  msg_Round : Z;
  VoteMsg : option Vote.VoteMessage;
  CompleteMsg : option (ACast.ACastMessage string)
}.

Record CompletePayload := mkPayload {
  Sender : Z;
  Value : Z
}.

Record ABAService := mkService {
  id : Z;
  n : Z;
  t : Z;
  estimate : Z;
  round : Z;
  acastComplete : ACast.AcastService string;
  voteResult : option Vote.VoteResult;
  iccResult : option ICC.ICCResult;
  completeCounts : gmap Z (gset Z);
  decided : bool;
  decision : Z;
  hasBroadcastComplete : bool
}.

Definition NewABAService (id n t initialEstimate : Z) : ABAService :=
  {| id := id; n := n; t := t; estimate := initialEstimate; round := 0;
     acastComplete := ACast.NewAcastService id n t;
     voteResult := None; iccResult := None;
     completeCounts := ∅; decided := false; decision := 0;
     hasBroadcastComplete := false |}.

Definition with_acastComplete (s : ABAService)
    (a : ACast.AcastService string) : ABAService :=
  {| id := id s; n := n s; t := t s; estimate := estimate s;
     round := round s; acastComplete := a;
     voteResult := voteResult s; iccResult := iccResult s;
     completeCounts := completeCounts s; decided := decided s;
     decision := decision s;
     hasBroadcastComplete := hasBroadcastComplete s |}.

Definition with_completeCounts (s : ABAService) (c : gmap Z (gset Z))
    : ABAService :=
  {| id := id s; n := n s; t := t s; estimate := estimate s;
     round := round s; acastComplete := acastComplete s;
     voteResult := voteResult s; iccResult := iccResult s;
     completeCounts := c; decided := decided s;
     decision := decision s;
     hasBroadcastComplete := hasBroadcastComplete s |}.

Definition with_decision (s : ABAService) (v : Z) : ABAService :=
  {| id := id s; n := n s; t := t s; estimate := estimate s;
     round := round s; acastComplete := acastComplete s;
     voteResult := voteResult s; iccResult := iccResult s;
     completeCounts := completeCounts s; decided := true;
     decision := v;
     hasBroadcastComplete := hasBroadcastComplete s |}.

Definition with_hasBroadcastComplete (s : ABAService) (b : bool)
    : ABAService :=
  {| id := id s; n := n s; t := t s; estimate := estimate s;
     round := round s; acastComplete := acastComplete s;
     voteResult := voteResult s; iccResult := iccResult s;
     completeCounts := completeCounts s; decided := decided s;
     decision := decision s;
     hasBroadcastComplete := b |}.

(** The wrapper [ABAMessage{Type: ABA_Complete, CompleteMsg: &msg}]. *)
Definition wrap (m : ACast.ACastMessage string) : ABAMessage :=
  {| msg_Type := ABA_Complete; msg_Round := 0; VoteMsg := None;
     CompleteMsg := Some m |}.

Section Service.
(** [CompletePayload.String] and [ParseCompletePayload] are
    [encoding/json]. *)
Variable payloadString : CompletePayload -> string.
Variable ParseCompletePayload : string -> option CompletePayload.
(** The uuid hash of [NewACastMessage], as in [Vote]. *)
Variable uuidHash : string -> Z -> Z -> string.

Definition NewACastMessage (now : Z) (val : string) (from : Z)
    : ACast.ACastMessage string :=
  ACast.mkMsg ACast.MSG (uuidHash val from now) val from.

(** [broadcastComplete]: broadcast the MSG, then deliver it locally to
    the A-Cast service.  The local handling is of a MSG, which never
    delivers (see [OnMessage_MSG_quiet]), so the adapter's [SendResult]
    is not reached from here. *)
Definition broadcastComplete (s : ABAService) (val : Z) (now : Z)
    : ABAService * list ABAMessage :=
  let strVal := payloadString (mkPayload (id s) val) in
  let msg := NewACastMessage now strVal (id s) in
  let '(a', bc, _) := ACast.OnMessage (acastComplete s) msg in
  (with_acastComplete s a', wrap msg :: (wrap <$> bc)).

(** [handleCompleteDelivery]; the results are the decisions sent to the
    driver. *)
Definition handleCompleteDelivery (s : ABAService) (valStr : string)
    (now : Z) : ABAService * list ABAMessage * list Z :=
  match ParseCompletePayload valStr with
  | None => (s, [], [])
  | Some payload =>
      let senders :=
        {[Sender payload]}
        ∪ default ∅ (completeCounts s !! Value payload) in
      let s1 :=
        with_completeCounts s
          (<[Value payload := senders]> (completeCounts s)) in
      let count := GoInt.len (size senders) in
      if bool_decide (count >= GoInt.add (t s) 1) && negb (decided s1)
      then
        let s2 := with_decision s1 (Value payload) in
        if negb (hasBroadcastComplete s2) then
          let '(s3, bc) := broadcastComplete s2 (decision s2) now in
          (with_hasBroadcastComplete s3 true, bc, [decision s2])
        else (s2, [], [decision s2])
      else (s1, [], [])
  end.

(** [dispatchMessage] for [ABA_Complete], reached directly from
    [OnMessage]: the A-Cast service handles the message and its delivery
    goes to [handleCompleteDelivery]. *)
Definition onCompleteMessage (s : ABAService)
    (am : ACast.ACastMessage string) (now : Z)
    : ABAService * list ABAMessage * list Z :=
  let '(a', bc, res) := ACast.OnMessage (acastComplete s) am in
  let s1 := with_acastComplete s a' in
  match res with
  | v :: _ =>
      let '(s2, bc2, rs) := handleCompleteDelivery s1 v now in
      (s2, (wrap <$> bc) ++ bc2, rs)
  | [] => (s1, wrap <$> bc, [])
  end.

(** A run of the gadget: the COMPLETE payloads in the order A-Cast
    delivers them, with the clock reading of each step. *)
Fixpoint deliverAll (s : ABAService) (vals : list (string * Z))
    : ABAService * list (list Z) :=
  match vals with
  | [] => (s, [])
  | (v, now) :: rest =>
      let '(s', _, res) := handleCompleteDelivery s v now in
      let '(s'', tr) := deliverAll s' rest in
      (s'', res :: tr)
  end.
End Service.
End ABA.

(** ** services/service.go

    The manager owns the service, two buffered channels and the slice
    [awaitingMsgs].  A channel is the queue of the values it holds.  The
    goroutine of [loop] and the goroutines that use the channels from
    outside interleave; a run is the sequence of their steps. *)

Module Manager.
Section Manager.
Context {TSvc TMsg TRes : Type}.
(** [Service.OnMessage] together with the calls it makes on its context:
    the state of the service afterwards, the arguments of its
    [Broadcast] calls and those of its [SendResult] calls, in call order;
    [None] is a panic. *)
Variable OnMessage : TSvc -> TMsg -> option (TSvc * list TMsg * list TRes).

Record ServiceManager := mkManager {
  service : TSvc;
  inbox : list TMsg;
  outbox : list TRes;
  awaitingMsgs : list TRes;
  network : Net.Network TMsg;
  (* the channel [stop] is closed *)
  stop : bool;
  (* the goroutine of [loop] is running *)
  running : bool
}.

(** The capacity of [inbox] and of [outbox]. *)
Definition capacity : nat := 1000.

Definition NewServiceManager (service : TSvc) (network : Net.Network TMsg)
    : ServiceManager :=
  {| service := service; inbox := []; outbox := []; awaitingMsgs := [];
     network := network; stop := false; running := false |}.

Definition Start (sm : ServiceManager) : ServiceManager :=
  {| service := service sm; inbox := inbox sm; outbox := outbox sm;
     awaitingMsgs := awaitingMsgs sm; network := network sm;
     stop := stop sm; running := true |}.

Definition Stop (sm : ServiceManager) : ServiceManager :=
  {| service := service sm; inbox := inbox sm; outbox := outbox sm;
     awaitingMsgs := awaitingMsgs sm; network := network sm;
     stop := true; running := running sm |}.

Inductive Event :=
| Received (msg : TMsg)
| Panicked (msg : TMsg)
| Delivered (res : TRes)
| Returned
| Posted (msg : TMsg)
| Taken (res : TRes)
| Stopped.

(** One step.  The first four are the cases of the two [select]
    statements of [loop] (the send on [outbox] is offered only while
    [awaitingMsgs] is not empty); the last three are a send on
    [Inbox()], a receive from [Result()] and a call of [Stop] by other
    goroutines. *)
Inductive step : ServiceManager -> Event -> ServiceManager -> Prop :=
| step_receive sm msg rest s' bc res :
    running sm = true -> inbox sm = msg :: rest ->
    OnMessage (service sm) msg = Some (s', bc, res) ->
    step sm (Received msg)
      {| service := s'; inbox := rest; outbox := outbox sm;
         awaitingMsgs := awaitingMsgs sm ++ res;
         network := Net.BroadcastAll (network sm) bc;
         stop := stop sm; running := true |}
| step_panic sm msg rest :
    running sm = true -> inbox sm = msg :: rest ->
    OnMessage (service sm) msg = None ->
    step sm (Panicked msg)
      {| service := service sm; inbox := rest; outbox := outbox sm;
         awaitingMsgs := awaitingMsgs sm; network := network sm;
         stop := stop sm; running := false |}
| step_deliver sm nextMsg rest :
    running sm = true -> awaitingMsgs sm = nextMsg :: rest ->
    (length (outbox sm) < capacity)%nat ->
    step sm (Delivered nextMsg)
      {| service := service sm; inbox := inbox sm;
         outbox := outbox sm ++ [nextMsg];
         awaitingMsgs := rest; network := network sm;
         stop := stop sm; running := true |}
| step_return sm :
    running sm = true -> stop sm = true ->
    step sm Returned
      {| service := service sm; inbox := inbox sm; outbox := outbox sm;
         awaitingMsgs := awaitingMsgs sm; network := network sm;
         stop := stop sm; running := false |}
| step_post sm msg :
    (length (inbox sm) < capacity)%nat ->
    step sm (Posted msg)
      {| service := service sm; inbox := inbox sm ++ [msg];
         outbox := outbox sm; awaitingMsgs := awaitingMsgs sm;
         network := network sm; stop := stop sm; running := running sm |}
| step_take sm res rest :
    outbox sm = res :: rest ->
    step sm (Taken res)
      {| service := service sm; inbox := inbox sm; outbox := rest;
         awaitingMsgs := awaitingMsgs sm; network := network sm;
         stop := stop sm; running := running sm |}
| step_stop sm :
    step sm Stopped (Stop sm).

Inductive steps : ServiceManager -> list Event -> ServiceManager -> Prop :=
| steps_nil sm : steps sm [] sm
| steps_snoc sm tr sm' e sm'' :
    steps sm tr sm' -> step sm' e sm'' -> steps sm (tr ++ [e]) sm''.

(** The service handling a list of messages one after the other. *)
Definition serve (s : TSvc) (msgs : list TMsg)
    : option (TSvc * list TMsg * list TRes) :=
  foldlM (fun (acc : TSvc * list TMsg * list TRes) msg =>
      '(s', bc, res) ← OnMessage acc.1.1 msg;
      Some (s', acc.1.2 ++ bc, acc.2 ++ res))
    (s, [], []) msgs.

Definition posted (tr : list Event) : list TMsg :=
  omap (fun e => match e with Posted m => Some m | _ => None end) tr.
Definition received (tr : list Event) : list TMsg :=
  omap (fun e => match e with Received m => Some m | _ => None end) tr.
Definition taken_off (tr : list Event) : list TMsg :=
  omap (fun e => match e with
                 | Received m | Panicked m => Some m | _ => None end) tr.
Definition taken (tr : list Event) : list TRes :=
  omap (fun e => match e with Taken r => Some r | _ => None end) tr.
End Manager.
Arguments ServiceManager TSvc TMsg TRes : clear implicits.
Arguments Event TMsg TRes : clear implicits.
End Manager.

(** * Properties *)

(** ** Go's [int] *)

Section GoIntFacts.
Local Open Scope Z_scope.

Lemma wrap_id z : GoInt.in_range z -> GoInt.wrap z = z.
Proof.
  unfold GoInt.in_range, GoInt.wrap. intros Hz.
  rewrite Z.mod_small; lia.
Qed.

Lemma add_small a b : GoInt.in_range (a + b) -> GoInt.add a b = a + b.
Proof. apply wrap_id. Qed.

Lemma sub_small a b : GoInt.in_range (a - b) -> GoInt.sub a b = a - b.
Proof. apply wrap_id. Qed.

Lemma mul_small a b : GoInt.in_range (a * b) -> GoInt.mul a b = a * b.
Proof. apply wrap_id. Qed.
End GoIntFacts.

(** ** A-Cast: delivery is latched *)

Section ACastFacts.
Import ACast.
Context {T : Type} `{Countable T}.
Implicit Types (a : AcastService T) (inst : ACastInstance T)
  (msg : ACastMessage T) (u : string).

Lemma set_instances_same a : set_instances a (instances a) = a.
Proof. by destruct a. Qed.

Lemma onInstance_delivered a inst msg :
  delivered inst = true -> onInstance a inst msg = (inst, [], []).
Proof. intros Hd. unfold onInstance. by rewrite Hd. Qed.

(** A run of the handler on one instance emits at most one result, and
    when it emits one the instance is delivered afterwards; a delivered
    instance stays delivered. *)
Lemma onInstance_results a inst msg inst' bc res :
  onInstance a inst msg = (inst', bc, res) ->
  (res = [] \/ (exists v, res = [v]) /\ delivered inst' = true)
  /\ (delivered inst = true -> delivered inst' = true).
Proof.
  unfold onInstance. destruct (delivered inst) eqn:Hd.
  { intros [= <- <- <-]. auto. }
  destruct (Type_ msg) as [|[p|p|]|p];
    try (intros [= <- <- <-]; by naive_solver).
  - (* MSG *)
    destruct (sentEcho inst); intros [= <- <- <-]; simpl; naive_solver.
  - (* READY *)
    destruct p as [p|p|]; try (intros [= <- <- <-]; by naive_solver).
    destruct (addToSet (receivedReady inst) _ _) as [rr count].
    case_match; intros [= <- <- <-]; simpl; naive_solver.
  - (* ECHO *)
    destruct (addToSet (receivedEcho inst) _ _) as [re count].
    case_match; intros [= <- <- <-]; simpl; naive_solver.
Qed.

Lemma OnMessage_delivered a msg :
  is_delivered a (UUID msg) = true -> OnMessage a msg = (a, [], []).
Proof.
  unfold is_delivered, OnMessage, getInstance.
  destruct (instances a !! UUID msg) as [inst|] eqn:Hi; [|done].
  intros Hd. rewrite (onInstance_delivered _ _ _ Hd).
  by rewrite insert_id, set_instances_same.
Qed.

Lemma OnMessage_results a msg a' bc res :
  OnMessage a msg = (a', bc, res) ->
  (res = [] \/ (exists v, res = [v]) /\ is_delivered a' (UUID msg) = true)
  /\ (forall u, is_delivered a u = true -> is_delivered a' u = true).
Proof.
  unfold OnMessage.
  destruct (getInstance a (UUID msg)) as [a1 inst] eqn:Hg.
  destruct (onInstance a1 inst msg) as [[inst' bc'] res'] eqn:Ho.
  intros [= <- <- <-].
  destruct (onInstance_results _ _ _ _ _ _ Ho) as [Hres Hmono].
  assert (Hlk : forall u, is_delivered a u = true ->
                  u = UUID msg -> delivered inst = true).
  { intros u Hu ->. revert Hu Hg. unfold is_delivered, getInstance.
    destruct (instances a !! UUID msg); [|done]. by intros ? [= _ <-]. }
  split.
  - destruct Hres as [->|[Hv Hd]]; [by left|right]. split; [done|].
    unfold is_delivered. simpl. by rewrite lookup_insert_eq.
  - intros u Hu. unfold is_delivered. simpl.
    destruct (decide (UUID msg = u)) as [<-|Hne].
    + rewrite lookup_insert_eq. apply Hmono. by eapply Hlk.
    + rewrite lookup_insert_ne by done.
      revert Hu Hg. unfold is_delivered, getInstance.
      destruct (instances a !! UUID msg); intros Hu [= <- _]; [done|].
      simpl. by rewrite lookup_insert_ne.
Qed.

Lemma run_delivered_none a msgs u :
  is_delivered a u = true -> deliveries u (run a msgs).2 = [].
Proof.
  revert a. induction msgs as [|msg rest IH]; intros a Hd; [done|].
  simpl. destruct (OnMessage a msg) as [[a' bc] res] eqn:Ho.
  destruct (run a' rest) as [a'' tr] eqn:Hr. simpl.
  destruct (OnMessage_results _ _ _ _ _ Ho) as [_ Hmono].
  specialize (IH a' (Hmono _ Hd)). rewrite Hr in IH. simpl in IH.
  case_decide as Hu; [|done]. subst u.
  rewrite (OnMessage_delivered _ _ Hd) in Ho. injection Ho as <- <- <-.
  by rewrite IH.
Qed.

Lemma run_deliveries_le_1 a msgs u :
  (length (deliveries u (run a msgs).2) <= 1)%nat.
Proof.
  revert a. induction msgs as [|msg rest IH]; intros a; [simpl; lia|].
  simpl. destruct (OnMessage a msg) as [[a' bc] res] eqn:Ho.
  destruct (run a' rest) as [a'' tr] eqn:Hr. simpl.
  specialize (IH a') as IH'. rewrite Hr in IH'. simpl in IH'.
  case_decide as Hu; [|done]. subst u.
  destruct (OnMessage_results _ _ _ _ _ Ho) as [[->|[[v ->] Hd]] _]; [done|].
  pose proof (run_delivered_none a' rest _ Hd) as Hn.
  rewrite Hr in Hn. simpl in Hn. rewrite Hn. simpl. lia.
Qed.

(** C3. For every uuid and every sequence of messages handled by a node
    (from any service state), at most one Deliver result is emitted for
    that uuid; and once the instance of a uuid is delivered, handling any
    message for that uuid leaves the whole service state unchanged and
    causes no broadcast and no result. *)
Theorem acast_deliver_at_most_once a msgs u :
  (length (deliveries u (run a msgs).2) <= 1)%nat
  /\ (forall msg, UUID msg = u -> is_delivered a u = true ->
        OnMessage a msg = (a, [], [])).
Proof.
  split; [apply run_deliveries_le_1|].
  intros msg <- Hd. by apply OnMessage_delivered.
Qed.
End ACastFacts.

(** A node with [n = 4], [t = 1] that has handled three READY messages
    for uuid ["u"]: the instance is delivered. *)
Definition acast_delivered_example : ACast.AcastService string :=
  (ACast.run (ACast.NewAcastService 1 4 1)
     [ACast.mkMsg ACast.READY "u" "v" 1;
      ACast.mkMsg ACast.READY "u" "v" 2;
      ACast.mkMsg ACast.READY "u" "v" 3]).1.

Lemma acast_deliver_at_most_once_witness :
  ACast.is_delivered acast_delivered_example "u" = true
  /\ ACast.OnMessage acast_delivered_example (ACast.mkMsg ACast.ECHO "u" "w" 4)
     = (acast_delivered_example, [], []).
Proof.
  assert (Hd : ACast.is_delivered acast_delivered_example "u" = true)
    by (vm_compute; reflexivity).
  split; [exact Hd|].
  exact (proj2 (acast_deliver_at_most_once acast_delivered_example [] "u")
           (ACast.mkMsg ACast.ECHO "u" "w" 4) eq_refl Hd).
Defined.

(** A MSG never makes the A-Cast handler deliver: the local handling in
    [Vote.startACast] and [ABA.broadcastComplete] produces no result. *)
Lemma OnMessage_MSG_quiet {T : Type} `{Countable T}
    (a : ACast.AcastService T) (msg : ACast.ACastMessage T) :
  ACast.Type_ msg = ACast.MSG -> (ACast.OnMessage a msg).2 = [].
Proof.
  intros Hty. unfold ACast.OnMessage.
  destruct (ACast.getInstance a (ACast.UUID msg)) as [a1 inst].
  unfold ACast.onInstance. rewrite Hty. simpl.
  destruct (ACast.delivered inst); [done|].
  by destruct (ACast.sentEcho inst).
Qed.

(** ** ABA: the COMPLETE gadget decides once *)

Section ABAFacts.
Import ABA.
Local Open Scope Z_scope.
Variable payloadString : CompletePayload -> string.
Variable ParseCompletePayload : string -> option CompletePayload.
Variable uuidHash : string -> Z -> Z -> string.

Local Abbreviation handle :=
  (handleCompleteDelivery payloadString ParseCompletePayload uuidHash).
Local Abbreviation bcast := (broadcastComplete payloadString uuidHash).
Local Abbreviation runAll :=
  (deliverAll payloadString ParseCompletePayload uuidHash).

(** The senders recorded for value [v]. *)
Definition senders_of (s : ABAService) (v : Z) : gset Z :=
  default ∅ (completeCounts s !! v).

(** No value has reached the decision threshold. *)
Definition below_threshold (s : ABAService) : Prop :=
  forall v, Z.of_nat (size (senders_of s v)) < t s + 1.

(** What the node broadcasts when it A-Casts its own COMPLETE([v]): the
    MSG that carries the payload [{Sender: id, Value: v}], with the uuid
    hashed from that string, the node's id and the clock, followed by
    what the node's own A-Cast service broadcasts when it handles that
    MSG; each one inside an [ABA_Complete] message. *)
Definition own_complete (s : ABAService) (v now : Z) : list ABAMessage :=
  let val := payloadString {| Sender := id s; Value := v |} in
  let msg :=
    {| ACast.Type_ := ACast.MSG; ACast.UUID := uuidHash val (id s) now;
       ACast.Val := val; ACast.From := id s |} in
  {| msg_Type := ABA_Complete; msg_Round := 0; VoteMsg := None;
     CompleteMsg := Some msg |}
  :: ((fun m => {| msg_Type := ABA_Complete; msg_Round := 0;
                   VoteMsg := None; CompleteMsg := Some m |})
      <$> (ACast.OnMessage (acastComplete s) msg).1.2).

Lemma broadcastComplete_fields s v now s' bc :
  bcast s v now = (s', bc) ->
  t s' = t s /\ completeCounts s' = completeCounts s
  /\ decided s' = decided s /\ decision s' = decision s
  /\ hasBroadcastComplete s' = hasBroadcastComplete s
  /\ bc = own_complete s v now.
Proof.
  unfold broadcastComplete, own_complete.
  destruct (ACast.OnMessage _ _) as [[a' bc'] res'].
  intros [= <- <-]. simpl. by repeat split.
Qed.

(** What one delivery does. *)
Lemma handle_step s valStr now p s' bc res :
  ParseCompletePayload valStr = Some p ->
  GoInt.in_range (t s + 1) ->
  handle s valStr now = (s', bc, res) ->
  let senders := {[Sender p]} ∪ senders_of s (Value p) in
  t s' = t s
  /\ completeCounts s' = <[Value p := senders]> (completeCounts s)
  /\ ((Z.of_nat (size senders) >= t s + 1 /\ decided s = false
        /\ decided s' = true /\ decision s' = Value p /\ res = [Value p]
        /\ hasBroadcastComplete s' = true
        /\ (if hasBroadcastComplete s then bc = []
            else bc = own_complete s (Value p) now))
      \/ (~ (Z.of_nat (size senders) >= t s + 1 /\ decided s = false)
          /\ res = [] /\ bc = [] /\ decided s' = decided s
          /\ decision s' = decision s
          /\ hasBroadcastComplete s' = hasBroadcastComplete s)).
Proof.
  intros Hp Hr. unfold handleCompleteDelivery. rewrite Hp.
  rewrite add_small by done. unfold GoInt.len, senders_of. simpl.
  case_bool_decide as Hc; simpl.
  - destruct (decided s) eqn:Hd; simpl.
    + intros [= <- <- <-]. simpl. split_and!; try done.
      right. split_and!; try done. intros [_ ?]; done.
    + destruct (hasBroadcastComplete s) eqn:Hb; simpl.
      * intros [= <- <- <-]. simpl. rewrite Hb. split_and!; try done.
        left. by split_and!.
      * destruct (bcast _ _ _) as [s3 bc3] eqn:Hbc.
        intros [= <- <- <-]. simpl.
        apply broadcastComplete_fields in Hbc
          as (Ht & Hcc & Hdd & Hdv & _ & ->). simpl in *.
        split_and!; try done. left. by split_and!.
  - intros [= <- <- <-]. simpl. split_and!; try done.
    right. split_and!; try done. intros [? _]; done.
Qed.

Lemma handle_parse_error s valStr now :
  ParseCompletePayload valStr = None -> handle s valStr now = (s, [], []).
Proof. intros Hp. unfold handleCompleteDelivery. by rewrite Hp. Qed.

Lemma senders_of_insert s s' v (X : gset Z) w :
  completeCounts s' = <[v := X ∪ senders_of s v]> (completeCounts s) ->
  senders_of s w ⊆ senders_of s' w
  /\ senders_of s' v = X ∪ senders_of s v
  /\ (w <> v -> senders_of s' w = senders_of s w).
Proof.
  intros Hcc. unfold senders_of at 2 3 5. rewrite Hcc.
  rewrite lookup_insert_eq. simpl. split_and!; [|done|].
  - destruct (decide (v = w)) as [->|Hne].
    + rewrite lookup_insert_eq. simpl. set_solver.
    + rewrite lookup_insert_ne by done. done.
  - intros Hne. by rewrite lookup_insert_ne.
Qed.

(** Once decided, nothing more is emitted, and the decision is kept. *)
Lemma run_decided vals : forall s,
  GoInt.in_range (t s + 1) ->
  decided s = true -> ~ below_threshold s ->
  let '(s', tr) := runAll s vals in
  concat tr = [] /\ decided s' = true /\ decision s' = decision s
  /\ ~ below_threshold s'.
Proof.
  induction vals as [|[v now] rest IH]; intros s Hr Hd Hb; [done|].
  simpl. destruct (handle s v now) as [[s1 bc] res] eqn:Hh.
  destruct (ParseCompletePayload v) as [p|] eqn:Hp.
  - destruct (handle_step _ _ _ _ _ _ _ Hp Hr Hh)
      as (Ht & Hcc & [(_ & Hnd & _)|(_ & -> & _ & Hd1 & Hv1 & _)]);
      [congruence|].
    assert (Hb1 : ~ below_threshold s1).
    { intros Hbel. apply Hb. intros w. specialize (Hbel w).
      destruct (senders_of_insert _ _ _ _ w Hcc) as (Hsub & _).
      apply subseteq_size in Hsub. lia. }
    specialize (IH s1). rewrite Ht, Hd1, Hd in IH.
    specialize (IH Hr eq_refl Hb1).
    destruct (runAll s1 rest) as [s2 tr]. simpl.
    destruct IH as (-> & ? & ? & ?). split_and!; try done. congruence.
  - rewrite (handle_parse_error _ _ _ Hp) in Hh. injection Hh as <- <- <-.
    specialize (IH s Hr Hd Hb).
    by destruct (runAll s rest) as [s2 tr].
Qed.

(** From an undecided state in which no value has reached the threshold:
    the decision is emitted exactly when some value reaches it, and only
    once. *)
Lemma run_undecided vals : forall s,
  GoInt.in_range (t s + 1) ->
  decided s = false -> below_threshold s ->
  let '(s', tr) := runAll s vals in
  (below_threshold s' /\ concat tr = [] /\ decided s' = false)
  \/ (~ below_threshold s' /\ concat tr = [decision s']
      /\ decided s' = true).
Proof.
  induction vals as [|[v now] rest IH]; intros s Hr Hd Hb; [by left|].
  simpl. destruct (handle s v now) as [[s1 bc] res] eqn:Hh.
  destruct (ParseCompletePayload v) as [p|] eqn:Hp.
  - destruct (handle_step _ _ _ _ _ _ _ Hp Hr Hh)
      as (Ht & Hcc & [(Hge & _ & Hd1 & Hv1 & -> & _)
                      |(Hnot & -> & _ & Hd1 & Hv1 & _)]).
    + (* this delivery decides *)
      assert (Hb1 : ~ below_threshold s1).
      { intros Hbel. specialize (Hbel (Value p)).
        destruct (senders_of_insert _ _ _ _ (Value p) Hcc) as (_ & Heq & _).
        rewrite Heq, Ht in Hbel. lia. }
      pose proof (run_decided rest s1) as Hrun. rewrite Ht in Hrun.
      specialize (Hrun Hr Hd1 Hb1).
      destruct (runAll s1 rest) as [s2 tr]. simpl.
      destruct Hrun as (-> & ? & -> & ?). right. by rewrite Hv1.
    + (* still below the threshold *)
      assert (Hb1 : below_threshold s1).
      { intros w. rewrite Ht.
        destruct (senders_of_insert _ _ _ _ w Hcc) as (_ & Heq & Hne).
        destruct (decide (w = Value p)) as [->|Hw].
        - rewrite Heq. destruct (decide
            (Z.of_nat (size ({[Sender p]} ∪ senders_of s (Value p)))
             >= t s + 1)); [|lia]. exfalso. by apply Hnot.
        - rewrite Hne by done. apply Hb. }
      specialize (IH s1). rewrite Ht, Hd1, Hd in IH.
      specialize (IH Hr eq_refl Hb1).
      by destruct (runAll s1 rest) as [s2 tr].
  - rewrite (handle_parse_error _ _ _ Hp) in Hh. injection Hh as <- <- <-.
    specialize (IH s Hr Hd Hb).
    by destruct (runAll s rest) as [s2 tr].
Qed.

(** C4. One A-Cast delivery of COMPLETE(sender, v) inserts the sender
    into [completeCounts[v]]; if that set now has at least [t+1] members
    and the node is undecided, the node sets [decided], sets [decision]
    to [v], emits [v] to the driver, and, unless it had already broadcast
    its own COMPLETE, A-Casts COMPLETE(v) and sets
    [hasBroadcastComplete]: it broadcasts the A-Cast MSG from itself
    whose value is the payload [{Sender: id, Value: v}] as a string and
    whose uuid is hashed from that string, its id and the clock, and
    then whatever its own A-Cast service broadcasts on handling that MSG
    (its ECHO), each inside an [ABA_Complete] message; otherwise nothing
    is emitted or broadcast and the three flags are unchanged.  Over a whole run of deliveries from an undecided
    state below the threshold, the decision is emitted exactly once if
    some value reaches the threshold and never otherwise. *)
Theorem complete_gadget s valStr now p vals :
  ParseCompletePayload valStr = Some p ->
  GoInt.in_range (t s + 1) ->
  (let '(s', bc, res) := handle s valStr now in
   let senders := {[Sender p]} ∪ senders_of s (Value p) in
   completeCounts s' = <[Value p := senders]> (completeCounts s)
   /\ ((Z.of_nat (size senders) >= t s + 1 /\ decided s = false
         /\ decided s' = true /\ decision s' = Value p /\ res = [Value p]
         /\ hasBroadcastComplete s' = true
         /\ (if hasBroadcastComplete s then bc = []
             else
               let val :=
                 payloadString {| Sender := id s; Value := Value p |} in
               let msg :=
                 {| ACast.Type_ := ACast.MSG;
                    ACast.UUID := uuidHash val (id s) now;
                    ACast.Val := val; ACast.From := id s |} in
               bc = {| msg_Type := ABA_Complete; msg_Round := 0;
                       VoteMsg := None; CompleteMsg := Some msg |}
                    :: ((fun m => {| msg_Type := ABA_Complete;
                                     msg_Round := 0; VoteMsg := None;
                                     CompleteMsg := Some m |})
                        <$> (ACast.OnMessage (acastComplete s) msg).1.2)))
       \/ (~ (Z.of_nat (size senders) >= t s + 1 /\ decided s = false)
           /\ res = [] /\ bc = [] /\ decided s' = decided s
           /\ decision s' = decision s
           /\ hasBroadcastComplete s' = hasBroadcastComplete s)))
  /\ (decided s = false -> below_threshold s ->
      let '(s', tr) := runAll s vals in
      (below_threshold s' /\ concat tr = [] /\ decided s' = false)
      \/ (~ below_threshold s' /\ concat tr = [decision s']
          /\ decided s' = true)).
Proof.
  intros Hp Hr. split.
  - destruct (handle s valStr now) as [[s' bc] res] eqn:Hh.
    by destruct (handle_step _ _ _ _ _ _ _ Hp Hr Hh) as (_ & ? & ?).
  - intros Hd Hb. by apply run_undecided.
Qed.
End ABAFacts.

(** A single-node configuration ([n = 1], [t = 0]) with a codec that
    reads every string as COMPLETE(sender 1, value 1). *)
Definition aba_example : ABA.ABAService := ABA.NewABAService 1 1 0 0.
Definition aba_example_parse (_ : string) : option ABA.CompletePayload :=
  Some (ABA.mkPayload 1 1).
Definition aba_example_string (_ : ABA.CompletePayload) : string := "c".
Definition aba_example_hash (_ : string) (_ _ : Z) : string := "h".

(** Node 1 of four ([t = 1]) has COMPLETE(2, 1) recorded, is undecided
    and has not broadcast its own COMPLETE; the codec writes a payload
    as ["C<sender>,<value>"] and the hash joins its three inputs. *)
Definition gadget_example : ABA.ABAService :=
  ABA.with_completeCounts (ABA.NewABAService 1 4 1 0) {[1%Z := {[2%Z]}]}.
Definition gadget_example_string (p : ABA.CompletePayload) : string :=
  "C" +:+ pretty (ABA.Sender p) +:+ "," +:+ pretty (ABA.Value p).
Definition gadget_example_parse (v : string)
    : option ABA.CompletePayload :=
  if String.eqb v "C3,1" then Some (ABA.mkPayload 3 1)
  else if String.eqb v "C2,1" then Some (ABA.mkPayload 2 1)
  else None.
Definition gadget_example_hash (v : string) (from now : Z) : string :=
  v +:+ "@" +:+ pretty from +:+ "@" +:+ pretty now.

(** The delivery of COMPLETE(3, 1) at clock 7 brings value 1 to two
    senders: the node decides 1 and A-Casts its own COMPLETE(1, 1), the
    MSG followed by its own ECHO. *)
Definition gadget_example_step
    : ABA.ABAService * list ABA.ABAMessage * list Z :=
  ABA.handleCompleteDelivery gadget_example_string gadget_example_parse
    gadget_example_hash gadget_example "C3,1" 7.

Lemma complete_gadget_witness :
  gadget_example_step.2 = [1%Z]
  /\ gadget_example_step.1.2
     = [ABA.mkMessage ABA.ABA_Complete 0 None
          (Some (ACast.mkMsg ACast.MSG "C1,1@1@7" "C1,1" 1%Z));
        ABA.mkMessage ABA.ABA_Complete 0 None
          (Some (ACast.mkMsg ACast.ECHO "C1,1@1@7" "C1,1" 1%Z))]
  /\ ABA.decided gadget_example_step.1.1 = true
  /\ ABA.decision gadget_example_step.1.1 = 1%Z
  /\ ABA.hasBroadcastComplete gadget_example_step.1.1 = true
  /\ ABA.completeCounts gadget_example_step.1.1
     = {[1%Z := {[3%Z; 2%Z]}]}.
Proof.
  assert (Hr : GoInt.in_range (ABA.t gadget_example + 1))
    by (unfold GoInt.in_range; simpl; lia).
  pose proof (proj1 (complete_gadget gadget_example_string
    gadget_example_parse gadget_example_hash gadget_example "C3,1" 7
    (ABA.mkPayload 3 1) [] eq_refl Hr)) as Hstep.
  cbv zeta.
  destruct Hstep as (Hcc & [(_ & _ & Hd & Hv & Hres & Hb & Hbc)|(Hnot & _)]).
  - hnf in Hbc. split_and!.
    + exact Hres.
    + etrans; [exact Hbc|]. vm_compute. reflexivity.
    + exact Hd.
    + exact Hv.
    + exact Hb.
    + etrans; [exact Hcc|]. apply map_eq. intros k.
      destruct (decide (k = 1%Z)) as [->|Hk].
      * rewrite lookup_insert_eq, lookup_singleton_eq. reflexivity.
      * rewrite lookup_insert_ne by done.
        unfold gadget_example. cbn [ABA.completeCounts
          ABA.with_completeCounts].
        by rewrite !lookup_singleton_ne.
  - exfalso. apply Hnot. split; [|reflexivity]. vm_compute. discriminate.
Defined.

(** ** Vote: how the sets B and C are formed *)

Section VoteFacts.
Import Vote.
Local Open Scope Z_scope.
Variable payloadString : VotePayload -> string.
Variable uuidHash : string -> Z -> Z -> string.

Local Abbreviation check := (checkProgress payloadString uuidHash).

Lemma isSubset_spec sub super :
  isSubset sub super = true <-> forall v, v ∈ sub -> v ∈ super.
Proof.
  unfold isSubset. rewrite forallb_forall. split.
  - intros Hall v Hv. apply list_elem_of_In, Hall in Hv.
    by apply bool_decide_eq_true in Hv.
  - intros Hall v Hv. apply bool_decide_eq_true, Hall.
    by apply list_elem_of_In.
Qed.

Lemma elem_of_valid_senders (m : gmap Z (list Z * Z)) super j :
  j ∈ valid_senders m super
  <-> exists d, m !! j = Some d /\ isSubset d.1 super = true.
Proof.
  unfold valid_senders. rewrite list_elem_of_fmap. split.
  - intros ([k d] & -> & Hin). apply list_elem_of_filter in Hin as [Hsub Hin].
    apply elem_of_map_to_list in Hin. by exists d.
  - intros (d & Hj & Hsub). exists (j, d). split; [done|].
    apply list_elem_of_filter. split; [done|]. by apply elem_of_map_to_list.
Qed.

Lemma NoDup_valid_senders (m : gmap Z (list Z * Z)) super :
  NoDup (valid_senders m super).
Proof.
  unfold valid_senders.
  apply (NoDup_fmap_fst _).
  - intros k d1 d2 H1 H2.
    apply list_elem_of_filter in H1 as [_ H1], H2 as [_ H2].
    apply elem_of_map_to_list in H1, H2. congruence.
  - apply NoDup_filter, NoDup_map_to_list.
Qed.

(** The senders whose input has been delivered so far. *)
Definition inputs (st : voteRoundState) : gset Z := dom (receivedInputs st).

(** Following the code: the senders [j] of a delivered VOTE1 whose set
    [A_j] lies within the inputs delivered so far. *)
Definition valid_vote1 (st : voteRoundState) : gset Z :=
  dom (filter (fun kv : Z * (list Z * Z) =>
                 Forall (fun x => x ∈ inputs st) kv.2.1)
         (receivedVote1 st)).

(** The senders [j] of a delivered REVOTE whose set [B_j] lies within
    [valid_vote1]. *)
Definition valid_revote (st : voteRoundState) : gset Z :=
  dom (filter (fun kv : Z * (list Z * Z) =>
                 Forall (fun x => x ∈ valid_vote1 st) kv.2.1)
         (receivedRevote st)).

Lemma elem_of_valid_vote1 st j :
  j ∈ valid_vote1 st
  <-> exists d, receivedVote1 st !! j = Some d
               /\ forall x, x ∈ d.1 -> x ∈ inputs st.
Proof.
  unfold valid_vote1. rewrite elem_of_dom. split.
  - intros [d Hd]. apply map_lookup_filter_Some in Hd as [Hd HF].
    exists d. split; [done|]. by apply Forall_forall.
  - intros (d & Hd & HF). exists d. apply map_lookup_filter_Some.
    split; [done|]. by apply Forall_forall.
Qed.

Lemma elem_of_valid_revote st j :
  j ∈ valid_revote st
  <-> exists d, receivedRevote st !! j = Some d
               /\ forall x, x ∈ d.1 -> x ∈ valid_vote1 st.
Proof.
  unfold valid_revote. rewrite elem_of_dom. split.
  - intros [d Hd]. apply map_lookup_filter_Some in Hd as [Hd HF].
    exists d. split; [done|]. by apply Forall_forall.
  - intros (d & Hd & HF). exists d. apply map_lookup_filter_Some.
    split; [done|]. by apply Forall_forall.
Qed.

Lemma all_inputs_spec st x :
  x ∈ (map_to_list (receivedInputs st)).*1 <-> x ∈ inputs st.
Proof.
  unfold inputs. rewrite elem_of_dom, list_elem_of_fmap. split.
  - intros ([k b] & -> & Hin). apply elem_of_map_to_list in Hin. by exists b.
  - intros [b Hb]. exists (x, b). split; [done|].
    by apply elem_of_map_to_list.
Qed.

(** The list [validVote1s] of the code holds exactly [valid_vote1]. *)
Lemma validVote1s_spec st :
  list_to_set
    (valid_senders (receivedVote1 st) (map_to_list (receivedInputs st)).*1)
  = valid_vote1 st.
Proof.
  apply set_eq. intros j.
  rewrite elem_of_list_to_set, elem_of_valid_senders, elem_of_valid_vote1.
  split; intros (d & Hd & Hsub); exists d; (split; [done|]).
  - intros x Hx. apply all_inputs_spec.
    by apply (proj1 (isSubset_spec _ _) Hsub).
  - apply isSubset_spec. intros x Hx. by apply all_inputs_spec, Hsub.
Qed.

Lemma validRevotes_spec st (vv : list Z) :
  list_to_set vv = valid_vote1 st ->
  list_to_set (valid_senders (receivedRevote st) vv) = valid_revote st.
Proof.
  intros Hvv. apply set_eq. intros j.
  rewrite elem_of_list_to_set, elem_of_valid_senders, elem_of_valid_revote.
  split; intros (d & Hd & Hsub); exists d; (split; [done|]).
  - intros x Hx. rewrite <- Hvv, elem_of_list_to_set.
    by apply (proj1 (isSubset_spec _ _) Hsub).
  - apply isSubset_spec. intros x Hx.
    apply Hsub in Hx. by rewrite <- Hvv, elem_of_list_to_set in Hx.
Qed.

Lemma length_NoDup_size (l : list Z) :
  NoDup l -> length l = size (list_to_set l : gset Z).
Proof. intros Hnd. by rewrite size_list_to_set. Qed.

Lemma list_to_set_merge_sort (l : list Z) :
  list_to_set (merge_sort Z.le l) =@{gset Z} list_to_set l.
Proof.
  apply set_eq. intros x. rewrite !elem_of_list_to_set.
  by rewrite merge_sort_Permutation.
Qed.

Lemma phase1_fields s st now s1 st1 bc :
  phase1 payloadString uuidHash s st now = (s1, st1, bc) ->
  n s1 = n s /\ t s1 = t s
  /\ receivedInputs st1 = receivedInputs st
  /\ receivedVote1 st1 = receivedVote1 st
  /\ receivedRevote st1 = receivedRevote st
  /\ sentRevote st1 = sentRevote st
  /\ finished st1 = finished st.
Proof.
  unfold phase1. case_match.
  - unfold startACast. destruct (ACast.OnMessage _ _) as [[a' bc'] r'].
    by intros [= <- <- <-].
  - by intros [= <- <- <-].
Qed.

Lemma phase2_spec s st now vv s2 st2 bc :
  phase2 payloadString uuidHash s st now vv = (s2, st2, bc) ->
  n s2 = n s /\ t s2 = t s
  /\ receivedInputs st2 = receivedInputs st
  /\ receivedVote1 st2 = receivedVote1 st
  /\ receivedRevote st2 = receivedRevote st
  /\ sentVote1 st2 = sentVote1 st
  /\ finished st2 = finished st
  /\ ((sentVote1 st = true /\ sentRevote st = false
        /\ GoInt.len (length vv) >= GoInt.sub (n s) (t s)
        /\ sentRevote st2 = true /\ myB st2 = merge_sort Z.le vv)
      \/ (~ (sentVote1 st = true /\ sentRevote st = false
             /\ GoInt.len (length vv) >= GoInt.sub (n s) (t s))
          /\ sentRevote st2 = sentRevote st /\ myB st2 = myB st)).
Proof.
  unfold phase2.
  destruct (sentVote1 st) eqn:H1, (sentRevote st) eqn:H2; simpl;
    try (intros [= <- <- <-]; split_and!; try done; right;
         split_and!; try done; by intros (? & ? & ?)).
  case_bool_decide as Hlen.
  - unfold startACast. destruct (ACast.OnMessage _ _) as [[a' bc'] r'].
    intros [= <- <- <-]. simpl. split_and!; try done. left. by split_and!.
  - intros [= <- <- <-]. split_and!; try done. right.
    split_and!; try done. by intros (? & ? & ?).
Qed.

Lemma finish_fields st v c st' res :
  finish st v c = (st', res) ->
  myC st' = myC st /\ myB st' = myB st /\ sentRevote st' = sentRevote st
  /\ sentVote1 st' = sentVote1 st /\ finished st' = true /\ res <> [].
Proof. by intros [= <- <-]. Qed.

Lemma phase3_spec s st vr st3 res :
  phase3 s st vr = (st3, res) ->
  myB st3 = myB st /\ sentRevote st3 = sentRevote st
  /\ sentVote1 st3 = sentVote1 st
  /\ ((sentRevote st = true
        /\ GoInt.len (length vr) >= GoInt.sub (n s) (t s)
        /\ res <> [] /\ finished st3 = true
        /\ myC st3 = merge_sort Z.le vr)
      \/ (~ (sentRevote st = true
             /\ GoInt.len (length vr) >= GoInt.sub (n s) (t s))
          /\ res = [] /\ st3 = st)).
Proof.
  unfold phase3. destruct (sentRevote st) eqn:H2; simpl;
    [|intros [= <- <-]; split_and!; try done; right;
      split_and!; try done; by intros (? & ?)].
  case_bool_decide as Hlen;
    [|intros [= <- <-]; split_and!; try done; right;
      split_and!; try done; by intros (? & ?)].
  destruct (allSame _ _) as [fv sameB].
  destruct (sameB && _).
  { intros Hf. apply finish_fields in Hf as (? & ? & ? & ? & ? & ?).
    simpl in *. split_and!; try done. left. by split_and!. }
  destruct (allSame _ _) as [fvc sameC].
  destruct (sameC && _);
    intros Hf; apply finish_fields in Hf as (? & ? & ? & ? & ? & ?);
    simpl in *; split_and!; try done; left; by split_and!.
Qed.

(** C1 (amended). In one run of [checkProgress]: the node fixes [myB]
    exactly when it has sent VOTE1, has not yet sent REVOTE, and the set
    of senders [j] whose VOTE1 set [A_j] lies within the inputs delivered
    so far has at least [n - t] members; [myB] then holds exactly those
    senders.  Likewise it fixes [myC] (and finishes) exactly when REVOTE
    is sent and the set of senders [j] whose REVOTE set [B_j] lies within
    that valid VOTE1 set has at least [n - t] members, and [myC] holds
    exactly those senders. *)
Theorem vote_sets_follow_delivered_inputs s st now1 now2 :
  GoInt.in_range (n s - t s) ->
  let '(s', st', bc, res) := check s st now1 now2 in
  (sentRevote st = false ->
     (sentRevote st' = true
      <-> sentVote1 st' = true
          /\ Z.of_nat (size (valid_vote1 st)) >= n s - t s)
     /\ (sentRevote st' = true ->
         list_to_set (myB st') = valid_vote1 st))
  /\ (res <> []
      <-> sentRevote st' = true
          /\ Z.of_nat (size (valid_revote st)) >= n s - t s)
  /\ (res <> [] -> list_to_set (myC st') = valid_revote st).
Proof.
  intros Hr. unfold checkProgress.
  destruct (phase1 _ _ s st now1) as [[s1 st1] bc1] eqn:H1.
  destruct (phase2 _ _ s1 st1 now2 _) as [[s2 st2] bc2] eqn:H2.
  destruct (phase3 s2 st2 _) as [st3 res] eqn:H3.
  apply phase1_fields in H1 as (Hn1 & Ht1 & Hi1 & Hv1 & Hr1 & Hsr1 & _).
  apply phase2_spec in H2
    as (Hn2 & Ht2 & Hi2 & Hv2 & Hr2 & Hsv2 & _ & Hp2).
  apply phase3_spec in H3 as (HB3 & Hsr3 & Hsv3 & Hp3).
  rewrite Hn2, Ht2, Hn1, Ht1 in Hp3. rewrite Hn1, Ht1 in Hp2.
  rewrite sub_small in Hp2, Hp3 by done.
  rewrite Hv1 in Hp2, Hp3. rewrite Hr2, Hr1 in Hp3.
  set (vv := valid_senders (receivedVote1 st) _) in *.
  assert (Hvv : list_to_set vv = valid_vote1 st) by apply validVote1s_spec.
  assert (Hlen : GoInt.len (length vv) = Z.of_nat (size (valid_vote1 st))).
  { unfold GoInt.len. rewrite <- Hvv. f_equal.
    apply length_NoDup_size, NoDup_valid_senders. }
  set (vr := valid_senders (receivedRevote st) vv) in *.
  assert (Hvr : list_to_set vr = valid_revote st)
    by by apply validRevotes_spec.
  assert (Hlen' : GoInt.len (length vr) = Z.of_nat (size (valid_revote st))).
  { unfold GoInt.len. rewrite <- Hvr. f_equal.
    apply length_NoDup_size, NoDup_valid_senders. }
  rewrite Hlen in Hp2. rewrite Hlen' in Hp3.
  rewrite Hsr3, HB3, Hsv3.
  split_and!.
  - intros Hs0. rewrite Hs0 in Hsr1. rewrite Hsr1 in Hp2.
    destruct Hp2 as [(Ha & _ & Hb & Hc & Hd)|(Hnot & Hc & Hd)].
    + rewrite Hsv2, Hc, Hd, list_to_set_merge_sort. by split_and!.
    + rewrite Hsv2, Hc. split; [|done]. split; [done|].
      intros [Ha Hb]. exfalso. by apply Hnot.
  - destruct Hp3 as [(Ha & Hb & Hc & _)|(Hnot & -> & _)]; [by split|].
    split; [done|]. intros [Ha Hb]. exfalso. by apply Hnot.
  - intros Hres. destruct Hp3 as [(_ & _ & _ & _ & ->)|(_ & -> & _)]; [|done].
    by rewrite list_to_set_merge_sort.
Qed.
End VoteFacts.

(** A node ([id = 1], [n = 4], [t = 1]) in round 1: the inputs of 1, 2
    and 3 are delivered (the node fixes [myA = [1; 2; 3]] and sends
    VOTE1), then the input of 4, then the VOTE1 of 1 and of 2 with the
    set [[1; 2; 3]].  The VOTE1 of 3, with the set [[1; 2; 4]], comes
    next. *)
Definition vote_example_string (p : Vote.VotePayload) : string :=
  pretty (Vote.pl_Type p) +:+ "/" +:+ pretty (Vote.Sender p).
Definition vote_example_hash (v : string) (from now : Z) : string :=
  v +:+ "@" +:+ pretty from.

Definition vote_example_deliver (s : Vote.VoteService) (p : Vote.VotePayload)
    : Vote.VoteService :=
  (Vote.processDeliveredPayload vote_example_string vote_example_hash
     s p 0 0).1.1.

Definition vote_example_service : Vote.VoteService :=
  fold_left vote_example_deliver
    [Vote.mkPayload Vote.Vote_Input 1 1 [] 1;
     Vote.mkPayload Vote.Vote_Input 2 1 [] 1;
     Vote.mkPayload Vote.Vote_Input 3 1 [] 1;
     Vote.mkPayload Vote.Vote_Input 4 1 [] 1;
     Vote.mkPayload Vote.Vote_Vote1 1 1 [1; 2; 3] 1;
     Vote.mkPayload Vote.Vote_Vote1 2 1 [1; 2; 3] 1]%Z
    (Vote.NewVoteService 1 4 1).

(** The round state on which [checkProgress] runs once the VOTE1 of 3 is
    recorded. *)
Definition vote_example_state : Vote.voteRoundState :=
  Vote.record_payload
    (Vote.getRoundState vote_example_service 1).2
    (Vote.mkPayload Vote.Vote_Vote1 3 1 [1; 2; 4] 1)%Z.

Definition vote_example_after : Vote.voteRoundState :=
  (Vote.checkProgress vote_example_string vote_example_hash
     vote_example_service vote_example_state 0 0).1.1.2.

(** C1 as stated fails: in this step the node forms [myB] and puts
    sender 3 into it, although [A_3 = [1; 2; 4]] is not a subset of the
    set [myA = [1; 2; 3]] fixed in phase 1. *)
Lemma vote_B_counterexample :
  Vote.sentRevote vote_example_state = false
  /\ Vote.sentRevote vote_example_after = true
  /\ Vote.myA vote_example_after = [1; 2; 3]%Z
  /\ Vote.receivedVote1 vote_example_after !! 3%Z = Some ([1; 2; 4]%Z, 1%Z)
  /\ 3%Z ∈ Vote.myB vote_example_after
  /\ ~ (forall x, x ∈ [1; 2; 4]%Z -> x ∈ Vote.myA vote_example_after).
Proof.
  split_and!; try (vm_compute; reflexivity).
  - apply (bool_decide_unpack _). vm_compute. exact I.
  - intros Hsub. specialize (Hsub 4%Z).
    assert (H4 : 4%Z ∈ [1; 2; 4]%Z)
      by (apply (bool_decide_unpack _); vm_compute; exact I).
    apply Hsub in H4. revert H4. apply (bool_decide_eq_false_1 _).
    vm_compute. reflexivity.
Qed.

Lemma vote_sets_follow_delivered_inputs_witness :
  list_to_set (Vote.myB vote_example_after)
  =@{gset Z} valid_vote1 vote_example_state.
Proof.
  assert (Hr : GoInt.in_range
                 (Vote.n vote_example_service - Vote.t vote_example_service))
    by (vm_compute; split; [discriminate|reflexivity]).
  pose proof (vote_sets_follow_delivered_inputs vote_example_string
    vote_example_hash vote_example_service vote_example_state 0 0 Hr) as Hw.
  unfold vote_example_after.
  destruct (Vote.checkProgress _ _ _ _ _ _) as [[[s' st'] bc] res] eqn:E.
  destruct Hw as (HB & _). simpl.
  assert (Hst : st' = vote_example_after)
    by (unfold vote_example_after; by rewrite E).
  apply HB; [reflexivity|]. rewrite Hst. vm_compute. reflexivity.
Defined.

(** ** ICC: the decision check *)

Section ICCFacts.
Import ICC.
Local Open Scope Z_scope.
Implicit Types (s : ICCService) (fs : FinalSet).

(** The claim's [value[k][j]] read off the table itself: [y] is the
    reconstructed value recorded for the secret [j] of the dealer [k]. *)
Definition recorded s (k j y : Z) : Prop :=
  exists row, reconstructedValues s !! k = Some row
              /\ row !! j = Some (Some y).




(** Every [k] in [received_T[j]] has a recorded value, for every [j] of
    the list. *)
Definition computed s (Hs : list Z) : Prop :=
  forall j, j ∈ Hs ->
    exists Tj, receivedT s !! j = Some Tj
               /\ forall k, k ∈ Tj -> exists y, recorded s k j y.

(** A stored pair passes the checks of the decision step. *)
Definition qualifies s fs : Prop :=
  (forall x, x ∈ H fs -> x ∈ myA s)
  /\ (forall x, x ∈ S fs -> x ∈ myS s)
  /\ computed s (H fs).


Lemma isSubset_elem sub super :
  isSubset sub super = true <-> forall v, v ∈ sub -> v ∈ super.
Proof.
  unfold isSubset. rewrite forallb_forall. split.
  - intros Hall v Hv. apply list_elem_of_In, Hall in Hv.
    by apply bool_decide_eq_true in Hv.
  - intros Hall v Hv. apply bool_decide_eq_true, Hall.
    by apply list_elem_of_In.
Qed.

(** The lookup of the code finds exactly the recorded values. *)
Lemma value_recorded s k j y :
  value s k j = Some y <-> recorded s k j y.
Proof.
  unfold value, recorded. split.
  - destruct (reconstructedValues s !! k) as [row|]; [|done]. simpl.
    destruct (row !! j) as [o|] eqn:Hj; [|done]. simpl. intros ->.
    by exists row.
  - intros (row & -> & Hj). simpl. by rewrite Hj.
Qed.



Lemma sum_loop_inv s j Tj : forall acc r,
  foldlM (fun sum k => v ← value s k j; Some (sum + v)) acc Tj = Some r ->
  forall k, k ∈ Tj -> exists y, recorded s k j y.
Proof.
  induction Tj as [|k rest IH]; intros acc r Hf k' Hk'; [set_solver|].
  simpl in Hf. destruct (value s k j) as [v|] eqn:Hv; [|done]. simpl in Hf.
  apply elem_of_cons in Hk' as [->|Hk'].
  - exists v. by apply value_recorded.
  - by eapply IH.
Qed.


Lemma scan_H_not_computed s Hs : forall hz,
  u s <> 0 -> ~ computed s Hs -> scan_H s Hs hz = Some None.
Proof.
  induction Hs as [|j rest IH]; intros hz Hu Hc; simpl.
  - exfalso. apply Hc. intros j Hj. set_solver.
  - destruct (receivedT s !! j) as [Tj|] eqn:HTj; [|done].
    destruct (sum_for s j Tj) as [sum|] eqn:Hsum; [|done].
    unfold mod_u. rewrite bool_decide_eq_false_2 by done. simpl.
    apply IH; [done|]. intros Hrest. apply Hc. intros j' Hj'.
    apply elem_of_cons in Hj' as [->|Hj']; [|by apply Hrest].
    exists Tj. split; [done|]. by eapply sum_loop_inv.
Qed.









End ICCFacts.






(** ** IVSS: the uuid of the A-Casts it starts *)

Section IVSSUuid.
Import IVSS.
Local Open Scope Z_scope.
Variable payloadString : IVSSPayload -> string.

(** The uuid carried by a broadcast wrapper. *)
Definition uuid_in (m : IVSSMessage) : option string :=
  ACast.UUID <$> ACastMsg m.

Lemma startACast_uuid s payload :
  uuid_in (startACast payloadString s payload) = Some (uuid_of (id s) payload).
Proof. reflexivity. Qed.

(** C7 (amended). Every A-Cast that the IVSS layer starts is a MSG whose
    uuid is determined by the payload type: ["{InstanceID}-MSET"] for an
    MSET payload, ["{InstanceID}-REVEAL-{id}"] and
    ["{InstanceID}-READY-{id}"] with the node's own id for REVEAL and
    READY payloads (the handlers put that id into [RevealSender]), and
    ["{InstanceID}-0-[{i} {j}]"] for an EQUAL(i, j) payload: the payload
    type printed as a number and the pair printed as a Go array. *)
Theorem ivss_uuid_structure s payload :
  (pl_Type payload = Payload_Equal ->
     uuid_in (startACast payloadString s payload)
     = Some (pl_InstanceID payload +:+ "-0-["
             +:+ pretty (EqualPair payload).1 +:+ " "
             +:+ pretty (EqualPair payload).2 +:+ "]"))
  /\ (pl_Type payload = Payload_MSet ->
     uuid_in (startACast payloadString s payload)
     = Some (pl_InstanceID payload +:+ "-MSET"))
  /\ (pl_Type payload = Payload_Reveal -> RevealSender payload = id s ->
     uuid_in (startACast payloadString s payload)
     = Some (pl_InstanceID payload +:+ "-REVEAL-"
             +:+ pretty (RevealSender payload)))
  /\ (pl_Type payload = Payload_Ready -> RevealSender payload = id s ->
     uuid_in (startACast payloadString s payload)
     = Some (pl_InstanceID payload +:+ "-READY-"
             +:+ pretty (RevealSender payload)))
  /\ (forall inst, RevealSender (reveal_payload s inst) = id s
                   /\ RevealSender (ready_payload s inst) = id s).
Proof.
  rewrite startACast_uuid. unfold uuid_of.
  split_and!; try (intros Hty; rewrite Hty); try done.
  - by intros ->.
  - by intros ->.
Qed.
End IVSSUuid.

(** C7 as stated fails for EQUAL: node 1 A-Casts EQUAL(1, 2) of instance
    ["ICC-1-1-1"] under the uuid ["ICC-1-1-1-0-[1 2]"], not
    ["ICC-1-1-1-EQUAL-1-2"]. *)
Lemma ivss_uuid_equal_counterexample :
  let s := IVSS.NewIVSSService 1 4 1 Cert.NewCertificationProtocol in
  let inst := IVSS.NewIVSSInstance "ICC-1-1-1" 1 in
  uuid_in (IVSS.startACast (fun _ => "") s (IVSS.equal_payload inst (1, 2)%Z))
  = Some "ICC-1-1-1-0-[1 2]"
  /\ uuid_in (IVSS.startACast (fun _ => "") s
               (IVSS.equal_payload inst (1, 2)%Z))
     <> Some "ICC-1-1-1-EQUAL-1-2".
Proof. split; [vm_compute; reflexivity|vm_compute; discriminate]. Qed.

Lemma ivss_uuid_structure_witness :
  let s := IVSS.NewIVSSService 1 4 1 Cert.NewCertificationProtocol in
  let inst := IVSS.NewIVSSInstance "ICC-1-1-1" 1 in
  uuid_in (IVSS.startACast (fun _ => "") s (IVSS.reveal_payload s inst))
  = Some "ICC-1-1-1-REVEAL-1"
  /\ uuid_in (IVSS.startACast (fun _ => "") s (IVSS.ready_payload s inst))
     = Some "ICC-1-1-1-READY-1"
  /\ uuid_in (IVSS.startACast (fun _ => "") s (IVSS.mset_payload inst [1%Z]))
     = Some "ICC-1-1-1-MSET"
  /\ uuid_in (IVSS.startACast (fun _ => "") s
               (IVSS.equal_payload inst (1, 2)%Z))
     = Some "ICC-1-1-1-0-[1 2]".
Proof.
  intros s inst.
  pose proof (ivss_uuid_structure (fun _ => "") s (IVSS.reveal_payload s inst))
    as (_ & _ & Hrev & _).
  pose proof (ivss_uuid_structure (fun _ => "") s (IVSS.ready_payload s inst))
    as (_ & _ & _ & Hrdy & _).
  pose proof (ivss_uuid_structure (fun _ => "") s (IVSS.mset_payload inst [1%Z]))
    as (_ & Hm & _).
  pose proof (ivss_uuid_structure (fun _ => "") s
                (IVSS.equal_payload inst (1, 2)%Z)) as (Heq & _).
  split_and!.
  - exact (Hrev eq_refl eq_refl).
  - exact (Hrdy eq_refl eq_refl).
  - exact (Hm eq_refl).
  - exact (Heq eq_refl).
Defined.

(** ** Transport: broadcast reaches every peer; recipients filter *)

Section Transport.
Import IVSS.
Local Open Scope Z_scope.
Variable payloadString : IVSSPayload -> string.
Variable ParseIVSSPayload : string -> option IVSSPayload.
Variable rangeOrder : list Z -> list Z.
Variable Prime : Z.
Variable revision : Revision.

Local Abbreviation onMessage :=
  (OnMessage payloadString ParseIVSSPayload rangeOrder Prime revision).

Lemma Broadcast_lookup {M : Type} (nw : Net.Network M) (msg : M) (q : Z) :
  Net.peers (Net.Broadcast nw msg) !! q
  = (fun ch => ch ++ [msg]) <$> Net.peers nw !! q.
Proof. unfold Net.Broadcast. simpl. by rewrite lookup_fmap. Qed.

Lemma BroadcastAll_lookup {M : Type} (msgs : list M) :
  forall (nw : Net.Network M) (q : Z),
  Net.peers (Net.BroadcastAll nw msgs) !! q
  = (fun ch => ch ++ msgs) <$> Net.peers nw !! q.
Proof.
  induction msgs as [|m rest IH]; intros nw q; simpl.
  - destruct (Net.peers nw !! q); simpl; [|done]. by rewrite app_nil_r.
  - unfold Net.BroadcastAll in *. simpl. rewrite IH, Broadcast_lookup.
    destruct (Net.peers nw !! q); simpl; [|done].
    by rewrite <- app_assoc.
Qed.

Lemma mapM_Some_elem {A B : Type} (f : A -> option B) (l : list A)
    (k : list B) (x : A) :
  mapM f l = Some k -> x ∈ l -> exists y, f x = Some y /\ y ∈ k.
Proof.
  intros Hm Hx. apply mapM_Some_1 in Hm.
  apply list_elem_of_lookup in Hx as [i Hi].
  destruct (Forall2_lookup_l _ _ _ _ _ Hm Hi) as (y & Hy & Hf).
  exists y. split; [done|]. apply list_elem_of_lookup. by exists i.
Qed.

Lemma elem_of_seqZ_1 (k len : Z) : 1 <= k <= len -> k ∈ seqZ 1 len.
Proof. intros Hk. apply elem_of_seqZ. lia. Qed.

(** C10. [Broadcast] appends the message to the channel of every
    registered peer; there is no sender to leave out.  The Share messages
    of [StartSharing] all go through it: after the dealer's call, the
    channel of every registered peer [q] holds, for every [k] in [1..n],
    the Share message addressed to [k] that carries the slice [F(k, y)]
    (so also the slices of the other nodes).  The same holds for the
    Point messages a node sends when it handles its Share: each of them
    reaches the channel of every registered peer.  A node that handles a
    direct message whose [To] differs from its own id returns without
    touching its state and without output. *)
Theorem broadcast_reaches_all_peers
    (nw : Net.Network IVSSMessage) (s : IVSSService)
    (instanceID : string) (secret : Z) (rnd : Z -> Z -> Z)
    (msgs : list IVSSMessage) (poly : Poly.SymmetricPolynomial) :
  Poly.NewRandomSymmetricPolynomial (t s) secret rnd = Some poly ->
  StartSharing Prime s instanceID secret rnd = Some msgs ->
  (forall (msg : IVSSMessage) q ch,
     Net.peers nw !! q = Some ch ->
     Net.peers (Net.Broadcast nw msg) !! q = Some (ch ++ [msg]))
  /\ (forall q ch k,
        Net.peers nw !! q = Some ch -> 1 <= k <= n s ->
        exists m fk chq,
          Net.peers (Net.BroadcastAll nw msgs) !! q = Some chq
          /\ m ∈ chq
          /\ Poly.GetUnivariatePolynomial Prime poly k = Some fk
          /\ m = {| msg_Type := IVSS_Direct; DirectType := Direct_Share;
                    To := k; From := id s; msg_InstanceID := instanceID;
                    msg_Poly := Some fk; Point := None; PointIdx := 0;
                    ACastMsg := None |})
  /\ (forall (r r' : IVSSService) (msg : IVSSMessage) bc rs q ch j,
        msg_Type msg <> IVSS_ACast -> To msg = id r ->
        DirectType msg = Direct_Share ->
        onMessage r msg = Some (r', bc, rs) ->
        Net.peers nw !! q = Some ch -> 1 <= j <= n r ->
        exists pt p chq,
          msg_Poly msg = Some p
          /\ Net.peers (Net.BroadcastAll nw bc) !! q = Some chq
          /\ pt ∈ chq
          /\ pt = {| msg_Type := IVSS_Direct; DirectType := Direct_Point;
                     To := j; From := id r;
                     msg_InstanceID := msg_InstanceID msg;
                     msg_Poly := None;
                     Point := Some (Poly.Evaluate Prime p j);
                     PointIdx := j; ACastMsg := None |})
  /\ (forall (r : IVSSService) (msg : IVSSMessage),
        msg_Type msg <> IVSS_ACast -> To msg <> id r ->
        onMessage r msg = Some (r, [], [])).
Proof.
  intros Hpoly Hstart. split_and!.
  - intros msg q ch Hq. by rewrite Broadcast_lookup, Hq.
  - intros q ch k Hq Hk. unfold StartSharing in Hstart.
    rewrite Hpoly in Hstart. simpl in Hstart.
    pose proof (mapM_Some_elem _ _ _ k Hstart (elem_of_seqZ_1 _ _ Hk))
      as (m & Hm & Hin).
    destruct (Poly.GetUnivariatePolynomial Prime poly k) as [fk|] eqn:Hfk;
      [|done].
    simpl in Hm. injection Hm as <-.
    eexists _, fk, (ch ++ msgs). rewrite BroadcastAll_lookup, Hq. simpl.
    split_and!; try done. apply elem_of_app. by right.
  - intros r r' msg bc rs q ch j Hty Hto Hdt Hon Hq Hj.
    unfold OnMessage in Hon.
    rewrite bool_decide_eq_false_2 in Hon by done.
    rewrite bool_decide_eq_false_2 in Hon by (by intros ?).
    destruct (getInstance r _ _) as [r0 inst].
    rewrite Hdt in Hon. cbn [Direct_Share] in Hon.
    destruct (mapM _ (seqZ 1 (n r))) as [points|] eqn:Hpts; [|done].
    cbn [mbind option_bind] in Hon.
    destruct (mapM _ (rangeOrder _)) as [eqs|]; [|done].
    cbn [mbind option_bind] in Hon. injection Hon as <- <- <-.
    pose proof (mapM_Some_elem _ _ _ j Hpts (elem_of_seqZ_1 _ _ Hj))
      as (pt & Hpt & Hin).
    destruct (msg_Poly msg) as [p|]; [|done]. simpl in Hpt.
    injection Hpt as <-.
    eexists _, p, (ch ++ points ++ concat eqs).
    rewrite BroadcastAll_lookup, Hq. simpl.
    split_and!; try done. apply elem_of_app. right.
    apply elem_of_app. by left.
  - intros r msg Hty Hto. unfold OnMessage.
    rewrite bool_decide_eq_false_2 by done.
    by rewrite bool_decide_eq_true_2.
Qed.
End Transport.

(** The dealer (node 1, [n = 2], [t = 1]) shares 42 with all random
    coefficients equal to 5; nodes 1 and 2 are registered with empty
    channels. *)
Definition transport_example_dealer : IVSS.IVSSService :=
  IVSS.NewIVSSService 1 2 1 Cert.NewCertificationProtocol.
Definition transport_example_node2 : IVSS.IVSSService :=
  IVSS.NewIVSSService 2 2 1 Cert.NewCertificationProtocol.
Definition transport_example_poly : Poly.SymmetricPolynomial :=
  default (Poly.mkSym [] 0)
    (Poly.NewRandomSymmetricPolynomial 1 42 (fun _ _ => 5%Z)).
Definition transport_example_msgs : list IVSS.IVSSMessage :=
  default []
    (IVSS.StartSharing Poly.secp256k1 transport_example_dealer "I" 42
       (fun _ _ => 5%Z)).
Definition transport_example_net : Net.Network IVSS.IVSSMessage :=
  Net.Register (Net.Register Net.NewNetwork 1 []) 2 [].

Lemma broadcast_reaches_all_peers_witness :
  exists m chq,
    Net.peers (Net.BroadcastAll transport_example_net transport_example_msgs)
      !! 2%Z = Some chq
    /\ m ∈ chq /\ IVSS.To m = 1%Z /\ IVSS.msg_Poly m <> None
    /\ IVSS.OnMessage (fun _ => "") (fun _ => None) (fun l => l)
         Poly.secp256k1 IVSS.Incremental transport_example_node2 m
       = Some (transport_example_node2, [], []).
Proof.
  destruct (broadcast_reaches_all_peers (fun _ => "") (fun _ => None)
              (fun l => l) Poly.secp256k1 IVSS.Incremental
              transport_example_net transport_example_dealer "I" 42
              (fun _ _ => 5%Z) transport_example_msgs transport_example_poly)
    as (_ & Hall & _ & Hdrop).
  - vm_compute. reflexivity.
  - vm_compute. reflexivity.
  - destruct (Hall 2%Z [] 1%Z) as (m & fk & chq & Hch & Hin & Hfk & ->).
    + vm_compute. reflexivity.
    + simpl. lia.
    + exists (IVSS.direct_message IVSS.Direct_Share 1
                transport_example_dealer.(IVSS.id) "I" (Some fk) None 0), chq.
      split_and!; [exact Hch|exact Hin|reflexivity|discriminate|].
      apply Hdrop; simpl; discriminate.
Defined.

(** ** IVSS: when the reconstructed secret is emitted *)

Section Reconstruction.
Import IVSS.
Local Open Scope Z_scope.
Variable payloadString : IVSSPayload -> string.
Variable ParseIVSSPayload : string -> option IVSSPayload.
Variable rangeOrder : list Z -> list Z.
Variable Prime : Z.
Variable revision : Revision.

Local Abbreviation delivered :=
  (OnACastDelivered payloadString ParseIVSSPayload rangeOrder Prime revision).

(** The instance on which a delivery of [payload] works. *)
Definition target_instance (s : IVSSService) (payload : IVSSPayload)
    : IVSSInstance :=
  (getInstance s (pl_InstanceID payload) 0).2.

(** C8 (amended). The Reconstructed result is emitted only by the
    delivery of a READY payload, and exactly when, with the sender of
    that READY counted, [readyToComplete] has at least [n - t] members,
    [reconstructed] is not yet latched and the secret is already set.
    The delivery of a REVEAL payload, which is the step that interpolates
    and sets the secret, never emits a result: when the ready threshold
    was reached before the secret was set, the result waits for the next
    READY delivery. *)
Theorem reconstructed_emitted_on_ready s valStr payload s' bc rs :
  ParseIVSSPayload valStr = Some payload ->
  GoInt.in_range (n s - t s) ->
  delivered s valStr = Some (s', bc, rs) ->
  let inst := target_instance s payload in
  let ready' := {[RevealSender payload]} ∪ readyToComplete inst in
  (pl_Type payload = Payload_Ready ->
     (Z.of_nat (size ready') >= n s - t s /\ reconstructed inst = false
      /\ is_Some (secret inst) ->
      rs = [mkResult (inst_id inst) "RECONSTRUCTED" (secret inst) None None])
     /\ (~ (Z.of_nat (size ready') >= n s - t s /\ reconstructed inst = false
            /\ is_Some (secret inst)) -> rs = []))
  /\ (pl_Type payload = Payload_Reveal -> rs = [])
  /\ (forall r, r ∈ rs -> res_Type r = "RECONSTRUCTED" ->
        pl_Type payload = Payload_Ready).
Proof.
  intros Hp Hr. unfold OnACastDelivered, target_instance. rewrite Hp.
  destruct (getInstance s (pl_InstanceID payload) 0) as [s1 inst] eqn:Hg.
  assert (Hnil : forall r : IVSSResult, r ∈ @nil IVSSResult ->
            res_Type r = "RECONSTRUCTED" -> pl_Type payload = Payload_Ready).
  { intros r Hr'. by apply elem_of_nil in Hr'. }
  simpl. destruct (pl_Type payload) as [|p|p] eqn:Hty;
    [| |intros [= <- <- <-]; by split_and!].
  - (* EQUAL *)
    destruct (checkCandidateSet _ _ _ _) as [bc0|]; [|done]. simpl.
    case_match; intros [= <- <- <-]; split_and!; try done.
    intros r Hr'. apply list_elem_of_singleton in Hr' as ->. done.
  - destruct p as [p|p|].
    + (* odd: READY is 3 *)
      destruct p as [p|p|]; try (intros [= <- <- <-]; by split_and!).
      rewrite sub_small by done. unfold GoInt.len. simpl.
      intros Hres. split_and!; [|done|done]. intros _.
      case_bool_decide as Hsz; simpl in Hres.
      * destruct (reconstructed inst) eqn:Hrec; simpl in Hres.
        { injection Hres as <- <- <-. split; [|done].
          by intros (_ & ? & _). }
        destruct (secret inst) as [sec|] eqn:Hsec.
        { injection Hres as <- <- <-. split; [|intros Hn; exfalso; apply Hn].
          - intros _. unfold reconstructed_result. simpl. by rewrite Hsec.
          - split_and!; [done|done|by eexists]. }
        injection Hres as <- <- <-. split; [|done].
        intros (_ & _ & [? ?]). done.
      * injection Hres as <- <- <-. split; [|done]. by intros (? & _).
    + (* even: REVEAL is 2 *)
      destruct p as [p|p|]; try (intros [= <- <- <-]; by split_and!).
      destruct (checkInterpolationSet _ _ _ _ _ _)
        as [[[c inst2] bc2]|]; [|done].
      simpl. intros [= <- <- <-]. by split_and!.
    + (* MSET is 1 *)
      case_match; intros [= <- <- <-]; split_and!; try done.
      intros r Hr'. apply list_elem_of_singleton in Hr' as ->. done.
Qed.
End Reconstruction.

(** Node 1 ([n = 4], [t = 1]) in instance ["I"] with candidate set
    [[1; 2; 3; 4]]: the READY payloads of 2, 3 and 4 are delivered
    (the threshold [n - t = 3] is reached), the slice [47 + 8y] of node 1
    is revealed, and the secret is not yet set.  The slices come from
    [F(x, y) = 42 + 5x + 5y + 3xy].  The string ["x"] parses as the REVEAL
    of node 2 with its slice [52 + 11y], any other string as the READY of
    node 1. *)
Definition reconstruction_example_instance : IVSS.IVSSInstance :=
  IVSS.with_readyToComplete
    (IVSS.with_reconstructedPolys
       (IVSS.with_sharing (IVSS.NewIVSSInstance "I" 1)
          (Some [1; 2; 3; 4]%Z) None true)
       {[1%Z := Some (Poly.mkPoly [47; 8]%Z)]})
    {[2%Z; 3%Z; 4%Z]}.

Definition reconstruction_example_service : IVSS.IVSSService :=
  IVSS.with_instances
    (IVSS.NewIVSSService 1 4 1 Cert.NewCertificationProtocol)
    {["I" := reconstruction_example_instance]}.

Definition reconstruction_example_parse (v : string)
    : option IVSS.IVSSPayload :=
  if String.eqb v "x" then
    Some (IVSS.mkPayload "I" IVSS.Payload_Reveal (0, 0)%Z None
            (Some (Poly.mkPoly [52; 11]%Z)) 2)
  else
    Some (IVSS.mkPayload "I" IVSS.Payload_Ready (0, 0)%Z None None 1).

Definition reconstruction_example_deliver (revision : IVSS.Revision)
    (s : IVSS.IVSSService) (v : string) :=
  IVSS.OnACastDelivered (fun _ => "") reconstruction_example_parse
    (fun l => l) Poly.secp256k1 revision s v.

(** C8 as stated fails: the delivery of the REVEAL of node 2 interpolates
    and sets the secret 42 while three READY payloads are already
    recorded, so both conditions hold after this step, and yet the step
    emits no result (in either revision). *)
Lemma reconstruction_not_emitted_counterexample :
  Forall
    (fun revision =>
       match reconstruction_example_deliver revision
               reconstruction_example_service "x" with
       | Some (s', bc, rs) =>
           rs = []
           /\ IVSS.secret reconstruction_example_instance = None
           /\ (IVSS.secret <$> IVSS.instances s' !! "I") = Some (Some 42%Z)
           /\ (size <$> (IVSS.readyToComplete <$> IVSS.instances s' !! "I"))
              = Some 3%nat
           /\ (IVSS.reconstructed <$> IVSS.instances s' !! "I") = Some false
       | None => False
       end)
    [IVSS.Backtracking; IVSS.Incremental].
Proof.
  constructor; [|constructor; [|constructor]]; vm_compute; by split_and!.
Qed.

Definition reconstruction_example_after : IVSS.IVSSService :=
  match reconstruction_example_deliver IVSS.Incremental
          reconstruction_example_service "x" with
  | Some (s', _, _) => s'
  | None => reconstruction_example_service
  end.

Lemma reconstructed_emitted_on_ready_witness :
  (reconstruction_example_deliver IVSS.Incremental
     reconstruction_example_after "y")
  = Some ((default (reconstruction_example_after, [], [])
             (reconstruction_example_deliver IVSS.Incremental
                reconstruction_example_after "y")).1.1,
          [],
          [IVSS.mkResult "I" "RECONSTRUCTED" (Some 42%Z) None None]).
Proof.
  destruct (reconstruction_example_deliver IVSS.Incremental
              reconstruction_example_after "y") as [[[s' bc] rs]|] eqn:E;
    [|by vm_compute in E].
  assert (Hbc : bc = []) by (vm_compute in E; by injection E as _ <- _).
  pose proof (reconstructed_emitted_on_ready (fun _ => "")
    reconstruction_example_parse (fun l => l) Poly.secp256k1
    IVSS.Incremental reconstruction_example_after "y"
    (IVSS.mkPayload "I" IVSS.Payload_Ready (0, 0)%Z None None 1)
    s' bc rs eq_refl) as Hw.
  destruct Hw as ((Hemit & _) & _); [|exact E|reflexivity|].
  - vm_compute. split; [discriminate|reflexivity].
  - simpl. rewrite Hbc. f_equal. f_equal. apply Hemit.
    split_and!; [vm_compute; discriminate|vm_compute; reflexivity|].
    exists 42%Z. vm_compute. reflexivity.
Defined.

(** ** IVSS: the dealer's candidate set *)

Section CandidateSet.
Import IVSS.
Local Open Scope Z_scope.
Variable payloadString : IVSSPayload -> string.

(** Following the spec: the unordered pair [{k, m}] is flagged. *)
Definition spec_flagged (cp : Cert.CertificationProtocol) (k m : Z) : Prop :=
  (Z.min k m, Z.max k m) ∈ Cert.fp cp.

(** Following the spec: [k] may join [m]. *)
Definition spec_compatible (s : IVSSService) (inst : IVSSInstance)
    (k m : Z) : Prop :=
  (k, m) ∈ completedEquals inst /\ (m, k) ∈ completedEquals inst
  /\ ~ spec_flagged (cp s) k m.

#[local] Instance spec_compatible_dec s inst k m :
  Decision (spec_compatible s inst k m).
Proof. unfold spec_compatible, spec_flagged. apply _. Defined.

(** Following the spec: the greedy single pass over the candidates, in
    order, starting from the set [M]. *)
Fixpoint spec_greedy (s : IVSSService) (inst : IVSSInstance)
    (candidates M : list Z) : list Z :=
  match candidates with
  | [] => M
  | k :: rest =>
      if decide (Forall (spec_compatible s inst k) M)
      then spec_greedy s inst rest (M ++ [k])
      else spec_greedy s inst rest M
  end.

Definition spec_M (s : IVSSService) (inst : IVSSInstance) : list Z :=
  spec_greedy s inst (seqZ 1 (n s)) [].

Lemma IsFaultyPair_spec cp k m :
  Cert.IsFaultyPair cp k m = true <-> spec_flagged cp k m.
Proof.
  unfold Cert.IsFaultyPair, Cert.ordered, spec_flagged.
  rewrite bool_decide_eq_true.
  case_bool_decide.
  - by rewrite Z.min_r, Z.max_l by lia.
  - by rewrite Z.min_l, Z.max_r by lia.
Qed.

Lemma canAdd_spec s inst k (M : list Z) :
  forallb (fun inM =>
      mutual inst k inM && negb (Cert.IsFaultyPair (cp s) k inM)) M = true
  <-> Forall (spec_compatible s inst k) M.
Proof.
  rewrite forallb_forall, Forall_forall. unfold spec_compatible, mutual.
  split; intros Hall m Hm.
  - apply list_elem_of_In, Hall in Hm.
    apply andb_true_iff in Hm as [Hm Hf].
    apply andb_true_iff in Hm as [H1 H2].
    apply bool_decide_eq_true in H1, H2. split_and!; [done|done|].
    intros Hfl. apply IsFaultyPair_spec in Hfl. by rewrite Hfl in Hf.
  - apply list_elem_of_In, Hall in Hm as (H1 & H2 & Hf).
    rewrite !bool_decide_eq_true_2 by done. simpl.
    destruct (Cert.IsFaultyPair (cp s) k m) eqn:E; [|done].
    exfalso. by apply Hf, IsFaultyPair_spec.
Qed.

Lemma candidate_loop_spec s inst candidates : forall M,
  fold_left (candidate_step s inst) candidates M
  = spec_greedy s inst candidates M.
Proof.
  induction candidates as [|k rest IH]; intros M; [done|].
  simpl. unfold candidate_step at 2.
  destruct (forallb _ M) eqn:E.
  - rewrite decide_True by (by apply canAdd_spec). apply IH.
  - rewrite decide_False; [apply IH|].
    intros HF. apply canAdd_spec in HF. congruence.
Qed.

(** The incremental revision of [checkCandidateSet] does what the spec's
    greedy pass says: at the dealer, before sharing completes, it A-Casts
    an MSET exactly when the greedily built set has at least [n - t]
    members, and the MSET carries that set sorted ascending: the one
    broadcast is the A-Cast MSG from the dealer with uuid
    ["{InstanceID}-MSET"] whose value is the MSET payload as a
    string. *)
Theorem incremental_candidate_set_is_greedy s inst :
  GoInt.in_range (n s - t s) ->
  id s = dealer inst -> sharingCompleted inst = false ->
  checkCandidateSet payloadString Incremental s inst
  = Some (if decide (Z.of_nat (length (spec_M s inst)) >= n s - t s)
          then
            let payload :=
              {| pl_InstanceID := inst_id inst; pl_Type := Payload_MSet;
                 EqualPair := (0, 0);
                 pl_MSet := Some (merge_sort Z.le (spec_M s inst));
                 RevealPoly := None; RevealSender := 0 |} in
            [{| msg_Type := IVSS_ACast; DirectType := 0; To := 0; From := 0;
                msg_InstanceID := ""; msg_Poly := None; Point := None;
                PointIdx := 0;
                ACastMsg :=
                  Some {| ACast.Type_ := ACast.MSG;
                          ACast.UUID := inst_id inst +:+ "-MSET";
                          ACast.Val := payloadString payload;
                          ACast.From := id s |} |}]
          else [])
  /\ Sorted Z.le (merge_sort Z.le (spec_M s inst))
  /\ merge_sort Z.le (spec_M s inst) ≡ₚ spec_M s inst.
Proof.
  intros Hr Hd Hc. split_and!.
  - unfold checkCandidateSet, candidateSet.
    rewrite bool_decide_eq_false_2 by (by intros ?).
    rewrite Hc, candidate_loop_spec, sub_small by done.
    fold (spec_M s inst). unfold GoInt.len.
    case_bool_decide; simpl.
    + by rewrite decide_True.
    + by rewrite decide_False.
  - apply Sorted_merge_sort. intros x y. lia.
  - apply merge_sort_Permutation.
Qed.
End CandidateSet.

(** The dealer (node 1, [n = 4], [t = 1]) of instance ["I"] when every
    ordered pair of distinct nodes has its EQUAL delivered and nothing is
    flagged. *)
Definition candidate_example_service : IVSS.IVSSService :=
  IVSS.NewIVSSService 1 4 1 Cert.NewCertificationProtocol.

Definition candidate_example_all : IVSS.IVSSInstance :=
  IVSS.with_completedEquals (IVSS.NewIVSSInstance "I" 1)
    (list_to_set
       [(1, 2); (2, 1); (1, 3); (3, 1); (1, 4); (4, 1);
        (2, 3); (3, 2); (2, 4); (4, 2); (3, 4); (4, 3)]%Z).

(** The same dealer when only 2, 3 and 4 are mutually consistent. *)
Definition candidate_example_without_1 : IVSS.IVSSInstance :=
  IVSS.with_completedEquals (IVSS.NewIVSSInstance "I" 1)
    (list_to_set
       [(2, 3); (3, 2); (2, 4); (4, 2); (3, 4); (4, 3)]%Z).

(** A codec that writes the instance, the type and the set of an MSET
    payload, and the A-Cast MSG of the dealer for instance ["I"] with a
    given value. *)
Definition mset_example_string (p : IVSS.IVSSPayload) : string :=
  IVSS.pl_InstanceID p +:+ ":" +:+ pretty (IVSS.pl_Type p) +:+ ":"
  +:+ String.concat "," (pretty <$> default [] (IVSS.pl_MSet p)).

Definition mset_example_message (val : string) : IVSS.IVSSMessage :=
  IVSS.mkMessage IVSS.IVSS_ACast 0%Z 0%Z 0%Z "" None None 0%Z
    (Some (ACast.mkMsg ACast.MSG "I-MSET" val 1%Z)).

(** C2 at the revision under [services/]: the backtracking search stops at
    the first clique of exactly [n - t] nodes.  With all pairs consistent
    the greedy pass builds [[1; 2; 3; 4]] but the dealer A-Casts
    [[1; 2; 3]]; with only 2, 3, 4 consistent the greedy pass builds
    [[1]] (too small, no MSET) but the dealer A-Casts [[2; 3; 4]].  The
    incremental revision A-Casts the greedy set in the first case and
    nothing in the second. *)
Theorem backtracking_candidate_set_differs :
  spec_M candidate_example_service candidate_example_all = [1; 2; 3; 4]%Z
  /\ IVSS.checkCandidateSet mset_example_string IVSS.Backtracking
       candidate_example_service candidate_example_all
     = Some [mset_example_message "I:1:1,2,3"]
  /\ IVSS.checkCandidateSet mset_example_string IVSS.Incremental
       candidate_example_service candidate_example_all
     = Some [mset_example_message "I:1:1,2,3,4"]
  /\ spec_M candidate_example_service candidate_example_without_1 = [1%Z]
  /\ IVSS.checkCandidateSet mset_example_string IVSS.Backtracking
       candidate_example_service candidate_example_without_1
     = Some [mset_example_message "I:1:2,3,4"]
  /\ IVSS.checkCandidateSet mset_example_string IVSS.Incremental
       candidate_example_service candidate_example_without_1
     = Some [].
Proof. split_and!; vm_compute; reflexivity. Qed.

Lemma incremental_candidate_set_is_greedy_witness :
  IVSS.checkCandidateSet mset_example_string IVSS.Incremental
    candidate_example_service candidate_example_all
  = Some [mset_example_message "I:1:1,2,3,4"].
Proof.
  destruct (incremental_candidate_set_is_greedy mset_example_string
              candidate_example_service candidate_example_all)
    as (Hc & _ & _); [| reflexivity | reflexivity |].
  - vm_compute. split; [discriminate|reflexivity].
  - rewrite Hc. rewrite decide_True by (vm_compute; discriminate).
    vm_compute. reflexivity.
Defined.

(** ** Replaying a message *)

Section ACastReplay.
Import ACast.
Local Open Scope Z_scope.
Context {T : Type} `{Countable T}.
Implicit Types (a : AcastService T) (inst : ACastInstance T)
  (msg : ACastMessage T).

Lemma singleton_union_again (f : Z) (X : gset Z) :
  {[f]} ∪ ({[f]} ∪ X) = {[f]} ∪ X.
Proof. by rewrite (assoc_L (∪)), (idemp_L (∪)). Qed.

Lemma addToSet_again (m m' : gmap T (gset Z)) (v : T) (f c : Z) :
  addToSet m v f = (m', c) -> addToSet m' v f = (m', c).
Proof.
  unfold addToSet. intros [= <- <-].
  rewrite lookup_insert_eq. simpl.
  by rewrite singleton_union_again, insert_insert_eq.
Qed.

(** Handling the same message again on the instance it produced changes
    nothing and emits nothing; the thresholds are those of a service with
    the same [n] and [t]. *)
Lemma onInstance_again a a' inst msg inst' bc res :
  n a' = n a -> t a' = t a ->
  onInstance a inst msg = (inst', bc, res) ->
  onInstance a' inst' msg = (inst', [], []).
Proof.
  intros Hn Ht. unfold onInstance. rewrite Hn, Ht.
  destruct (delivered inst) eqn:Hd.
  { intros [= <- <- <-]. by rewrite ?Hd. }
  destruct (Type_ msg) as [|p|p].
  - (* MSG *)
    destruct (sentEcho inst) eqn:He; intros [= <- <- <-]; simpl;
      by rewrite ?Hd, ?He.
  - destruct p as [p|p|].
    + intros [= <- <- <-]. by rewrite ?Hd.
    + (* READY is 2 *)
      destruct p as [p|p|]; try (intros [= <- <- <-]; by rewrite ?Hd).
      destruct (addToSet (receivedReady inst) _ _) as [rr count] eqn:Ha.
      apply addToSet_again in Ha.
      destruct (bool_decide (count >= GoInt.add (GoInt.mul 2 (t a)) 1))
        eqn:Hdel; cbn [andb negb].
      * intros [= <- <- <-]. done.
      * intros [= <- <- <-].
        cbn [delivered receivedReady receivedEcho sentReady sentEcho].
        rewrite ?Hd, Ha, Hdel. cbn [andb negb].
        destruct (bool_decide (count >= GoInt.add (t a) 1)); cbn [andb];
          [|done].
        by destruct (sentReady inst).
    + (* ECHO is 1 *)
      destruct (addToSet (receivedEcho inst) _ _) as [re count] eqn:Ha.
      apply addToSet_again in Ha.
      destruct (bool_decide (count >= GoInt.sub (n a) (t a))) eqn:Hthr;
        cbn [andb negb].
      * destruct (sentReady inst) eqn:Hs; cbn [andb negb];
          intros [= <- <- <-];
          cbn [delivered receivedReady receivedEcho sentReady sentEcho];
          rewrite ?Hd, Ha, Hthr; cbn [andb negb]; by rewrite ?Hs.
      * intros [= <- <- <-].
        cbn [delivered receivedReady receivedEcho sentReady sentEcho].
        by rewrite ?Hd, Ha, Hthr.
  - intros [= <- <- <-]. by rewrite ?Hd.
Qed.

Lemma acast_replay a msg a1 bc res :
  OnMessage a msg = (a1, bc, res) -> OnMessage a1 msg = (a1, [], []).
Proof.
  unfold OnMessage.
  destruct (getInstance a (UUID msg)) as [a0 inst] eqn:Hg.
  destruct (onInstance a0 inst msg) as [[inst' bc'] res'] eqn:Ho.
  intros [= <- <- <-].
  unfold getInstance at 1. simpl. rewrite lookup_insert_eq.
  rewrite (onInstance_again a0 _ inst msg inst' bc' res'); [|done|done|done].
  simpl. by rewrite insert_insert_eq.
Qed.
End ACastReplay.

Section ABAReplay.
Import ABA.
Local Open Scope Z_scope.
Variable payloadString : CompletePayload -> string.
Variable ParseCompletePayload : string -> option CompletePayload.
Variable uuidHash : string -> Z -> Z -> string.

Local Abbreviation handle :=
  (handleCompleteDelivery payloadString ParseCompletePayload uuidHash).

Lemma with_completeCounts_same s :
  with_completeCounts s (completeCounts s) = s.
Proof. by destruct s. Qed.

(** A delivery whose sender is already recorded, at a node that is
    decided or still below the threshold for that value, is a no-op. *)
Lemma handle_settled s valStr now p (X : gset Z) :
  ParseCompletePayload valStr = Some p ->
  completeCounts s !! Value p = Some X -> Sender p ∈ X ->
  decided s = true
  \/ bool_decide (GoInt.len (size X) >= GoInt.add (t s) 1) = false ->
  handle s valStr now = (s, [], []).
Proof.
  intros Hp HX Hin Hor. unfold handleCompleteDelivery. rewrite Hp, HX.
  change (default ∅ (Some X)) with X.
  assert (HXe : {[Sender p]} ∪ X = X).
  { apply set_eq. intros x. rewrite elem_of_union, elem_of_singleton.
    split; [intros [->|?]; done|by right]. }
  rewrite HXe, insert_id by done. rewrite with_completeCounts_same.
  destruct Hor as [->| ->]; [by rewrite andb_false_r|done].
Qed.

Lemma aba_complete_replay s valStr now now' s1 bc res :
  handle s valStr now = (s1, bc, res) ->
  handle s1 valStr now' = (s1, [], []).
Proof.
  destruct (ParseCompletePayload valStr) as [p|] eqn:Hp.
  2:{ unfold handleCompleteDelivery. rewrite Hp. by intros [= <- <- <-]. }
  intros Hh.
  set (senders := {[Sender p]} ∪ default ∅ (completeCounts s !! Value p)).
  assert (Hfacts : t s1 = t s
    /\ completeCounts s1 !! Value p = Some senders
    /\ (decided s1 = true
        \/ bool_decide (GoInt.len (size senders) >= GoInt.add (t s) 1)
           = false)).
  { revert Hh. unfold handleCompleteDelivery. rewrite Hp.
    fold senders. cbn [decided with_completeCounts].
    destruct (bool_decide (GoInt.len (size senders) >= GoInt.add (t s) 1))
      eqn:Hthr; cbn [andb].
    - destruct (decided s) eqn:Hd; cbn [negb].
      + intros [= <- <- <-]. simpl. rewrite lookup_insert_eq. auto.
      + destruct (negb _) eqn:Hb.
        * destruct (broadcastComplete _ _ _ _ _) as [s3 bc3] eqn:Hbc.
          intros [= <- <- <-].
          unfold broadcastComplete in Hbc.
          destruct (ACast.OnMessage _ _) as [[a' bc'] r'].
          injection Hbc as <- <-. simpl. rewrite lookup_insert_eq. auto.
        * intros [= <- <- <-]. simpl. rewrite lookup_insert_eq. auto.
    - intros [= <- <- <-]. simpl. rewrite lookup_insert_eq. auto. }
  destruct Hfacts as (Ht & Hcc & Hor).
  apply (handle_settled _ _ _ p senders); try done.
  - unfold senders. apply elem_of_union. left. by apply elem_of_singleton.
  - by rewrite Ht.
Qed.
End ABAReplay.

Section VoteReplay.
Import Vote.
Local Open Scope Z_scope.
Variable payloadString : VotePayload -> string.
Variable uuidHash : string -> Z -> Z -> string.

Local Abbreviation check := (checkProgress payloadString uuidHash).
Local Abbreviation process :=
  (processDeliveredPayload payloadString uuidHash).

(** The three guards of [checkProgress]. *)
Definition guard1 (s : VoteService) (st : voteRoundState) : bool :=
  negb (sentVote1 st)
  && bool_decide (GoInt.len (size (receivedInputs st))
                  >= GoInt.sub (n s) (t s)).

Definition guard2 (s : VoteService) (st : voteRoundState) : bool :=
  sentVote1 st && negb (sentRevote st)
  && bool_decide
       (GoInt.len
          (length (valid_senders (receivedVote1 st)
                     (map_to_list (receivedInputs st)).*1))
        >= GoInt.sub (n s) (t s)).

Definition guard3 (s : VoteService) (st : voteRoundState) : bool :=
  sentRevote st
  && bool_decide
       (GoInt.len
          (length
             (valid_senders (receivedRevote st)
                (valid_senders (receivedVote1 st)
                   (map_to_list (receivedInputs st)).*1)))
        >= GoInt.sub (n s) (t s)).

(** With all guards closed, [checkProgress] does nothing. *)
Lemma check_quiet s st now1 now2 :
  guard1 s st = false -> guard2 s st = false -> guard3 s st = false ->
  check s st now1 now2 = (s, st, [], []).
Proof.
  unfold guard1, guard2, guard3. intros H1 H2 H3.
  unfold checkProgress, phase1. rewrite H1.
  unfold phase2. rewrite H2. unfold phase3. by rewrite H3.
Qed.

(** After a run that does not finish the round, all guards are closed
    (for any service with the same [n] and [t]), and the maps of
    delivered payloads are those the run started with. *)
Lemma check_settles s st now1 now2 s2 st' bc res :
  check s st now1 now2 = (s2, st', bc, res) ->
  finished st' = false ->
  n s2 = n s /\ t s2 = t s
  /\ receivedInputs st' = receivedInputs st
  /\ receivedVote1 st' = receivedVote1 st
  /\ receivedRevote st' = receivedRevote st
  /\ forall s', n s' = n s -> t s' = t s ->
       guard1 s' st' = false /\ guard2 s' st' = false
       /\ guard3 s' st' = false.
Proof.
  unfold checkProgress.
  destruct (phase1 _ _ s st now1) as [[s1 st1] bc1] eqn:H1.
  destruct (phase2 _ _ s1 st1 now2 _) as [[s2' st2] bc2] eqn:H2.
  destruct (phase3 s2' st2 _) as [st3 res'] eqn:H3.
  intros [= <- <- <- <-] Hfin.
  assert (Hg1 : forall s', n s' = n s -> t s' = t s -> guard1 s' st1 = false).
  { intros s' Hn Ht. revert H1. unfold phase1, guard1. rewrite Hn, Ht.
    destruct (negb (sentVote1 st) && _) eqn:E.
    - unfold startACast. destruct (ACast.OnMessage _ _) as [[a' bc'] r'].
      by intros [= <- <- <-].
    - by intros [= <- <- <-]. }
  apply phase1_fields in H1 as (Hn1 & Ht1 & Hi1 & Hv1 & Hr1 & Hsr1 & _).
  assert (Hg2 : forall s', n s' = n s -> t s' = t s -> guard2 s' st2 = false).
  { intros s' Hn Ht. revert H2. unfold phase2, guard2.
    rewrite Hn, Ht, Hn1, Ht1, Hi1.
    destruct (sentVote1 st1 && negb (sentRevote st1) && _) eqn:E.
    - unfold startACast. destruct (ACast.OnMessage _ _) as [[a' bc'] r'].
      intros [= <- <- <-]. simpl. by rewrite andb_false_r.
    - intros [= <- <- <-]. by rewrite Hi1. }
  apply phase2_spec in H2
    as (Hn2 & Ht2 & Hi2 & Hv2 & Hr2 & Hsv2 & _ & _).
  assert (Hst3 : st3 = st2 /\ forall s', n s' = n s -> t s' = t s ->
                                guard3 s' st2 = false).
  { revert H3. unfold phase3, guard3.
    rewrite Hn2, Ht2, Hn1, Ht1, Hr2, Hv2, Hi2, Hv1, Hi1.
    destruct (sentRevote st2 && _) eqn:E.
    - destruct (allSame _ _) as [fv sameB].
      destruct (sameB && _).
      { intros Hf. apply finish_fields in Hf as (_ & _ & _ & _ & Hf & _).
        congruence. }
      destruct (allSame _ _) as [fvc sameC].
      destruct (sameC && _); intros Hf;
        apply finish_fields in Hf as (_ & _ & _ & _ & Hf & _); congruence.
    - intros [= <- <-]. split; [done|]. intros s' Hn Ht.
      by rewrite Hn, Ht. }
  destruct Hst3 as [-> Hg3].
  split_and!; try congruence.
  intros s' Hn Ht. split_and!; [|by apply Hg2|by apply Hg3].
  specialize (Hg1 s' Hn Ht). revert Hg1. unfold guard1.
  by rewrite Hsv2, Hi2.
Qed.

Lemma record_payload_again st p st' :
  receivedInputs st' = receivedInputs (record_payload st p) ->
  receivedVote1 st' = receivedVote1 (record_payload st p) ->
  receivedRevote st' = receivedRevote (record_payload st p) ->
  record_payload st' p = st'.
Proof.
  unfold record_payload. destruct st'. simpl.
  destruct (pl_Type p) as [|[q|q|]|q]; try done.
  - intros -> _ _. simpl. by rewrite insert_insert_eq.
  - destruct q as [q|q|]; try done.
    intros _ _ ->. simpl. by rewrite insert_insert_eq.
  - intros _ -> _. simpl. by rewrite insert_insert_eq.
Qed.

Lemma with_rounds_same s : with_rounds s (rounds s) = s.
Proof. by destruct s. Qed.

Lemma getRoundState_present s r st :
  rounds s !! r = Some st -> getRoundState s r = (s, st).
Proof. intros Hr. unfold getRoundState. by rewrite Hr. Qed.

Lemma getRoundState_lookup s r s0 st :
  getRoundState s r = (s0, st) ->
  rounds s0 !! r = Some st /\ n s0 = n s /\ t s0 = t s.
Proof.
  unfold getRoundState. destruct (rounds s !! r) eqn:E.
  - by intros [= <- <-].
  - intros [= <- <-]. simpl. by rewrite lookup_insert_eq.
Qed.

(** Replaying a delivered Vote payload is a no-op. *)
Lemma vote_payload_replay s p now1 now2 now1' now2' s1 bc res :
  process s p now1 now2 = (s1, bc, res) ->
  process s1 p now1' now2' = (s1, [], []).
Proof.
  unfold processDeliveredPayload.
  destruct (getRoundState s (pl_Round p)) as [s0 st] eqn:Hg.
  apply getRoundState_lookup in Hg as (Hlk & Hn0 & Ht0).
  destruct (finished st) eqn:Hfin.
  { intros [= <- <- <-]. rewrite (getRoundState_present _ _ _ Hlk).
    by rewrite Hfin. }
  destruct (check s0 (record_payload st p) now1 now2)
    as [[[s2 st'] bc'] res'] eqn:Hc.
  intros [= <- <- <-].
  rewrite (getRoundState_present _ _ st') by (simpl; apply lookup_insert_eq).
  destruct (finished st') eqn:Hfin'; [done|].
  destruct (check_settles _ _ _ _ _ _ _ _ Hc Hfin')
    as (Hn2 & Ht2 & Hi & Hv & Hr & Hq).
  rewrite (record_payload_again st p st') by done.
  destruct (Hq (store s2 (pl_Round p) st')) as (G1 & G2 & G3); [done|done|].
  rewrite check_quiet by done.
  unfold store. simpl. by rewrite insert_insert_eq.
Qed.
End VoteReplay.

Section IVSSReplay.
Import IVSS.
Local Open Scope Z_scope.
Variable payloadString : IVSSPayload -> string.
Variable ParseIVSSPayload : string -> option IVSSPayload.
Variable rangeOrder : list Z -> list Z.
Variable Prime : Z.
Variable revision : Revision.
(** [range] visits every key once. *)
Hypothesis rangeOrder_perm : forall l, rangeOrder l ≡ₚ l.

Local Abbreviation onMessage :=
  (OnMessage payloadString ParseIVSSPayload rangeOrder Prime revision).

(** The [n] Point messages that the Share handler broadcasts. *)
Definition point_messages (s : IVSSService) (key : string)
    (p : Poly.Polynomial) : list IVSSMessage :=
  (fun j => direct_message Direct_Point j (id s) key None
              (Some (Poly.Evaluate Prime p j)) j) <$> seqZ 1 (n s).

Lemma mapM_total {A B : Type} (f : A -> B) (l : list A) :
  mapM (fun x => Some (f x)) l = Some (f <$> l).
Proof.
  induction l as [|x l IH]; [done|]. simpl. rewrite IH. done.
Qed.

Lemma rangeOrder_nil : rangeOrder [] = [].
Proof. apply Permutation_nil_r, rangeOrder_perm. Qed.

Lemma getInstance_lookup s key d s0 inst :
  getInstance s key d = (s0, inst) ->
  instances s0 !! key = Some inst /\ id s0 = id s /\ n s0 = n s
  /\ getInstance s0 key d = (s0, inst).
Proof.
  unfold getInstance. destruct (instances s !! key) eqn:E.
  - intros [= <- <-]. by rewrite E.
  - intros [= <- <-]. simpl. by rewrite lookup_insert_eq.
Qed.

Lemma with_instances_same s : with_instances s (instances s) = s.
Proof. by destruct s. Qed.

Lemma store_again s key inst :
  store (store s key inst) key inst = store s key inst.
Proof. unfold store. simpl. by rewrite insert_insert_eq. Qed.

Lemma getInstance_store s key d inst :
  getInstance (store s key inst) key d = (store s key inst, inst).
Proof. unfold getInstance, store. simpl. by rewrite lookup_insert_eq. Qed.

(** Replaying a direct message: the state reached by the first handling
    is a fixed point and no result is emitted, but the broadcasts are
    repeated: those of the second handling are a prefix of the first
    ones, and for a Share they are its [n] Point messages. *)
Lemma ivss_direct_replay s msg s1 bc rs :
  msg_Type msg <> IVSS_ACast ->
  onMessage s msg = Some (s1, bc, rs) ->
  rs = []
  /\ exists bc2,
       onMessage s1 msg = Some (s1, bc2, [])
       /\ bc2 `prefix_of` bc
       /\ (To msg = id s -> DirectType msg = Direct_Share ->
           forall p, msg_Poly msg = Some p ->
             bc2 = point_messages s (msg_InstanceID msg) p).
Proof.
  intros Hty. unfold OnMessage.
  rewrite !bool_decide_eq_false_2 by done.
  case_bool_decide as Hto.
  { intros [= <- <- <-]. split; [done|]. exists [].
    rewrite bool_decide_eq_true_2 by done. split_and!; try done. }
  assert (Hid : To msg = id s) by (by destruct (decide (To msg = id s))).
  destruct (getInstance s (msg_InstanceID msg) (From msg)) as [s0 inst] eqn:Hg.
  apply getInstance_lookup in Hg as (Hlk & Hid0 & Hn0 & Hg0).
  destruct (DirectType msg) as [|q|q] eqn:Hdt.
  - (* Share *)
    destruct (mapM _ (seqZ 1 (n s))) as [points|] eqn:Hpts; [|done].
    cbn [mbind option_bind].
    destruct (mapM _ (rangeOrder _)) as [eqs|] eqn:Heqs; [|done].
    cbn [mbind option_bind]. intros [= <- <- <-]. split; [done|].
    exists points.
    rewrite bool_decide_eq_false_2 by (simpl; congruence).
    rewrite getInstance_store.
    assert (Hpts' :
      mapM (fun j => p ← msg_Poly msg;
          Some (direct_message Direct_Point j
                  (id (store s0 (msg_InstanceID msg)
                         (with_earlyPoints
                            (with_share inst (msg_Poly msg) (From msg)) ∅)))
                  (msg_InstanceID msg) None
                  (Some (Poly.Evaluate Prime p j)) j))
        (seqZ 1 (n (store s0 (msg_InstanceID msg)
                      (with_earlyPoints
                         (with_share inst (msg_Poly msg) (From msg)) ∅))))
      = Some points).
    { simpl. rewrite Hid0, Hn0. exact Hpts. }
    rewrite Hpts'. cbn [mbind option_bind].
    cbn [earlyPoints with_share with_earlyPoints].
    rewrite dom_empty_L, elements_empty, rangeOrder_nil.
    cbn [mapM mret option_ret mbind option_bind concat].
    rewrite app_nil_r.
    split_and!.
    + f_equal. f_equal. f_equal. apply store_again.
    + by apply prefix_app_r.
    + intros _ _ p Hp. rewrite Hp in Hpts. simpl in Hpts.
      rewrite mapM_total in Hpts. by injection Hpts as <-.
  - (* Point, or another direct type *)
    destruct q as [q|q|];
      try (intros [= <- <- <-]; split; [done|]; exists [];
           rewrite bool_decide_eq_false_2 by congruence; rewrite Hg0;
           by split_and!).
    destruct (receivedPoly inst) as [poly|] eqn:Hpoly.
    + destruct (processPoint _ _ _ _ _ _) as [bc0|] eqn:Hpp; [|done].
      cbn [mbind option_bind]. intros [= <- <- <-]. split; [done|].
      exists bc0. rewrite bool_decide_eq_false_2 by congruence.
      rewrite Hg0, Hpoly, Hpp. cbn [mbind option_bind].
      by split_and!.
    + intros [= <- <- <-]. split; [done|]. exists [].
      rewrite bool_decide_eq_false_2 by (simpl; congruence).
      rewrite getInstance_store. cbn [receivedPoly with_earlyPoints].
      rewrite Hpoly. cbn [earlyPoints with_earlyPoints].
      rewrite insert_insert_eq. split_and!; try done.
      f_equal. f_equal. f_equal. apply store_again.
  - intros [= <- <- <-]. split; [done|]. exists [].
    rewrite bool_decide_eq_false_2 by congruence. rewrite Hg0.
    by split_and!.
Qed.
(** The A-Cast deliveries work on the instances and on the registry; the
    internal A-Cast service is out of their reach ([startACast] only
    broadcasts). *)
Lemma getInstance_acast s key d : acast (getInstance s key d).1 = acast s.
Proof. unfold getInstance. by destruct (instances s !! key). Qed.

Lemma OnACastDelivered_acast s v s' bc rs :
  OnACastDelivered payloadString ParseIVSSPayload rangeOrder Prime revision
    s v = Some (s', bc, rs) ->
  acast s' = acast s.
Proof.
  unfold OnACastDelivered. intros Hd.
  pose proof (getInstance_acast s) as Hg.
  destruct (ParseIVSSPayload v) as [payload|]; [|by simplify_eq].
  specialize (Hg (pl_InstanceID payload) 0).
  destruct (getInstance s _ 0) as [s0 inst]. simpl in Hg.
  repeat case_match; simplify_option_eq; try done;
    repeat case_match; by simplify_eq.
Qed.

Lemma deliverAll_acast vals : forall s bc0 rs0 s' bc rs,
  foldlM (fun (acc : IVSSService * list IVSSMessage * list IVSSResult)
              (v : string) =>
      '(s', bc', rs') ← OnACastDelivered payloadString ParseIVSSPayload
                          rangeOrder Prime revision acc.1.1 v;
      Some (s', acc.1.2 ++ bc', acc.2 ++ rs'))
    (s, bc0, rs0) vals = Some (s', bc, rs) ->
  acast s' = acast s.
Proof.
  induction vals as [|v vals IH]; intros s bc0 rs0 s' bc rs; simpl.
  - by intros [= <- _ _].
  - destruct (OnACastDelivered _ _ _ _ _ s v) as [[[s1 bc1] rs1]|] eqn:Hd;
      [|done]. simpl. intros Hrest.
    rewrite (IH _ _ _ _ _ _ Hrest). by eapply OnACastDelivered_acast.
Qed.

Lemma with_acast_same s : with_acast s (acast s) = s.
Proof. by destruct s. Qed.

(** A replayed A-Cast wrapper stops at the internal A-Cast service. *)
Lemma ivss_acast_replay s s1 msg bc rs :
  msg_Type msg = IVSS_ACast ->
  onMessage s msg = Some (s1, bc, rs) ->
  onMessage s1 msg = Some (s1, [], []).
Proof.
  intros Hty. unfold OnMessage. rewrite !bool_decide_eq_true_2 by done.
  destruct (ACastMsg msg) as [am|]; [|by intros [= <- _ _]].
  destruct (ACast.OnMessage (acast s) am) as [[a1 bc1] res] eqn:Ha.
  destruct (deliverAll _ _ _ _ _ _ res) as [[[s2 bc2] rs2]|] eqn:Hd;
    [|done].
  simpl. intros [= <- _ _].
  apply deliverAll_acast in Hd. simpl in Hd. rewrite Hd.
  rewrite (acast_replay _ _ _ _ _ Ha). simpl.
  by rewrite <- Hd, with_acast_same.
Qed.
End IVSSReplay.

(** C6 (amended). Handling a message a second time, from the state
    reached after its first handling, leaves the node state unchanged and
    emits no broadcast and no result at the A-Cast handler, at the Vote
    payload handler, at the ABA COMPLETE handler and, for an A-Cast
    wrapper message, at the IVSS message handler.  At the IVSS direct
    handlers (Share and Point) the second handling also leaves the state
    unchanged and emits no result, but it broadcasts again: its
    broadcasts are a prefix of those of the first handling, and for a
    replayed Share they are the [n] Point messages of the slice. *)
Theorem replay_quiet_except_ivss_direct :
  (forall (T : Type) `{Countable T} (a a1 : ACast.AcastService T)
          (msg : ACast.ACastMessage T) bc res,
     ACast.OnMessage a msg = (a1, bc, res) ->
     ACast.OnMessage a1 msg = (a1, [], []))
  /\ (forall payloadString uuidHash (s s1 : Vote.VoteService)
            (p : Vote.VotePayload) now1 now2 now1' now2' bc res,
        Vote.processDeliveredPayload payloadString uuidHash s p now1 now2
        = (s1, bc, res) ->
        Vote.processDeliveredPayload payloadString uuidHash s1 p now1' now2'
        = (s1, [], []))
  /\ (forall payloadString parse uuidHash (s s1 : ABA.ABAService)
            (valStr : string) now now' bc res,
        ABA.handleCompleteDelivery payloadString parse uuidHash s valStr now
        = (s1, bc, res) ->
        ABA.handleCompleteDelivery payloadString parse uuidHash s1 valStr now'
        = (s1, [], []))
  /\ (forall payloadString parse rangeOrder Prime revision
            (s s1 : IVSS.IVSSService) (msg : IVSS.IVSSMessage) bc rs,
        (forall l, rangeOrder l ≡ₚ l) ->
        IVSS.msg_Type msg <> IVSS.IVSS_ACast ->
        IVSS.OnMessage payloadString parse rangeOrder Prime revision s msg
        = Some (s1, bc, rs) ->
        rs = []
        /\ exists bc2,
             IVSS.OnMessage payloadString parse rangeOrder Prime revision
               s1 msg = Some (s1, bc2, [])
             /\ bc2 `prefix_of` bc
             /\ (IVSS.To msg = IVSS.id s ->
                 IVSS.DirectType msg = IVSS.Direct_Share ->
                 forall p, IVSS.msg_Poly msg = Some p ->
                   bc2 = point_messages Prime s (IVSS.msg_InstanceID msg) p))
  /\ (forall payloadString parse rangeOrder Prime revision
            (s s1 : IVSS.IVSSService) (msg : IVSS.IVSSMessage) bc rs,
        IVSS.msg_Type msg = IVSS.IVSS_ACast ->
        IVSS.OnMessage payloadString parse rangeOrder Prime revision s msg
        = Some (s1, bc, rs) ->
        IVSS.OnMessage payloadString parse rangeOrder Prime revision s1 msg
        = Some (s1, [], [])).
Proof.
  split_and!.
  - intros T ? ? a a1 msg bc res. apply acast_replay.
  - intros ps uh s s1 p n1 n2 n1' n2' bc res. apply vote_payload_replay.
  - intros ps pp uh s s1 v now now' bc res. apply aba_complete_replay.
  - intros ps pp ro Prime rev s s1 msg bc rs Hperm.
    by apply ivss_direct_replay.
  - intros ps pp ro Prime rev s s1 msg bc rs. apply ivss_acast_replay.
Qed.

(** Node 2 ([n = 2], [t = 1]) receives its Share of instance ["I"] from
    dealer 1, the slice [52 + 11y]. *)
Definition replay_example_node : IVSS.IVSSService :=
  IVSS.NewIVSSService 2 2 1 Cert.NewCertificationProtocol.

Definition replay_example_share : IVSS.IVSSMessage :=
  IVSS.direct_message IVSS.Direct_Share 2 1 "I"
    (Some (Poly.mkPoly [52; 11]%Z)) None 0.

Definition replay_example_handle (s : IVSS.IVSSService) :=
  IVSS.OnMessage (fun _ => "") (fun _ => None) (fun l => l)
    Poly.secp256k1 IVSS.Incremental s replay_example_share.

Definition replay_example_after : IVSS.IVSSService :=
  match replay_example_handle replay_example_node with
  | Some (s1, _, _) => s1
  | None => replay_example_node
  end.

(** C6 as stated fails for a replayed Share: the second handling, from
    the state reached after the first, broadcasts the two Point messages
    again. *)
Lemma share_replay_counterexample :
  (exists bc, replay_example_handle replay_example_node
              = Some (replay_example_after, bc, []))
  /\ replay_example_handle replay_example_after
     = Some (replay_example_after,
             [IVSS.direct_message IVSS.Direct_Point 1 2 "I" None
                (Some 63%Z) 1;
              IVSS.direct_message IVSS.Direct_Point 2 2 "I" None
                (Some 74%Z) 2],
             []).
Proof.
  split; [eexists|]; vm_compute; reflexivity.
Qed.

Lemma replay_quiet_except_ivss_direct_witness :
  replay_example_handle replay_example_after
  = Some (replay_example_after,
          point_messages Poly.secp256k1 replay_example_node "I"
            (Poly.mkPoly [52; 11]%Z),
          []).
Proof.
  destruct replay_quiet_except_ivss_direct as (_ & _ & _ & Hivss & _).
  destruct (replay_example_handle replay_example_node)
    as [[[s1 bc] rs]|] eqn:E; [|by vm_compute in E].
  assert (Hs1 : s1 = replay_example_after)
    by (unfold replay_example_after; by rewrite E).
  destruct (Hivss (fun _ => "") (fun _ => None) (fun l => l) Poly.secp256k1
              IVSS.Incremental replay_example_node s1 replay_example_share
              bc rs) as (_ & bc2 & H2 & _ & Hpts).
  - intros l. reflexivity.
  - discriminate.
  - exact E.
  - rewrite <- Hs1. unfold replay_example_handle. rewrite H2.
    by rewrite (Hpts eq_refl eq_refl _ eq_refl).
Defined.

(** ** The modulus is prime: Pocklington certificates *)

Section Pocklington.
Local Open Scope Z_scope.

(** The exponents that send [a] to 1 modulo [p] are closed under
    multiples and under gcd (Euclid's algorithm on the exponents). *)
Lemma pow_mod_one_mul a p x k :
  1 < p -> 0 <= x -> 0 <= k -> a ^ x mod p = 1 -> a ^ (x * k) mod p = 1.
Proof.
  intros Hp Hx Hk Ha. rewrite Z.pow_mul_r by done.
  rewrite <- Z.mod_pow_l, Ha, Z.pow_1_l by done. apply Z.mod_1_l. lia.
Qed.

Lemma pow_mod_one_gcd a p : 1 < p ->
  forall y, 0 <= y -> forall x, 0 <= x ->
  a ^ x mod p = 1 -> a ^ y mod p = 1 -> a ^ Z.gcd x y mod p = 1.
Proof.
  intros Hp y Hy. pattern y. revert y Hy.
  apply Zlt_0_ind. intros y IH Hy x Hx Hax Hay.
  destruct (decide (y = 0)) as [->|Hy0].
  { by rewrite Z.gcd_0_r, Z.abs_eq. }
  pose proof (Z.mod_pos_bound x y ltac:(lia)) as Hr.
  assert (Har : a ^ (x mod y) mod p = 1).
  { assert (Hq : 0 <= x / y) by (apply Z.div_pos; lia).
    rewrite (Z.div_mod x y) in Hax at 1 by done.
    rewrite Z.pow_add_r in Hax by nia.
    rewrite <- Z.mul_mod_idemp_l in Hax by lia.
    rewrite pow_mod_one_mul in Hax; try done; try lia.
    by rewrite Z.mul_1_l in Hax. }
  rewrite Z.gcd_comm, <- Z.gcd_mod by done. rewrite Z.gcd_comm.
  apply IH; try done; lia.
Qed.

(** A residue 1 modulo [N] is a residue 1 modulo every divisor of [N]. *)
Lemma mod_one_of_multiple p N x :
  1 < p -> (p | N) -> x mod N = 1 -> x mod p = 1.
Proof.
  intros Hp [k ->] Hx. destruct (decide (k * p = 0)) as [Hk|Hk].
  { rewrite Hk, Z.mod_0_r in Hx. subst. apply Z.mod_1_l. lia. }
  rewrite Z.mod_eq in Hx by done.
  replace x with (1 + (k * (x / (k * p))) * p) by lia.
  rewrite Z.mod_add by lia. apply Z.mod_1_l. lia.
Qed.

(** The step of Pocklington's criterion: a prime [q] of the factored part
    divides [p - 1] for every prime divisor [p] of [N]. *)
Lemma pocklington_step N p q a :
  1 < N -> Z.prime p -> (p | N) -> Z.prime q -> (q | N - 1) ->
  a ^ (N - 1) mod N = 1 ->
  Z.gcd (a ^ ((N - 1) / q) mod N - 1) N = 1 ->
  (q | p - 1).
Proof.
  intros HN Hp HpN Hq HqN Ha Hg.
  pose proof (Z.prime_ge_2 _ Hp) as Hp2.
  pose proof (Z.prime_ge_2 _ Hq) as Hq2.
  destruct (Z.BoolSpec_divide q (p - 1)) as [|Hndiv]; [done|exfalso].
  assert (Hap : a ^ (N - 1) mod p = 1)
    by (apply (mod_one_of_multiple p N); [lia|done|done]).
  assert (Hnz : a mod p <> 0).
  { intros Hz. rewrite <- Z.mod_pow_l, Hz, Z.pow_0_l in Hap by lia.
    rewrite Z.mod_0_l in Hap by lia. done. }
  pose proof (ZmodInv.Z.fermat_nz p a Hp Hnz) as Hf.
  pose proof (pow_mod_one_gcd a p ltac:(lia) (p - 1) ltac:(lia)
                (N - 1) ltac:(lia) Hap Hf) as Hgcd.
  set (g := Z.gcd (N - 1) (p - 1)) in *.
  set (m := (N - 1) / q).
  assert (Hm : N - 1 = q * m).
  { unfold m. destruct HqN as [k Hk]. rewrite Hk.
    rewrite Z.div_mul by lia. lia. }
  assert (Hgm : (g | m)).
  { apply (Z.gauss g q m).
    - rewrite <- Hm. apply Z.gcd_divide_l.
    - rewrite Z.gcd_comm. apply Z.coprime_prime_l; [done|].
      intros Hqg. apply Hndiv. etrans; [exact Hqg|]. apply Z.gcd_divide_r. }
  assert (Hg0 : 0 <= g) by apply Z.gcd_nonneg.
  assert (Hm0 : 0 <= m) by nia.
  assert (Ham : a ^ m mod p = 1).
  { destruct Hgm as [k Hk].
    assert (0 <= k).
    { destruct (decide (g = 0)) as [Hz|Hz]; [|nia].
      unfold g in Hz. apply Z.gcd_eq_0 in Hz. lia. }
    rewrite Hk, Z.mul_comm. by apply pow_mod_one_mul; try lia. }
  assert (Hdiv : (p | a ^ m mod N - 1)).
  { assert (Hd1 : (p | a ^ m - 1)).
    { apply Z.mod_divide; [lia|].
      rewrite <- Zminus_mod_idemp_l, Ham. done. }
    replace (a ^ m mod N - 1) with ((a ^ m - 1) - N * (a ^ m / N)).
    - apply Z.divide_sub_r; [done|]. by apply Z.divide_mul_l.
    - rewrite Z.mod_eq by lia. lia. }
  assert (Hp1 : (p | 1)).
  { rewrite <- Hg. by apply Z.gcd_greatest. }
  apply Z.divide_1_r_nonneg in Hp1; lia.
Qed.

(** Every integer above 1 has a prime divisor: the least divisor above 1. *)
Lemma least_divisor_prime n : 1 < n ->
  forall gap k, Z.of_nat gap = n - k -> 2 <= k ->
  (forall d, 2 <= d < k -> ~ (d | n)) ->
  exists p, Z.prime p /\ (p | n).
Proof.
  intros Hn. induction gap as [|gap IH]; intros k Hgap Hk Hnone.
  - assert (k = n) as -> by lia. exists n. split; [|done].
    split; [done|]. intros d Hd. apply Hnone. lia.
  - destruct (Z.BoolSpec_divide k n) as [Hdiv|Hndiv].
    + exists k. split; [|done]. split; [lia|].
      intros d Hd Hdk. apply (Hnone d); [lia|]. by etrans.
    + apply (IH (k + 1)); [lia|lia|].
      intros d Hd. destruct (decide (d = k)) as [->|]; [done|].
      apply Hnone. lia.
Qed.

Lemma prime_divisor_exists n : 1 < n -> exists p, Z.prime p /\ (p | n).
Proof.
  intros Hn. apply (least_divisor_prime n Hn (Z.to_nat (n - 2)) 2);
    [lia|lia|]. intros d Hd. lia.
Qed.

(** The product of the factored part. *)
Definition prodZ (qs : list Z) : Z := foldr Z.mul 1 qs.

Lemma prodZ_pos qs : Forall Z.prime qs -> 0 < prodZ qs.
Proof.
  induction 1 as [|q rest Hq Hrest IH]; simpl; [lia|].
  pose proof (Z.prime_ge_2 _ Hq). nia.
Qed.

Lemma coprime_prodZ q qs :
  Z.prime q -> Forall Z.prime qs -> q ∉ qs -> Z.gcd q (prodZ qs) = 1.
Proof.
  intros Hq Hqs Hnin. induction Hqs as [|r rest Hr Hrest IH]; simpl.
  - apply Z.gcd_1_r.
  - apply not_elem_of_cons in Hnin as [Hne Hnin].
    apply Z.coprime_mul_r; [|by apply IH].
    apply Z.coprime_prime_l; [done|].
    intros Hd. apply Hne. by apply Z.divide_prime_prime.
Qed.

Lemma prodZ_divide qs x :
  Forall Z.prime qs -> NoDup qs -> Forall (fun q => (q | x)) qs ->
  (prodZ qs | x).
Proof.
  intros Hqs Hnd Hdiv. induction Hqs as [|q rest Hq Hrest IH]; simpl.
  - apply Z.divide_1_l.
  - apply NoDup_cons in Hnd as [Hnin Hnd].
    apply Forall_cons in Hdiv as [[k ->] Hdiv].
    rewrite (Z.mul_comm k q). apply Z.mul_divide_mono_l.
    apply (Z.gauss _ q); [|rewrite Z.gcd_comm; by apply coprime_prodZ].
    rewrite (Z.mul_comm q k). by apply IH.
Qed.

(** A certificate lists, for each prime [q] of the factored part, a base
    [a] of order divisible by [q]. *)
Definition pock_entry (N : Z) (qa : Z * Z) : bool :=
  ((N - 1) mod qa.1 =? 0)
  && (Zpow_mod qa.2 (N - 1) N =? 1)
  && (Z.gcd (Zpow_mod qa.2 ((N - 1) / qa.1) N - 1) N =? 1).

Definition pock_ok (N : Z) (cert : list (Z * Z)) : bool :=
  (1 <? N) && forallb (pock_entry N) cert
  && (N <? (prodZ cert.*1 + 1) * (prodZ cert.*1 + 1))
  && bool_decide (NoDup cert.*1).

(** Pocklington's criterion: when the primes of the certificate divide
    [N - 1], each with its base, and their product [F] satisfies
    [N < (F + 1)^2], every prime divisor of [N] is at least [F + 1] and
    [N] is prime. *)
Theorem pocklington N cert :
  Forall Z.prime cert.*1 -> pock_ok N cert = true -> Z.prime N.
Proof.
  intros Hqs Hok. unfold pock_ok in Hok.
  apply andb_prop in Hok as [Hok Hnd]. apply bool_decide_eq_true in Hnd.
  apply andb_prop in Hok as [Hok Hsq]. apply Z.ltb_lt in Hsq.
  apply andb_prop in Hok as [HN Hent]. apply Z.ltb_lt in HN.
  rewrite forallb_forall in Hent.
  set (F := prodZ cert.*1) in *.
  assert (Hbig : forall p, Z.prime p -> (p | N) -> F + 1 <= p).
  { intros p Hp HpN. pose proof (Z.prime_ge_2 _ Hp).
    assert (HF : (F | p - 1)).
    { apply prodZ_divide; [done|done|].
      apply Forall_forall. intros q Hq.
      pose proof (proj1 (Forall_forall _ _) Hqs q Hq) as Hqp.
      apply list_elem_of_fmap in Hq as ([q' a] & -> & Hin). simpl in *.
      apply list_elem_of_In in Hin.
      pose proof (Hent _ Hin) as Hqa.
      unfold pock_entry in Hqa. simpl in Hqa.
      apply andb_prop in Hqa as [Hqa Hgcd].
      apply andb_prop in Hqa as [Hmod Hpow].
      apply Z.eqb_eq in Hmod, Hpow, Hgcd.
      apply (pocklington_step N p q' a); try done.
      - apply Z.mod_divide; [|done]. pose proof (Z.prime_ge_2 _ Hqp). lia.
      - by rewrite <- Zpow_mod_correct by lia.
      - by rewrite <- Zpow_mod_correct by lia. }
    apply Z.divide_pos_le in HF; lia. }
  split; [done|]. intros n Hn HnN.
  destruct (prime_divisor_exists n ltac:(lia)) as (p1 & Hp1 & Hd1).
  destruct HnN as [m Hm].
  assert (1 < m) by nia.
  destruct (prime_divisor_exists m ltac:(lia)) as (p2 & Hp2 & Hd2).
  assert (F + 1 <= p1).
  { apply Hbig; [done|]. etrans; [exact Hd1|]. by exists m. }
  assert (F + 1 <= p2).
  { apply Hbig; [done|]. etrans; [exact Hd2|]. exists n. lia. }
  apply Z.divide_pos_le in Hd1; [|lia].
  apply Z.divide_pos_le in Hd2; [|lia].
  pose proof (prodZ_pos _ Hqs) as HF. fold F in HF. nia.
Qed.

(** Trial division up to the square root. *)
Fixpoint trial (n d : Z) (fuel : nat) : bool :=
  match fuel with
  | O => false
  | S fuel' =>
      if n <? d * d then true
      else if n mod d =? 0 then false
      else trial n (d + 1) fuel'
  end.

Definition prime_small (n : Z) : bool :=
  (1 <? n) && trial n 2 (Z.to_nat (Z.sqrt n)).

Lemma trial_sound n fuel : 1 < n -> forall d, 2 <= d ->
  (forall k, 2 <= k < d -> ~ (k | n)) ->
  trial n d fuel = true -> Z.prime n.
Proof.
  intros Hn. induction fuel as [|fuel IH]; intros d Hd Hnone; [done|].
  simpl. destruct (Z.ltb_spec n (d * d)) as [Hlt|Hge].
  - intros _. split; [done|]. intros k Hk [m Hm].
    assert (1 < m) by nia.
    assert (k < d \/ m < d) as [Hs|Hs] by nia.
    + apply (Hnone k); [lia|]. by exists m.
    + apply (Hnone m); [lia|]. exists k. lia.
  - destruct (Z.eqb_spec (n mod d) 0) as [|Hmod]; [done|].
    apply IH; [lia|]. intros k Hk.
    destruct (decide (k = d)) as [->|]; [|apply Hnone; lia].
    intros Hdiv. apply Hmod. apply Z.mod_divide; [lia|done].
Qed.

Lemma prime_small_sound n : prime_small n = true -> Z.prime n.
Proof.
  unfold prime_small. intros [Hn Ht]%andb_prop. apply Z.ltb_lt in Hn.
  apply (trial_sound n (Z.to_nat (Z.sqrt n)) Hn 2); [lia| |exact Ht].
  intros k Hk. lia.
Qed.
End Pocklington.

(** The chain of certificates for the modulus: [Prime - 1] has the prime
    factor [q1] above the square root of [Prime], [q1 - 1] has the prime
    factor [q2] above the square root of [q1], and [q2 - 1] has three
    prime factors below [2^27] whose product is above the square root of
    [q2]. *)
Section Secp256k1Prime.
Local Open Scope Z_scope.

Lemma prime_96557 : Z.prime 96557.
Proof. apply prime_small_sound. vm_compute. reflexivity. Qed.
Lemma prime_7240687 : Z.prime 7240687.
Proof. apply prime_small_sound. vm_compute. reflexivity. Qed.
Lemma prime_107590001 : Z.prime 107590001.
Proof. apply prime_small_sound. vm_compute. reflexivity. Qed.

Lemma prime_secp256k1_level2 :
  Z.prime 255515944373312847190720520512484175977.
Proof.
  apply (pocklington _ [(107590001, 2); (7240687, 2); (96557, 2)]).
  - repeat constructor;
      [apply prime_107590001|apply prime_7240687|apply prime_96557].
  - vm_compute. reflexivity.
Qed.

Lemma prime_secp256k1_level1 :
  Z.prime 205115282021455665897114700593932402728804164701536103180137503955397371.
Proof.
  apply (pocklington _ [(255515944373312847190720520512484175977, 2)]).
  - repeat constructor. apply prime_secp256k1_level2.
  - vm_compute. reflexivity.
Qed.

Lemma secp256k1_prime : Z.prime Poly.secp256k1.
Proof.
  apply (pocklington _
    [(205115282021455665897114700593932402728804164701536103180137503955397371, 2)]).
  - repeat constructor. apply prime_secp256k1_level1.
  - vm_compute. reflexivity.
Qed.
End Secp256k1Prime.

(** ** Lagrange interpolation at zero *)

Section PolyFunctions.
Local Open Scope Z_scope.

(** Exact evaluation of a coefficient list over the integers. *)
Definition peval (cs : list Z) (x : Z) : Z :=
  foldr (fun c acc => acc * x + c) 0 cs.

Lemma peval_cons c cs x : peval (c :: cs) x = peval cs x * x + c.
Proof. reflexivity. Qed.

(** Coefficient-wise sum. *)
Fixpoint padd (a b : list Z) : list Z :=
  match a, b with
  | [], _ => b
  | _, [] => a
  | x :: a', y :: b' => (x + y) :: padd a' b'
  end.

Lemma peval_padd a : forall b x, peval (padd a b) x = peval a x + peval b x.
Proof.
  induction a as [|c a IH]; intros [|d b] x; simpl padd;
    rewrite ?peval_cons; try (simpl; lia).
  rewrite IH. lia.
Qed.

Lemma length_padd a : forall b,
  length (padd a b) = Nat.max (length a) (length b).
Proof.
  induction a as [|c a IH]; intros [|d b]; simpl; try done.
  by rewrite IH.
Qed.

Lemma peval_scale c cs x : peval ((Z.mul c) <$> cs) x = c * peval cs x.
Proof.
  induction cs as [|d cs IH]; [simpl; lia|].
  rewrite fmap_cons, !peval_cons, IH. lia.
Qed.

(** [f] is a polynomial function with at most [k] coefficients (of
    degree less than [k]). *)
Definition is_poly (k : nat) (f : Z -> Z) : Prop :=
  exists cs, (length cs <= k)%nat /\ forall x, f x = peval cs x.

Lemma is_poly_ext k f g :
  (forall x, f x = g x) -> is_poly k f -> is_poly k g.
Proof.
  intros Hfg (cs & Hl & Hf). exists cs. split; [done|].
  intros x. by rewrite <- Hfg.
Qed.

Lemma is_poly_mono k k' f : (k <= k')%nat -> is_poly k f -> is_poly k' f.
Proof. intros Hk (cs & Hl & Hf). exists cs. split; [lia|done]. Qed.

Lemma is_poly_zero k : is_poly k (fun _ => 0).
Proof. exists []. split; [simpl; lia|done]. Qed.

Lemma is_poly_const c : is_poly 1 (fun _ => c).
Proof. exists [c]. split; [done|]. intros x. simpl. lia. Qed.

Lemma is_poly_add k f g :
  is_poly k f -> is_poly k g -> is_poly k (fun x => f x + g x).
Proof.
  intros (a & Ha & Hf) (b & Hb & Hg). exists (padd a b). split.
  - rewrite length_padd. lia.
  - intros x. by rewrite peval_padd, Hf, Hg.
Qed.

Lemma is_poly_scale k c f : is_poly k f -> is_poly k (fun x => c * f x).
Proof.
  intros (a & Ha & Hf). exists ((Z.mul c) <$> a). split.
  - by rewrite length_fmap.
  - intros x. by rewrite peval_scale, Hf.
Qed.

Lemma is_poly_linear k a f :
  is_poly k f -> is_poly (S k) (fun x => (x - a) * f x).
Proof.
  intros (cs & Hl & Hf).
  exists (padd (0 :: cs) ((Z.mul (- a)) <$> cs)). split.
  - rewrite length_padd, length_fmap. simpl. lia.
  - intros x. rewrite peval_padd, peval_scale, Hf, peval_cons. lia.
Qed.

(** Synthetic division by [x - r]: quotient and remainder. *)
Fixpoint pdiv (r : Z) (cs : list Z) : list Z * Z :=
  match cs with
  | [] => ([], 0)
  | a :: cs' =>
      let '(q, c) := pdiv r cs' in
      (match cs' with [] => [] | _ => c :: q end, c * r + a)
  end.

Lemma pdiv_spec r cs :
  (forall x, peval cs x = (x - r) * peval (pdiv r cs).1 x + (pdiv r cs).2)
  /\ length (pdiv r cs).1 = pred (length cs).
Proof.
  induction cs as [|a cs [IH Hl]]; [split; [intros; simpl; lia|done]|].
  simpl pdiv. destruct (pdiv r cs) as [q c] eqn:E.
  cbn [fst snd] in *. destruct cs as [|b cs'].
  - simpl in E. injection E as <- <-. split; [intros; simpl; lia|done].
  - split.
    + intros x. rewrite (peval_cons a), IH, (peval_cons c). lia.
    + simpl length in *. by rewrite Hl.
Qed.
End PolyFunctions.

Section PrimeField.
Local Open Scope Z_scope.
Variable p : Z.
Hypothesis p_prime : Z.prime p.

Definition in_field (x : Z) : Prop := 0 <= x < p.

Lemma p_ge_2 : 2 <= p.
Proof. by apply Z.prime_ge_2. Qed.

Lemma Mod_p x : Poly.Mod x p = x mod p.
Proof. unfold Poly.Mod. rewrite Z.abs_eq; [done|]. pose proof p_ge_2. lia. Qed.

Lemma Mod_in_field x : in_field (Poly.Mod x p).
Proof. rewrite Mod_p. apply Z.mod_pos_bound. pose proof p_ge_2. lia. Qed.

Lemma divide_mod_eq a b : (p | a - b) -> a mod p = b mod p.
Proof.
  intros [k Hk]. replace a with (b + k * p) by lia.
  apply Z_mod_plus_full.
Qed.

Lemma mod_eq_divide a b : a mod p = b mod p -> (p | a - b).
Proof.
  intros Hab. pose proof p_ge_2.
  apply Z.mod_divide; [lia|].
  rewrite Zminus_mod, Hab, Z.sub_diag. apply Z.mod_0_l. lia.
Qed.

Lemma divide_mod a : (p | a mod p - a).
Proof. apply mod_eq_divide. apply Z.mod_mod. pose proof p_ge_2. lia. Qed.

Lemma distinct_not_divide x y :
  in_field x -> in_field y -> x <> y -> ~ (p | x - y).
Proof.
  unfold in_field. intros Hx Hy Hne [k Hk].
  assert (k = 0) by nia. lia.
Qed.

(** A polynomial function with fewer coefficients than it has distinct
    roots in the field vanishes everywhere modulo [p]. *)
Lemma roots_vanish (roots : list Z) : forall cs,
  (length cs <= length roots)%nat ->
  NoDup roots -> Forall in_field roots ->
  (forall r, r ∈ roots -> (p | peval cs r)) ->
  forall x, (p | peval cs x).
Proof.
  induction roots as [|r rs IH]; intros cs Hlen Hnd Hin Hroots x.
  - destruct cs; [|simpl in Hlen; lia]. simpl. apply Z.divide_0_r.
  - destruct (pdiv_spec r cs) as [Hdiv Hl].
    set (q := (pdiv r cs).1) in *. set (c := (pdiv r cs).2) in *.
    apply NoDup_cons in Hnd as [Hr Hnd].
    apply Forall_cons in Hin as [Hrf Hin].
    assert (Hc : (p | c)).
    { pose proof (Hroots r ltac:(left)) as Hrr.
      rewrite Hdiv in Hrr. by replace ((r - r) * peval q r + c) with c in Hrr by lia. }
    assert (Hq : forall y, (p | peval q y)).
    { apply IH; [simpl in Hlen; lia|done|done|].
      intros r' Hr'. pose proof (Hroots r' ltac:(by right)) as Hrr.
      rewrite Hdiv in Hrr.
      assert (Hprod : (p | (r' - r) * peval q r')).
      { replace ((r' - r) * peval q r')
          with (((r' - r) * peval q r' + c) - c) by lia.
        by apply Z.divide_sub_r. }
      apply Z.divide_prime_mul in Hprod as [Hbad|Hok]; [|done|done].
      exfalso. eapply (distinct_not_divide r' r); [|done| |done].
      - by eapply (proj1 (Forall_forall _ _) Hin).
      - intros ->. done. }
    rewrite Hdiv. apply Z.divide_add_r; [|done].
    by apply Z.divide_mul_r.
Qed.

(** The product of [X - m] over the nodes [m] of a list. *)
Definition Dprod (X : Z) (others : list Z) : Z :=
  foldr (fun m acc => (X - m) * acc) 1 others.

Lemma Dprod_cons X m others :
  Dprod X (m :: others) = (X - m) * Dprod X others.
Proof. reflexivity. Qed.

Lemma Dprod_app X l1 l2 : Dprod X (l1 ++ l2) = Dprod X l1 * Dprod X l2.
Proof.
  induction l1 as [|m l1 IH]; [simpl; lia|].
  rewrite <- app_comm_cons, !Dprod_cons, IH. lia.
Qed.

Lemma Dprod_zero x others : x ∈ others -> Dprod x others = 0.
Proof.
  induction others as [|m others IH]; intros Hx; [by apply elem_of_nil in Hx|].
  rewrite Dprod_cons. apply elem_of_cons in Hx as [->|Hx]; [lia|].
  rewrite IH by done. lia.
Qed.

Lemma Dprod_not_divide x others :
  in_field x -> Forall in_field others -> x ∉ others ->
  ~ (p | Dprod x others).
Proof.
  intros Hx. induction others as [|m others IH]; intros Hin Hnot.
  - simpl. intros Hd. pose proof p_ge_2.
    apply Z.divide_1_r_nonneg in Hd; lia.
  - apply Forall_cons in Hin as [Hm Hin]. rewrite Dprod_cons.
    intros Hd. apply Z.divide_prime_mul in Hd as [Hd|Hd]; [| |done].
    + eapply (distinct_not_divide x m); [done|done| |done].
      intros ->. apply Hnot. left.
    + apply IH; [done| |done]. intros Hx'. apply Hnot. by right.
Qed.

Lemma is_poly_Dprod others :
  is_poly (S (length others)) (fun X => Dprod X others).
Proof.
  induction others as [|m others IH].
  - apply (is_poly_const 1).
  - simpl length. apply (is_poly_ext _ (fun X => (X - m) * Dprod X others));
      [done|]. by apply is_poly_linear.
Qed.

(** The inverse that the code computes for the denominator. *)
Definition inv_of (x : Z) (others : list Z) : Z :=
  Z.invmod (Dprod x others mod p) p.

Lemma inv_of_spec x others :
  ~ (p | Dprod x others) -> (p | inv_of x others * Dprod x others - 1).
Proof.
  intros Hnd. pose proof p_ge_2. unfold inv_of.
  rewrite Z.invmod_mod_l.
  apply mod_eq_divide. rewrite (Z.mod_small 1) by lia.
  apply Z.invmod_prime; [done|].
  intros Hz. apply Hnd. apply Z.mod_divide; [lia|done].
Qed.

Lemma ModInverse_den x others :
  ~ (p | Dprod x others) ->
  Poly.ModInverse (Dprod x others mod p) p = Some (inv_of x others).
Proof.
  intros Hnd. pose proof p_ge_2. unfold Poly.ModInverse, inv_of.
  rewrite Z.abs_eq by lia.
  assert (Hr : 1 <= Dprod x others mod p < p).
  { pose proof (Z.mod_pos_bound (Dprod x others) p ltac:(lia)).
    assert (Dprod x others mod p <> 0); [|lia].
    intros Hz. apply Hnd. apply Z.mod_divide; [lia|done]. }
  pose proof (Z.coprime_prime_small p _ p_prime Hr) as Hc.
  unfold Z.coprime in Hc. rewrite Z.gcd_comm in Hc. rewrite Hc. done.
Qed.
End PrimeField.

Section Lagrange.
Local Open Scope Z_scope.
Variable p : Z.
Hypothesis p_prime : Z.prime p.
(** The interpolated polynomial function. *)
Variable P : Z -> Z.

(** The Lagrange term of node [x] against the other nodes, as a function
    of the evaluation point [X]. *)
Definition lterm (x : Z) (others : list Z) (X : Z) : Z :=
  P x * inv_of p x others * Dprod X others.

(** The Lagrange sum over the nodes of [post], each against all other
    nodes of [pre ++ post]. *)
Fixpoint Lsum (pre post : list Z) (X : Z) : Z :=
  match post with
  | [] => 0
  | x :: post' => lterm x (pre ++ post') X + Lsum (pre ++ [x]) post' X
  end.

Lemma Lsum_pre_zero post : forall pre x, x ∈ pre -> Lsum pre post x = 0.
Proof.
  induction post as [|y post IH]; intros pre x Hx; [done|].
  simpl. rewrite IH by (apply elem_of_app; by left).
  unfold lterm. rewrite Dprod_zero by (apply elem_of_app; by left). lia.
Qed.

Lemma Lsum_at_node post : forall pre x,
  NoDup (pre ++ post) -> Forall (in_field p) (pre ++ post) -> x ∈ post ->
  (p | Lsum pre post x - P x).
Proof.
  induction post as [|y post IH]; intros pre x Hnd Hin Hx;
    [by apply elem_of_nil in Hx|].
  simpl. destruct (decide (x = y)) as [->|Hne].
  - rewrite Lsum_pre_zero by (apply elem_of_app; right; left).
    assert (Hy : y ∉ pre ++ post).
    { apply NoDup_app in Hnd as (_ & Hdis & Hnd).
      apply NoDup_cons in Hnd as [Hy _].
      intros [Hp|Hp]%elem_of_app; [|done]. apply (Hdis _ Hp). left. }
    assert (Hf : Forall (in_field p) (pre ++ post) /\ in_field p y).
    { apply Forall_app in Hin as [H1 H2].
      apply Forall_cons in H2 as [H2 H3]. split; [|done].
      by apply Forall_app. }
    destruct Hf as [Hf Hyf].
    pose proof (inv_of_spec p p_prime y (pre ++ post)
                  (Dprod_not_divide p p_prime _ _ Hyf Hf Hy)) as [k Hk].
    exists (P y * k). unfold lterm. rewrite Z.add_0_r.
    replace (P y * inv_of p y (pre ++ post) * Dprod y (pre ++ post) - P y)
      with (P y * (inv_of p y (pre ++ post) * Dprod y (pre ++ post) - 1))
      by ring.
    rewrite Hk. ring.
  - apply elem_of_cons in Hx as [?|Hx]; [done|].
    unfold lterm. rewrite Dprod_zero by (apply elem_of_app; by right).
    replace (P y * inv_of p y (pre ++ post) * 0
             + Lsum (pre ++ [y]) post x - P x)
      with (Lsum (pre ++ [y]) post x - P x) by lia.
    apply IH; [by rewrite <- app_assoc|by rewrite <- app_assoc|done].
Qed.

Lemma is_poly_Lsum post : forall pre,
  is_poly (length pre + length post) (Lsum pre post).
Proof.
  induction post as [|y post IH]; intros pre; [apply is_poly_zero|].
  simpl Lsum. apply is_poly_add.
  - apply (is_poly_ext _
      (fun X => (P y * inv_of p y (pre ++ post)) * Dprod X (pre ++ post)));
      [done|].
    apply is_poly_scale.
    apply (is_poly_mono (S (length (pre ++ post)))); [|apply is_poly_Dprod].
    rewrite length_app. simpl. lia.
  - eapply is_poly_mono; [|apply IH]. rewrite length_app. simpl. lia.
Qed.

(** The Lagrange sum at zero gives the value at zero of a polynomial
    function with at most as many coefficients as there are nodes. *)
Lemma Lagrange_at_zero (xs : list Z) :
  is_poly (length xs) P -> NoDup xs -> Forall (in_field p) xs ->
  (p | Lsum [] xs 0 - P 0).
Proof.
  intros HP Hnd Hin.
  assert (HQ : is_poly (length xs) (fun X => Lsum [] xs X + (-1) * P X)).
  { apply is_poly_add; [apply (is_poly_Lsum xs [])|by apply is_poly_scale]. }
  destruct HQ as (cs & Hl & HQ).
  replace (Lsum [] xs 0 - P 0) with (peval cs 0) by (rewrite <- HQ; lia).
  apply (roots_vanish p p_prime xs); try done.
  intros r Hr. rewrite <- HQ.
  replace (Lsum [] xs r + -1 * P r) with (Lsum [] xs r - P r) by lia.
  by apply Lsum_at_node.
Qed.
End Lagrange.

Section InterpolateCode.
Local Open Scope Z_scope.
Variable p : Z.
Hypothesis p_prime : Z.prime p.

(** [Evaluate] is exact evaluation reduced modulo the prime. *)
Lemma Evaluate_peval cs x :
  Poly.Evaluate p (Poly.mkPoly cs) x = peval cs x mod p.
Proof.
  pose proof (p_ge_2 p p_prime).
  unfold Poly.Evaluate. cbn [Poly.Coeffs].
  rewrite <- fold_left_rev_right, rev_involutive.
  induction cs as [|c cs IH].
  - simpl. symmetry. apply Z.mod_0_l. lia.
  - cbn [fold_right]. rewrite IH, peval_cons.
    unfold Poly.horner_step. rewrite Mod_p by done.
    rewrite <- (Z.add_mod_idemp_l (peval cs x * x)) by lia.
    rewrite <- (Z.mul_mod_idemp_l (peval cs x)) by lia.
    by rewrite Z.add_mod_idemp_l by lia.
Qed.

(** One step of the inner loop on a node other than [j]. *)
Definition other_step (xj : Z) (acc : Z * Z) (xm : Z) : Z * Z :=
  (Poly.Mod (acc.1 * (- xm)) p, Poly.Mod (acc.2 * (xj - xm)) p).

Lemma fold_noskip j xj l : forall (g : nat -> nat) acc,
  (forall i, (i < length l)%nat -> g i <> j) ->
  fold_left (Poly.basis_step p j xj) (imap (fun i x => (g i, x)) l) acc
  = fold_left (other_step xj) l acc.
Proof.
  induction l as [|x l IH]; intros g acc Hg; [done|].
  cbn [imap fold_left]. unfold Poly.basis_step at 2. cbn [fst snd].
  rewrite decide_False by (apply Hg; simpl; lia).
  apply (IH (g ∘ S)). intros i Hi. apply Hg. simpl. lia.
Qed.

(** The inner loop for the node at position [length pre] runs over all
    the other nodes. *)
Lemma basis_split pre x post :
  Poly.basis p (pre ++ x :: post) (length pre) x
  = fold_left (other_step x) (pre ++ post) (1, 1).
Proof.
  unfold Poly.basis. rewrite imap_app, !fold_left_app.
  rewrite (fold_noskip _ _ pre (fun i => i)) by (intros i Hi; lia).
  cbn [imap fold_left]. unfold Poly.basis_step at 2. cbn [fst snd].
  rewrite Nat.add_0_r, decide_True by done.
  apply (fold_noskip _ _ post (fun i => (length pre + S i)%nat)).
  intros i Hi. lia.
Qed.

Lemma other_steps_products xj l : forall a b,
  fold_left (other_step xj) l (a mod p, b mod p)
  = ((a * Dprod 0 l) mod p, (b * Dprod xj l) mod p).
Proof.
  pose proof (p_ge_2 p p_prime).
  induction l as [|m l IH]; intros a b.
  - simpl. by rewrite !Z.mul_1_r.
  - cbn [fold_left]. unfold other_step at 2. cbn [fst snd].
    rewrite !Mod_p by done.
    rewrite !Z.mul_mod_idemp_l by lia. rewrite IH, !Dprod_cons.
    f_equal; f_equal; ring.
Qed.

Lemma basis_value pre x post :
  Poly.basis p (pre ++ x :: post) (length pre) x
  = (Dprod 0 (pre ++ post) mod p, Dprod x (pre ++ post) mod p).
Proof.
  pose proof (p_ge_2 p p_prime).
  rewrite basis_split.
  rewrite <- (Z.mod_small 1 p) at 1 2 by lia.
  rewrite other_steps_products. by rewrite !Z.mul_1_l.
Qed.
End InterpolateCode.

Section InterpolateSum.
Local Open Scope Z_scope.
Variable p : Z.
Hypothesis p_prime : Z.prime p.
(** The interpolated polynomial function and the nodes. *)
Variable P : Z -> Z.
Variable xs : list Z.
Hypothesis xs_NoDup : NoDup xs.
Hypothesis xs_field : Forall (in_field p) xs.

(** The values at the nodes. *)
Definition node_values : list Z := (fun x => P x mod p) <$> xs.

(** The body of the outer loop at the node [x] between [pre] and
    [post]. *)
Lemma interp_step_value pre x post result :
  xs = pre ++ x :: post ->
  exists r,
    Poly.interp_step p xs node_values result (length pre, x) = Some r
    /\ in_field p r
    /\ (p | r - (result + lterm p P x (pre ++ post) 0)).
Proof.
  intros Hxs. pose proof (p_ge_2 p p_prime).
  assert (Hx : in_field p x /\ Forall (in_field p) (pre ++ post)
               /\ x ∉ pre ++ post).
  { pose proof xs_field as Hf. pose proof xs_NoDup as Hnd.
    rewrite Hxs in Hf, Hnd.
    apply Forall_app in Hf as [H1 H2].
    apply Forall_cons in H2 as [H2 H3].
    apply NoDup_app in Hnd as (_ & Hdis & Hnd).
    apply NoDup_cons in Hnd as [Hy _].
    split_and!; [done|by apply Forall_app|].
    intros [Hp|Hp]%elem_of_app; [|done]. apply (Hdis _ Hp). left. }
  destruct Hx as (Hxf & Hof & Hxo).
  pose proof (Dprod_not_divide p p_prime _ _ Hxf Hof Hxo) as Hnd.
  unfold Poly.interp_step. cbn [fst snd].
  assert (Hy : node_values !! length pre = Some (P x mod p)).
  { unfold node_values. rewrite list_lookup_fmap, Hxs.
    by rewrite list_lookup_middle. }
  rewrite Hy. cbn [mbind option_bind].
  assert (Hb : Poly.basis p xs (length pre) x
               = (Dprod 0 (pre ++ post) mod p, Dprod x (pre ++ post) mod p))
    by (rewrite Hxs; by apply basis_value).
  rewrite Hb.
  rewrite (ModInverse_den p p_prime _ _ Hnd). cbn [mbind option_bind].
  eexists. split; [reflexivity|]. split; [by apply Mod_in_field|].
  rewrite !Mod_p by done.
  assert (HT : ((P x mod p * (Dprod 0 (pre ++ post) mod p)) mod p
                * inv_of p x (pre ++ post)) mod p
               = lterm p P x (pre ++ post) 0 mod p).
  { rewrite <- (Z.mul_mod (P x)) by lia.
    rewrite Z.mul_mod_idemp_l by lia. unfold lterm. f_equal. ring. }
  rewrite HT. apply mod_eq_divide; [done|].
  rewrite Z.mod_mod by lia. by rewrite Z.add_mod_idemp_r by lia.
Qed.

Lemma outer_loop_value post : forall pre result,
  xs = pre ++ post ->
  exists r,
    foldlM (Poly.interp_step p xs node_values) result
      (imap (fun i x => ((length pre + i)%nat, x)) post) = Some r
    /\ (post <> [] -> in_field p r)
    /\ (p | r - (result + Lsum p P pre post 0)).
Proof.
  induction post as [|x post IH]; intros pre result Hxs.
  - exists result. split_and!; [done|done|]. simpl.
    rewrite Z.add_0_r, Z.sub_diag. apply Z.divide_0_r.
  - cbn [imap foldlM]. rewrite Nat.add_0_r.
    destruct (interp_step_value pre x post result Hxs)
      as (r1 & -> & Hr1 & Hd1).
    cbn [mbind option_bind].
    destruct (IH (pre ++ [x]) r1) as (r & Hr & Hrf & Hd).
    { by rewrite <- app_assoc. }
    exists r. split_and!.
    + rewrite <- Hr. f_equal. apply imap_ext. intros i y _. simpl.
      f_equal. rewrite length_app. simpl. lia.
    + intros _. destruct post as [|y post]; [|by apply Hrf].
      simpl in Hr. by injection Hr as <-.
    + simpl Lsum.
      replace (r - (result + (lterm p P x (pre ++ post) 0
                              + Lsum p P (pre ++ [x]) post 0)))
        with ((r - (r1 + Lsum p P (pre ++ [x]) post 0))
              + (r1 - (result + lterm p P x (pre ++ post) 0))) by ring.
      by apply Z.divide_add_r.
Qed.

Lemma InterpolateAtZero_value :
  xs <> [] -> is_poly (length xs) P ->
  Poly.InterpolateAtZero p xs node_values = Some (P 0 mod p).
Proof.
  intros Hne HP. pose proof (p_ge_2 p p_prime).
  unfold Poly.InterpolateAtZero.
  destruct (outer_loop_value xs [] 0 eq_refl) as (r & Hr & Hrf & Hd).
  change (imap _ xs) with (imap pair xs) in Hr.
  rewrite Hr. cbn [mbind option_bind].
  specialize (Hrf Hne). unfold in_field in Hrf.
  rewrite (proj2 (Z.ltb_ge r 0)) by lia. f_equal.
  rewrite <- (Z.mod_small r p) by lia.
  apply divide_mod_eq.
  replace (r - P 0)
    with ((r - (0 + Lsum p P [] xs 0)) + (Lsum p P [] xs 0 - P 0)) by ring.
  apply Z.divide_add_r; [done|]. by apply Lagrange_at_zero.
Qed.
End InterpolateSum.

(** C9.  The package's modulus [Prime] is prime, and for every prime
    modulus [p], [k >= 1] pairwise distinct points of [[0, p)] and the
    values [y_i = P(x_i) mod p] of a polynomial [P] with at most [k]
    coefficients (degree less than [k]), [InterpolateAtZero] returns
    [P(0) mod p], which lies in [[0, p)]; the values are those [Evaluate]
    computes at the points. *)
Theorem InterpolateAtZero_correct :
  Z.prime Poly.secp256k1
  /\ forall (p : Z) (xs coeffs : list Z),
       Z.prime p ->
       (1 <= length xs)%nat -> NoDup xs ->
       Forall (fun x => 0 <= x < p)%Z xs ->
       (length coeffs <= length xs)%nat ->
       let ys := (fun x => peval coeffs x mod p)%Z <$> xs in
       Poly.InterpolateAtZero p xs ys = Some (peval coeffs 0 mod p)%Z
       /\ (0 <= peval coeffs 0 mod p < p)%Z
       /\ ys = Poly.Evaluate p (Poly.mkPoly coeffs) <$> xs.
Proof.
  split; [exact secp256k1_prime|].
  intros p xs coeffs Hp Hk Hnd Hf Hlen ys. split; [|split].
  - apply (InterpolateAtZero_value p Hp (peval coeffs) xs Hnd Hf).
    + intros ->. simpl in Hk. lia.
    + exists coeffs. by split.
  - apply Z.mod_pos_bound. pose proof (p_ge_2 p Hp). lia.
  - unfold ys. apply list_fmap_ext. intros i x _.
    symmetry. by apply Evaluate_peval.
Qed.

(** With the package's modulus, the line [42 + 5 x] through (1, 47) and
    (2, 52). *)
Lemma InterpolateAtZero_correct_witness :
  Poly.InterpolateAtZero Poly.secp256k1 [1; 2]%Z [47; 52]%Z = Some 42%Z.
Proof.
  destruct InterpolateAtZero_correct as [Hprime Hinterp].
  destruct (Hinterp Poly.secp256k1 [1; 2]%Z [42; 5]%Z) as (H & _).
  - exact Hprime.
  - simpl; lia.
  - apply NoDup_cons; split; [|apply NoDup_singleton].
    intros Hin%list_elem_of_singleton; lia.
  - repeat constructor; vm_compute; congruence.
  - simpl; lia.
  - exact H.
Defined.

(** * Further properties of the code *)

(** ** utils/polynomial.go: slices of the symmetric polynomial *)

Section SymmetricSlices.
Local Open Scope Z_scope.

(** Sum of [f] over a list of indices. *)
Definition sumZ (f : Z -> Z) (l : list Z) : Z :=
  foldr (fun i acc => f i + acc) 0 l.

Lemma sumZ_cons f i l : sumZ f (i :: l) = f i + sumZ f l.
Proof. reflexivity. Qed.

Lemma sumZ_ext f g l :
  (forall i, i ∈ l -> f i = g i) -> sumZ f l = sumZ g l.
Proof.
  induction l as [|i l IH]; intros Hfg; [done|]. simpl.
  rewrite Hfg by left. rewrite IH; [done|]. intros j Hj. apply Hfg. by right.
Qed.

Lemma sumZ_add f g l : sumZ (fun i => f i + g i) l = sumZ f l + sumZ g l.
Proof. induction l as [|i l IH]; simpl; lia. Qed.

Lemma sumZ_scale c f l : sumZ (fun i => f i * c) l = sumZ f l * c.
Proof. induction l as [|i l IH]; simpl; lia. Qed.

Lemma sumZ_exchange (g : Z -> Z -> Z) l1 l2 :
  sumZ (fun i => sumZ (fun j => g i j) l2) l1
  = sumZ (fun j => sumZ (fun i => g i j) l1) l2.
Proof.
  induction l1 as [|i l1 IH]; simpl.
  - induction l2 as [|j l2 IH2]; simpl; lia.
  - by rewrite IH, sumZ_add.
Qed.

Lemma sumZ_mod_terms p h w l :
  0 < p ->
  sumZ (fun j => (h j mod p) * w j) l mod p
  = sumZ (fun j => h j * w j) l mod p.
Proof.
  intros Hp. induction l as [|j l IH]; [done|]. simpl.
  rewrite Z.add_mod, IH, Z.mul_mod_idemp_l, <- Z.add_mod by lia. done.
Qed.

(** The coefficient that [NewRandomSymmetricPolynomial] stores at
    [coeffs[i][j]]. *)
Definition sym_coeff (secret : Z) (rnd : Z -> Z -> Z) (i j : Z) : Z :=
  if bool_decide (i = 0 /\ j = 0) then secret
  else rnd (Z.max i j) (Z.min i j).

Lemma sym_coeff_comm secret rnd i j :
  sym_coeff secret rnd i j = sym_coeff secret rnd j i.
Proof.
  unfold sym_coeff. rewrite Z.max_comm, Z.min_comm.
  repeat case_bool_decide; try done; lia.
Qed.

(** The value [F(x, y)] of the bivariate polynomial over the integers. *)
Definition bivalue (secret : Z) (rnd : Z -> Z -> Z) (degree x y : Z) : Z :=
  sumZ (fun j =>
          sumZ (fun i => sym_coeff secret rnd i j * x ^ i) (seqZ 0 (degree + 1))
          * y ^ j)
       (seqZ 0 (degree + 1)).

Lemma bivalue_comm secret rnd degree x y :
  bivalue secret rnd degree x y = bivalue secret rnd degree y x.
Proof.
  unfold bivalue.
  rewrite (sumZ_ext _ (fun j => sumZ (fun i =>
             sym_coeff secret rnd i j * x ^ i * y ^ j) (seqZ 0 (degree + 1))))
    by (intros j _; by rewrite <- sumZ_scale).
  rewrite sumZ_exchange. apply sumZ_ext. intros i _.
  rewrite <- sumZ_scale. apply sumZ_ext. intros j _.
  rewrite (sym_coeff_comm _ _ i j). ring.
Qed.

Variable Prime : Z.
Hypothesis Prime_pos : 0 < Prime.

Lemma Mod_pos x : Poly.Mod x Prime = x mod Prime.
Proof. unfold Poly.Mod. by rewrite Z.abs_eq by lia. Qed.

(** Horner's loop computes the value of the polynomial. *)
Lemma Evaluate_peval_pos cs x :
  Poly.Evaluate Prime (Poly.mkPoly cs) x = peval cs x mod Prime.
Proof.
  unfold Poly.Evaluate. cbn [Poly.Coeffs].
  rewrite <- fold_left_rev_right, rev_involutive.
  induction cs as [|c cs IH].
  - simpl. symmetry. apply Z.mod_0_l. lia.
  - cbn [fold_right]. rewrite IH, peval_cons.
    unfold Poly.horner_step. rewrite Mod_pos.
    rewrite <- (Z.add_mod_idemp_l (peval cs x * x)) by lia.
    rewrite <- (Z.mul_mod_idemp_l (peval cs x)) by lia.
    by rewrite Z.add_mod_idemp_l by lia.
Qed.

Lemma peval_seqZ (g : Z -> Z) x (n : nat) : forall a,
  peval (g <$> seqZ a (Z.of_nat n)) x
  = sumZ (fun j => g j * x ^ (j - a)) (seqZ a (Z.of_nat n)).
Proof.
  induction n as [|n IH]; intros a; [done|].
  rewrite seqZ_cons by lia.
  replace (Z.pred (Z.of_nat (S n))) with (Z.of_nat n) by lia.
  rewrite fmap_cons, peval_cons, IH. simpl.
  rewrite Z.sub_diag, Z.pow_0_r, Z.mul_1_r.
  rewrite Z.add_comm. f_equal.
  rewrite <- sumZ_scale. apply sumZ_ext. intros j Hj.
  apply elem_of_seqZ in Hj.
  replace (j - a) with (Z.succ (j - Z.succ a)) by lia.
  rewrite Z.pow_succ_r by lia. ring.
Qed.

Lemma peval_seqZ_0 (g : Z -> Z) x n :
  0 <= n ->
  peval (g <$> seqZ 0 n) x = sumZ (fun j => g j * x ^ j) (seqZ 0 n).
Proof.
  intros Hn. rewrite <- (Z2Nat.id n) by done. rewrite peval_seqZ.
  apply sumZ_ext. intros j _. by rewrite Z.sub_0_r.
Qed.

Lemma mapM_Some_fmap {A B : Type} (f : A -> option B) (g : A -> B) l :
  (forall x, x ∈ l -> f x = Some (g x)) -> mapM f l = Some (g <$> l).
Proof.
  intros Hf. rewrite <- mapM_total. apply Forall_mapM_ext.
  by apply Forall_forall.
Qed.

Section Slices.
Variable degree secret : Z.
Variable rnd : Z -> Z -> Z.
Variable sp : Poly.SymmetricPolynomial.
Hypothesis sp_new :
  Poly.NewRandomSymmetricPolynomial degree secret rnd = Some sp.

Lemma degree_nonneg : 0 <= degree.
Proof.
  revert sp_new. unfold Poly.NewRandomSymmetricPolynomial.
  case_bool_decide; [done|lia].
Qed.

Lemma sp_Degree : Poly.Degree sp = degree.
Proof.
  revert sp_new. unfold Poly.NewRandomSymmetricPolynomial.
  case_bool_decide; [done|]. by intros [= <-].
Qed.

Lemma sp_lookup i j :
  0 <= i <= degree -> 0 <= j <= degree ->
  exists row, Poly.SymCoeffs sp !! Z.to_nat i = Some row
              /\ row !! Z.to_nat j = Some (sym_coeff secret rnd i j).
Proof.
  intros Hi Hj. revert sp_new. unfold Poly.NewRandomSymmetricPolynomial.
  case_bool_decide; [done|]. intros [= <-]. cbn [Poly.SymCoeffs].
  eexists. rewrite list_lookup_fmap, lookup_seqZ_lt by lia. simpl.
  split; [done|].
  rewrite list_lookup_fmap, lookup_seqZ_lt by lia. simpl.
  unfold sym_coeff. by rewrite !Z.add_0_l, !Z2Nat.id by lia.
Qed.

(** The accumulation loop of one coefficient. *)
Lemma coeffJ_loop k j l : forall a,
  0 <= j <= degree -> (forall i, i ∈ l -> 0 <= i <= degree) ->
  foldlM (fun acc i =>
      row ← Poly.SymCoeffs sp !! Z.to_nat i;
      c ← row !! Z.to_nat j;
      let kPowI := Poly.Mod (k ^ i) Prime in
      let term := Poly.Mod (c * kPowI) Prime in
      Some (Poly.Mod (acc + term) Prime)) (a mod Prime) l
  = Some ((a + sumZ (fun i => sym_coeff secret rnd i j * k ^ i) l) mod Prime).
Proof.
  induction l as [|i l IH]; intros a Hj Hl.
  - simpl. by rewrite Z.add_0_r.
  - cbn [foldlM]. rewrite sumZ_cons.
    destruct (sp_lookup i j) as (row & -> & Hc); [apply Hl; left|done|].
    cbn [mbind option_bind]. rewrite Hc. cbn [mbind option_bind].
    rewrite !Mod_pos.
    rewrite Z.mul_mod_idemp_r, Z.add_mod_idemp_r, Z.add_mod_idemp_l by lia.
    rewrite IH; [|done|intros i' Hi'; apply Hl; by right].
    f_equal. f_equal. lia.
Qed.

Lemma coeffJ_value k j :
  0 <= j <= degree ->
  Poly.coeffJ Prime sp k j
  = Some (sumZ (fun i => sym_coeff secret rnd i j * k ^ i)
            (seqZ 0 (degree + 1)) mod Prime).
Proof.
  intros Hj. unfold Poly.coeffJ. rewrite sp_Degree.
  rewrite <- (Z.mod_0_l Prime) at 1 by lia.
  rewrite coeffJ_loop; [done|done|].
  intros i Hi. apply elem_of_seqZ in Hi. lia.
Qed.

(** The slice [F(k, y)] as a coefficient list. *)
Definition slice_coeffs (k : Z) : list Z :=
  (fun j => sumZ (fun i => sym_coeff secret rnd i j * k ^ i)
              (seqZ 0 (degree + 1)) mod Prime)
  <$> seqZ 0 (degree + 1).

Lemma GetUnivariatePolynomial_value k :
  Poly.GetUnivariatePolynomial Prime sp k = Some (Poly.mkPoly (slice_coeffs k)).
Proof.
  pose proof degree_nonneg.
  unfold Poly.GetUnivariatePolynomial. rewrite sp_Degree.
  rewrite bool_decide_eq_false_2 by lia.
  rewrite (mapM_Some_fmap _
    (fun j => sumZ (fun i => sym_coeff secret rnd i j * k ^ i)
                (seqZ 0 (degree + 1)) mod Prime)); [done|].
  intros j Hj. apply elem_of_seqZ in Hj. apply coeffJ_value. lia.
Qed.

Lemma slice_value k y :
  Poly.Evaluate Prime (Poly.mkPoly (slice_coeffs k)) y
  = bivalue secret rnd degree k y mod Prime.
Proof.
  pose proof degree_nonneg.
  rewrite Evaluate_peval_pos. unfold slice_coeffs, bivalue.
  rewrite peval_seqZ_0 by lia.
  by rewrite sumZ_mod_terms by done.
Qed.
End Slices.
End SymmetricSlices.

(** ** utils/polynomial.go: evaluation and symmetry *)

Section PolynomialLayer.
Local Open Scope Z_scope.

(** A coefficient list is the list of its entries by index. *)
Lemma list_by_index (cs : list Z) :
  cs = (fun i => default 0 (cs !! Z.to_nat i))
       <$> seqZ 0 (Z.of_nat (length cs)).
Proof.
  apply list_eq. intros i. rewrite list_lookup_fmap.
  destruct (decide (i < length cs)%nat) as [Hi|Hi].
  - rewrite lookup_seqZ_lt by lia. simpl. rewrite Z.add_0_l, Nat2Z.id.
    destruct (lookup_lt_is_Some_2 cs i Hi) as [c ->]. done.
  - rewrite lookup_seqZ_ge by lia. simpl. apply lookup_ge_None. lia.
Qed.

(** [Evaluate] returns the value [a_0 + a_1 x + ... + a_d x^d] of the
    polynomial, reduced into [[0, Prime)]; the polynomial without
    coefficients evaluates to 0. *)
Theorem Evaluate_value (Prime : Z) (cs : list Z) (x : Z) :
  0 < Prime ->
  Poly.Evaluate Prime (Poly.mkPoly cs) x
  = sumZ (fun i => default 0 (cs !! Z.to_nat i) * x ^ i)
      (seqZ 0 (Z.of_nat (length cs))) mod Prime
  /\ 0 <= Poly.Evaluate Prime (Poly.mkPoly cs) x < Prime
  /\ Poly.Evaluate Prime (Poly.mkPoly []) x = 0.
Proof.
  intros Hp. split; [|split].
  - rewrite Evaluate_peval_pos by done.
    rewrite (list_by_index cs) at 1. by rewrite peval_seqZ_0 by lia.
  - rewrite Evaluate_peval_pos by done. apply Z.mod_pos_bound. lia.
  - reflexivity.
Qed.

Lemma Evaluate_value_witness :
  Poly.Evaluate 7 (Poly.mkPoly [3; 5; 2]) 4 = 6.
Proof.
  destruct (Evaluate_value 7 [3; 5; 2] 4) as (H & _); [lia|].
  rewrite H. reflexivity.
Defined.

(** The slices of the dealer's polynomial are symmetric: [f_k(j)] and
    [f_j(k)] are the same field element, for every pair of arguments.
    Each slice has [degree + 1] coefficients. *)
Theorem slices_symmetric (Prime degree secret : Z) (rnd : Z -> Z -> Z)
    (sp : Poly.SymmetricPolynomial) (k j : Z) :
  0 < Prime ->
  Poly.NewRandomSymmetricPolynomial degree secret rnd = Some sp ->
  exists fk fj,
    Poly.GetUnivariatePolynomial Prime sp k = Some fk
    /\ Poly.GetUnivariatePolynomial Prime sp j = Some fj
    /\ length (Poly.Coeffs fk) = Z.to_nat (degree + 1)
    /\ Poly.Evaluate Prime fk j = Poly.Evaluate Prime fj k.
Proof.
  intros Hp Hsp.
  exists (Poly.mkPoly (slice_coeffs Prime degree secret rnd k)),
         (Poly.mkPoly (slice_coeffs Prime degree secret rnd j)).
  split_and!.
  - by eapply GetUnivariatePolynomial_value.
  - by eapply GetUnivariatePolynomial_value.
  - simpl. unfold slice_coeffs. by rewrite length_fmap, length_seqZ.
  - rewrite !(slice_value Prime Hp degree secret rnd sp Hsp).
    by rewrite bivalue_comm.
Qed.
End PolynomialLayer.

(** ** utils/polynomial.go: sharing, then interpolating *)

Section ShareAndReconstruct.
Local Open Scope Z_scope.

Lemma slices_symmetric_witness :
  exists fk fj,
    Poly.GetUnivariatePolynomial 97 (Poly.mkSym [[42; 5]; [5; 3]] 1) 2 = Some fk
    /\ Poly.GetUnivariatePolynomial 97 (Poly.mkSym [[42; 5]; [5; 3]] 1) 3
       = Some fj
    /\ Poly.Evaluate 97 fk 3 = Poly.Evaluate 97 fj 2.
Proof.
  destruct (slices_symmetric 97 1 42
              (fun i j => if bool_decide (j = 0) then 5 else 3)
              (Poly.mkSym [[42; 5]; [5; 3]] 1) 2 3)
    as (fk & fj & Hk & Hj & _ & Heq); [lia|reflexivity|].
  by exists fk, fj.
Defined.

(** The values at zero of the slices of enough distinct nodes
    interpolate to the secret. *)
Lemma interpolate_slice_values (p degree secret : Z) (rnd : Z -> Z -> Z)
    (sp : Poly.SymmetricPolynomial) (xs : list Z) :
  Z.prime p ->
  Poly.NewRandomSymmetricPolynomial degree secret rnd = Some sp ->
  NoDup xs -> Forall (fun x => 0 <= x < p) xs ->
  degree + 1 <= Z.of_nat (length xs) ->
  Poly.InterpolateAtZero p xs
    ((fun x => Poly.Evaluate p
                 (Poly.mkPoly (slice_coeffs p degree secret rnd x)) 0) <$> xs)
  = Some (secret mod p).
Proof.
  intros Hp Hsp Hnd Hf Hlen.
  pose proof (Z.prime_ge_2 _ Hp) as Hp2.
  assert (Hpos : 0 < p) by lia.
  pose proof (degree_nonneg degree secret rnd sp Hsp) as Hd.
  set (cs0 := slice_coeffs p degree secret rnd 0).
  assert (Hvals : (fun x => Poly.Evaluate p
                     (Poly.mkPoly (slice_coeffs p degree secret rnd x)) 0)
                  <$> xs
                  = node_values p (peval cs0) xs).
  { unfold node_values.
    apply list_fmap_ext. intros i x _. simpl.
    rewrite (slice_value p Hpos degree secret rnd sp Hsp).
    rewrite bivalue_comm.
    rewrite <- (slice_value p Hpos degree secret rnd sp Hsp).
    by apply Evaluate_peval_pos. }
  rewrite Hvals.
  rewrite (InterpolateAtZero_value p Hp (peval cs0) xs Hnd Hf).
  - f_equal. unfold cs0, slice_coeffs.
    rewrite seqZ_cons by lia. rewrite fmap_cons, peval_cons.
    rewrite Z.mul_0_r, Z.add_0_l, Z.mod_mod by lia.
    rewrite sumZ_cons.
    rewrite (sumZ_ext _ (fun _ => 0)).
    + replace (sumZ (fun _ => 0) (seqZ (Z.succ 0) (Z.pred (degree + 1))))
        with 0 by (induction (seqZ _ _); simpl; lia).
      unfold sym_coeff. rewrite bool_decide_eq_true_2 by done.
      f_equal. lia.
    + intros i Hi. apply elem_of_seqZ in Hi.
      rewrite Z.pow_0_l by lia. lia.
  - intros ->. simpl in Hlen. lia.
  - exists cs0. split; [|done]. unfold cs0, slice_coeffs.
    rewrite length_fmap, length_seqZ. lia.
Qed.

(** Sharing then reconstructing: the values at zero of the slices of any
    [degree + 1] or more distinct nodes interpolate to the dealer's
    secret (reduced modulo the prime). *)
Theorem slices_interpolate_to_secret (p degree secret : Z)
    (rnd : Z -> Z -> Z) (sp : Poly.SymmetricPolynomial) (xs : list Z) :
  Z.prime p ->
  Poly.NewRandomSymmetricPolynomial degree secret rnd = Some sp ->
  NoDup xs -> Forall (fun x => 0 <= x < p) xs ->
  degree + 1 <= Z.of_nat (length xs) ->
  exists slices,
    mapM (Poly.GetUnivariatePolynomial p sp) xs = Some slices
    /\ Poly.InterpolateAtZero p xs ((fun f => Poly.Evaluate p f 0) <$> slices)
       = Some (secret mod p).
Proof.
  intros Hp Hsp Hnd Hf Hlen.
  pose proof (Z.prime_ge_2 _ Hp) as Hp2.
  exists ((fun x => Poly.mkPoly (slice_coeffs p degree secret rnd x)) <$> xs).
  split.
  { apply mapM_Some_fmap. intros x _.
    eapply GetUnivariatePolynomial_value; [lia|done]. }
  rewrite <- list_fmap_compose.
  by apply (interpolate_slice_values p degree secret rnd sp xs).
Qed.

Lemma slices_interpolate_to_secret_witness :
  exists slices,
    mapM (Poly.GetUnivariatePolynomial Poly.secp256k1
            (Poly.mkSym [[42; 5]; [5; 3]] 1)) [1; 2; 4]
    = Some slices
    /\ Poly.InterpolateAtZero Poly.secp256k1 [1; 2; 4]
         ((fun f => Poly.Evaluate Poly.secp256k1 f 0) <$> slices)
       = Some 42.
Proof.
  destruct (slices_interpolate_to_secret Poly.secp256k1 1 42
              (fun i j => if bool_decide (j = 0) then 5 else 3)
              (Poly.mkSym [[42; 5]; [5; 3]] 1) [1; 2; 4])
    as (slices & Hs & Hi).
  - exact secp256k1_prime.
  - reflexivity.
  - apply (bool_decide_unpack _). vm_compute. exact I.
  - repeat constructor; vm_compute; congruence.
  - simpl. lia.
  - exists slices. split; [exact Hs|]. rewrite Hi. reflexivity.
Defined.
End ShareAndReconstruct.

(** ** utils/polynomial.go: when the interpolation panics *)

Section InterpolatePanics.
Local Open Scope Z_scope.

(** A loop whose body panics at some element, whatever the accumulator,
    panics. *)
Lemma foldlM_None {A B : Type} (f : A -> B -> option A) (l : list B) (e : B) :
  e ∈ l -> (forall a, f a e = None) -> forall a, foldlM f a l = None.
Proof.
  intros He Hf. induction l as [|x l IH]; intros a;
    [by apply elem_of_nil in He|].
  simpl. apply elem_of_cons in He as [<-|He]; [by rewrite Hf|].
  destruct (f a x); [by apply IH|done].
Qed.

Lemma elem_of_imap_pair {A : Type} (l : list A) (i : nat) (x : A) :
  l !! i = Some x -> (i, x) ∈ imap pair l.
Proof.
  intros Hi. apply list_elem_of_lookup. exists i.
  by rewrite list_lookup_imap, Hi.
Qed.

(** [InterpolateAtZero] returns 0 on no points.  It panics (index out of
    range) when there are fewer values than points, and, for a prime
    modulus, when two of the points coincide: the denominator of the
    basis polynomial is then 0, [ModInverse] returns [nil], and the
    multiplication by it dereferences a nil pointer. *)
Theorem InterpolateAtZero_panics (p : Z) (xs ys : list Z) :
  Poly.InterpolateAtZero p [] ys = Some 0
  /\ ((length ys < length xs)%nat -> Poly.InterpolateAtZero p xs ys = None)
  /\ (Z.prime p ->
      forall i j x, i <> j -> xs !! i = Some x -> xs !! j = Some x ->
      Poly.InterpolateAtZero p xs ys = None).
Proof.
  split_and!.
  - reflexivity.
  - intros Hlen. unfold Poly.InterpolateAtZero.
    destruct (lookup_lt_is_Some_2 xs (length ys) Hlen) as [x Hx].
    rewrite (foldlM_None _ _ (length ys, x)); [done| |].
    + by apply elem_of_imap_pair.
    + intros a. unfold Poly.interp_step. cbn [fst snd].
      by rewrite (proj2 (lookup_ge_None ys (length ys))) by lia.
  - intros Hp i j x Hij Hi Hj. unfold Poly.InterpolateAtZero.
    rewrite (foldlM_None _ _ (i, x)); [done| |].
    + by apply elem_of_imap_pair.
    + intros a. unfold Poly.interp_step. cbn [fst snd].
      destruct (ys !! i) as [yi|]; [|done]. cbn [mbind option_bind].
      apply list_elem_of_split_length in Hi as (pre & post & -> & ->).
      rewrite (basis_value p Hp).
      assert (Hin : x ∈ pre ++ post).
      { destruct (decide (j < length pre)%nat) as [Hlt|Hge].
        - apply elem_of_app. left. apply list_elem_of_lookup. exists j.
          by rewrite lookup_app_l in Hj.
        - apply elem_of_app. right. apply list_elem_of_lookup.
          exists (j - S (length pre))%nat.
          rewrite lookup_app_r in Hj by lia.
          replace (j - length pre)%nat
            with (S (j - S (length pre)))%nat in Hj by lia.
          done. }
      rewrite (Dprod_zero x _ Hin).
      pose proof (Z.prime_ge_2 _ Hp).
      rewrite Z.mod_0_l by lia.
      unfold Poly.ModInverse. rewrite Z.gcd_0_l, Z.abs_eq by lia.
      destruct (Z.eqb_spec p 1) as [|_]; [lia|]. done.
Qed.

Lemma InterpolateAtZero_panics_witness :
  Poly.InterpolateAtZero 7 [1; 2] [5] = None
  /\ Poly.InterpolateAtZero 7 [1; 2; 1] [5; 1; 5] = None.
Proof.
  destruct (InterpolateAtZero_panics 7 [1; 2] [5]) as (_ & Hshort & _).
  destruct (InterpolateAtZero_panics 7 [1; 2; 1] [5; 1; 5])
    as (_ & _ & Hdup).
  split.
  - apply Hshort. simpl. lia.
  - apply (Hdup (prime_small_sound 7 eq_refl) 0%nat 2%nat 1); done.
Defined.
End InterpolatePanics.

(** ** services/certification.go: the registry *)

Section Registry.
Import Cert.
Local Open Scope Z_scope.

Lemma ordered_comm i j : ordered i j = ordered j i.
Proof.
  unfold ordered. repeat case_bool_decide; try done; f_equal; lia.
Qed.

Lemma ordered_eq i j a b :
  ordered a b = ordered i j <-> (a = i /\ b = j) \/ (a = j /\ b = i).
Proof.
  unfold ordered. repeat case_bool_decide; split;
    try (intros [= -> ->]); try (intros [[-> ->]|[-> ->]]);
    try done; try lia; try (left; done); try (right; done);
    f_equal; lia.
Qed.

(** The registry stores unordered pairs: a pair is faulty after
    [AddFaultyPair i j] exactly if it is [{i, j}], in either order, or was
    faulty before; a new registry has no faulty pair; the query does not
    depend on the order of its arguments. *)
Theorem faulty_pairs_unordered (cp : CertificationProtocol) (i j a b : Z) :
  IsFaultyPair NewCertificationProtocol a b = false
  /\ IsFaultyPair cp a b = IsFaultyPair cp b a
  /\ (IsFaultyPair (AddFaultyPair cp i j) a b = true
      <-> (a = i /\ b = j) \/ (a = j /\ b = i) \/ IsFaultyPair cp a b = true)
  /\ AddFaultyPair (AddFaultyPair cp i j) j i = AddFaultyPair cp i j
  /\ GetCoreInvocations (AddFaultyPair cp i j) = GetCoreInvocations cp.
Proof.
  unfold IsFaultyPair, AddFaultyPair. split_and!.
  - apply bool_decide_eq_false_2. apply not_elem_of_empty.
  - by rewrite ordered_comm.
  - simpl. rewrite !bool_decide_eq_true, elem_of_union, elem_of_singleton.
    rewrite ordered_eq. tauto.
  - simpl. f_equal. rewrite (ordered_comm j i).
    by rewrite (assoc_L (∪)), (idemp_L (∪)).
  - done.
Qed.

(** The history of core invocations is kept in call order, and recording
    an invocation does not touch the faulty pairs. *)
Theorem core_invocations_in_order (cp : CertificationProtocol)
    (ids : list string) (a b : Z) :
  GetCoreInvocations (fold_left AddCoreInvocation ids cp)
  = GetCoreInvocations cp ++ ids
  /\ IsFaultyPair (fold_left AddCoreInvocation ids cp) a b
     = IsFaultyPair cp a b.
Proof.
  revert cp. induction ids as [|x ids IH]; intros cp; simpl.
  - by rewrite app_nil_r.
  - destruct (IH (AddCoreInvocation cp x)) as [-> ->]. simpl.
    by rewrite <- app_assoc.
Qed.
End Registry.

(** ** A-Cast: quorums *)

Section ACastQuorum.
Import ACast.
Context {T : Type} `{Countable T}.
Implicit Types (a : AcastService T) (inst : ACastInstance T)
  (msg : ACastMessage T) (u : string) (v : T).
Local Open Scope Z_scope.

(** The senders of the READY messages for [(u, v)] in a list of handled
    messages. *)
Definition ready_senders u v (msgs : list (ACastMessage T)) : gset Z :=
  list_to_set
    (From <$> filter (fun m => UUID m = u /\ Type_ m = READY /\ Val m = v)
                msgs).

(** The READY voters that the instance of [u] holds for [v]. *)
Definition recorded_ready a u v : gset Z :=
  match instances a !! u with
  | Some inst => default ∅ (receivedReady inst !! v)
  | None => ∅
  end.

Lemma ready_senders_app u v l1 l2 :
  ready_senders u v (l1 ++ l2) = ready_senders u v l1 ∪ ready_senders u v l2.
Proof.
  unfold ready_senders. by rewrite filter_app, fmap_app, list_to_set_app_L.
Qed.

Lemma ready_senders_one u v msg :
  ready_senders u v [msg]
  = if decide (UUID msg = u /\ Type_ msg = READY /\ Val msg = v)
    then {[From msg]} else ∅.
Proof.
  unfold ready_senders. rewrite filter_cons, filter_nil.
  case_decide; simpl; [by rewrite union_empty_r_L|done].
Qed.

Lemma OnMessage_params a msg :
  id (OnMessage a msg).1.1 = id a /\ n (OnMessage a msg).1.1 = n a
  /\ t (OnMessage a msg).1.1 = t a.
Proof.
  unfold OnMessage, getInstance.
  destruct (instances a !! UUID msg);
    by destruct (onInstance _ _ msg) as [[? ?] ?].
Qed.

(** Handling a message touches only the instance of its own uuid. *)
Lemma OnMessage_frame a msg u :
  u <> UUID msg ->
  instances (OnMessage a msg).1.1 !! u = instances a !! u.
Proof.
  intros Hu. unfold OnMessage, getInstance.
  destruct (instances a !! UUID msg) eqn:E;
    destruct (onInstance _ _ msg) as [[? ?] ?]; simpl;
    by rewrite ?lookup_insert_ne by done.
Qed.

Lemma onInstance_params a a1 inst msg :
  id a1 = id a -> n a1 = n a -> t a1 = t a ->
  onInstance a1 inst msg = onInstance a inst msg.
Proof. unfold onInstance. by intros -> -> ->. Qed.

(** The instance on which [OnMessage] works, and its result. *)
Lemma OnMessage_instance a msg :
  let inst := default NewACastInstance (instances a !! UUID msg) in
  instances (OnMessage a msg).1.1 !! UUID msg
  = Some (onInstance a inst msg).1.1
  /\ (OnMessage a msg).1.2 = (onInstance a inst msg).1.2
  /\ (OnMessage a msg).2 = (onInstance a inst msg).2.
Proof.
  unfold OnMessage, getInstance.
  destruct (instances a !! UUID msg) as [inst|] eqn:E; simpl.
  - destruct (onInstance a inst msg) as [[? ?] ?]. simpl.
    by rewrite lookup_insert_eq.
  - rewrite (onInstance_params a _ NewACastInstance msg) by done.
    destruct (onInstance a NewACastInstance msg) as [[? ?] ?]. simpl.
    by rewrite lookup_insert_eq.
Qed.

(** The READY threshold of delivery. *)
Definition deliver_threshold a : Z := GoInt.add (GoInt.mul 2 (t a)) 1.

Lemma onInstance_READY a inst msg :
  delivered inst = false -> Type_ msg = READY ->
  let S := {[From msg]} ∪ default ∅ (receivedReady inst !! Val msg) in
  let count := GoInt.len (size S) in
  if bool_decide (count >= deliver_threshold a) then
    (onInstance a inst msg).2 = [Val msg]
    /\ delivered (onInstance a inst msg).1.1 = true
    /\ receivedReady (onInstance a inst msg).1.1 = ∅
  else
    (onInstance a inst msg).2 = []
    /\ delivered (onInstance a inst msg).1.1 = false
    /\ receivedReady (onInstance a inst msg).1.1
       = <[Val msg := S]> (receivedReady inst).
Proof.
  intros Hd Hty. unfold onInstance, addToSet, deliver_threshold.
  rewrite Hd, Hty. cbn [READY negb andb]. rewrite andb_true_r.
  simpl. by case_bool_decide.
Qed.

Lemma onInstance_other a inst msg :
  delivered inst = true \/ Type_ msg <> READY ->
  (onInstance a inst msg).2 = []
  /\ delivered (onInstance a inst msg).1.1 = delivered inst
  /\ receivedReady (onInstance a inst msg).1.1 = receivedReady inst.
Proof.
  unfold onInstance. destruct (delivered inst) eqn:Hd; [done|].
  intros [|Hty]; [done|].
  destruct (Type_ msg) as [|[p|p|]|p]; try done.
  - by destruct (sentEcho inst).
  - destruct p as [p|p|]; try done.
  - destruct (addToSet (receivedEcho inst) _ _) as [re count].
    by case_match.
Qed.

Lemma recorded_ready_default a u v :
  recorded_ready a u v
  = default ∅ (receivedReady (default NewACastInstance (instances a !! u)) !! v).
Proof. unfold recorded_ready. by destruct (instances a !! u). Qed.

Lemma is_delivered_default a u :
  is_delivered a u = delivered (default NewACastInstance (instances a !! u)).
Proof. unfold is_delivered. by destruct (instances a !! u). Qed.

Lemma ready_senders_other u v msg :
  ~ (UUID msg = u /\ Type_ msg = READY /\ Val msg = v) ->
  forall pre, ready_senders u v (pre ++ [msg]) = ready_senders u v pre.
Proof.
  intros Hne pre. rewrite ready_senders_app, ready_senders_one.
  rewrite decide_False by done. by rewrite union_empty_r_L.
Qed.

Lemma ready_senders_this msg pre :
  Type_ msg = READY ->
  ready_senders (UUID msg) (Val msg) (pre ++ [msg])
  = ready_senders (UUID msg) (Val msg) pre ∪ {[From msg]}.
Proof.
  intros Hty. rewrite ready_senders_app, ready_senders_one.
  by rewrite decide_True by done.
Qed.

(** What one handling does to the recorded READY voters and to the
    delivered flag of an instance. *)
Lemma OnMessage_ready_step a msg :
  let a' := (OnMessage a msg).1.1 in
  let S := {[From msg]} ∪ recorded_ready a (UUID msg) (Val msg) in
  (forall u, u <> UUID msg ->
     (forall v, recorded_ready a' u v = recorded_ready a u v)
     /\ is_delivered a' u = is_delivered a u)
  /\ ((is_delivered a (UUID msg) = true \/ Type_ msg <> READY) ->
      (OnMessage a msg).2 = []
      /\ is_delivered a' (UUID msg) = is_delivered a (UUID msg)
      /\ forall v, recorded_ready a' (UUID msg) v
                   = recorded_ready a (UUID msg) v)
  /\ (is_delivered a (UUID msg) = false -> Type_ msg = READY ->
      if bool_decide (GoInt.len (size S) >= deliver_threshold a) then
        (OnMessage a msg).2 = [Val msg]
        /\ is_delivered a' (UUID msg) = true
        /\ forall v, recorded_ready a' (UUID msg) v = ∅
      else
        (OnMessage a msg).2 = []
        /\ is_delivered a' (UUID msg) = false
        /\ recorded_ready a' (UUID msg) (Val msg) = S
        /\ forall v, v <> Val msg ->
             recorded_ready a' (UUID msg) v
             = recorded_ready a (UUID msg) v).
Proof.
  intros a' S. subst a' S.
  destruct (OnMessage_instance a msg) as (Hi & _ & Hr).
  split_and!.
  - intros u Hu. unfold recorded_ready, is_delivered.
    by rewrite OnMessage_frame.
  - rewrite !is_delivered_default. intros Hc.
    destruct (onInstance_other a _ msg Hc) as (H1 & H2 & H3).
    rewrite Hr, Hi. simpl. split_and!; [done|done|].
    intros v. rewrite !recorded_ready_default, Hi. simpl. by rewrite H3.
  - rewrite !is_delivered_default, recorded_ready_default.
    intros Hd Hty.
    pose proof (onInstance_READY a _ msg Hd Hty) as Hstep.
    cbn zeta in Hstep. case_bool_decide.
    + destruct Hstep as (H1 & H2 & H3). rewrite Hr, Hi. simpl.
      split_and!; [done|done|].
      intros v. rewrite recorded_ready_default, Hi. simpl.
      by rewrite H3, lookup_empty.
    + destruct Hstep as (H1 & H2 & H3). rewrite Hr, Hi. simpl.
      split_and!; [done|done| |].
      * rewrite recorded_ready_default, Hi. simpl.
        by rewrite H3, lookup_insert_eq.
      * intros v Hv. rewrite !recorded_ready_default, Hi. simpl.
        by rewrite H3, lookup_insert_ne by done.
Qed.

(** Safety: every recorded voter has sent a READY that was handled. *)
Definition voters_sound a (pre : list (ACastMessage T)) : Prop :=
  forall u v, recorded_ready a u v ⊆ ready_senders u v pre.

Lemma ready_senders_mono u v pre msg :
  ready_senders u v pre ⊆ ready_senders u v (pre ++ [msg]).
Proof. rewrite ready_senders_app. apply union_subseteq_l. Qed.

Lemma voters_sound_step a pre msg :
  voters_sound a pre ->
  voters_sound (OnMessage a msg).1.1 (pre ++ [msg])
  /\ forall v, v ∈ (OnMessage a msg).2 ->
       deliver_threshold a
       <= Z.of_nat (size (ready_senders (UUID msg) v (pre ++ [msg]))).
Proof.
  intros Hs.
  destruct (OnMessage_ready_step a msg) as (Hother & Hquiet & Hready).
  assert (Hcase : (is_delivered a (UUID msg) = true \/ Type_ msg <> READY)
                  \/ (is_delivered a (UUID msg) = false /\ Type_ msg = READY)).
  { destruct (is_delivered a (UUID msg)); [by left; left|].
    destruct (decide (Type_ msg = READY)); [by right|by left; right]. }
  assert (HS : {[From msg]} ∪ recorded_ready a (UUID msg) (Val msg)
               ⊆ ready_senders (UUID msg) (Val msg) (pre ++ [msg]) \/
               Type_ msg <> READY).
  { destruct (decide (Type_ msg = READY)) as [Hty|]; [left|by right].
    rewrite ready_senders_this by done.
    apply union_least; [apply union_subseteq_r|].
    etrans; [apply Hs|apply union_subseteq_l]. }
  split.
  - intros u v. destruct (decide (u = UUID msg)) as [->|Hu].
    + destruct Hcase as [Hc|[Hd Hty]].
      * destruct (Hquiet Hc) as (_ & _ & ->).
        etrans; [apply Hs|apply ready_senders_mono].
      * specialize (Hready Hd Hty). destruct HS as [HS|]; [|done].
        case_bool_decide.
        -- destruct Hready as (_ & _ & ->). apply empty_subseteq.
        -- destruct Hready as (_ & _ & Hv & Hrest).
           destruct (decide (v = Val msg)) as [->|Hv'].
           ++ by rewrite Hv.
           ++ rewrite Hrest by done.
              etrans; [apply Hs|apply ready_senders_mono].
    + destruct (Hother u Hu) as [-> _].
      etrans; [apply Hs|apply ready_senders_mono].
  - intros v Hv. destruct Hcase as [Hc|[Hd Hty]].
    + destruct (Hquiet Hc) as (Hr & _). rewrite Hr in Hv.
      by apply elem_of_nil in Hv.
    + specialize (Hready Hd Hty). destruct HS as [HS|]; [|done].
      case_bool_decide as Hcount.
      * destruct Hready as (Hr & _). rewrite Hr in Hv.
        apply list_elem_of_singleton in Hv as ->.
        unfold GoInt.len in Hcount.
        apply subseteq_size in HS. lia.
      * destruct Hready as (Hr & _). rewrite Hr in Hv.
        by apply elem_of_nil in Hv.
Qed.

Lemma run_sound msgs : forall a pre u v,
  voters_sound a pre ->
  v ∈ deliveries u (run a msgs).2 ->
  deliver_threshold a
  <= Z.of_nat (size (ready_senders u v (pre ++ msgs))).
Proof.
  induction msgs as [|msg rest IH]; intros a pre u v Hs; simpl.
  { intros Hv. by apply elem_of_nil in Hv. }
  destruct (voters_sound_step a pre msg Hs) as [Hs' Hres].
  pose proof (OnMessage_params a msg) as (_ & _ & Ht).
  destruct (OnMessage a msg) as [[a' bc] res] eqn:Ho. simpl in *.
  specialize (IH a' (pre ++ [msg]) u v Hs').
  destruct (run a' rest) as [a'' tr] eqn:Hr. simpl in *.
  rewrite <- app_assoc in IH. simpl in IH.
  assert (Hth : deliver_threshold a' = deliver_threshold a)
    by (unfold deliver_threshold; by rewrite Ht).
  rewrite Hth in IH.
  case_decide as Hu; [|done]. subst u.
  intros [Hv|Hv]%elem_of_app; [|by apply IH].
  etrans; [by apply Hres|].
  apply Nat2Z.inj_le, subseteq_size.
  rewrite (ready_senders_app _ _ pre (msg :: rest)).
  rewrite ready_senders_app.
  apply union_mono_l. rewrite (ready_senders_app _ _ [msg] rest).
  apply union_subseteq_l.
Qed.

(** A node that starts fresh delivers [v] for the uuid [u] only after
    it has handled READY messages for [(u, v)] from at least [2t + 1]
    distinct senders. *)
Theorem acast_delivers_only_with_quorum (id0 n0 t0 : Z)
    (msgs : list (ACastMessage T)) u v :
  GoInt.in_range (2 * t0) -> GoInt.in_range (2 * t0 + 1) ->
  v ∈ deliveries u (run (NewAcastService id0 n0 t0) msgs).2 ->
  2 * t0 + 1 <= Z.of_nat (size (ready_senders u v msgs)).
Proof.
  intros H1 H2 Hv.
  pose proof (run_sound msgs (NewAcastService id0 n0 t0) [] u v) as Hrun.
  unfold deliver_threshold in Hrun. simpl in Hrun.
  rewrite mul_small, add_small in Hrun by done.
  apply Hrun; [|done]. intros u' v'. unfold recorded_ready. simpl.
  rewrite lookup_empty. apply empty_subseteq.
Qed.

(** Completeness: while the instance is not delivered it holds every
    READY voter handled so far, and fewer of them than the threshold. *)
Definition voters_complete a (pre : list (ACastMessage T)) u : Prop :=
  is_delivered a u = true
  \/ forall v, ready_senders u v pre ⊆ recorded_ready a u v
               /\ Z.of_nat (size (recorded_ready a u v)) < deliver_threshold a.

Lemma voters_complete_step a pre msg u :
  voters_complete a pre u ->
  voters_complete (OnMessage a msg).1.1 (pre ++ [msg]) u.
Proof.
  intros Hc.
  destruct (OnMessage_ready_step a msg) as (Hother & Hquiet & Hready).
  pose proof (OnMessage_params a msg) as (_ & _ & Ht).
  assert (Hth : deliver_threshold (OnMessage a msg).1.1 = deliver_threshold a)
    by (unfold deliver_threshold; by rewrite Ht).
  unfold voters_complete. rewrite Hth.
  destruct (decide (u = UUID msg)) as [->|Hu].
  - destruct Hc as [Hd|Hc].
    { left. destruct (Hquiet (or_introl Hd)) as (_ & -> & _). done. }
    destruct (is_delivered a (UUID msg)) eqn:Hd.
    { left. destruct (Hquiet (or_introl eq_refl)) as (_ & -> & _). done. }
    destruct (decide (Type_ msg = READY)) as [Hty|Hty].
    + specialize (Hready eq_refl Hty). case_bool_decide as Hcount.
      * left. by destruct Hready as (_ & -> & _).
      * right. destruct Hready as (_ & _ & Hv & Hrest). intros v.
        destruct (decide (v = Val msg)) as [->|Hv'].
        -- rewrite Hv, ready_senders_this by done. split.
           ++ rewrite (union_comm_L _ {[From msg]}).
              apply union_mono_l. apply Hc.
           ++ unfold GoInt.len in Hcount. lia.
        -- rewrite Hrest by done.
           rewrite ready_senders_other by (intros (_ & _ & ?); done).
           apply Hc.
    + right. destruct (Hquiet (or_intror Hty)) as (_ & _ & Hrec).
      intros v. rewrite Hrec.
      rewrite ready_senders_other by (intros (_ & ? & _); done).
      apply Hc.
  - destruct (Hother u Hu) as [Hrec Hdel]. rewrite Hdel.
    destruct Hc as [Hd|Hc]; [by left|right].
    intros v. rewrite Hrec.
    rewrite ready_senders_other by (intros (? & _ & _); done).
    apply Hc.
Qed.

Lemma run_complete msgs : forall a pre u,
  voters_complete a pre u ->
  voters_complete (run a msgs).1 (pre ++ msgs) u.
Proof.
  induction msgs as [|msg rest IH]; intros a pre u Hc; simpl.
  { by rewrite app_nil_r. }
  pose proof (voters_complete_step a pre msg u Hc) as Hc'.
  destruct (OnMessage a msg) as [[a' bc] res] eqn:Ho. simpl in *.
  specialize (IH a' (pre ++ [msg]) u Hc').
  destruct (run a' rest) as [a'' tr] eqn:Hr. simpl in *.
  by rewrite <- app_assoc in IH.
Qed.

(** A node that starts fresh has delivered for the uuid [u] once it has
    handled READY messages for some [(u, v)] from [2t + 1] distinct
    senders. *)
Theorem acast_quorum_delivers (id0 n0 t0 : Z)
    (msgs : list (ACastMessage T)) u v :
  0 <= t0 -> GoInt.in_range (2 * t0 + 1) ->
  2 * t0 + 1 <= Z.of_nat (size (ready_senders u v msgs)) ->
  is_delivered (run (NewAcastService id0 n0 t0) msgs).1 u = true.
Proof.
  intros Ht Hr Hq.
  assert (Hr2 : GoInt.in_range (2 * t0))
    by (unfold GoInt.in_range in *; lia).
  destruct (run_complete msgs (NewAcastService id0 n0 t0) [] u)
    as [Hd|Hc].
  - right. intros v'. unfold recorded_ready, deliver_threshold. simpl.
    rewrite lookup_empty, mul_small, add_small by done.
    split; [done|]. rewrite size_empty. lia.
  - done.
  - exfalso. destruct (Hc v) as [Hsub Hlt]. simpl in Hsub.
    apply subseteq_size in Hsub.
    assert (Hth : deliver_threshold (run (NewAcastService id0 n0 t0) msgs).1
                  = 2 * t0 + 1).
    { unfold deliver_threshold.
      assert (Htt : forall (l : list (ACastMessage T)) a,
                      t (run a l).1 = t a).
      { induction l as [|m l IH]; intros a; [done|]. simpl.
        pose proof (OnMessage_params a m) as (_ & _ & Ht').
        destruct (OnMessage a m) as [[a' bc] res]. simpl in *.
        specialize (IH a'). destruct (run a' l) as [a'' tr]. simpl in *.
        by rewrite IH. }
      rewrite Htt. simpl. by rewrite mul_small, add_small. }
    rewrite Hth in Hlt. lia.
Qed.
End ACastQuorum.

(** Node 1 ([n = 4], [t = 1]) handles the READY messages of 1, 2 and 3
    for uuid ["u"] and value ["v"]. *)
Definition acast_quorum_example : list (ACast.ACastMessage string) :=
  [ACast.mkMsg ACast.READY "u" "v" 1;
   ACast.mkMsg ACast.READY "u" "v" 2;
   ACast.mkMsg ACast.READY "u" "v" 3]%Z.

Lemma acast_delivers_only_with_quorum_witness :
  (2 * 1 + 1
   <= Z.of_nat (size (ready_senders "u" "v" acast_quorum_example)))%Z.
Proof.
  apply (acast_delivers_only_with_quorum 1 4 1 acast_quorum_example "u" "v").
  - unfold GoInt.in_range. lia.
  - unfold GoInt.in_range. lia.
  - apply (bool_decide_unpack _). vm_compute. exact I.
Defined.

Lemma acast_quorum_delivers_witness :
  ACast.is_delivered
    (ACast.run (ACast.NewAcastService 1 4 1) acast_quorum_example).1 "u"
  = true.
Proof.
  apply (acast_quorum_delivers 1 4 1 acast_quorum_example "u" "v").
  - lia.
  - unfold GoInt.in_range. lia.
  - vm_compute. discriminate.
Defined.

(** ** A-Cast: what a node broadcasts *)

Section ACastBroadcasts.
Import ACast.
Context {T : Type} `{Countable T}.
Implicit Types (a : AcastService T) (inst : ACastInstance T)
  (msg : ACastMessage T) (u : string) (v : T).
Local Open Scope Z_scope.

(** The messages a node broadcasts while it handles a list of messages,
    in order. *)
Fixpoint run_broadcasts a (msgs : list (ACastMessage T))
    : list (ACastMessage T) :=
  match msgs with
  | [] => []
  | msg :: rest =>
      let '(a', bc, _) := OnMessage a msg in
      bc ++ run_broadcasts a' rest
  end.

(** The broadcasts of type [ty] for the uuid [u]. *)
Definition sent u (ty : MessageType) (l : list (ACastMessage T))
    : list (ACastMessage T) :=
  filter (fun m => UUID m = u /\ Type_ m = ty) l.

Definition flag (f : ACastInstance T -> bool) a u : bool :=
  f (default NewACastInstance (instances a !! u)).

(** One handling on an instance: at most one broadcast, an ECHO or a
    READY that repeats the uuid and the value of the handled message
    under the node's id, and guarded by the latch of its type. *)
Lemma onInstance_broadcast a inst msg :
  let r := onInstance a inst msg in
  (length r.1.2 <= 1)%nat
  /\ (forall m, m ∈ r.1.2 ->
        UUID m = UUID msg /\ Val m = Val msg /\ From m = id a
        /\ ((Type_ m = ECHO /\ sentEcho inst = false
             /\ sentEcho r.1.1 = true)
            \/ (Type_ m = READY /\ sentReady inst = false
                /\ sentReady r.1.1 = true)))
  /\ (sentEcho inst = true -> sentEcho r.1.1 = true)
  /\ (sentReady inst = true -> sentReady r.1.1 = true).
Proof.
  unfold onInstance. destruct (delivered inst) eqn:Hd.
  { simpl. split_and!; [lia| |done|done]. intros m Hm.
    by apply elem_of_nil in Hm. }
  assert (Hnil : forall (P : ACastMessage T -> Prop) m,
            m ∈ @nil (ACastMessage T) -> P m)
    by (intros P m Hm; by apply elem_of_nil in Hm).
  destruct (Type_ msg) as [|[p|p|]|p];
    try (simpl; split_and!; [lia|apply Hnil|done|done]).
  - (* MSG *)
    destruct (sentEcho inst) eqn:He; simpl;
      (split_and!; [lia| |done|done]); [apply Hnil|].
    intros m Hm. apply list_elem_of_singleton in Hm as ->. simpl.
    split_and!; try done. by left.
  - (* READY *)
    destruct p as [p|p|];
      try (simpl; split_and!; [lia|apply Hnil|done|done]).
    destruct (addToSet (receivedReady inst) _ _) as [rr count].
    destruct (sentReady inst) eqn:Hs.
    + rewrite andb_false_r. cbn [negb andb].
      case_match; simpl; (split_and!; [lia|apply Hnil|done|done]).
    + rewrite andb_true_r.
      destruct (bool_decide (count >= GoInt.add (t a) 1)) eqn:Hc;
        case_match; simpl;
        (split_and!; [lia| |done|done]); try apply Hnil;
        intros m Hm; apply list_elem_of_singleton in Hm as ->; simpl;
        (split_and!; try done); by right.
  - (* ECHO *)
    destruct (addToSet (receivedEcho inst) _ _) as [re count].
    destruct (sentReady inst) eqn:Hs.
    + rewrite andb_false_r. simpl. split_and!; [lia|apply Hnil|done|done].
    + rewrite andb_true_r. case_bool_decide; simpl;
        (split_and!; [lia| |done|done]); try apply Hnil.
      intros m Hm. apply list_elem_of_singleton in Hm as ->. simpl.
      split_and!; try done. by right.
Qed.

Lemma flag_frame (f : ACastInstance T -> bool) a msg u :
  u <> UUID msg -> flag f (OnMessage a msg).1.1 u = flag f a u.
Proof. intros Hu. unfold flag. by rewrite OnMessage_frame. Qed.

Lemma OnMessage_broadcast a msg :
  let r := OnMessage a msg in
  (length r.1.2 <= 1)%nat
  /\ (forall m, m ∈ r.1.2 ->
        UUID m = UUID msg /\ Val m = Val msg /\ From m = id a
        /\ ((Type_ m = ECHO /\ flag sentEcho a (UUID msg) = false
             /\ flag sentEcho r.1.1 (UUID msg) = true)
            \/ (Type_ m = READY /\ flag sentReady a (UUID msg) = false
                /\ flag sentReady r.1.1 (UUID msg) = true)))
  /\ (forall u, flag sentEcho a u = true -> flag sentEcho r.1.1 u = true)
  /\ (forall u, flag sentReady a u = true -> flag sentReady r.1.1 u = true).
Proof.
  cbn zeta. destruct (OnMessage_instance a msg) as (Hi & Hb & _).
  pose proof (onInstance_broadcast a
                (default NewACastInstance (instances a !! UUID msg)) msg)
    as (Hlen & Hm & He & Hr).
  cbn zeta in *. rewrite Hb. unfold flag at 2 4. rewrite Hi. simpl.
  split_and!; [done|done| |].
  - intros u. destruct (decide (u = UUID msg)) as [->|Hu].
    + unfold flag at 2. rewrite Hi. apply He.
    + by rewrite flag_frame.
  - intros u. destruct (decide (u = UUID msg)) as [->|Hu].
    + unfold flag at 2. rewrite Hi. apply Hr.
    + by rewrite flag_frame.
Qed.

Lemma sent_none u ty (l : list (ACastMessage T)) :
  (forall m, m ∈ l -> ~ (UUID m = u /\ Type_ m = ty)) -> sent u ty l = [].
Proof.
  intros Hl. unfold sent. induction l as [|m l IH]; [done|].
  rewrite filter_cons, decide_False by (apply Hl; left).
  apply IH. intros m' Hm'. apply Hl. by right.
Qed.

Lemma sent_app u ty l1 l2 : sent u ty (l1 ++ l2) = sent u ty l1 ++ sent u ty l2.
Proof. unfold sent. apply filter_app. Qed.

(** Once the latch of a type is set for [u], nothing of that type is
    broadcast for [u]. *)
Lemma run_latched u ty (f : ACastInstance T -> bool) msgs :
  (ty = ECHO /\ f = sentEcho) \/ (ty = READY /\ f = sentReady) ->
  forall a, flag f a u = true -> sent u ty (run_broadcasts a msgs) = [].
Proof.
  intros Hty. induction msgs as [|msg rest IH]; intros a Hf; [done|].
  simpl. pose proof (OnMessage_broadcast a msg) as (Hlen & Hm & He & Hr).
  destruct (OnMessage a msg) as [[a' bc] res]. simpl in *.
  rewrite sent_app, IH; [|destruct Hty as [[_ ->]|[_ ->]]; auto].
  rewrite app_nil_r. apply sent_none.
  intros m Hin (Hu & Hmty). subst u.
  destruct (Hm m Hin) as (Hu' & _ & _ & Hcase). rewrite Hu' in Hf.
  destruct Hty as [[-> ->]|[-> ->]];
    destruct Hcase as [(Ht & Hb & _)|(Ht & Hb & _)];
    try congruence; rewrite Hmty in Ht; done.
Qed.

Lemma run_sent_le_1 u ty (f : ACastInstance T -> bool) msgs :
  (ty = ECHO /\ f = sentEcho) \/ (ty = READY /\ f = sentReady) ->
  forall a, (length (sent u ty (run_broadcasts a msgs)) <= 1)%nat.
Proof.
  intros Hty. induction msgs as [|msg rest IH]; intros a; [simpl; lia|].
  simpl. pose proof (OnMessage_broadcast a msg) as (Hlen & Hm & He & Hr).
  pose proof (run_latched u ty f rest Hty) as Hlatch.
  specialize (IH (OnMessage a msg).1.1).
  specialize (Hlatch (OnMessage a msg).1.1).
  destruct (OnMessage a msg) as [[a' bc] res]. simpl in *.
  rewrite sent_app, length_app.
  destruct (sent u ty bc) as [|m l] eqn:Hs; [simpl; lia|].
  assert (Hin : m ∈ sent u ty bc) by (rewrite Hs; left).
  apply list_elem_of_filter in Hin as [(Hu & Hmty) Hin].
  destruct (Hm m Hin) as (Hu' & _ & _ & Hcase).
  rewrite Hlatch.
  - assert (length (sent u ty bc) <= length bc)%nat
      by apply length_filter.
    rewrite Hs in *. simpl in *. lia.
  - rewrite <- Hu, Hu'.
    destruct Hty as [[-> ->]|[-> ->]];
      destruct Hcase as [(Ht & _ & Hb)|(Ht & _ & Hb)];
      try done; rewrite Hmty in Ht; done.
Qed.

Lemma run_broadcasts_from msgs : forall a,
  Forall (fun m => From m = id a /\ (Type_ m = ECHO \/ Type_ m = READY))
    (run_broadcasts a msgs).
Proof.
  induction msgs as [|msg rest IH]; intros a; [done|]. simpl.
  pose proof (OnMessage_broadcast a msg) as (_ & Hm & _).
  pose proof (OnMessage_params a msg) as (Hid & _).
  specialize (IH (OnMessage a msg).1.1).
  destruct (OnMessage a msg) as [[a' bc] res]. simpl in *.
  apply Forall_app. split.
  - apply Forall_forall. intros m Hin.
    destruct (Hm m Hin) as (_ & _ & Hf & [(Ht & _)|(Ht & _)]); auto.
  - by rewrite Hid in IH.
Qed.

(** Whatever messages a node handles, from whatever state, it
    broadcasts at most one ECHO and at most one READY for each uuid, and
    everything it broadcasts is an ECHO or a READY under its own id. *)
Theorem acast_echo_ready_once a (msgs : list (ACastMessage T)) u :
  (length (sent u ECHO (run_broadcasts a msgs)) <= 1)%nat
  /\ (length (sent u READY (run_broadcasts a msgs)) <= 1)%nat
  /\ Forall (fun m => From m = id a /\ (Type_ m = ECHO \/ Type_ m = READY))
       (run_broadcasts a msgs).
Proof.
  split_and!.
  - apply (run_sent_le_1 u ECHO sentEcho). by left.
  - apply (run_sent_le_1 u READY sentReady). by right.
  - apply run_broadcasts_from.
Qed.
End ACastBroadcasts.

(** ** A-Cast: every broadcast has a cause *)

Section ACastCauses.
Import ACast.
Context {T : Type} `{Countable T}.
Implicit Types (a : AcastService T) (inst : ACastInstance T)
  (msg : ACastMessage T) (u : string) (v : T).
Local Open Scope Z_scope.

(** The senders of the ECHO messages for [(u, v)] in a list of handled
    messages. *)
Definition echo_senders u v (msgs : list (ACastMessage T)) : gset Z :=
  list_to_set
    (From <$> filter (fun m => UUID m = u /\ Type_ m = ECHO /\ Val m = v)
                msgs).

Lemma echo_senders_app u v l1 l2 :
  echo_senders u v (l1 ++ l2) = echo_senders u v l1 ∪ echo_senders u v l2.
Proof.
  unfold echo_senders. by rewrite filter_app, fmap_app, list_to_set_app_L.
Qed.

Lemma echo_senders_one u v msg :
  echo_senders u v [msg]
  = if decide (UUID msg = u /\ Type_ msg = ECHO /\ Val msg = v)
    then {[From msg]} else ∅.
Proof.
  unfold echo_senders. rewrite filter_cons, filter_nil.
  case_decide; simpl; [by rewrite union_empty_r_L|done].
Qed.

(** The voters an instance holds are senders of handled messages. *)
Definition inst_sound inst u (pre : list (ACastMessage T)) : Prop :=
  forall v,
    default ∅ (receivedEcho inst !! v) ⊆ echo_senders u v pre
    /\ default ∅ (receivedReady inst !! v) ⊆ ready_senders u v pre.

Definition service_sound a (pre : list (ACastMessage T)) : Prop :=
  forall u, inst_sound (default NewACastInstance (instances a !! u)) u pre.

(** The cause of a broadcast [m] made while [msg] is handled, [msgs]
    being the messages handled so far, [msg] included. *)
Definition caused a (msgs : list (ACastMessage T)) msg
    (m : ACastMessage T) : Prop :=
  (Type_ m = ECHO /\ Type_ msg = MSG)
  \/ (Type_ m = READY
      /\ ((Type_ msg = ECHO
           /\ GoInt.sub (n a) (t a)
              <= Z.of_nat (size (echo_senders (UUID msg) (Val msg) msgs)))
          \/ (Type_ msg = READY
              /\ GoInt.add (t a) 1
                 <= Z.of_nat
                      (size (ready_senders (UUID msg) (Val msg) msgs))))).

Lemma inst_sound_mono inst u pre msg :
  inst_sound inst u pre -> inst_sound inst u (pre ++ [msg]).
Proof.
  intros Hs v. destruct (Hs v) as [He Hr]. split.
  - etrans; [exact He|]. rewrite echo_senders_app. apply union_subseteq_l.
  - etrans; [exact Hr|]. apply ready_senders_mono.
Qed.

Lemma inst_sound_new u pre : inst_sound NewACastInstance u pre.
Proof.
  intros v. simpl. rewrite !lookup_empty. simpl.
  split; apply empty_subseteq.
Qed.

(** One handling on the instance of the message's uuid. *)
Lemma onInstance_caused a inst msg pre :
  inst_sound inst (UUID msg) pre ->
  inst_sound (onInstance a inst msg).1.1 (UUID msg) (pre ++ [msg])
  /\ forall m, m ∈ (onInstance a inst msg).1.2 ->
       caused a (pre ++ [msg]) msg m.
Proof.
  intros Hs. pose proof (inst_sound_mono _ _ _ msg Hs) as Hs'.
  assert (Hnil : forall m, m ∈ @nil (ACastMessage T) ->
                   caused a (pre ++ [msg]) msg m)
    by (intros m Hm; by apply elem_of_nil in Hm).
  unfold onInstance. destruct (delivered inst) eqn:Hd; [by split|].
  destruct (Type_ msg) as [|[p|p|]|p] eqn:Hty; try (by split).
  - (* MSG *)
    destruct (sentEcho inst); [by split|]. split; [exact Hs'|].
    intros m ->%list_elem_of_singleton. left. by split.
  - (* READY *)
    destruct p as [p|p|]; try (by split).
    unfold addToSet. cbn [fst snd].
    set (S := {[From msg]} ∪ default ∅ (receivedReady inst !! Val msg)).
    assert (HS : S ⊆ ready_senders (UUID msg) (Val msg) (pre ++ [msg])).
    { unfold S. rewrite ready_senders_this by done.
      apply union_least; [apply union_subseteq_r|].
      etrans; [apply Hs|apply union_subseteq_l]. }
    assert (Hbc : forall m,
              m ∈ (if bool_decide (GoInt.len (size S) >= GoInt.add (t a) 1)
                      && negb (sentReady inst)
                   then [mkMsg READY (UUID msg) (Val msg) (id a)] else []) ->
              caused a (pre ++ [msg]) msg m).
    { destruct (bool_decide _ && _) eqn:Hc; [|apply Hnil].
      intros m ->%list_elem_of_singleton. right. split; [done|]. right.
      split; [done|]. apply andb_prop in Hc as [Hc _].
      apply bool_decide_eq_true in Hc. unfold GoInt.len in Hc.
      apply subseteq_size in HS. lia. }
    destruct (bool_decide (GoInt.len (size S)
                           >= GoInt.add (GoInt.mul 2 (t a)) 1) && _);
      cbn [fst snd]; (split; [|exact Hbc]).
    + intros v. simpl. rewrite !lookup_empty. simpl.
      split; apply empty_subseteq.
    + intros v. simpl. destruct (Hs' v) as [He Hr]. split; [exact He|].
      destruct (decide (v = Val msg)) as [->|Hv].
      * by rewrite lookup_insert_eq.
      * by rewrite lookup_insert_ne.
  - (* ECHO *)
    unfold addToSet. cbn [fst snd].
    set (S := {[From msg]} ∪ default ∅ (receivedEcho inst !! Val msg)).
    assert (HS : S ⊆ echo_senders (UUID msg) (Val msg) (pre ++ [msg])).
    { unfold S. rewrite echo_senders_app, echo_senders_one.
      rewrite decide_True by done.
      apply union_least; [apply union_subseteq_r|].
      etrans; [apply Hs|apply union_subseteq_l]. }
    assert (Hinst : forall sr d,
              inst_sound
                {| receivedEcho := <[Val msg := S]> (receivedEcho inst);
                   receivedReady := receivedReady inst;
                   sentEcho := sentEcho inst; sentReady := sr;
                   delivered := d |} (UUID msg) (pre ++ [msg])).
    { intros sr d v. simpl. destruct (Hs' v) as [He Hr]. split; [|exact Hr].
      destruct (decide (v = Val msg)) as [->|Hv].
      - by rewrite lookup_insert_eq.
      - by rewrite lookup_insert_ne. }
    destruct (bool_decide _ && _) eqn:Hc; cbn [fst snd];
      (split; [apply Hinst|]); [|apply Hnil].
    intros m ->%list_elem_of_singleton. right. split; [done|]. left.
    split; [done|]. apply andb_prop in Hc as [Hc _].
    apply bool_decide_eq_true in Hc. unfold GoInt.len in Hc.
    apply subseteq_size in HS. lia.
Qed.

Lemma OnMessage_caused a msg pre :
  service_sound a pre ->
  service_sound (OnMessage a msg).1.1 (pre ++ [msg])
  /\ forall m, m ∈ (OnMessage a msg).1.2 -> caused a (pre ++ [msg]) msg m.
Proof.
  intros Hs. destruct (OnMessage_instance a msg) as (Hi & Hb & _).
  destruct (onInstance_caused a _ msg pre (Hs (UUID msg))) as [Hi' Hm].
  split.
  - intros u. destruct (decide (u = UUID msg)) as [->|Hu].
    + by rewrite Hi.
    + rewrite OnMessage_frame by done. by apply inst_sound_mono.
  - by rewrite Hb.
Qed.

Lemma caused_later a pre msg rest m :
  caused a (pre ++ [msg]) msg m ->
  (Type_ m = ECHO /\ Type_ msg = MSG)
  \/ (Type_ m = READY
      /\ (GoInt.sub (n a) (t a)
          <= Z.of_nat
               (size (echo_senders (UUID msg) (Val msg)
                        (pre ++ msg :: rest)))
          \/ GoInt.add (t a) 1
             <= Z.of_nat
                  (size (ready_senders (UUID msg) (Val msg)
                           (pre ++ msg :: rest))))).
Proof.
  intros [Hc|[Hty [[_ Hc]|[_ Hc]]]]; [by left|right|right];
    (split; [done|]); [left|right]; (etrans; [exact Hc|]);
    apply Nat2Z.inj_le, subseteq_size;
    replace (pre ++ msg :: rest) with ((pre ++ [msg]) ++ rest)
      by (by rewrite <- app_assoc).
  - rewrite (echo_senders_app _ _ (pre ++ [msg]) rest).
    apply union_subseteq_l.
  - rewrite (ready_senders_app _ _ (pre ++ [msg]) rest).
    apply union_subseteq_l.
Qed.

Lemma run_caused msgs : forall a pre m,
  service_sound a pre ->
  m ∈ run_broadcasts a msgs ->
  (Type_ m = ECHO
   /\ exists msg, msg ∈ msgs /\ Type_ msg = MSG
                  /\ UUID msg = UUID m /\ Val msg = Val m)
  \/ (Type_ m = READY
      /\ (GoInt.sub (n a) (t a)
          <= Z.of_nat (size (echo_senders (UUID m) (Val m) (pre ++ msgs)))
          \/ GoInt.add (t a) 1
             <= Z.of_nat
                  (size (ready_senders (UUID m) (Val m) (pre ++ msgs))))).
Proof.
  induction msgs as [|msg rest IH]; intros a pre m Hs; simpl.
  { by intros ?%elem_of_nil. }
  destruct (OnMessage_caused a msg pre Hs) as [Hs' Hc].
  pose proof (OnMessage_broadcast a msg) as (_ & Hm & _).
  pose proof (OnMessage_params a msg) as (_ & Hn & Ht).
  specialize (IH (OnMessage a msg).1.1 (pre ++ [msg]) m Hs').
  destruct (OnMessage a msg) as [[a' bc] res]. simpl in *.
  intros [Hin|Hin]%elem_of_app.
  - destruct (Hm m Hin) as (Hu & Hv & _).
    destruct (caused_later a pre msg rest m (Hc m Hin))
      as [[Hty Hmsg]|[Hty Hq]].
    + left. split; [done|]. exists msg. split_and!; try done. by left.
    + right. split; [done|]. by rewrite Hu, Hv.
  - rewrite Hn, Ht, <- app_assoc in IH. simpl in IH.
    destruct (IH Hin) as [[Hty (msg' & Hin' & Hrest)]|Hr]; [left|by right].
    split; [done|]. exists msg'. split; [by right|done].
Qed.

(** Over any messages handled by a node created by [NewAcastService]:
    it broadcasts an ECHO for [(u, v)] only in answer to a MSG for
    [(u, v)], and a READY for [(u, v)] only after it has handled ECHO
    messages for [(u, v)] from at least [n - t] distinct senders or
    READY messages for [(u, v)] from at least [t + 1] distinct
    senders. *)
Theorem acast_broadcast_has_cause (id0 n0 t0 : Z)
    (msgs : list (ACastMessage T)) (m : ACastMessage T) :
  GoInt.in_range (n0 - t0) -> GoInt.in_range (t0 + 1) ->
  m ∈ run_broadcasts (NewAcastService id0 n0 t0) msgs ->
  (Type_ m = ECHO
   /\ exists msg, msg ∈ msgs /\ Type_ msg = MSG
                  /\ UUID msg = UUID m /\ Val msg = Val m)
  \/ (Type_ m = READY
      /\ (n0 - t0 <= Z.of_nat (size (echo_senders (UUID m) (Val m) msgs))
          \/ t0 + 1
             <= Z.of_nat (size (ready_senders (UUID m) (Val m) msgs)))).
Proof.
  intros H1 H2 Hm.
  pose proof (run_caused msgs (NewAcastService id0 n0 t0) [] m) as Hrun.
  simpl in Hrun. rewrite sub_small, add_small in Hrun by done.
  apply Hrun; [|done]. intros u. simpl. rewrite lookup_empty. simpl.
  apply inst_sound_new.
Qed.
End ACastCauses.

Lemma acast_broadcast_has_cause_witness :
  (4 - 1
   <= Z.of_nat
        (size (echo_senders "u" "v"
                 [ACast.mkMsg ACast.ECHO "u" "v" 1;
                  ACast.mkMsg ACast.ECHO "u" "v" 2;
                  ACast.mkMsg ACast.ECHO "u" "v" 3]%Z)))%Z
  \/ (1 + 1
      <= Z.of_nat
           (size (ready_senders "u" "v"
                    [ACast.mkMsg ACast.ECHO "u" "v" 1;
                     ACast.mkMsg ACast.ECHO "u" "v" 2;
                     ACast.mkMsg ACast.ECHO "u" "v" 3]%Z)))%Z.
Proof.
  destruct (acast_broadcast_has_cause 1 4 1
              [ACast.mkMsg ACast.ECHO "u" "v" 1;
               ACast.mkMsg ACast.ECHO "u" "v" 2;
               ACast.mkMsg ACast.ECHO "u" "v" 3]%Z
              (ACast.mkMsg ACast.READY "u" "v" 1%Z))
    as [[Hty _]|[_ Hq]].
  - unfold GoInt.in_range. lia.
  - unfold GoInt.in_range. lia.
  - replace (run_broadcasts _ _)
      with [ACast.mkMsg ACast.READY "u" "v" 1%Z]
      by (vm_compute; reflexivity).
    apply list_elem_of_here.
  - discriminate Hty.
  - exact Hq.
Defined.

(** ** Vote: the decision of a round *)

Section VoteDecision.
Import Vote.
Local Open Scope Z_scope.
Variable payloadString : VotePayload -> string.
Variable uuidHash : string -> Z -> Z -> string.

(** Once the sentinel is replaced, the loop only compares. *)
Lemma allSame_from (fv : Z) (vals : list Z) :
  fv <> -1 ->
  allSame fv vals = (fv, bool_decide (Forall (fun b => b = fv) vals)).
Proof.
  intros Hfv. induction vals as [|x rest IH]; simpl.
  - reflexivity.
  - rewrite (bool_decide_eq_false_2 (fv = -1)) by done.
    destruct (decide (fv = x)) as [<-|Hx].
    + rewrite (bool_decide_eq_false_2 (fv <> fv)) by tauto.
      rewrite IH. f_equal. apply bool_decide_ext.
      rewrite Forall_cons. tauto.
    + rewrite (bool_decide_eq_true_2 (fv <> x)) by done.
      rewrite bool_decide_eq_false_2; [done|].
      intros Hall. apply Forall_cons in Hall as [-> _]. done.
Qed.

Lemma allSame_sound (vals : list Z) (v : Z) :
  allSame (-1) vals = (v, true) -> v <> -1 ->
  v ∈ vals /\ Forall (fun b => b = v \/ b = -1) vals.
Proof.
  induction vals as [|x rest IH]; simpl.
  - intros [= <-]. done.
  - destruct (decide (x = -1)) as [->|Hx].
    + intros Ha Hv. destruct (IH Ha Hv) as [Hin Hall]. split.
      * by apply list_elem_of_further.
      * apply Forall_cons. auto.
    + rewrite allSame_from by done. intros [= <- Hb] _.
      apply bool_decide_eq_true_1 in Hb. split.
      * apply list_elem_of_here.
      * apply Forall_cons. split; [auto|].
        eapply Forall_impl; [exact Hb|]. simpl. auto.
Qed.

Lemma allSame_complete (vals : list Z) (v : Z) :
  v <> -1 -> vals <> [] -> Forall (fun b => b = v) vals ->
  allSame (-1) vals = (v, true).
Proof.
  intros Hv Hne Hall. destruct vals as [|x rest]; [done|].
  apply Forall_cons in Hall as [-> Hall]. simpl.
  rewrite allSame_from by done. f_equal. by apply bool_decide_eq_true_2.
Qed.

(** A non-empty list of bits, all equal to some value other than the
    sentinel [-1]. *)
Definition unanimous (bits : list Z) : Prop :=
  exists v, v <> -1 /\ bits <> [] /\ Forall (fun b => b = v) bits.

Lemma allSame_not_unanimous (vals : list Z) (fv : Z) (same : bool) :
  allSame (-1) vals = (fv, same) ->
  same && bool_decide (fv <> -1) = false ->
  ~ unanimous vals.
Proof.
  intros Ha Hb (v & Hv & Hne & Hall).
  rewrite (allSame_complete vals v) in Ha by done.
  injection Ha as <- <-. simpl in Hb.
  by rewrite bool_decide_eq_true_2 in Hb.
Qed.

Lemma phase1_round s st now s1 st1 bc :
  phase1 payloadString uuidHash s st now = (s1, st1, bc) ->
  round st1 = round st.
Proof.
  unfold phase1. case_match.
  - unfold startACast. destruct (ACast.OnMessage _ _) as [[a' bc'] r'].
    by intros [= <- <- <-].
  - by intros [= <- <- <-].
Qed.

Lemma phase2_round s st now vv s2 st2 bc :
  phase2 payloadString uuidHash s st now vv = (s2, st2, bc) ->
  round st2 = round st.
Proof.
  unfold phase2. case_match.
  - unfold startACast. destruct (ACast.OnMessage _ _) as [[a' bc'] r'].
    by intros [= <- <- <-].
  - by intros [= <- <- <-].
Qed.

(** What [phase3] emits. *)
Lemma phase3_decision s st vr st3 res :
  phase3 s st vr = (st3, res) ->
  round st3 = round st
  /\ (res = [] \/ exists r, res = [r] /\ res_Round r = round st)
  /\ forall r, r ∈ res ->
       let bitsB := bit_of (receivedVote1 st3) <$> myB st3 in
       let bitsC := bit_of (receivedRevote st3) <$> myC st3 in
       finished st3 = true
       /\ ((Conf r = 2 /\ Value r <> -1 /\ Value r ∈ bitsB
            /\ Forall (fun b => b = Value r \/ b = -1) bitsB)
           \/ (Conf r = 1 /\ Value r <> -1 /\ Value r ∈ bitsC
               /\ Forall (fun b => b = Value r \/ b = -1) bitsC
               /\ ~ unanimous bitsB)
           \/ (Conf r = 0 /\ Value r = -1
               /\ ~ unanimous bitsB /\ ~ unanimous bitsC)).
Proof.
  unfold phase3. case_match; [|intros [= <- <-]; split_and!;
                                [done|by left|by intros r ?%elem_of_nil]].
  cbn [receivedVote1 myB receivedRevote myC].
  destruct (allSame _ (bit_of (receivedVote1 st) <$> myB st))
    as [fv sameB] eqn:HB.
  destruct (sameB && bool_decide (fv <> -1)) eqn:HdB.
  { intros [= <- <-]. split_and!; [done|right; by eexists|].
    intros r ->%list_elem_of_singleton. simpl. split; [done|]. left.
    apply andb_prop in HdB as [-> Hfv]. apply bool_decide_eq_true_1 in Hfv.
    destruct (allSame_sound _ _ HB Hfv). by split_and!. }
  destruct (allSame _ (bit_of (receivedRevote st) <$> merge_sort Z.le vr))
    as [fvc sameC] eqn:HC.
  pose proof (allSame_not_unanimous _ _ _ HB HdB) as HnB.
  destruct (sameC && bool_decide (fvc <> -1)) eqn:HdC.
  { intros [= <- <-]. split_and!; [done|right; by eexists|].
    intros r ->%list_elem_of_singleton. simpl. split; [done|]. right. left.
    apply andb_prop in HdC as [-> Hfv]. apply bool_decide_eq_true_1 in Hfv.
    destruct (allSame_sound _ _ HC Hfv). by split_and!. }
  pose proof (allSame_not_unanimous _ _ _ HC HdC) as HnC.
  intros [= <- <-]. split_and!; [done|right; by eexists|].
  intros r ->%list_elem_of_singleton. simpl. split; [done|]. right. right.
  by split_and!.
Qed.

(** One run of [checkProgress] emits at most one result, for the round
    of the state it ran on, and marks that state finished.  The result
    has confidence 2 and value [v] only if some VOTE1 bit recorded for a
    member of [myB] is [v], [v] is not [-1], and every other such bit is
    [v] or [-1]; confidence 1 and value [v] only if the same holds of the
    REVOTE bits of [myC] while the VOTE1 bits of [myB] are not unanimous;
    otherwise it is the null result [(-1, 0)], and then neither list of
    bits is unanimous. *)
Theorem vote_decision_sound s st now1 now2 :
  let '(s', st', bc, res) :=
    checkProgress payloadString uuidHash s st now1 now2 in
  round st' = round st
  /\ (res = [] \/ exists r, res = [r] /\ res_Round r = round st)
  /\ forall r, r ∈ res ->
       let bitsB := bit_of (receivedVote1 st') <$> myB st' in
       let bitsC := bit_of (receivedRevote st') <$> myC st' in
       finished st' = true
       /\ ((Conf r = 2 /\ Value r <> -1 /\ Value r ∈ bitsB
            /\ Forall (fun b => b = Value r \/ b = -1) bitsB)
           \/ (Conf r = 1 /\ Value r <> -1 /\ Value r ∈ bitsC
               /\ Forall (fun b => b = Value r \/ b = -1) bitsC
               /\ ~ unanimous bitsB)
           \/ (Conf r = 0 /\ Value r = -1
               /\ ~ unanimous bitsB /\ ~ unanimous bitsC)).
Proof.
  unfold checkProgress.
  destruct (phase1 _ _ s st now1) as [[s1 st1] bc1] eqn:H1.
  destruct (phase2 _ _ s1 st1 now2 _) as [[s2 st2] bc2] eqn:H2.
  destruct (phase3 s2 st2 _) as [st3 res] eqn:H3.
  apply phase1_round in H1. apply phase2_round in H2.
  apply phase3_decision in H3 as (Hr & Hres & Hdec).
  rewrite Hr, H2, H1 in *. by split_and!.
Qed.
End VoteDecision.

(** ** Vote: a round over a run of the service *)

Section VoteRuns.
Import Vote.
Local Open Scope Z_scope.
Variable payloadString : VotePayload -> string.
Variable ParseVotePayload : string -> option VotePayload.
Variable uuidHash : string -> Z -> Z -> string.

(** What the service task of a node is asked to do: start a round, or
    handle a message; each with the clock readings of the
    [NewACastMessage] calls it may make. *)
Inductive VoteEvent :=
| EvStartRound (r inputBit now0 now1 now2 : Z)
| EvMessage (msg : VoteMessage) (now1 now2 : Z).

Definition vote_step (s : VoteService) (ev : VoteEvent)
    : VoteService * list VoteMessage * list VoteResult :=
  match ev with
  | EvStartRound r b now0 now1 now2 =>
      StartRound payloadString uuidHash s r b now0 now1 now2
  | EvMessage msg now1 now2 =>
      OnMessage payloadString ParseVotePayload uuidHash s msg now1 now2
  end.

(** The final service and all results sent, in order. *)
Fixpoint vote_run (s : VoteService) (evs : list VoteEvent)
    : VoteService * list VoteResult :=
  match evs with
  | [] => (s, [])
  | ev :: rest =>
      let '(s', _, res) := vote_step s ev in
      let '(s'', out) := vote_run s' rest in
      (s'', res ++ out)
  end.

(** What is kept from one state of a round to a later one. *)
Definition latched (st st' : voteRoundState) : Prop :=
  round st' = round st
  /\ (sentVote1 st = true -> sentVote1 st' = true /\ myA st' = myA st)
  /\ (sentRevote st = true -> sentRevote st' = true /\ myB st' = myB st)
  /\ (finished st = true -> st' = st).

Definition emits (st st' : voteRoundState) (res : list VoteResult) : Prop :=
  res = []
  \/ exists x, res = [x] /\ res_Round x = round st
       /\ finished st = false /\ finished st' = true.

Lemma latched_refl st : latched st st.
Proof. by split_and!. Qed.

Lemma latched_trans st1 st2 st3 :
  latched st1 st2 -> latched st2 st3 -> latched st1 st3.
Proof.
  intros (Hr & HA & HB & HF) (Hr' & HA' & HB' & HF'). split_and!.
  - congruence.
  - intros H1. destruct (HA H1) as [H2 E]. destruct (HA' H2). split; congruence.
  - intros H1. destruct (HB H1) as [H2 E]. destruct (HB' H2). split; congruence.
  - intros H1. pose proof (HF H1) as ->. auto.
Qed.

Lemma record_payload_latched st p :
  finished st = false -> latched st (record_payload st p)
  /\ finished (record_payload st p) = false.
Proof.
  intros Hf. unfold record_payload, latched.
  repeat case_match; simpl; split_and!; try done; congruence.
Qed.

Lemma startACast_rounds s now p s' bc :
  startACast payloadString uuidHash s now p = (s', bc) ->
  rounds s' = rounds s /\ id s' = id s /\ n s' = n s /\ t s' = t s.
Proof.
  unfold startACast. destruct (ACast.OnMessage _ _) as [[a' bc'] r'].
  by intros [= <- <-].
Qed.

Lemma check_latched s st now1 now2 s' st' bc res :
  checkProgress payloadString uuidHash s st now1 now2 = (s', st', bc, res) ->
  finished st = false ->
  latched st st' /\ emits st st' res /\ rounds s' = rounds s.
Proof.
  unfold checkProgress.
  destruct (phase1 _ _ s st now1) as [[s1 st1] bc1] eqn:H1.
  destruct (phase2 _ _ s1 st1 now2 _) as [[s2 st2] bc2] eqn:H2.
  destruct (phase3 s2 st2 _) as [st3 res3] eqn:H3.
  intros [= <- <- <- <-] Hf.
  assert (L1 : latched st st1 /\ finished st1 = false /\ rounds s1 = rounds s).
  { revert H1. unfold phase1. case_match eqn:Hc.
    - destruct (startACast _ _ _ _ _) as [sa bca] eqn:Ha.
      apply startACast_rounds in Ha as (Hro & _).
      intros [= <- <- <-]. apply andb_prop in Hc as [Hc _].
      apply negb_true_iff in Hc. unfold latched. simpl.
      split_and!; try done; congruence.
    - intros [= <- <- <-]. split; [apply latched_refl|done]. }
  destruct L1 as (L1 & Hf1 & Hr1).
  assert (L2 : latched st1 st2 /\ finished st2 = false /\ rounds s2 = rounds s1).
  { revert H2. unfold phase2. case_match eqn:Hc.
    - destruct (startACast _ _ _ _ _) as [sa bca] eqn:Ha.
      apply startACast_rounds in Ha as (Hro & _).
      intros [= <- <- <-]. apply andb_prop in Hc as [Hc _].
      apply andb_prop in Hc as [_ Hc].
      apply negb_true_iff in Hc. unfold latched. simpl.
      split_and!; try done; congruence.
    - intros [= <- <- <-]. split; [apply latched_refl|done]. }
  destruct L2 as (L2 & Hf2 & Hr2).
  assert (L3 : latched st2 st3 /\ emits st2 st3 res3).
  { revert H3. unfold phase3. case_match eqn:Hc.
    - destruct (allSame _ _) as [fv sameB].
      assert (Hfin : forall v c st4 r4,
                 finish
                   {| round := round st2; receivedInputs := receivedInputs st2;
                      myA := myA st2; sentVote1 := sentVote1 st2;
                      receivedVote1 := receivedVote1 st2; myB := myB st2;
                      sentRevote := sentRevote st2;
                      receivedRevote := receivedRevote st2;
                      myC := merge_sort Z.le
                               (valid_senders (receivedRevote st2)
                                  (valid_senders (receivedVote1 st1)
                                     (map_to_list (receivedInputs st)).*1));
                      finished := finished st2 |} v c = (st4, r4) ->
                 latched st2 st4 /\ emits st2 st4 r4).
      { intros v c st4 r4 [= <- <-]. unfold latched, emits. simpl.
        split_and!; try done; try congruence. right. by eexists. }
      case_match; [by apply Hfin|].
      destruct (allSame _ _) as [fvc sameC].
      case_match; by apply Hfin.
    - intros [= <- <-]. split; [apply latched_refl|by left]. }
  destruct L3 as (L3 & E3).
  split_and!.
  - eauto using latched_trans.
  - destruct E3 as [->|(x & -> & Hx & Hfa & Hfb)]; [by left|].
    right. exists x. split_and!; try done.
    destruct L1 as (E1 & _), L2 as (E2 & _). congruence.
  - congruence.
Qed.

(** A handler touches the state of at most one round. *)
Definition touches (s s' : VoteService) (res : list VoteResult) : Prop :=
  (rounds s' = rounds s /\ res = [])
  \/ exists r st',
       (forall r', r' <> r -> rounds s' !! r' = rounds s !! r')
       /\ rounds s' !! r = Some st'
       /\ latched (default (newVoteRoundState r) (rounds s !! r)) st'
       /\ emits (default (newVoteRoundState r) (rounds s !! r)) st' res.

Lemma getRoundState_default s r s1 st :
  getRoundState s r = (s1, st) ->
  st = default (newVoteRoundState r) (rounds s !! r)
  /\ rounds s1 !! r = Some st
  /\ (forall r', r' <> r -> rounds s1 !! r' = rounds s !! r').
Proof.
  unfold getRoundState. destruct (rounds s !! r) as [st0|] eqn:Hl.
  - intros [= <- <-]. by split_and!.
  - intros [= <- <-]. simpl. split_and!; [done|by rewrite lookup_insert_eq|].
    intros r' Hne. by rewrite lookup_insert_ne.
Qed.

Lemma process_touches s p now1 now2 s' bc res :
  processDeliveredPayload payloadString uuidHash s p now1 now2
  = (s', bc, res) ->
  touches s s' res.
Proof.
  unfold processDeliveredPayload.
  destruct (getRoundState s (pl_Round p)) as [s1 st] eqn:Hg.
  apply getRoundState_default in Hg as (Hst & Hl & Hother).
  destruct (finished st) eqn:Hf.
  - intros [= <- <- <-]. right. exists (pl_Round p), st.
    rewrite <- Hst. split_and!; [done|done|apply latched_refl|by left].
  - destruct (checkProgress _ _ _ _ _ _) as [[[s2 st'] bc2] res2] eqn:Hc.
    intros [= <- <- <-].
    destruct (record_payload_latched st p Hf) as [Lr Hfr].
    apply check_latched in Hc as (Lc & Ec & Hro); [|done].
    right. exists (pl_Round p), st'. rewrite <- Hst. simpl. split_and!.
    + intros r' Hne. rewrite lookup_insert_ne by done. rewrite Hro. auto.
    + by rewrite lookup_insert_eq.
    + eauto using latched_trans.
    + destruct Ec as [->|(x & -> & Hx & Hfa & Hfb)]; [by left|].
      right. exists x. split_and!; try done.
      destruct Lr as (<- & _). done.
Qed.

Lemma step_touches s ev s' bc res :
  vote_step s ev = (s', bc, res) -> touches s s' res.
Proof.
  destruct ev as [r b now0 now1 now2|msg now1 now2]; simpl.
  - unfold StartRound.
    destruct (getRoundState s r) as [s1 st] eqn:Hg.
    apply getRoundState_default in Hg as (Hst & Hl & Hother).
    destruct (finished st) eqn:Hf.
    + intros [= <- <- <-]. right. exists r, st.
      rewrite <- Hst. split_and!; [done|done|apply latched_refl|by left].
    + destruct (startACast _ _ _ _ _) as [s2 bc0] eqn:Ha.
      apply startACast_rounds in Ha as (Hro2 & _).
      destruct (checkProgress _ _ _ _ _ _) as [[[s3 st'] bc2] res2] eqn:Hc.
      intros [= <- <- <-].
      apply check_latched in Hc as (Lc & Ec & Hro); [|done].
      right. exists r, st'. rewrite <- Hst. simpl. split_and!; try done.
      * intros r' Hne. rewrite lookup_insert_ne by done.
        rewrite Hro, Hro2. auto.
      * by rewrite lookup_insert_eq.
  - unfold OnMessage. destruct (ACastMsg msg) as [am|];
      [|intros [= <- <- <-]; by left].
    case_bool_decide; [|intros [= <- <- <-]; by left].
    destruct (ACast.OnMessage _ _) as [[a' bca] resa].
    destruct resa as [|v resa]; [intros [= <- <- <-]; by left|].
    unfold onDelivered. destruct (ParseVotePayload v) as [p|];
      [|intros [= <- <- <-]; by left].
    destruct (processDeliveredPayload _ _ _ _ _ _) as [[s2 bc2] rs] eqn:Hp.
    intros [= <- <- <-]. apply process_touches in Hp. exact Hp.
Qed.

(** A round state known to the service is kept, latched, by any run. *)
Lemma run_latched_round s evs r st :
  rounds s !! r = Some st ->
  exists st', rounds (vote_run s evs).1 !! r = Some st' /\ latched st st'.
Proof.
  revert s st. induction evs as [|ev rest IH]; intros s st Hl; simpl.
  - exists st. split; [done|apply latched_refl].
  - destruct (vote_step s ev) as [[s1 bc] res] eqn:Hs.
    destruct (vote_run s1 rest) as [s2 out] eqn:Hrun. simpl.
    apply step_touches in Hs.
    assert (exists st1, rounds s1 !! r = Some st1 /\ latched st st1)
      as (st1 & Hl1 & L1).
    { destruct Hs as [[-> _]|(r0 & st0 & Hother & Hl0 & L0 & _)].
      - exists st. split; [done|apply latched_refl].
      - destruct (decide (r = r0)) as [<-|Hne].
        + rewrite Hl in L0. simpl in L0. by exists st0.
        + exists st. rewrite Hother by done. split; [done|apply latched_refl]. }
    destruct (IH s1 st1 Hl1) as (st2 & Hl2 & L2). rewrite Hrun in Hl2.
    exists st2. split; [done|]. eauto using latched_trans.
Qed.

(** Once a node has sent VOTE1 in a round its set [A] is never changed
    again, once it has sent REVOTE its set [B] is never changed again,
    and a finished round is never modified: whatever rounds are started
    and whatever messages are handled afterwards. *)
Theorem vote_sets_frozen s evs r st :
  rounds s !! r = Some st ->
  exists st',
    rounds (vote_run s evs).1 !! r = Some st'
    /\ (sentVote1 st = true -> sentVote1 st' = true /\ myA st' = myA st)
    /\ (sentRevote st = true -> sentRevote st' = true /\ myB st' = myB st)
    /\ (finished st = true -> st' = st).
Proof.
  intros Hl. destruct (run_latched_round s evs r st Hl) as (st' & Hl' & L).
  exists st'. split; [done|]. by destruct L as (_ & ? & ? & ?).
Qed.

(** Every round state is stored under its own number. *)
Definition keyed (s : VoteService) : Prop :=
  forall r st, rounds s !! r = Some st -> round st = r.

Definition is_finished (s : VoteService) (r : Z) : Prop :=
  exists st, rounds s !! r = Some st /\ finished st = true.

Lemma step_keyed s ev s' bc res :
  vote_step s ev = (s', bc, res) -> keyed s ->
  keyed s'
  /\ (forall r, is_finished s r -> is_finished s' r)
  /\ (res = []
      \/ exists x, res = [x] /\ ~ is_finished s (res_Round x)
           /\ is_finished s' (res_Round x)).
Proof.
  intros Hs Hk. apply step_touches in Hs.
  destruct Hs as [[Hro ->]|(r0 & st0 & Hother & Hl0 & L0 & E0)].
  { unfold keyed, is_finished. rewrite Hro. split_and!; [done|done|by left]. }
  assert (Hround : round (default (newVoteRoundState r0) (rounds s !! r0))
                   = r0).
  { destruct (rounds s !! r0) as [st|] eqn:Hl; simpl; [by apply Hk|done]. }
  split_and!.
  - intros r st Hl. destruct (decide (r = r0)) as [->|Hne].
    + rewrite Hl0 in Hl. injection Hl as <-.
      destruct L0 as (-> & _). done.
    + rewrite Hother in Hl by done. by apply Hk.
  - intros r (st & Hl & Hf). destruct (decide (r = r0)) as [->|Hne].
    + rewrite Hl in L0. simpl in L0. destruct L0 as (_ & _ & _ & HF).
      exists st0. split; [done|]. by rewrite (HF Hf).
    + exists st. by rewrite Hother.
  - destruct E0 as [->|(x & -> & Hx & Hfa & Hfb)]; [by left|].
    right. exists x. rewrite Hx, Hround. split_and!; [done| |by exists st0].
    intros (st & Hl & Hf). rewrite Hl in Hfa. simpl in Hfa. congruence.
Qed.

Lemma run_keyed s evs :
  keyed s ->
  let out := (vote_run s evs).2 in
  (forall r, is_finished s r -> Forall (fun x => res_Round x <> r) out)
  /\ (forall r, (length (filter (fun x => res_Round x = r) out) <= 1)%nat)
  /\ Forall (fun x => is_finished (vote_run s evs).1 (res_Round x)) out.
Proof.
  revert s. induction evs as [|ev rest IH]; intros s Hk; simpl.
  { split_and!; [intros; apply Forall_nil_2|intros; simpl; lia|apply Forall_nil_2]. }
  destruct (vote_step s ev) as [[s1 bc] res] eqn:Hs.
  destruct (vote_run s1 rest) as [s2 out] eqn:Hrun. simpl.
  destruct (step_keyed _ _ _ _ _ Hs Hk) as (Hk1 & Hfin & Hres).
  specialize (IH s1 Hk1). rewrite Hrun in IH. simpl in IH.
  destruct IH as (IH1 & IH2 & IH3).
  destruct Hres as [->|(x & -> & Hnot & Hnow)]; simpl.
  { split_and!; [|done|done]. intros r Hr. apply IH1. by apply Hfin. }
  split_and!.
  - intros r Hr. constructor.
    + intros Hx. apply Hnot. by rewrite Hx.
    + apply IH1. by apply Hfin.
  - intros r. rewrite filter_cons. case_decide as Hx; [|apply IH2].
    simpl. specialize (IH1 _ Hnow). rewrite Hx in IH1.
    assert (filter (fun x0 => res_Round x0 = r) out = []) as ->; [|done].
    clear -IH1. induction out as [|y out IHo]; [done|].
    apply Forall_cons in IH1 as [Hy Hout]. rewrite filter_cons.
    rewrite decide_False by done. by apply IHo.
  - constructor; [|done].
    destruct Hnow as (st & Hl & Hf).
    destruct (run_latched_round s1 rest _ _ Hl) as (st' & Hl' & L).
    rewrite Hrun in Hl'. simpl in Hl'. exists st'. split; [done|].
    destruct L as (_ & _ & _ & HF). by rewrite (HF Hf).
Qed.

(** Over any sequence of [StartRound] calls and handled messages, a
    service created by [NewVoteService] sends at most one [VoteResult]
    per round, and every round it has sent a result for is finished in
    its final state. *)
Theorem vote_one_result_per_round (id0 n0 t0 : Z) (evs : list VoteEvent)
    (r : Z) :
  let '(s, out) := vote_run (NewVoteService id0 n0 t0) evs in
  (length (filter (fun x => res_Round x = r) out) <= 1)%nat
  /\ Forall (fun x => exists st, rounds s !! res_Round x = Some st
                        /\ finished st = true) out.
Proof.
  assert (Hk : keyed (NewVoteService id0 n0 t0)).
  { intros r' st Hl. simpl in Hl. by rewrite lookup_empty in Hl. }
  pose proof (run_keyed _ evs Hk) as (_ & H2 & H3).
  destruct (vote_run _ evs) as [s out]. simpl in *. split; [apply H2|done].
Qed.
End VoteRuns.

(** The node of [vote_example_service] has fixed [myA = [1; 2; 3]] in
    round 1; it is then asked to start round 1 again and to start
    round 2. *)
Lemma vote_sets_frozen_witness :
  exists st',
    Vote.rounds
      (vote_run vote_example_string (fun _ => None) vote_example_hash
         vote_example_service
         [EvStartRound 1 0 0 0 0; EvStartRound 2 1 0 0 0]%Z).1 !! 1%Z
    = Some st'
    /\ Vote.myA st' = [1; 2; 3]%Z.
Proof.
  destruct (vote_sets_frozen vote_example_string (fun _ => None)
              vote_example_hash vote_example_service
              [EvStartRound 1 0 0 0 0; EvStartRound 2 1 0 0 0]%Z 1%Z
              (Vote.getRoundState vote_example_service 1).2)
    as (st' & Hl & HA & _ & _).
  - vm_compute. reflexivity.
  - exists st'. split; [exact Hl|].
    destruct HA as [_ HA]; [vm_compute; reflexivity|].
    rewrite HA. vm_compute. reflexivity.
Defined.

(** ** Vote: the VOTE1 a node sends *)

Section VoteMajority.
Import Vote.
Local Open Scope Z_scope.
Variable payloadString : VotePayload -> string.
Variable uuidHash : string -> Z -> Z -> string.

Lemma count_bits_from (bits : list Z) (z o : Z) :
  0 <= z -> 0 <= o -> z + o + Z.of_nat (length bits) < 2 ^ 63 ->
  fold_left (fun (acc : Z * Z) (bit : Z) =>
      if bool_decide (bit = 0) then (GoInt.add acc.1 1, acc.2)
      else (acc.1, GoInt.add acc.2 1)) bits (z, o)
  = (z + Z.of_nat (length (filter (fun b => b = 0) bits)),
     o + Z.of_nat (length (filter (fun b => b <> 0) bits))).
Proof.
  revert z o. induction bits as [|b bits IH]; intros z o Hz Ho Hlen.
  - simpl. f_equal; lia.
  - cbn [fold_left fst snd]. rewrite !filter_cons.
    cbn [length] in Hlen. case_bool_decide as Hb.
    + rewrite decide_True by done. rewrite decide_False by tauto.
      rewrite add_small by (unfold GoInt.in_range; lia).
      rewrite IH by lia. cbn [length]. f_equal; lia.
    + rewrite decide_False by done. rewrite decide_True by done.
      rewrite add_small by (unfold GoInt.in_range; lia).
      rewrite IH by lia. cbn [length]. f_equal; lia.
Qed.

(** The majority bit is 1 exactly when the non-zero bits strictly
    outnumber the zero bits; a tie gives 0. *)
Lemma majority_spec (bits : list Z) :
  Z.of_nat (length bits) < 2 ^ 63 ->
  majority bits
  = if decide (length (filter (fun b : Z => b = 0%Z) bits)
               < length (filter (fun b : Z => b <> 0%Z) bits))%nat
    then 1 else 0.
Proof.
  intros Hlen. unfold majority, count_bits.
  rewrite count_bits_from by lia. simpl.
  case_bool_decide; case_decide; try done; lia.
Qed.

Lemma length_filter_fmap {A B : Type} (f : A -> B) (P : B -> Prop)
    `{!forall b, Decision (P b)} (l : list A) :
  length (filter P (f <$> l)) = length (filter (fun a => P (f a)) l).
Proof.
  induction l as [|a l IH]; [done|].
  rewrite fmap_cons, !filter_cons. case_decide; simpl; by rewrite IH.
Qed.

Lemma phase2_myA s st now vv s2 st2 bc :
  phase2 payloadString uuidHash s st now vv = (s2, st2, bc) ->
  myA st2 = myA st /\ sentVote1 st2 = sentVote1 st.
Proof.
  unfold phase2. case_match.
  - unfold startACast. destruct (ACast.OnMessage _ _) as [[a' bc'] r'].
    by intros [= <- <- <-].
  - by intros [= <- <- <-].
Qed.

Lemma phase3_myA s st vr st3 res :
  phase3 s st vr = (st3, res) ->
  myA st3 = myA st /\ sentVote1 st3 = sentVote1 st.
Proof.
  unfold phase3. case_match; [|by intros [= <- <-]].
  destruct (allSame _ _) as [fv sameB].
  case_match; [by intros [= <- <-]|].
  destruct (allSame _ _) as [fvc sameC].
  case_match; by intros [= <- <-].
Qed.

(** When a node that has not yet sent VOTE1 runs [checkProgress] with at
    least [n - t] inputs delivered, the first message it broadcasts is
    the A-Cast MSG of a VOTE1 payload: a [Vote_ACast] message holding
    the MSG from the node itself whose value is the payload
    [{Type: Vote_Vote1, Sender: id, Bit, Set, Round}] as a string and
    whose uuid is hashed from that string, the id and the clock.  The
    set of the payload is [myA]: the senders of all delivered inputs,
    each once, in ascending order; its bit is 1 if the inputs with a
    non-zero bit strictly outnumber those with bit 0, and 0 otherwise
    (so also on a tie). *)
Theorem vote1_carries_majority s st now1 now2 :
  sentVote1 st = false ->
  GoInt.in_range (n s - t s) ->
  n s - t s <= Z.of_nat (size (receivedInputs st)) < 2 ^ 63 ->
  let '(s', st', bc, res) :=
    checkProgress payloadString uuidHash s st now1 now2 in
  let zeros := length (filter (fun kv : Z * Z => kv.2 = 0)
                         (map_to_list (receivedInputs st))) in
  let ones := length (filter (fun kv : Z * Z => kv.2 <> 0)
                        (map_to_list (receivedInputs st))) in
  let bit := if decide (zeros < ones)%nat then 1 else 0 in
  let val :=
    payloadString
      {| pl_Type := Vote_Vote1; Sender := id s; Bit := bit;
         Set_ := myA st'; pl_Round := round st |} in
  exists rest,
    bc = {| msg_Type := Vote_ACast;
            ACastMsg :=
              Some {| ACast.Type_ := ACast.MSG;
                      ACast.UUID := uuidHash val (id s) now1;
                      ACast.Val := val; ACast.From := id s |} |} :: rest
    /\ sentVote1 st' = true
    /\ Sorted Z.le (myA st') /\ NoDup (myA st')
    /\ forall j, j ∈ myA st' <-> is_Some (receivedInputs st !! j).
Proof.
  intros Hs Hr [Hlo Hhi]. unfold checkProgress.
  destruct (phase1 _ _ s st now1) as [[s1 st1] bc1] eqn:H1.
  destruct (phase2 _ _ s1 st1 now2 _) as [[s2 st2] bc2] eqn:H2.
  destruct (phase3 s2 st2 _) as [st3 res] eqn:H3.
  apply phase2_myA in H2 as [HA2 HS2]. apply phase3_myA in H3 as [HA3 HS3].
  rewrite HA3, HA2, HS3, HS2. clear HA3 HA2 HS3 HS2.
  revert H1. unfold phase1. rewrite Hs. cbn [negb andb].
  rewrite sub_small by done. unfold GoInt.len.
  rewrite bool_decide_eq_true_2 by lia.
  unfold startACast. destruct (ACast.OnMessage _ _) as [[a' bca] ra].
  intros [= <- <- <-]. cbn [myA sentVote1].
  eexists. split_and!.
  - rewrite majority_spec.
    2:{ rewrite length_fmap, length_map_to_list. lia. }
    rewrite !length_filter_fmap. reflexivity.
  - done.
  - apply (Sorted_merge_sort Z.le).
  - rewrite merge_sort_Permutation. apply NoDup_fst_map_to_list.
  - intros j. rewrite merge_sort_Permutation, list_elem_of_fmap.
    split.
    + intros ([k v] & -> & Hin). apply elem_of_map_to_list in Hin.
      by exists v.
    + intros [v Hv]. exists (j, v). split; [done|].
      by apply elem_of_map_to_list.
Qed.
End VoteMajority.

(** A node ([n = 4], [t = 1]) that has the inputs 1, 0 and 1 of the
    nodes 1, 2 and 3 and has not sent VOTE1 yet. *)
Definition vote1_example_state : Vote.voteRoundState :=
  fold_left Vote.record_payload
    [Vote.mkPayload Vote.Vote_Input 1 1 [] 1;
     Vote.mkPayload Vote.Vote_Input 2 0 [] 1;
     Vote.mkPayload Vote.Vote_Input 3 1 [] 1]%Z
    (Vote.newVoteRoundState 1).

(** A codec that writes all five fields of a payload, and a hash that
    joins its three inputs. *)
Definition vote1_example_string (p : Vote.VotePayload) : string :=
  pretty (Vote.pl_Type p) +:+ "/" +:+ pretty (Vote.Sender p) +:+ "/"
  +:+ pretty (Vote.Bit p) +:+ "/"
  +:+ String.concat "," (pretty <$> Vote.Set_ p) +:+ "/"
  +:+ pretty (Vote.pl_Round p).
Definition vote1_example_hash (v : string) (from now : Z) : string :=
  v +:+ "@" +:+ pretty from +:+ "@" +:+ pretty now.

Definition vote1_example_step :=
  Vote.checkProgress vote1_example_string vote1_example_hash
    (Vote.NewVoteService 1 4 1) vote1_example_state 5%Z 6%Z.

(** With the inputs 1, 0, 1 the VOTE1 of node 1 carries bit 1 and the
    set [[1; 2; 3]]. *)
Lemma vote1_carries_majority_witness :
  exists rest,
    vote1_example_step.1.2
    = Vote.mkMessage Vote.Vote_ACast
        (Some (ACast.mkMsg ACast.MSG "1/1/1/1,2,3/1@1@5" "1/1/1/1,2,3/1"
                 1%Z))
      :: rest.
Proof.
  pose proof (vote1_carries_majority vote1_example_string
                vote1_example_hash (Vote.NewVoteService 1 4 1)
                vote1_example_state 5%Z 6%Z) as Hw.
  unfold vote1_example_step.
  destruct (Vote.checkProgress _ _ _ _ _ _) as [[[s' st'] bc] res] eqn:E.
  destruct Hw as (rest & Hbc & _).
  - vm_compute. reflexivity.
  - unfold GoInt.in_range. simpl. lia.
  - vm_compute. split; [discriminate|reflexivity].
  - exists rest. cbn [fst snd]. rewrite Hbc.
    assert (HA : Vote.myA st' = [1; 2; 3]%Z).
    { replace st' with vote1_example_step.1.1.2
        by (unfold vote1_example_step; by rewrite E).
      vm_compute. reflexivity. }
    rewrite HA. vm_compute. reflexivity.
Defined.

(** ** IVSS: the clique search *)

Section FindClique.
Import IVSS.
Local Open Scope Z_scope.

(** [existing] is in the neighbour set of [node]: the test
    [neighbors[node][existing]]. *)
Definition linked (neighbors : gmap Z (gset Z)) (node existing : Z) : Prop :=
  existing ∈ default ∅ (neighbors !! node).

(** Every member is in the neighbour set of each member after it. *)
Fixpoint clique (neighbors : gmap Z (gset Z)) (l : list Z) : Prop :=
  match l with
  | [] => True
  | u :: rest => Forall (fun v => linked neighbors v u) rest
                 /\ clique neighbors rest
  end.

(** [ext] can be appended to [cur] one node at a time, each node linked to
    all nodes before it. *)
Fixpoint extends (neighbors : gmap Z (gset Z)) (cur ext : list Z) : Prop :=
  match ext with
  | [] => True
  | x :: ext' => Forall (linked neighbors x) cur
                 /\ extends neighbors (cur ++ [x]) ext'
  end.

Lemma extends_clique neighbors ext : forall cur,
  extends neighbors cur ext
  <-> Forall (fun x => Forall (linked neighbors x) cur) ext
      /\ clique neighbors ext.
Proof.
  induction ext as [|x ext IH]; intros cur; simpl.
  - split; [by intros; split; [constructor|]|done].
  - rewrite IH, Forall_cons.
    assert (Forall (fun y => Forall (linked neighbors y) (cur ++ [x])) ext
            <-> Forall (fun y => Forall (linked neighbors y) cur) ext
                /\ Forall (fun v => linked neighbors v x) ext) as ->.
    { rewrite <- Forall_and. apply Forall_proper; [|done]. intros y.
      rewrite Forall_app, Forall_singleton. done. }
    tauto.
Qed.

Lemma canInclude_spec neighbors node cur :
  forallb (fun existing =>
     bool_decide (existing ∈ default ∅ (neighbors !! node))) cur = true
  <-> Forall (linked neighbors node) cur.
Proof.
  rewrite forallb_forall, Forall_forall. unfold linked.
  split; intros Hall x Hx.
  - apply list_elem_of_In, Hall in Hx. by apply bool_decide_eq_true in Hx.
  - apply bool_decide_eq_true, Hall. by apply list_elem_of_In.
Qed.

Lemma search_sound k neighbors cands : forall cur r,
  search k neighbors cands cur = Some (Some r) ->
  exists ext, r = cur ++ ext /\ sublist ext cands
              /\ extends neighbors cur ext
              /\ Z.of_nat (length r) = k.
Proof.
  induction cands as [|node rest IH]; intros cur r; simpl.
  - case_bool_decide as Hk; [|case_bool_decide; discriminate].
    intros [= <-]. exists []. rewrite app_nil_r. by split_and!.
  - case_bool_decide as Hk.
    { intros [= <-]. exists []. rewrite app_nil_r. split_and!; try done.
      apply sublist_nil_l. }
    case_bool_decide as Hlt; [discriminate|].
    destruct (forallb _ cur) eqn:Hinc.
    + destruct (search k neighbors rest (cur ++ [node])) as [[r'|]|] eqn:E;
        simpl; [| |discriminate].
      * intros [= <-]. apply IH in E as (ext & -> & Hsub & Hext & Hlen).
        exists (node :: ext). rewrite <- app_assoc. simpl.
        split_and!; try done.
        -- by apply sublist_skip.
        -- by apply canInclude_spec.
        -- by rewrite <- app_assoc in Hlen.
      * intros (ext & -> & Hsub & Hext & Hlen)%IH.
        exists ext. split_and!; try done. by apply sublist_cons.
    + intros (ext & -> & Hsub & Hext & Hlen)%IH.
      exists ext. split_and!; try done. by apply sublist_cons.
Qed.

Lemma search_complete k neighbors cands : forall cur,
  search k neighbors cands cur = Some None ->
  forall ext, sublist ext cands -> extends neighbors cur ext ->
    Z.of_nat (length (cur ++ ext)) <> k.
Proof.
  induction cands as [|node rest IH]; intros cur; simpl.
  - case_bool_decide as Hk; [discriminate|].
    intros _ ext Hsub%sublist_nil_r _. subst ext. by rewrite app_nil_r.
  - case_bool_decide as Hk; [discriminate|].
    case_bool_decide as Hlt.
    { intros _ ext Hsub _. apply sublist_length in Hsub.
      rewrite length_app. unfold GoInt.len in Hlt. simpl in *. lia. }
    assert (Hnil : Z.of_nat (length (cur ++ [])) <> k)
      by (by rewrite app_nil_r).
    destruct (forallb _ cur) eqn:Hinc.
    + destruct (search k neighbors rest (cur ++ [node])) as [[r'|]|] eqn:E;
        simpl; [discriminate| |discriminate].
      intros E' ext Hsub Hext.
      apply sublist_cons_r in Hsub as [Hsub|(ext' & -> & Hsub)].
      * by apply (IH _ E').
      * destruct Hext as [_ Hext].
        pose proof (IH _ E ext' Hsub Hext) as Hne.
        by rewrite <- app_assoc in Hne.
    + intros E' ext Hsub Hext.
      apply sublist_cons_r in Hsub as [Hsub|(ext' & -> & Hsub)].
      * by apply (IH _ E').
      * destruct Hext as [Hj _]. apply canInclude_spec in Hj. congruence.
Qed.

Lemma search_returns k neighbors cands : forall cur,
  Z.of_nat (length cur) <= k -> is_Some (search k neighbors cands cur).
Proof.
  induction cands as [|node rest IH]; intros cur Hle; simpl.
  - case_bool_decide as Hk; [done|]. unfold GoInt.len in *. simpl.
    rewrite bool_decide_eq_true_2 by lia. done.
  - case_bool_decide as Hk; [done|]. case_bool_decide as Hlt; [done|].
    unfold GoInt.len in Hk.
    destruct (forallb _ cur); [|apply IH; lia].
    destruct (IH (cur ++ [node])) as [[r|] ->]; simpl.
    + rewrite length_app. simpl. lia.
    + done.
    + apply IH. lia.
Qed.

Lemma search_panics k neighbors cands : forall cur,
  k < Z.of_nat (length cur) -> search k neighbors cands cur = None.
Proof.
  induction cands as [|node rest IH]; intros cur Hlt; simpl;
    unfold GoInt.len.
  - rewrite bool_decide_eq_false_2 by lia.
    rewrite bool_decide_eq_false_2 by (simpl; lia). done.
  - rewrite bool_decide_eq_false_2 by lia.
    rewrite bool_decide_eq_false_2 by (simpl; lia).
    destruct (forallb _ cur); [|by apply IH].
    rewrite (IH (cur ++ [node])); [done|]. rewrite length_app. simpl. lia.
Qed.

(** [findClique nodes k neighbors] panics exactly when [k] is negative.
    Otherwise a slice it returns has exactly [k] members, taken from
    [nodes] in their order, each member being in the neighbour set of
    every member after it; and it returns [nil] only when no such
    selection of [k] nodes exists. *)
Theorem findClique_correct (nodes : list Z) (k : Z)
    (neighbors : gmap Z (gset Z)) :
  (k < 0 -> findClique nodes k neighbors = None)
  /\ (0 <= k ->
      exists r, findClique nodes k neighbors = Some r
        /\ match r with
           | Some c => Z.of_nat (length c) = k /\ sublist c nodes
                       /\ clique neighbors c
           | None => forall c, sublist c nodes -> clique neighbors c ->
                       Z.of_nat (length c) <> k
           end).
Proof.
  unfold findClique. split.
  - intros Hk. apply search_panics. simpl. lia.
  - intros Hk. destruct (search_returns k neighbors nodes []) as [r Hr];
      [simpl; lia|].
    exists r. split; [done|]. destruct r as [c|].
    + apply search_sound in Hr as (ext & -> & Hsub & Hext & Hlen).
      simpl in *. split_and!; try done.
      apply extends_clique in Hext as [_ Hc]. done.
    + intros c Hsub Hc.
      apply (search_complete _ _ _ _ Hr c Hsub).
      apply extends_clique. split; [|done].
      apply Forall_forall. intros; constructor.
Qed.
End FindClique.

(** ** IVSS: the MSET of the dealer passes the check of the receivers *)

Section DealerMSet.
Import IVSS.
Local Open Scope Z_scope.
Variable payloadString : IVSSPayload -> string.

(** The test that [verifyMSet] makes on a pair. *)
Definition pair_ok (s : IVSSService) (inst : IVSSInstance) (u v : Z) : Prop :=
  (u, v) ∈ completedEquals inst /\ (v, u) ∈ completedEquals inst
  /\ Cert.IsFaultyPair (cp s) u v = false.

Lemma pair_ok_sym s inst u v : pair_ok s inst u v -> pair_ok s inst v u.
Proof.
  intros (H1 & H2 & H3). split_and!; try done.
  unfold Cert.IsFaultyPair in *. by rewrite ordered_comm.
Qed.

Fixpoint all_pairs (ok : Z -> Z -> Prop) (l : list Z) : Prop :=
  match l with
  | [] => True
  | u :: rest => Forall (ok u) rest /\ all_pairs ok rest
  end.

Lemma pairs_ok_spec s inst l :
  pairs_ok s inst l = true <-> all_pairs (pair_ok s inst) l.
Proof.
  induction l as [|u rest IH]; simpl; [done|].
  rewrite andb_true_iff, IH, forallb_forall, Forall_forall.
  apply and_iff_compat_r. unfold pair_ok.
  split; intros Hall v Hv.
  - apply list_elem_of_In, Hall in Hv.
    apply andb_true_iff in Hv as [Hv Hf].
    apply andb_true_iff in Hv as [H1 H2].
    apply bool_decide_eq_true in H1, H2. apply negb_true_iff in Hf. done.
  - apply list_elem_of_In, Hall in Hv as (H1 & H2 & Hf).
    rewrite !bool_decide_eq_true_2 by done. by rewrite Hf.
Qed.

Lemma all_pairs_perm (ok : Z -> Z -> Prop) l l' :
  (forall u v, ok u v -> ok v u) ->
  l ≡ₚ l' -> all_pairs ok l -> all_pairs ok l'.
Proof.
  intros Hsym Hp. induction Hp as [|x l l' Hp IH|x y l|l l' l'' _ IH1 _ IH2];
    simpl; [done| | |by auto].
  - intros [Hx Hl]. split; [by rewrite <- Hp|by apply IH].
  - intros [Hy [Hx Hl]]. apply Forall_cons in Hy as [Hyx Hy].
    split_and!; try done. apply Forall_cons. split; [by apply Hsym|done].
Qed.

Lemma all_pairs_snoc (ok : Z -> Z -> Prop) l x :
  all_pairs ok l -> Forall (fun u => ok u x) l -> all_pairs ok (l ++ [x]).
Proof.
  induction l as [|u l IH]; simpl; [by intros; split; [constructor|]|].
  intros [Hu Hl] [Hux Hx]%Forall_cons. split; [|by apply IH].
  apply Forall_app. split; [done|]. by apply Forall_singleton.
Qed.

Lemma mutual_spec inst u v :
  mutual inst u v = true
  <-> (u, v) ∈ completedEquals inst /\ (v, u) ∈ completedEquals inst.
Proof.
  unfold mutual. by rewrite andb_true_iff, !bool_decide_eq_true.
Qed.

(** Backtracking revision: a link of the adjacency map is a pair that
    [verifyMSet] accepts. *)
Lemma linked_candidate_adj s inst cands v u :
  linked (candidate_adj s inst cands) v u -> pair_ok s inst v u.
Proof.
  unfold linked, candidate_adj.
  destruct (list_to_map _ !! v) as [S|] eqn:E; simpl;
    [|by intros ?%not_elem_of_empty].
  apply elem_of_list_to_map_2, list_elem_of_fmap in E as (u0 & [= -> ->] & _).
  rewrite elem_of_list_to_set, list_elem_of_filter.
  intros [(_ & Hm & Hf) _]. apply mutual_spec in Hm as [H1 H2]. done.
Qed.

Lemma clique_all_pairs s inst cands c :
  clique (candidate_adj s inst cands) c -> all_pairs (pair_ok s inst) c.
Proof.
  induction c as [|u rest IH]; simpl; [done|].
  intros [Hu Hc]. split; [|by apply IH].
  eapply Forall_impl; [exact Hu|]. simpl. intros v Hl.
  by apply pair_ok_sym, (linked_candidate_adj s inst cands).
Qed.

(** Incremental revision: the loop keeps a set of accepted pairs, taken
    from the candidates in order. *)
Lemma candidate_loop_pairs s inst cands : forall M,
  all_pairs (pair_ok s inst) M ->
  exists ext,
    fold_left (candidate_step s inst) cands M = M ++ ext
    /\ sublist ext cands
    /\ all_pairs (pair_ok s inst) (M ++ ext).
Proof.
  induction cands as [|k rest IH]; intros M HM; simpl.
  - exists []. rewrite app_nil_r. by split_and!.
  - unfold candidate_step at 2. destruct (forallb _ M) eqn:Hc.
    + destruct (IH (M ++ [k])) as (ext & -> & Hsub & Hall).
      { apply all_pairs_snoc; [done|].
        rewrite forallb_forall in Hc. apply Forall_forall. intros u Hu.
        apply list_elem_of_In, Hc in Hu.
        apply andb_true_iff in Hu as [Hm Hf].
        apply mutual_spec in Hm as [H1 H2]. apply negb_true_iff in Hf.
        by apply pair_ok_sym. }
      exists (k :: ext). rewrite <- app_assoc in *. simpl in *.
      split_and!; try done. by apply sublist_skip.
    + destruct (IH M HM) as (ext & -> & Hsub & Hall).
      exists ext. split_and!; try done. by apply sublist_cons.
Qed.

Lemma sublist_seqZ_range c (n0 : Z) :
  sublist c (seqZ 1 n0) ->
  NoDup c /\ Forall (fun x => 1 <= x <= n0) c.
Proof.
  intros Hsub. split.
  - eapply sublist_NoDup; [apply NoDup_seqZ|exact Hsub].
  - apply Forall_forall. intros x Hx.
    eapply elem_of_sublist in Hx; [|exact Hsub].
    apply elem_of_seqZ in Hx. lia.
Qed.

(** In both revisions [checkCandidateSet] broadcasts nothing or exactly
    one A-Cast of an MSET payload (the MSG from the node with uuid
    ["{InstanceID}-MSET"] and the payload string as value); the set [M]
    it carries passes
    [verifyMSet] on the dealer's own state (at least [n - t] members,
    both EQUALs completed and the pair not flagged for every two
    members), and is a list of distinct node ids of [1..n] in ascending
    order. *)
Theorem dealer_mset_verifies (revision : Revision) s inst bc :
  checkCandidateSet payloadString revision s inst = Some bc ->
  bc = []
  \/ exists M,
       (let payload :=
          {| pl_InstanceID := inst_id inst; pl_Type := Payload_MSet;
             EqualPair := (0, 0); pl_MSet := Some M;
             RevealPoly := None; RevealSender := 0 |} in
        bc = [{| msg_Type := IVSS_ACast; DirectType := 0; To := 0; From := 0;
                 msg_InstanceID := ""; msg_Poly := None; Point := None;
                 PointIdx := 0;
                 ACastMsg :=
                   Some {| ACast.Type_ := ACast.MSG;
                           ACast.UUID := inst_id inst +:+ "-MSET";
                           ACast.Val := payloadString payload;
                           ACast.From := id s |} |}])
       /\ verifyMSet s inst (Some M) = true
       /\ Sorted Z.le M /\ NoDup M
       /\ Forall (fun x => 1 <= x <= n s) M.
Proof.
  unfold checkCandidateSet.
  case_bool_decide; [intros [= <-]; by left|].
  destruct (sharingCompleted inst); [intros [= <-]; by left|].
  destruct (candidateSet revision s inst) as [[M|]|] eqn:Hc; simpl;
    [|intros [= <-]; by left|done].
  intros [= <-]. right. exists (merge_sort Z.le M).
  assert (HM : GoInt.sub (n s) (t s) <= Z.of_nat (length M)
               /\ sublist M (seqZ 1 (n s))
               /\ all_pairs (pair_ok s inst) M).
  { revert Hc. unfold candidateSet. destruct revision.
    - intros Hf.
      destruct (decide (GoInt.sub (n s) (t s) < 0)) as [Hneg|Hpos].
      + pose proof (search_panics (GoInt.sub (n s) (t s))
                      (candidate_adj s inst (seqZ 1 (n s)))
                      (seqZ 1 (n s)) [] Hneg) as Hp.
        unfold findClique in Hf. congruence.
      + unfold findClique in Hf.
        apply search_sound in Hf as (ext & -> & Hsub & Hext & Hlen).
        simpl in *. split_and!; [lia|done|].
        apply extends_clique in Hext as [_ Hcl].
        by apply (clique_all_pairs s inst (seqZ 1 (n s))).
    - case_bool_decide as Hlen; [|discriminate]. intros [= <-].
      destruct (candidate_loop_pairs s inst (seqZ 1 (n s)) [] I)
        as (ext & Heq & Hsub & Hall).
      rewrite Heq in *. simpl in *. unfold GoInt.len in Hlen.
      split_and!; [lia|done|done]. }
  destruct HM as (Hlen & Hsub & Hall).
  destruct (sublist_seqZ_range _ _ Hsub) as [Hnd Hrange].
  split_and!.
  - done.
  - unfold verifyMSet. simpl. unfold GoInt.len.
    assert (Hl : length (merge_sort Z.le M) = length M)
      by apply Permutation_length, merge_sort_Permutation.
    rewrite bool_decide_eq_false_2 by (rewrite Hl; lia).
    apply pairs_ok_spec.
    apply (all_pairs_perm _ M); [apply pair_ok_sym| |done].
    by rewrite merge_sort_Permutation.
  - apply (Sorted_merge_sort Z.le).
  - by rewrite merge_sort_Permutation.
  - by rewrite merge_sort_Permutation.
Qed.
End DealerMSet.

(** With only 2, 3 and 4 mutually consistent the backtracking revision
    A-Casts an MSET that verifies ([[2; 3; 4]]). *)
Lemma dealer_mset_verifies_witness :
  IVSS.checkCandidateSet mset_example_string IVSS.Backtracking
    candidate_example_service candidate_example_without_1
  = Some [mset_example_message "I:1:2,3,4"]
  /\ exists M,
       mset_example_message "I:1:2,3,4"
       = mset_example_message
           (mset_example_string
              (IVSS.mkPayload "I" IVSS.Payload_MSet (0, 0)%Z (Some M) None
                 0%Z))
       /\ IVSS.verifyMSet candidate_example_service
            candidate_example_without_1 (Some M) = true.
Proof.
  assert (Hbc : IVSS.checkCandidateSet mset_example_string IVSS.Backtracking
                  candidate_example_service candidate_example_without_1
                = Some [mset_example_message "I:1:2,3,4"])
    by (vm_compute; reflexivity).
  split; [exact Hbc|].
  destruct (dealer_mset_verifies mset_example_string IVSS.Backtracking
              candidate_example_service candidate_example_without_1
              [mset_example_message "I:1:2,3,4"] Hbc)
    as [Hnil|(M & HM & Hv & _)].
  - discriminate Hnil.
  - exists M. split; [|exact Hv]. cbv zeta in HM.
    exact (f_equal (fun l => default (mset_example_message "") (head l))
             HM).
Defined.

(** ** IVSS: shares and points *)

Section PointExchange.
Import IVSS.
Local Open Scope Z_scope.
Variable payloadString : IVSSPayload -> string.
Variable ParseIVSSPayload : string -> option IVSSPayload.
Variable rangeOrder : list Z -> list Z.
Variable Prime : Z.
Variable revision : Revision.

Local Abbreviation onMessage :=
  (OnMessage payloadString ParseIVSSPayload rangeOrder Prime revision).

(** The share that the dealer [d] sends to node [k], and the point that
    node [from] sends to node [to]. *)
Definition share_msg (d k : Z) (key : string) (f : Poly.Polynomial)
    : IVSSMessage :=
  {| msg_Type := IVSS_Direct; DirectType := Direct_Share; To := k;
     From := d; msg_InstanceID := key; msg_Poly := Some f; Point := None;
     PointIdx := 0; ACastMsg := None |}.

Definition point_msg (from to : Z) (key : string) (pt : option Z)
    : IVSSMessage :=
  {| msg_Type := IVSS_Direct; DirectType := Direct_Point; To := to;
     From := from; msg_InstanceID := key; msg_Poly := None; Point := pt;
     PointIdx := to; ACastMsg := None |}.

Local Ltac direct_fields :=
  unfold share_msg, point_msg;
  cbn [direct_message msg_Type To From msg_InstanceID DirectType msg_Poly
       Point PointIdx].

(** Two messages handled one after the other. *)
Definition handle2 (s : IVSSService) (m1 m2 : IVSSMessage)
    : option (IVSSService * list IVSSMessage * list IVSSResult) :=
  '(s1, bc1, rs1) ← onMessage s m1;
  '(s2, bc2, rs2) ← onMessage s1 m2;
  Some (s2, bc1 ++ bc2, rs1 ++ rs2).

Lemma points_sent (s : IVSSService) key f :
  mapM (fun j =>
      p ← Some f;
      Some (direct_message Direct_Point j (id s) key None
              (Some (Poly.Evaluate Prime p j)) j))
    (seqZ 1 (n s))
  = Some ((fun j => direct_message Direct_Point j (id s) key None
                      (Some (Poly.Evaluate Prime f j)) j)
          <$> seqZ 1 (n s)).
Proof. by apply mapM_Some_fmap. Qed.

Lemma range_of_nil :
  (forall l, rangeOrder l ≡ₚ l) -> rangeOrder [] = [].
Proof. intros Hp. by apply Permutation_nil_r. Qed.

Lemma range_of_singleton x :
  (forall l, rangeOrder l ≡ₚ l) -> rangeOrder [x] = [x].
Proof. intros Hp. by apply Permutation_singleton_r. Qed.

(** A node that has no state for the instance handles its share: it
    stores the slice and sends one point to every node. *)
Lemma share_handled (s : IVSSService) d key f :
  (forall l, rangeOrder l ≡ₚ l) ->
  instances s !! key = None ->
  onMessage s (share_msg d (id s) key f)
  = Some (with_instances s
            (<[key := with_share (NewIVSSInstance key d) (Some f) d]>
               (instances s)),
          (fun j => point_msg (id s) j key (Some (Poly.Evaluate Prime f j)))
          <$> seqZ 1 (n s),
          []).
Proof.
  intros Hp Hl. unfold OnMessage. direct_fields.
  rewrite bool_decide_eq_false_2 by done.
  rewrite bool_decide_eq_false_2 by tauto.
  unfold getInstance.
  rewrite Hl. cbn [Direct_Share]. rewrite points_sent.
  cbn [mbind option_bind with_share earlyPoints NewIVSSInstance].
  rewrite dom_empty_L, elements_empty, range_of_nil by done.
  cbn [mapM mret option_ret mbind option_bind concat].
  rewrite app_nil_r. unfold store. cbn [instances with_instances].
  rewrite insert_insert_eq. reflexivity.
Qed.

(** A point for an instance the node has no state for is buffered. *)
Lemma point_buffered (s : IVSSService) k key pt :
  instances s !! key = None ->
  onMessage s (point_msg k (id s) key pt)
  = Some (with_instances s
            (<[key := with_earlyPoints (NewIVSSInstance key k)
                        {[k := pt]}]> (instances s)),
          [], []).
Proof.
  intros Hl. unfold OnMessage. direct_fields.
  rewrite bool_decide_eq_false_2 by done.
  rewrite bool_decide_eq_false_2 by tauto.
  unfold getInstance. rewrite Hl.
  cbn [Direct_Point receivedPoly NewIVSSInstance earlyPoints].
  unfold store. cbn [instances with_instances].
  rewrite insert_insert_eq, insert_empty. reflexivity.
Qed.

(** The slices that the dealer hands to two nodes agree on the points
    the nodes exchange: when node [k] handles its share it sends to node
    [j] a point for which node [j], holding its own slice, broadcasts
    the A-Cast of EQUAL [(j, k)]: the MSG from [j] with uuid
    ["{InstanceID}-0-[j k]"] whose value is the EQUAL payload as a
    string. *)
Theorem honest_points_yield_equal (degree secret : Z) (rnd : Z -> Z -> Z)
    (sp : Poly.SymmetricPolynomial) (fj fk : Poly.Polynomial)
    (sj sk : IVSSService) (d : Z) (key : string) (instj : IVSSInstance) :
  0 < Prime ->
  (forall l, rangeOrder l ≡ₚ l) ->
  Poly.NewRandomSymmetricPolynomial degree secret rnd = Some sp ->
  Poly.GetUnivariatePolynomial Prime sp (id sj) = Some fj ->
  Poly.GetUnivariatePolynomial Prime sp (id sk) = Some fk ->
  instances sk !! key = None ->
  1 <= id sj <= n sk ->
  instances sj !! key = Some instj ->
  receivedPoly instj = Some fj ->
  exists sk' bck m,
    onMessage sk (share_msg d (id sk) key fk) = Some (sk', bck, [])
    /\ m ∈ bck /\ To m = id sj /\ From m = id sk
    /\ (let payload :=
          {| pl_InstanceID := inst_id instj; pl_Type := Payload_Equal;
             EqualPair := (id sj, id sk); pl_MSet := None;
             RevealPoly := None; RevealSender := 0 |} in
        onMessage sj m
        = Some (sj,
                [{| msg_Type := IVSS_ACast; DirectType := 0; To := 0; From := 0;
                    msg_InstanceID := ""; msg_Poly := None; Point := None;
                    PointIdx := 0;
                    ACastMsg :=
                      Some {| ACast.Type_ := ACast.MSG;
                              ACast.UUID := inst_id instj +:+ "-0-[" +:+ pretty (id sj)
                              +:+ " " +:+ pretty (id sk) +:+ "]";
                              ACast.Val := payloadString payload;
                              ACast.From := id sj |} |}],
                [])).
Proof.
  intros Hpos Hperm Hsp Hfj Hfk Hnone Hrange Hinst Hpoly.
  rewrite (GetUnivariatePolynomial_value Prime Hpos degree secret rnd sp Hsp)
    in Hfj, Hfk.
  injection Hfj as <-. injection Hfk as <-.
  eexists _, _,
    (point_msg (id sk) (id sj) key
       (Some (Poly.Evaluate Prime
                (Poly.mkPoly (slice_coeffs Prime degree secret rnd (id sk)))
                (id sj)))).
  split_and!.
  - by apply share_handled.
  - apply list_elem_of_fmap. exists (id sj). split; [done|].
    apply elem_of_seqZ. lia.
  - done.
  - done.
  - unfold OnMessage. direct_fields.
    rewrite bool_decide_eq_false_2 by done.
    rewrite bool_decide_eq_false_2 by tauto.
    unfold getInstance.
    rewrite Hinst. cbn [Direct_Point]. rewrite Hpoly.
    unfold processPoint. rewrite Hpoly. cbn [mbind option_bind].
    rewrite !(slice_value Prime Hpos degree secret rnd sp Hsp).
    rewrite bivalue_comm.
    rewrite bool_decide_eq_true_2 by done. reflexivity.
Qed.

(** A point that arrives before the share is buffered and checked when
    the share arrives: for a node without state for the instance,
    handling the point first and the share second ends in the same
    state, with the same broadcasts in the same order, as handling the
    share first and the point second.  (A point message without a value
    makes the handler panic in either order.) *)
Theorem early_point_is_buffered (s : IVSSService) (d k : Z) (key : string)
    (f : Poly.Polynomial) (pt : option Z) :
  (forall l, rangeOrder l ≡ₚ l) ->
  instances s !! key = None ->
  handle2 s (point_msg k (id s) key pt) (share_msg d (id s) key f)
  = handle2 s (share_msg d (id s) key f) (point_msg k (id s) key pt)
  /\ (pt = None ->
      handle2 s (share_msg d (id s) key f) (point_msg k (id s) key pt)
      = None).
Proof.
  intros Hperm Hnone.
  assert (Hsp : handle2 s (share_msg d (id s) key f)
                  (point_msg k (id s) key pt)
                = bc ← processPoint payloadString Prime
                       (with_instances s
                          (<[key := with_share (NewIVSSInstance key d)
                                      (Some f) d]> (instances s)))
                       (with_share (NewIVSSInstance key d) (Some f) d) k pt;
                  Some (with_instances s
                          (<[key := with_share (NewIVSSInstance key d)
                                      (Some f) d]> (instances s)),
                        ((fun j => point_msg (id s) j key
                                     (Some (Poly.Evaluate Prime f j)))
                         <$> seqZ 1 (n s)) ++ bc, [])).
  { unfold handle2. rewrite share_handled by done.
    cbn [mbind option_bind].
    unfold OnMessage. direct_fields.
    rewrite bool_decide_eq_false_2 by done.
    cbn [id with_instances]. rewrite bool_decide_eq_false_2 by tauto.
    unfold getInstance.
    cbn [instances with_instances]. rewrite lookup_insert_eq.
    cbn [Direct_Point receivedPoly with_share].
    destruct (processPoint _ _ _ _ _ _) as [bc|]; reflexivity. }
  split.
  2:{ intros ->. rewrite Hsp. reflexivity. }
  rewrite Hsp. clear Hsp.
  unfold handle2. rewrite point_buffered by done.
  cbn [mbind option_bind].
  unfold OnMessage. direct_fields.
  rewrite bool_decide_eq_false_2 by done.
  cbn [id with_instances].
  rewrite bool_decide_eq_false_2 by tauto.
  unfold getInstance.
  cbn [instances with_instances]. rewrite lookup_insert_eq.
  cbn [Direct_Share n id with_instances]. rewrite points_sent.
  cbn [mbind option_bind with_share with_earlyPoints earlyPoints].
  rewrite dom_singleton_L, elements_singleton, range_of_singleton by done.
  cbn [mapM]. rewrite lookup_singleton_eq. cbn [default Datatypes.id].
  unfold processPoint.
  cbn [receivedPoly with_share with_earlyPoints NewIVSSInstance
       mbind option_bind].
  destruct pt as [p0|]; [|reflexivity].
  cbn [mbind option_bind]. unfold store. cbn [instances with_instances].
  rewrite !insert_insert_eq.
  unfold startACast, equal_payload.
  cbn [id with_instances inst_id with_share with_earlyPoints NewIVSSInstance].
  case_bool_decide; cbn [mbind option_bind mret option_ret fmap option_fmap
                         option_map concat];
    rewrite ?app_nil_r; reflexivity.
Qed.
End PointExchange.

(** [F(x, y) = 42 + 5x + 5y + 3xy] over the field of 97 elements; node 3
    ([n = 4], [t = 1]) has no state for instance ["I"] and node 2 holds
    its slice [52 + 11y]. *)
Definition exchange_example_poly : Poly.SymmetricPolynomial :=
  Poly.mkSym [[42; 5]; [5; 3]]%Z 1.

Definition exchange_example_node3 : IVSS.IVSSService :=
  IVSS.NewIVSSService 3 4 1 Cert.NewCertificationProtocol.

Definition exchange_example_inst2 : IVSS.IVSSInstance :=
  IVSS.with_share (IVSS.NewIVSSInstance "I" 1)
    (Some (Poly.mkPoly [52; 11]%Z)) 1.

Definition exchange_example_node2 : IVSS.IVSSService :=
  IVSS.with_instances
    (IVSS.NewIVSSService 2 4 1 Cert.NewCertificationProtocol)
    {["I" := exchange_example_inst2]}.

(** A codec that writes the instance, the type, the pair and the sender
    of a payload, and the A-Cast MSG with a given uuid, value and
    sender. *)
Definition exchange_example_string (p : IVSS.IVSSPayload) : string :=
  IVSS.pl_InstanceID p +:+ ":" +:+ pretty (IVSS.pl_Type p) +:+ ":"
  +:+ pretty (IVSS.EqualPair p).1 +:+ "," +:+ pretty (IVSS.EqualPair p).2
  +:+ ":" +:+ pretty (IVSS.RevealSender p).

Definition exchange_example_acast (uuid val : string) (from : Z)
    : IVSS.IVSSMessage :=
  IVSS.mkMessage IVSS.IVSS_ACast 0%Z 0%Z 0%Z "" None None 0%Z
    (Some (ACast.mkMsg ACast.MSG uuid val from)).

Lemma honest_points_yield_equal_witness :
  exists m,
    IVSS.To m = 2%Z /\ IVSS.From m = 3%Z
    /\ IVSS.OnMessage exchange_example_string (fun _ => None) (fun l => l)
         97 IVSS.Incremental exchange_example_node2 m
       = Some (exchange_example_node2,
               [exchange_example_acast "I-0-[2 3]" "I:0:2,3:0" 2],
               []).
Proof.
  destruct (honest_points_yield_equal exchange_example_string
              (fun _ => None)
              (fun l => l) 97 IVSS.Incremental 1 42
              (fun i j => if bool_decide (j = 0)%Z then 5 else 3)%Z
              exchange_example_poly
              (Poly.mkPoly [52; 11]%Z) (Poly.mkPoly [57; 14]%Z)
              exchange_example_node2 exchange_example_node3 1 "I"
              exchange_example_inst2)
    as (sk' & bck & m & _ & _ & Hto & Hfrom & Hon).
  - lia.
  - reflexivity.
  - reflexivity.
  - vm_compute. reflexivity.
  - vm_compute. reflexivity.
  - vm_compute. reflexivity.
  - simpl. lia.
  - vm_compute. reflexivity.
  - reflexivity.
  - exists m. split_and!; [exact Hto|exact Hfrom|exact Hon].
Defined.

Lemma early_point_is_buffered_witness :
  handle2 (fun _ => "") (fun _ => None) (fun l => l) 97 IVSS.Incremental
    exchange_example_node3
    (point_msg 2 3 "I" (Some 85%Z))
    (share_msg 1 3 "I" (Poly.mkPoly [57; 14]%Z))
  = handle2 (fun _ => "") (fun _ => None) (fun l => l) 97 IVSS.Incremental
      exchange_example_node3
      (share_msg 1 3 "I" (Poly.mkPoly [57; 14]%Z))
      (point_msg 2 3 "I" (Some 85%Z)).
Proof.
  destruct (early_point_is_buffered (fun _ => "") (fun _ => None)
              (fun l => l) 97 IVSS.Incremental exchange_example_node3
              1 2 "I" (Poly.mkPoly [57; 14]%Z) (Some 85%Z)) as [Heq _].
  - reflexivity.
  - vm_compute. reflexivity.
  - exact Heq.
Defined.

(** ** IVSS: the shares of the dealer *)

Section Shares.
Import IVSS.
Local Open Scope Z_scope.
Variable Prime : Z.

(** [StartSharing] panics when [t] is negative.  Otherwise it broadcasts
    exactly [n] messages, the [k]-th being the share for node [k]: a
    direct message from the dealer that carries the slice [F(k, y)] of
    one symmetric polynomial [F] with [F(0, 0)] the secret; every slice
    has [t + 1] coefficients. *)
Theorem StartSharing_sends_slices (s : IVSSService) (key : string)
    (secret : Z) (rnd : Z -> Z -> Z) :
  0 < Prime ->
  (t s < 0 -> StartSharing Prime s key secret rnd = None)
  /\ (0 <= t s ->
      exists sp msgs,
        Poly.NewRandomSymmetricPolynomial (t s) secret rnd = Some sp
        /\ StartSharing Prime s key secret rnd = Some msgs
        /\ length msgs = Z.to_nat (n s)
        /\ forall k, 1 <= k <= n s ->
             exists fk,
               Poly.GetUnivariatePolynomial Prime sp k = Some fk
               /\ length (Poly.Coeffs fk) = Z.to_nat (t s + 1)
               /\ msgs !! Z.to_nat (k - 1)
                  = Some (share_msg (id s) k key fk)).
Proof.
  intros Hpos. unfold StartSharing. split.
  - intros Hneg. unfold Poly.NewRandomSymmetricPolynomial.
    by rewrite bool_decide_eq_true_2.
  - intros Hnn.
    destruct (Poly.NewRandomSymmetricPolynomial (t s) secret rnd)
      as [sp|] eqn:Hsp.
    2:{ revert Hsp. unfold Poly.NewRandomSymmetricPolynomial.
        by rewrite bool_decide_eq_false_2 by lia. }
    exists sp. eexists. split; [done|]. cbn [mbind option_bind].
    split_and!.
    + apply (mapM_Some_fmap _
        (fun k => share_msg (id s) k key
                    (Poly.mkPoly (slice_coeffs Prime (t s) secret rnd k)))).
      intros k _.
      by rewrite (GetUnivariatePolynomial_value Prime Hpos (t s) secret rnd
                    sp Hsp).
    + rewrite length_fmap, length_seqZ. done.
    + intros k Hk. eexists. split_and!.
      * by apply (GetUnivariatePolynomial_value Prime Hpos (t s) secret rnd).
      * simpl. unfold slice_coeffs. by rewrite length_fmap, length_seqZ.
      * rewrite list_lookup_fmap, lookup_seqZ_lt by lia. simpl.
        rewrite Z2Nat.id by lia. by replace (1 + (k - 1)) with k by lia.
Qed.
End Shares.

Lemma StartSharing_sends_slices_witness :
  exists msgs,
    IVSS.StartSharing 97 exchange_example_node3 "I" 42
      (fun i j => if bool_decide (j = 0)%Z then 5 else 3)%Z = Some msgs
    /\ msgs !! 1%nat
       = Some (share_msg 3 2 "I" (Poly.mkPoly [52; 11]%Z)).
Proof.
  destruct (StartSharing_sends_slices 97 exchange_example_node3 "I" 42
              (fun i j => if bool_decide (j = 0)%Z then 5 else 3)%Z)
    as [_ Hok]; [lia|].
  destruct Hok as (sp & msgs & Hsp & Hstart & _ & Hk); [simpl; lia|].
  exists msgs. split; [exact Hstart|].
  destruct (Hk 2%Z) as (fk & Hfk & _ & Hmsg); [simpl; lia|].
  injection Hsp as <-.
  assert (Hf : fk = Poly.mkPoly [52; 11]%Z).
  { revert Hfk. vm_compute. congruence. }
  rewrite <- Hf. exact Hmsg.
Defined.

(** ** IVSS: reconstruction from honest reveals *)

Section HonestReconstruction.
Import IVSS.
Local Open Scope Z_scope.
Variable payloadString : IVSSPayload -> string.
Variable rangeOrder : list Z -> list Z.
Variable Prime : Z.
Variable degree secret : Z.
Variable rnd : Z -> Z -> Z.
Variable sp : Poly.SymmetricPolynomial.
Hypothesis Prime_prime : Z.prime Prime.
Hypothesis rangeOrder_perm : forall l, rangeOrder l ≡ₚ l.
Hypothesis sp_new :
  Poly.NewRandomSymmetricPolynomial degree secret rnd = Some sp.

(** The slice [F(k, y)] that the dealer hands to node [k]. *)
Definition slice (k : Z) : Poly.Polynomial :=
  Poly.mkPoly (slice_coeffs Prime degree secret rnd k).

(** Node [k] has revealed the slice it was dealt. *)
Definition revealed (inst : IVSSInstance) (k : Z) : Prop :=
  reconstructedPolys inst !! k = Some (Some (slice k)).

Lemma Prime_pos : 0 < Prime.
Proof. pose proof (Z.prime_ge_2 _ Prime_prime). lia. Qed.

Lemma isConsistent_honest inst u v :
  revealed inst u -> revealed inst v ->
  isConsistent Prime inst u v = Some true.
Proof.
  unfold isConsistent, revealed. intros -> ->. simpl. unfold slice.
  rewrite !(slice_value Prime Prime_pos degree secret rnd sp sp_new).
  rewrite bivalue_comm. by rewrite bool_decide_eq_true_2.
Qed.

Lemma snd_imap_pair {A : Type} (l : list A) : (imap pair l).*2 = l.
Proof.
  apply list_eq. intros i. rewrite list_lookup_fmap, list_lookup_imap.
  by destruct (l !! i).
Qed.

Lemma elem_of_imap_pair_inv {A : Type} (l : list A) (i : nat) (x : A) :
  (i, x) ∈ imap pair l -> l !! i = Some x.
Proof.
  intros (j & Hj)%list_elem_of_lookup. rewrite list_lookup_imap in Hj.
  destruct (l !! j) as [y|] eqn:E; simpl in Hj; [|done].
  by injection Hj as <- <-.
Qed.

(** *** The incremental revision *)

Lemma first_conflict_honest inst candidate validSet :
  revealed inst candidate -> Forall (revealed inst) validSet ->
  first_conflict Prime inst candidate validSet = Some None.
Proof.
  intros Hc. induction 1 as [|v l Hv Hl IH]; simpl; [done|].
  by rewrite isConsistent_honest.
Qed.

Lemma interp_loop_honest inst c candidates : forall validSet,
  Forall (revealed inst) validSet -> Forall (revealed inst) candidates ->
  foldlM (interp_step Prime inst) (c, validSet) candidates
  = Some (c, validSet ++ candidates).
Proof.
  induction candidates as [|k rest IH]; intros validSet Hv Hc; simpl.
  - by rewrite app_nil_r.
  - apply Forall_cons in Hc as [Hk Hrest].
    unfold interp_step at 2. cbn [fst snd].
    rewrite first_conflict_honest by done. cbn [mbind option_bind].
    rewrite IH; [by rewrite <- app_assoc| |done].
    apply Forall_app. split; [done|]. by apply Forall_singleton.
Qed.

(** *** The backtracking revision *)

(** The row of the adjacency map for the candidate at index [i]. *)
Definition full_row (candidates : list Z) (i : nat) : gset Z :=
  list_to_set (filter (fun jv : nat * Z => i <> jv.1)
                 (imap pair candidates)).*2.

Lemma adj_row_loop inst (i : nat) (u : Z) c (l : list (nat * Z)) :
  forall acc : gset Z,
  revealed inst u -> Forall (fun jv => revealed inst jv.2) l ->
  foldlM (fun (acc : Cert.CertificationProtocol * gset Z) (jv : nat * Z) =>
      if decide (i = jv.1) then Some acc
      else
        match isConsistent Prime inst u jv.2 with
        | None => None
        | Some true => Some (acc.1, {[jv.2]} ∪ acc.2)
        | Some false => Some (Cert.AddFaultyPair acc.1 u jv.2, acc.2)
        end)
    (c, acc) l
  = Some (c, list_to_set (filter (fun jv : nat * Z => i <> jv.1) l).*2
             ∪ acc).
Proof.
  intros acc Hu Hl. revert acc.
  induction Hl as [|jv l Hjv Hl IH]; intros acc.
  - simpl. by rewrite (left_id_L ∅ (∪)).
  - cbn [foldlM]. rewrite filter_cons.
    destruct (decide (i = jv.1)) as [Hi|Hi].
    + rewrite decide_False by tauto. cbn [mbind option_bind].
      by rewrite IH.
    + rewrite decide_True by done.
      rewrite isConsistent_honest by done. cbn [mbind option_bind fst snd].
      rewrite IH. f_equal. f_equal. rewrite fmap_cons, list_to_set_cons.
      rewrite (assoc_L (∪)). f_equal. apply (comm_L (∪)).
Qed.

Lemma adj_row_honest inst candidates (i : nat) (u : Z) c :
  revealed inst u -> Forall (revealed inst) candidates ->
  interp_adj_row Prime inst candidates i u c
  = Some (c, full_row candidates i).
Proof.
  intros Hu Hc. unfold interp_adj_row. rewrite adj_row_loop; [|done|].
  - unfold full_row. by rewrite (right_id_L ∅ (∪)).
  - apply Forall_forall. intros [j v] Hjv%elem_of_imap_pair_inv.
    rewrite Forall_forall in Hc. apply Hc.
    by eapply list_elem_of_lookup_2.
Qed.

Lemma adj_loop inst candidates c (l : list (nat * Z)) :
  Forall (revealed inst) candidates ->
  Forall (fun iu => revealed inst iu.2) l -> NoDup l.*2 ->
  forall accm : gmap Z (gset Z),
  exists adjm,
    foldlM (fun (acc : Cert.CertificationProtocol * gmap Z (gset Z))
                (iu : nat * Z) =>
        '(c', row) ← interp_adj_row Prime inst candidates iu.1 iu.2 acc.1;
        Some (c', <[iu.2 := row]> acc.2))
      (c, accm) l
    = Some (c, adjm)
    /\ (forall w, w ∉ l.*2 -> adjm !! w = accm !! w)
    /\ (forall iu, iu ∈ l ->
          adjm !! iu.2 = Some (full_row candidates iu.1)).
Proof.
  intros Hc Hl. induction Hl as [|iu l Hiu Hl IH]; intros Hnd accm.
  - exists accm. split_and!; [done|done|]. by intros iu ?%elem_of_nil.
  - rewrite fmap_cons in Hnd. apply NoDup_cons in Hnd as [Hnot Hnd].
    cbn [foldlM fst snd]. rewrite adj_row_honest by done.
    cbn [mbind option_bind].
    destruct (IH Hnd (<[iu.2 := full_row candidates iu.1]> accm))
      as (adjm & -> & Hout & Hin).
    exists adjm. split_and!; [done| |].
    + intros w Hw. rewrite fmap_cons in Hw.
      apply not_elem_of_cons in Hw as [Hne Hw].
      rewrite Hout by done. by rewrite lookup_insert_ne.
    + intros iu' [->|Hin']%elem_of_cons; [|by apply Hin].
      rewrite Hout by done. by rewrite lookup_insert_eq.
Qed.

Lemma adj_honest inst candidates c :
  Forall (revealed inst) candidates -> NoDup candidates ->
  exists adjm,
    interp_adj Prime inst candidates c = Some (c, adjm)
    /\ forall u v, u ∈ candidates -> v ∈ candidates -> u <> v ->
         linked adjm v u.
Proof.
  intros Hc Hnd.
  destruct (adj_loop inst candidates c (imap pair candidates) Hc)
    with (accm := (∅ : gmap Z (gset Z))) as (adjm & Heq & _ & Hin).
  { apply Forall_forall. intros [j v] Hjv%elem_of_imap_pair_inv.
    rewrite Forall_forall in Hc. apply Hc.
    by eapply list_elem_of_lookup_2. }
  { by rewrite snd_imap_pair. }
  exists adjm. split; [exact Heq|].
  intros u v (a & Ha)%list_elem_of_lookup (b & Hb)%list_elem_of_lookup Hne.
  unfold linked.
  pose proof (Hin (b, v) (elem_of_imap_pair _ _ _ Hb)) as Hrow.
  simpl in Hrow. rewrite Hrow. simpl. unfold full_row. apply elem_of_list_to_set, list_elem_of_fmap.
  exists (a, u). split; [done|]. apply list_elem_of_filter. split.
  - simpl. intros <-. congruence.
  - by apply elem_of_imap_pair.
Qed.

Lemma clique_all_linked adjm c :
  NoDup c ->
  (forall u v, u ∈ c -> v ∈ c -> u <> v -> linked adjm v u) ->
  clique adjm c.
Proof.
  induction c as [|u rest IH]; simpl; [done|].
  intros [Hnot Hnd]%NoDup_cons Hall. split.
  - apply Forall_forall. intros v Hv. apply Hall.
    + by left.
    + by right.
    + intros ->. done.
  - apply IH; [done|]. intros x y Hx Hy. apply Hall; by right.
Qed.

(** *** Both revisions *)

Lemma interpolationSet_honest revision s inst candidates target :
  Forall (revealed inst) candidates -> NoDup candidates ->
  GoInt.sub (n s) (GoInt.mul 2 (t s)) = target -> 0 < target ->
  target <= Z.of_nat (length candidates) ->
  exists validSet,
    interpolationSet Prime revision s inst candidates
    = Some (cp s, Some validSet)
    /\ sublist validSet candidates
    /\ target <= Z.of_nat (length validSet).
Proof.
  intros Hc Hnd Ht Hpos Hlen. unfold interpolationSet. rewrite Ht.
  rewrite bool_decide_eq_false_2 by lia. destruct revision.
  - destruct (adj_honest inst candidates (cp s) Hc Hnd) as (adjm & -> & Hl).
    cbn [mbind option_bind]. unfold findClique.
    destruct (search_returns target adjm candidates []) as [r Hr];
      [simpl; lia|].
    rewrite Hr. cbn [mbind option_bind]. destruct r as [validSet|].
    + apply search_sound in Hr as (ext & -> & Hsub & _ & Hk).
      exists ext. simpl in *. split_and!; [done|done|lia].
    + exfalso.
      apply (search_complete _ _ _ _ Hr
               (take (Z.to_nat target) candidates)).
      * apply sublist_take.
      * apply extends_clique. split; [apply Forall_forall; by constructor|].
        apply clique_all_linked.
        -- eapply sublist_NoDup; [exact Hnd|apply sublist_take].
        -- intros u v Hu Hv.
           eapply elem_of_sublist in Hu; [|apply sublist_take].
           eapply elem_of_sublist in Hv; [|apply sublist_take].
           by apply Hl.
      * simpl. rewrite length_take. lia.
  - rewrite interp_loop_honest by done. cbn [mbind option_bind app].
    unfold GoInt.len. rewrite bool_decide_eq_true_2 by lia.
    exists candidates. split_and!; [done|done|lia].
Qed.

(** When every polynomial revealed so far is the slice the dealer dealt
    to its sender, and at least [n - 2t] members of the MSET have
    revealed, [checkInterpolationSet] (in both revisions) recovers the
    dealer's secret reduced modulo the prime, stores it, flags no pair,
    and broadcasts the A-Cast of READY: the MSG from the node with uuid
    ["{InstanceID}-READY-{id}"] whose value is the READY payload, with
    the node as [RevealSender], as a string.  The dealer's polynomial has
    degree [t], the node ids lie in the field, and [n >= 3t + 1]. *)
Theorem honest_reveals_reconstruct (revision : Revision)
    (s : IVSSService) (inst : IVSSInstance) (m : list Z) :
  degree = t s ->
  mSet inst = Some m ->
  (forall k o, reconstructedPolys inst !! k = Some o ->
     0 <= k < Prime /\ o = Poly.GetUnivariatePolynomial Prime sp k) ->
  GoInt.in_range (2 * t s) -> GoInt.in_range (n s - 2 * t s) ->
  t s + 1 <= n s - 2 * t s ->
  n s - 2 * t s
  <= Z.of_nat (length (filter (fun k => k ∈ m)
                         (elements (dom (reconstructedPolys inst))))) ->
  checkInterpolationSet payloadString rangeOrder Prime revision s inst
  = Some (cp s, with_secret inst (Some (secret mod Prime)),
          [{| msg_Type := IVSS_ACast; DirectType := 0; To := 0; From := 0;
              msg_InstanceID := ""; msg_Poly := None; Point := None;
              PointIdx := 0;
              ACastMsg :=
                Some {| ACast.Type_ := ACast.MSG;
                        ACast.UUID := inst_id inst +:+ "-READY-" +:+ pretty (id s);
                        ACast.Val := payloadString
                  {| pl_InstanceID := inst_id inst;
                     pl_Type := Payload_Ready; EqualPair := (0, 0);
                     pl_MSet := None; RevealPoly := None;
                     RevealSender := id s |};
                        ACast.From := id s |} |}]).
Proof.
  intros Hdeg Hm Hhonest Hr2 Hr Hn Hlen.
  pose proof Prime_pos as Hpos.
  pose proof (degree_nonneg degree secret rnd sp sp_new) as Hd.
  unfold checkInterpolationSet. rewrite Hm.
  set (candidates := filter (fun k => k ∈ m)
                       (rangeOrder (elements (dom (reconstructedPolys inst))))).
  assert (Hcl : length candidates
                = length (filter (fun k => k ∈ m)
                            (elements (dom (reconstructedPolys inst)))))
    by (unfold candidates; by rewrite rangeOrder_perm).
  assert (Ht : GoInt.sub (n s) (GoInt.mul 2 (t s)) = n s - 2 * t s).
  { rewrite mul_small by done. by rewrite sub_small. }
  assert (Hrev : forall k, k ∈ dom (reconstructedPolys inst) ->
                   revealed inst k /\ 0 <= k < Prime).
  { intros k [o Ho]%elem_of_dom. destruct (Hhonest k o Ho) as [Hk ->].
    split; [|done]. unfold revealed. rewrite Ho.
    by rewrite (GetUnivariatePolynomial_value Prime Hpos degree secret rnd
                  sp sp_new). }
  assert (Hcands : forall k, k ∈ candidates ->
                     revealed inst k /\ 0 <= k < Prime).
  { intros k Hk. apply Hrev. unfold candidates in Hk.
    apply list_elem_of_filter in Hk as [_ Hk].
    rewrite rangeOrder_perm in Hk. by apply elem_of_elements in Hk. }
  assert (Hnd : NoDup candidates).
  { unfold candidates. apply NoDup_filter. rewrite rangeOrder_perm.
    apply NoDup_elements. }
  rewrite Ht. unfold GoInt.len.
  rewrite bool_decide_eq_false_2 by lia.
  destruct (interpolationSet_honest revision s inst candidates
              (n s - 2 * t s)) as (validSet & -> & Hsub & Hvl);
    [apply Forall_forall; intros k Hk; by apply Hcands|done|done|lia|lia|].
  cbn [mbind option_bind].
  assert (Hvs : forall k, k ∈ validSet -> revealed inst k /\ 0 <= k < Prime).
  { intros k Hk. apply Hcands. by eapply elem_of_sublist. }
  rewrite (mapM_Some_fmap _ (fun k => Poly.Evaluate Prime (slice k) 0)).
  2:{ intros k Hk. destruct (Hvs k Hk) as [Hk' _].
      unfold revealed in Hk'. by rewrite Hk'. }
  cbn [mbind option_bind]. unfold slice.
  rewrite (interpolate_slice_values Prime degree secret rnd sp validSet);
    [done|done|done| | |lia].
  - eapply sublist_NoDup; [exact Hnd|exact Hsub].
  - apply Forall_forall. intros k Hk. by apply Hvs.
Qed.
End HonestReconstruction.

(** Node 1 ([n = 4], [t = 1]) with the MSET [[1; 2; 3; 4]] and the
    slices of 2 and 3 (of [F(x, y) = 42 + 5x + 5y + 3xy], field of 97
    elements) revealed. *)
Definition honest_example_inst : IVSS.IVSSInstance :=
  IVSS.with_reconstructedPolys
    (IVSS.with_sharing (IVSS.NewIVSSInstance "I" 1)
       (Some [1; 2; 3; 4]%Z) None true)
    (<[2%Z := Some (Poly.mkPoly [52; 11]%Z)]>
       {[3%Z := Some (Poly.mkPoly [57; 14]%Z)]}).

Lemma honest_reveals_reconstruct_witness :
  IVSS.checkInterpolationSet exchange_example_string (fun l => l) 97
    IVSS.Backtracking candidate_example_service honest_example_inst
  = Some (Cert.NewCertificationProtocol,
          IVSS.with_secret honest_example_inst (Some 42%Z),
          [exchange_example_acast "I-READY-1" "I:3:0,0:1" 1]).
Proof.
  eapply (honest_reveals_reconstruct exchange_example_string (fun l => l)
            97 1 42
            (fun i j => if bool_decide (j = 0)%Z then 5 else 3)%Z
            exchange_example_poly).
  - exact (prime_small_sound 97 eq_refl).
  - reflexivity.
  - reflexivity.
  - reflexivity.
  - reflexivity.
  - intros k o Hk. simpl in Hk.
    apply lookup_insert_Some in Hk as [[<- <-]|[_ Hk]].
    { split; [lia|vm_compute; reflexivity]. }
    apply lookup_singleton_Some in Hk as [<- <-].
    split; [lia|vm_compute; reflexivity].
  - unfold GoInt.in_range. simpl. lia.
  - unfold GoInt.in_range. simpl. lia.
  - simpl. lia.
  - vm_compute. discriminate.
Defined.

(** ** IVSS: an MSET that arrives before its EQUALs *)

Section PendingMSet.
Import IVSS.
Local Open Scope Z_scope.
Variable payloadString : IVSSPayload -> string.
Variable ParseIVSSPayload : string -> option IVSSPayload.
Variable rangeOrder : list Z -> list Z.
Variable Prime : Z.
Variable revision : Revision.

Local Abbreviation delivered :=
  (OnACastDelivered payloadString ParseIVSSPayload rangeOrder Prime revision).

Lemma pairs_ok_ext s s' inst inst' l :
  cp s = cp s' -> completedEquals inst = completedEquals inst' ->
  pairs_ok s inst l = pairs_ok s' inst' l.
Proof.
  intros Hc He. induction l as [|u rest IH]; simpl; [done|].
  by rewrite Hc, He, IH.
Qed.

Lemma verifyMSet_ext s s' inst inst' m :
  n s = n s' -> t s = t s' -> cp s = cp s' ->
  completedEquals inst = completedEquals inst' ->
  verifyMSet s inst m = verifyMSet s' inst' m.
Proof.
  intros Hn Ht Hc He. unfold verifyMSet.
  by rewrite Hn, Ht, (pairs_ok_ext s s' inst inst' _ Hc He).
Qed.

(** Two A-Cast deliveries handled one after the other. *)
Definition deliver2 (s : IVSSService) (v1 v2 : string)
    : option (IVSSService * list IVSSMessage * list IVSSResult) :=
  '(s1, bc1, rs1) ← delivered s v1;
  '(s2, bc2, rs2) ← delivered s1 v2;
  Some (s2, bc1 ++ bc2, rs1 ++ rs2).

(** An MSET that does not verify yet is kept in [pendingMSet] and
    verified again at the next EQUAL: when the EQUAL that was missing is
    delivered after the MSET, sharing completes with the same final
    state, the same broadcasts and the same SHARING_COMPLETE result as
    when it is delivered before the MSET. *)
Theorem pending_mset_is_retried (s : IVSSService) (inst : IVSSInstance)
    (key vE vM : string) (pe pm : IVSSPayload) (m : list Z) :
  ParseIVSSPayload vE = Some pe ->
  pl_Type pe = Payload_Equal -> pl_InstanceID pe = key ->
  ParseIVSSPayload vM = Some pm ->
  pl_Type pm = Payload_MSet -> pl_InstanceID pm = key ->
  pl_MSet pm = Some m ->
  instances s !! key = Some inst ->
  sharingCompleted inst = false -> pendingMSet inst = None ->
  verifyMSet s inst (Some m) = false ->
  verifyMSet s
    (with_completedEquals inst ({[EqualPair pe]} ∪ completedEquals inst))
    (Some m) = true ->
  deliver2 s vM vE = deliver2 s vE vM
  /\ (deliver2 s vE vM = None
      \/ exists s' bc,
           deliver2 s vE vM
           = Some (s', bc,
                   [{| res_InstanceID := inst_id inst;
                       res_Type := "SHARING_COMPLETE";
                       res_Secret := None; res_MSet := Some m;
                       res_Poly := receivedPoly inst |}])
           /\ instances s' !! key
              = Some (with_sharing
                        (with_completedEquals inst
                           ({[EqualPair pe]} ∪ completedEquals inst))
                        (Some m) None true)).
Proof.
  intros HpE HtE HkE HpM HtM HkM Hm Hinst Hsc Hpend Hbefore Hafter.
  set (inst1 := with_completedEquals inst
                  ({[EqualPair pe]} ∪ completedEquals inst)) in *.
  set (inst2 := with_sharing inst1 (Some m) None true).
  assert (HE : forall s0 i0, instances s0 !! key = Some i0 ->
            delivered s0 vE
            = let i1 := with_completedEquals i0
                          ({[EqualPair pe]} ∪ completedEquals i0) in
              bc ← checkCandidateSet payloadString revision s0 i1;
              if bool_decide (pendingMSet i1 <> None)
                 && negb (sharingCompleted i1)
                 && verifyMSet s0 i1 (pendingMSet i1)
              then Some (store s0 key
                           (with_sharing i1 (pendingMSet i1) None true), bc,
                         [sharing_result
                            (with_sharing i1 (pendingMSet i1) None true)])
              else Some (store s0 key i1, bc, [])).
  { intros s0 i0 Hi0. unfold OnACastDelivered. rewrite HpE. cbv zeta.
    rewrite HtE, HkE. unfold getInstance. rewrite Hi0. reflexivity. }
  assert (HM : forall s0 i0, instances s0 !! key = Some i0 ->
            delivered s0 vM
            = let i1 := with_sharing i0 (mSet i0) (Some m)
                          (sharingCompleted i0) in
              if verifyMSet s0 i1 (Some m)
              then Some (store s0 key (with_sharing i1 (Some m) None true),
                         [], [sharing_result
                                (with_sharing i1 (Some m) None true)])
              else Some (store s0 key i1, [], [])).
  { intros s0 i0 Hi0. unfold OnACastDelivered. rewrite HpM. cbv zeta.
    rewrite HtM, HkM, Hm. unfold getInstance. rewrite Hi0. reflexivity. }
  assert (HA : deliver2 s vE vM
               = bc ← checkCandidateSet payloadString revision s inst1;
                 Some (store s key inst2, bc, [sharing_result inst2])).
  { unfold deliver2. rewrite (HE s inst Hinst). cbv zeta. fold inst1.
    destruct (checkCandidateSet payloadString revision s inst1) as [bc|];
      [|reflexivity].
    cbn [mbind option_bind].
    rewrite (bool_decide_eq_false_2 (pendingMSet inst1 <> None))
      by (intros Hne; by apply Hne).
    cbn [andb mbind option_bind].
    rewrite (HM (store s key inst1) inst1)
      by (unfold store; cbn [instances with_instances];
          apply lookup_insert_eq).
    cbv zeta.
    rewrite (verifyMSet_ext (store s key inst1) s _ inst1 (Some m))
      by reflexivity.
    rewrite Hafter. cbn [mbind option_bind].
    unfold store. cbn [instances with_instances].
    rewrite insert_insert_eq, !app_nil_r. reflexivity. }
  assert (HB : deliver2 s vM vE
               = bc ← checkCandidateSet payloadString revision s inst1;
                 Some (store s key inst2, bc, [sharing_result inst2])).
  { unfold deliver2. rewrite (HM s inst Hinst). cbv zeta.
    rewrite (verifyMSet_ext s s _ inst (Some m)) by reflexivity.
    rewrite Hbefore. cbn [mbind option_bind].
    rewrite (HE (store s key (with_sharing inst (mSet inst) (Some m)
                                (sharingCompleted inst)))
               (with_sharing inst (mSet inst) (Some m)
                  (sharingCompleted inst)))
      by (unfold store; cbn [instances with_instances];
          apply lookup_insert_eq).
    cbv zeta.
    change (checkCandidateSet payloadString revision _ _)
      with (checkCandidateSet payloadString revision s inst1).
    destruct (checkCandidateSet payloadString revision s inst1) as [bc|];
      [|reflexivity].
    cbn [mbind option_bind pendingMSet with_completedEquals with_sharing
         sharingCompleted].
    rewrite Hsc.
    rewrite bool_decide_eq_true_2 by done. cbn [negb andb].
    rewrite (verifyMSet_ext _ s _ inst1 (Some m)) by reflexivity.
    rewrite Hafter. unfold store. cbn [instances with_instances].
    rewrite insert_insert_eq. reflexivity. }
  split; [by rewrite HA, HB|]. rewrite HA.
  destruct (checkCandidateSet payloadString revision s inst1) as [bc|];
    [right|by left].
  eexists _, _. split; [reflexivity|].
  unfold store. cbn [instances with_instances]. apply lookup_insert_eq.
Qed.
End PendingMSet.

(** Node 2 ([n = 4], [t = 1]) holds instance ["I"] with every EQUAL among
    2, 3 and 4 delivered except (4, 3). *)
Definition pending_example_inst : IVSS.IVSSInstance :=
  IVSS.with_completedEquals (IVSS.NewIVSSInstance "I" 1)
    (list_to_set [(2, 3); (3, 2); (2, 4); (4, 2); (3, 4)]%Z).

Definition pending_example_node : IVSS.IVSSService :=
  IVSS.with_instances
    (IVSS.NewIVSSService 2 4 1 Cert.NewCertificationProtocol)
    {["I" := pending_example_inst]}.

Definition pending_example_parse (v : string) : option IVSS.IVSSPayload :=
  if String.eqb v "E" then
    Some (IVSS.equal_payload pending_example_inst (4, 3)%Z)
  else if String.eqb v "M" then
    Some (IVSS.mset_payload pending_example_inst [2; 3; 4]%Z)
  else None.

Definition pending_example_deliver (v1 v2 : string) :=
  deliver2 (fun _ => "") pending_example_parse (fun l => l) 97
    IVSS.Incremental pending_example_node v1 v2.

Lemma pending_mset_is_retried_witness :
  pending_example_deliver "M" "E" = pending_example_deliver "E" "M"
  /\ exists s' bc,
       pending_example_deliver "E" "M"
       = Some (s', bc,
               [{| IVSS.res_InstanceID := "I";
                   IVSS.res_Type := "SHARING_COMPLETE";
                   IVSS.res_Secret := None;
                   IVSS.res_MSet := Some [2; 3; 4]%Z;
                   IVSS.res_Poly := None |}]).
Proof.
  destruct (pending_mset_is_retried (fun _ => "") pending_example_parse
              (fun l => l) 97 IVSS.Incremental pending_example_node
              pending_example_inst "I" "E" "M"
              (IVSS.equal_payload pending_example_inst (4, 3)%Z)
              (IVSS.mset_payload pending_example_inst [2; 3; 4]%Z)
              [2; 3; 4]%Z)
    as [Heq [Hnone|(s' & bc & Hres & _)]].
  1-12: try reflexivity; vm_compute; reflexivity.
  - split; [exact Heq|]. exfalso. revert Hnone. vm_compute. discriminate.
  - split; [exact Heq|]. exists s', bc. exact Hres.
Defined.

(** ** ABA: a decision has a quorum behind it *)

Section ABAQuorum.
Import ABA.
Local Open Scope Z_scope.
Variable payloadString : CompletePayload -> string.
Variable ParseCompletePayload : string -> option CompletePayload.
Variable uuidHash : string -> Z -> Z -> string.

Local Abbreviation handle :=
  (handleCompleteDelivery payloadString ParseCompletePayload uuidHash).
Local Abbreviation runAll :=
  (deliverAll payloadString ParseCompletePayload uuidHash).

(** The senders of the delivered COMPLETE payloads that carry [v]. *)
Definition complete_senders (v : Z) (vals : list (string * Z)) : gset Z :=
  list_to_set
    (Sender <$> filter (fun p => Value p = v)
                  (omap ParseCompletePayload vals.*1)).

Lemma complete_senders_cons_None v valStr now vals :
  ParseCompletePayload valStr = None ->
  complete_senders v ((valStr, now) :: vals) = complete_senders v vals.
Proof. intros Hp. unfold complete_senders. simpl. by rewrite Hp. Qed.

Lemma complete_senders_cons_Some v valStr now vals p :
  ParseCompletePayload valStr = Some p ->
  complete_senders v ((valStr, now) :: vals)
  = (if decide (Value p = v) then {[Sender p]} else ∅)
    ∪ complete_senders v vals.
Proof.
  intros Hp. unfold complete_senders. simpl. rewrite Hp. simpl.
  rewrite filter_cons. case_decide.
  - by rewrite fmap_cons, list_to_set_cons.
  - by rewrite (left_id_L ∅ (∪)).
Qed.

Lemma run_quorum vals : forall s,
  GoInt.in_range (t s + 1) ->
  forall v, v ∈ concat (runAll s vals).2 ->
    t s + 1
    <= Z.of_nat (size (senders_of s v ∪ complete_senders v vals)).
Proof.
  induction vals as [|[valStr now] rest IH]; intros s Hr v; simpl.
  { by intros ?%elem_of_nil. }
  destruct (handle s valStr now) as [[s1 bc] res] eqn:Hh.
  destruct (runAll s1 rest) as [s2 tr] eqn:Hrun. simpl.
  destruct (ParseCompletePayload valStr) as [p|] eqn:Hp.
  - destruct (handle_step _ _ _ _ _ _ _ _ _ _ Hp Hr Hh) as (Ht & Hcc & Hor).
    rewrite (complete_senders_cons_Some _ _ _ _ _ Hp).
    destruct (senders_of_insert s s1 (Value p) {[Sender p]} v Hcc)
      as (_ & Hv & Hother).
    assert (Hsame : senders_of s1 v ∪ complete_senders v rest
                    = senders_of s v
                      ∪ ((if decide (Value p = v) then {[Sender p]} else ∅)
                         ∪ complete_senders v rest)).
    { case_decide as Hpv.
      - subst v. rewrite Hv.
        rewrite (comm_L (∪) {[Sender p]} (senders_of s (Value p))).
        by rewrite <- (assoc_L (∪)).
      - rewrite Hother by done. by rewrite (left_id_L ∅ (∪)). }
    intros [Hin|Hin]%elem_of_app.
    + destruct Hor as [(Hsz & _ & _ & _ & -> & _)|(_ & -> & _)];
        [|by apply elem_of_nil in Hin].
      apply list_elem_of_singleton in Hin as ->.
      rewrite decide_True by done.
      etrans; [apply Z.ge_le, Hsz|]. apply Nat2Z.inj_le, subseteq_size.
      rewrite (assoc_L (∪)).
      rewrite (comm_L (∪) (senders_of s (Value p)) {[Sender p]}).
      apply union_subseteq_l.
    + rewrite <- Hsame. rewrite <- Ht.
      apply IH; [by rewrite Ht|]. by rewrite Hrun.
  - rewrite (handle_parse_error _ _ _ _ _ _ Hp) in Hh.
    injection Hh as <- <- <-.
    rewrite (complete_senders_cons_None _ _ _ _ Hp). simpl.
    intros Hin. apply IH; [done|]. by rewrite Hrun.
Qed.

(** Over any run of COMPLETE deliveries at a new service, every value
    the node decides was carried by the delivered COMPLETE payloads of
    at least [t + 1] distinct senders. *)
Theorem aba_decision_has_quorum (id0 n0 t0 e0 : Z)
    (vals : list (string * Z)) (v : Z) :
  GoInt.in_range (t0 + 1) ->
  v ∈ concat (runAll (NewABAService id0 n0 t0 e0) vals).2 ->
  t0 + 1 <= Z.of_nat (size (complete_senders v vals)).
Proof.
  intros Hr Hv.
  pose proof (run_quorum vals (NewABAService id0 n0 t0 e0) Hr v Hv) as Hq.
  unfold senders_of in Hq. simpl in Hq.
  rewrite lookup_empty in Hq. simpl in Hq.
  by rewrite (left_id_L ∅ (∪)) in Hq.
Qed.
End ABAQuorum.

(** The service of [aba_example] ([t = 0]) parses every string as
    COMPLETE(1, 1): one delivery decides 1. *)
Lemma aba_decision_has_quorum_witness :
  (0 + 1
   <= Z.of_nat (size (complete_senders aba_example_parse 1 [("c", 0%Z)])))%Z.
Proof.
  apply (aba_decision_has_quorum aba_example_string aba_example_parse
           aba_example_hash 1 1 0 0 [("c", 0%Z)] 1).
  - unfold GoInt.in_range. lia.
  - apply (bool_decide_unpack _). vm_compute. exact I.
Defined.

(** ** ICC: no coin without a qualifying pair *)

Section ICCNoCoin.
Import ICC.
Local Open Scope Z_scope.

Lemma scan_final_none s fss :
  u s <> 0 ->
  sentAccept s = false \/ sentReconstruct s = false
  \/ (forall fs, fs ∈ fss -> ~ qualifies s fs) ->
  scan_final s fss = Some None.
Proof.
  intros Hu Hor. induction fss as [|fs rest IH]; simpl; [done|].
  assert (IH' : scan_final s rest = Some None).
  { apply IH. destruct Hor as [?|[?|Hq]]; [by left|by right; left|].
    right; right. intros fs' Hfs'. apply Hq. by right. }
  destruct (sentAccept s) eqn:Ha; [|done].
  destruct (sentReconstruct s) eqn:Hr; [|done]. simpl.
  destruct Hor as [?|[?|Hq]]; [done|done|].
  destruct (isSubset (H fs) (myA s)) eqn:E1; [|done].
  destruct (isSubset (S fs) (myS s)) eqn:E2; [|done]. simpl.
  rewrite scan_H_not_computed; [done|done|].
  intros Hc. apply (Hq fs); [by left|].
  split_and!; [by apply isSubset_elem|by apply isSubset_elem|done].
Qed.

(** The decision check emits nothing and leaves the state as it is
    while the node has not sent ACCEPT, or has not sent RECONSTRUCT, or
    none of the FINAL_SETS pairs stored so far qualifies ([H] within
    [myA], [S] within [myS], every value of every [received_T[j]], [j]
    in [H], recorded).  The modulus [u] is not zero. *)
Theorem icc_no_coin_without_qualifying_pair s :
  u s <> 0 ->
  sentAccept s = false \/ sentReconstruct s = false
  \/ (forall fs, fs ∈ receivedFinalSets s -> ~ qualifies s fs) ->
  checkDecision s = Some (s, []).
Proof.
  intros Hu Hor. unfold checkDecision. destruct (finished s); [done|].
  by rewrite scan_final_none.
Qed.
End ICCNoCoin.

Lemma icc_no_coin_without_qualifying_pair_witness :
  ICC.checkDecision
    (ICC.mkService 1 4 1 1 4 ∅ ∅ [] false ∅ [] false ∅ [] false ∅ []
       ∅ [ICC.mkFinalSet 2 [1%Z] [1%Z]] false)
  = Some (ICC.mkService 1 4 1 1 4 ∅ ∅ [] false ∅ [] false ∅ [] false ∅ []
            ∅ [ICC.mkFinalSet 2 [1%Z] [1%Z]] false, []).
Proof.
  apply icc_no_coin_without_qualifying_pair.
  - simpl. lia.
  - left. reflexivity.
Defined.

(** ** The service manager: results leave in order *)

Section ManagerFacts.
Import Manager.
Context {TSvc TMsg TRes : Type}.
Variable OnMessage : TSvc -> TMsg -> option (TSvc * list TMsg * list TRes).

Lemma foldlM_snoc {A B : Type} (f : A -> B -> option A) (l : list B)
    (x : B) : forall a,
  foldlM f a (l ++ [x]) = a' ← foldlM f a l; f a' x.
Proof.
  induction l as [|y l IH]; intros a; simpl.
  - by destruct (f a x).
  - destruct (f a y); simpl; [apply IH|done].
Qed.

(** What holds after every run that starts with a new, started
    manager. *)
Definition manager_inv (s0 : TSvc) (nw : Net.Network TMsg)
    (tr : list (Event TMsg TRes)) (sm : ServiceManager TSvc TMsg TRes)
    : Prop :=
  posted tr = taken_off tr ++ inbox sm
  /\ (length (inbox sm) <= capacity)%nat
  /\ (length (outbox sm) <= capacity)%nat
  /\ exists bcs results,
       serve OnMessage s0 (received tr) = Some (service sm, bcs, results)
       /\ network sm = Net.BroadcastAll nw bcs
       /\ results = taken tr ++ outbox sm ++ awaitingMsgs sm.

Lemma step_inv s0 nw tr sm e sm' :
  manager_inv s0 nw tr sm -> step OnMessage sm e sm' ->
  manager_inv s0 nw (tr ++ [e]) sm'.
Proof.
  intros (Hin & Hli & Hlo & bcs & results & Hserve & Hnw & Hres) Hstep.
  unfold manager_inv, posted, taken_off, received, taken in *.
  rewrite !omap_app.
  destruct Hstep as [sm msg rest s' bc res Hrun Hq Hon
                    |sm msg rest Hrun Hq Hon
                    |sm r rest Hrun Hq Hcap
                    |sm Hrun Hstop
                    |sm msg Hcap
                    |sm r rest Hq
                    |sm];
    cbn [omap list_omap inbox outbox awaitingMsgs service network Stop];
    rewrite ?app_nil_r.
  - rewrite Hq in Hin, Hli. simpl in Hli. split_and!; [|lia|lia|].
    + rewrite Hin. cbn [mbind option_bind mret option_ret app].
      by rewrite <- app_assoc.
    + exists (bcs ++ bc), (results ++ res). split_and!.
      * cbn [mbind option_bind mret option_ret app]. unfold serve.
        rewrite foldlM_snoc. unfold serve in Hserve. rewrite Hserve.
        cbn [mbind option_bind fst snd]. by rewrite Hon.
      * unfold Net.BroadcastAll. rewrite fold_left_app.
        unfold Net.BroadcastAll in Hnw. by rewrite <- Hnw.
      * rewrite Hres. by rewrite <- !app_assoc.
  - rewrite Hq in Hin, Hli. simpl in Hli. split_and!; [|lia|lia|].
    + rewrite Hin. cbn [mbind option_bind mret option_ret app].
      by rewrite <- app_assoc.
    + exists bcs, results. by split_and!.
  - split_and!; [done|lia| |].
    + rewrite length_app. simpl. unfold capacity in *. lia.
    + exists bcs, results. split_and!; [done|done|].
      rewrite Hres, Hq. by rewrite <- !app_assoc.
  - split_and!; [done|lia|lia|]. by exists bcs, results.
  - split_and!; [| |lia|].
    + rewrite Hin. cbn [mbind option_bind mret option_ret app].
      by rewrite <- app_assoc.
    + rewrite length_app. simpl. unfold capacity in *. lia.
    + by exists bcs, results.
  - rewrite Hq in Hres, Hlo. simpl in Hlo. split_and!; [done|lia|lia|].
    exists bcs, results. split_and!; [done|done|].
    rewrite Hres. cbn [mbind option_bind mret option_ret app].
    by rewrite <- !app_assoc.
  - split_and!; [done|lia|lia|]. by exists bcs, results.
Qed.

(** Over any interleaving of the manager's loop with the goroutines that
    post to its inbox, read its results and stop it: the loop takes the
    posted messages in the order they were posted; the results read from
    [Result()], followed by those waiting in [outbox] and in
    [awaitingMsgs], are exactly the results the service sent while
    handling the received messages, in order, none lost and none twice;
    the network has been handed exactly the service's broadcasts, in
    order; and neither channel holds more than its capacity. *)
Theorem manager_results_in_order (s0 : TSvc) (nw : Net.Network TMsg)
    (tr : list (Event TMsg TRes)) (sm : ServiceManager TSvc TMsg TRes) :
  steps OnMessage (Start (NewServiceManager s0 nw)) tr sm ->
  posted tr = taken_off tr ++ inbox sm
  /\ (length (inbox sm) <= capacity)%nat
  /\ (length (outbox sm) <= capacity)%nat
  /\ exists bcs results,
       serve OnMessage s0 (received tr) = Some (service sm, bcs, results)
       /\ network sm = Net.BroadcastAll nw bcs
       /\ results = taken tr ++ outbox sm ++ awaitingMsgs sm.
Proof.
  intros Hsteps. change (manager_inv s0 nw tr sm).
  remember (Start (NewServiceManager s0 nw)) as sm0 eqn:Hsm0.
  induction Hsteps as [sm|sm tr sm' e sm'' Hsteps IH Hstep].
  - subst sm. unfold manager_inv. simpl. split_and!; [done|lia|lia|].
    by exists [], [].
  - eapply step_inv; [by apply IH|done].
Qed.
End ManagerFacts.

(** An A-Cast service ([n = 1], [t = 0]) behind a manager: a READY
    message is posted and received, the value it delivers is put into
    the outbox and read. *)
Definition manager_example_trace
    : list (Manager.Event (ACast.ACastMessage string) string) :=
  [Manager.Posted (ACast.mkMsg ACast.READY "u" "v" 1%Z);
   Manager.Received (ACast.mkMsg ACast.READY "u" "v" 1%Z);
   Manager.Delivered "v";
   Manager.Taken "v"].

Definition manager_example_handler (a : ACast.AcastService string)
    (msg : ACast.ACastMessage string) :=
  Some (ACast.OnMessage a msg).

Definition manager_example_final
    : Manager.ServiceManager (ACast.AcastService string)
        (ACast.ACastMessage string) string :=
  let '(a, bc, _) :=
    ACast.OnMessage (ACast.NewAcastService 1 1 0)
      (ACast.mkMsg ACast.READY "u" "v" 1%Z) in
  Manager.mkManager a [] [] [] (Net.BroadcastAll Net.NewNetwork bc)
    false true.

Lemma manager_results_in_order_witness :
  exists bcs,
    Manager.serve manager_example_handler (ACast.NewAcastService 1 1 0)
      [ACast.mkMsg ACast.READY "u" "v" 1%Z]
    = Some (Manager.service manager_example_final, bcs, ["v"]).
Proof.
  assert (Hsteps :
            Manager.steps manager_example_handler
              (Manager.Start
                 (Manager.NewServiceManager (ACast.NewAcastService 1 1 0)
                    Net.NewNetwork))
              manager_example_trace manager_example_final).
  { unfold manager_example_trace.
    eapply (Manager.steps_snoc _ _ [_; _; _]
              (Manager.mkManager
                     (Manager.service manager_example_final) [] ["v"] []
                     (Manager.network manager_example_final) false true)).
    - eapply (Manager.steps_snoc _ _ [_; _]
                (Manager.mkManager
                       (Manager.service manager_example_final) [] [] ["v"]
                       (Manager.network manager_example_final) false true)).
      + eapply (Manager.steps_snoc _ _ [_]
                  (Manager.mkManager (ACast.NewAcastService 1 1 0)
                         [ACast.mkMsg ACast.READY "u" "v" 1%Z] [] []
                         Net.NewNetwork false true)).
        * eapply (Manager.steps_snoc _ _ []); [apply Manager.steps_nil|].
          apply (Manager.step_post _
                   (Manager.Start
                      (Manager.NewServiceManager
                         (ACast.NewAcastService 1 1 0) Net.NewNetwork))).
          simpl. unfold Manager.capacity. lia.
        * apply (Manager.step_receive manager_example_handler
                   (Manager.mkManager (ACast.NewAcastService 1 1 0)
                      [ACast.mkMsg ACast.READY "u" "v" 1%Z] [] []
                      Net.NewNetwork false true)
                   (ACast.mkMsg ACast.READY "u" "v" 1%Z) []
                   (Manager.service manager_example_final)
                   (ACast.OnMessage (ACast.NewAcastService 1 1 0)
                      (ACast.mkMsg ACast.READY "u" "v" 1%Z)).1.2
                   ["v"]);
            vm_compute; reflexivity.
      + apply (Manager.step_deliver manager_example_handler
                 (Manager.mkManager
                    (Manager.service manager_example_final) [] [] ["v"]
                    (Manager.network manager_example_final) false true)
                 "v" []); [reflexivity|reflexivity|].
        simpl. unfold Manager.capacity. lia.
    - apply (Manager.step_take manager_example_handler
               (Manager.mkManager
                  (Manager.service manager_example_final) [] ["v"] []
                  (Manager.network manager_example_final) false true)
               "v" []). reflexivity. }
  destruct (manager_results_in_order manager_example_handler
              (ACast.NewAcastService 1 1 0) Net.NewNetwork
              manager_example_trace manager_example_final Hsteps)
    as (_ & _ & _ & bcs & results & Hserve & _ & Hres).
  exists bcs. etrans; [exact Hserve|]. rewrite Hres. reflexivity.
Defined.
